(** * matchpy.matching.syntactic: flat terms, discrimination nets, sequence matcher

    A shallow embedding of [matchpy/matching/syntactic.py].  Python objects
    with identity (the automaton states) live in an explicit heap indexed by
    their [id]; generators are modelled by the list they produce; exceptions
    by a sum type. *)

From Stdlib Require Import ZArith Lia.
From stdpp Require Import functions gmap strings list fin_maps.

Open Scope string_scope.
Open Scope list_scope.
Open Scope nat_scope.
Set Warnings "-register-all,-clear-no-such-hyp".

(* ===================================================================== *)
(** ** The expression algebra (external to the module) *)
(* ===================================================================== *)

(** Modelled from the spec: the module imports [Expression], [Operation],
    [Symbol], [SymbolWildcard], [Variable] and [Wildcard] from
    [..expressions.expressions], which is not part of the sources.  The
    model follows the interface the spec gives for it (section 6): operation
    heads with [commutative], [associative] and [arity]; symbols with a
    category that may have sub-categories; wildcards with [min_count] and
    [fixed_size]; a variable binder with [name] and inner [expression]. *)

(** A symbol class is named by the path that leads to it from the base
    class [Symbol] (the empty path).  [issubclass_symbol c t] is
    [issubclass(c, t)]. *)
Definition SymbolClass := list string.

Definition issubclass_symbol (c t : SymbolClass) : bool :=
  bool_decide (t `prefix_of` c).

Record Arity := mkArity { arity_min_count : nat; arity_fixed_size : bool }.

Record OperationClass := mkOperationClass {
  op_name : string;
  arity : Arity;
  commutative : bool;
  associative : bool
}.

Global Instance Arity_eq_dec : EqDecision Arity.
Proof. solve_decision. Defined.
Global Instance OperationClass_eq_dec : EqDecision OperationClass.
Proof. solve_decision. Defined.

Inductive Expression :=
| EVariable (name : string) (expression : Expression)
| EOperation (type_ : OperationClass) (operands : list Expression)
| ESymbolWildcard (symbol_type : SymbolClass)
| ESymbol (name : string) (type_ : SymbolClass)
| EWildcard (min_count : nat) (fixed_size : bool).

(* ===================================================================== *)
(** ** Term atoms and transition labels *)
(* ===================================================================== *)

(** [TermAtom = Union[Symbol, Wildcard, Type[Operation], Type[Symbol], str]].
    A [Wildcard] instance is either a plain one or a [SymbolWildcard]
    instance (a subclass of [Wildcard], of [min_count] 1 and fixed size);
    the latter is never produced by [_flatterm_iter] but a raw sequence can
    carry one. *)
Inductive TermAtom :=
| ASymbol (name : string) (type_ : SymbolClass)
| AWildcard (min_count : nat) (fixed_size : bool)
| ASymbolWildcard (symbol_type : SymbolClass)
| AOperation (op : OperationClass)
| ASymbolType (cls : SymbolClass)
| OPERATION_END.

(** Keys of a state's dict: any hashable object can be looked up, so a label
    is a term atom, the class [Wildcard] or [EPSILON]. *)
Inductive TransitionLabel :=
| LTerm (a : TermAtom)
| LWildcard
| EPSILON.

Global Instance TermAtom_eq_dec : EqDecision TermAtom.
Proof. solve_decision. Defined.
Global Instance TransitionLabel_eq_dec : EqDecision TransitionLabel.
Proof. solve_decision. Defined.

(** [isinstance(term, Wildcard)] *)
Definition isinstance_Wildcard (term : TermAtom) : bool :=
  match term with AWildcard _ _ | ASymbolWildcard _ => true | _ => false end.

(** [isinstance(term, SymbolWildcard)] *)
Definition isinstance_SymbolWildcard (term : TermAtom) : bool :=
  match term with ASymbolWildcard _ => true | _ => false end.

(** [term.min_count] and [term.fixed_size] of a [Wildcard] instance. *)
Definition wc_min_count (term : TermAtom) : nat :=
  match term with AWildcard m _ => m | ASymbolWildcard _ => 1 | _ => 0 end.
Definition wc_fixed_size (term : TermAtom) : bool :=
  match term with AWildcard _ f => f | _ => true end.

(** A plain wildcard: [isinstance(term, Wildcard) and not
    isinstance(term, SymbolWildcard)]. *)
Definition is_plain_wildcard (term : TermAtom) : bool :=
  isinstance_Wildcard term && negb (isinstance_SymbolWildcard term).

Definition is_operation (term : TermAtom) : bool :=
  match term with AOperation _ => true | _ => false end.

Definition is_symbol_wildcard (term : TermAtom) : bool :=
  match term with ASymbolType _ => true | _ => false end.

Definition isinstance_Symbol (term : TermAtom) : bool :=
  match term with ASymbol _ _ => true | _ => false end.

Definition label_is_operation (label : TransitionLabel) : bool :=
  match label with LTerm a => is_operation a | _ => false end.

Definition label_isinstance_Symbol (label : TransitionLabel) : bool :=
  match label with LTerm a => isinstance_Symbol a | _ => false end.

(* ===================================================================== *)
(** ** FlatTerm *)
(* ===================================================================== *)

Record FlatTerm := mkFlatTerm { _terms : list TermAtom }.

Global Instance FlatTerm_eq_dec : EqDecision FlatTerm.
Proof. solve_decision. Defined.

(** [FlatTerm._flatterm_iter]: the atoms the generator yields. *)
Fixpoint _flatterm_iter (expression : Expression) : list TermAtom :=
  match expression with
  | EVariable _ inner => _flatterm_iter inner
  | EOperation op operands =>
      AOperation op ::
      (fix each (os : list Expression) : list TermAtom :=
         match os with
         | [] => [OPERATION_END]
         | operand :: os' => _flatterm_iter operand ++ each os'
         end) operands
  | ESymbolWildcard symbol_type => [ASymbolType symbol_type]
  | ESymbol name c => [ASymbol name c]
  | EWildcard m f => [AWildcard m f]
  end.

(** What the generator yields for the pending [last_wildcard], if any. *)
Definition yield_last (last_wildcard : option (nat * bool)) : list TermAtom :=
  match last_wildcard with
  | Some (m, f) => [AWildcard m f]
  | None => []
  end.

(** The loop of [FlatTerm._combined_wildcards_iter], with the local
    [last_wildcard] as an accumulator. *)
Fixpoint combined_loop (last_wildcard : option (nat * bool))
    (flatterm : list TermAtom) : list TermAtom :=
  match flatterm with
  | [] => yield_last last_wildcard
  | term :: rest =>
      if is_plain_wildcard term then
        match last_wildcard with
        | Some (lm, lf) =>
            combined_loop
              (Some (lm + wc_min_count term, lf && wc_fixed_size term)) rest
        | None =>
            combined_loop (Some (wc_min_count term, wc_fixed_size term)) rest
        end
      else
        yield_last last_wildcard ++ term :: combined_loop None rest
  end.

Definition _combined_wildcards_iter (flatterm : list TermAtom) : list TermAtom :=
  combined_loop None flatterm.

(** [FlatTerm.__init__]: an [Expression] is flattened and its wildcards
    combined; any other sequence is stored as it is. *)
Definition FlatTerm_init (expression : Expression + list TermAtom) : FlatTerm :=
  match expression with
  | inl e => mkFlatTerm (_combined_wildcards_iter (_flatterm_iter e))
  | inr terms => mkFlatTerm terms
  end.

Definition FlatTerm_len (t : FlatTerm) : nat := length (_terms t).

(** [FlatTerm.__add__] with a [FlatTerm] operand. *)
Definition FlatTerm_add (self other : FlatTerm) : FlatTerm :=
  FlatTerm_init (inr (_terms self ++ _terms other)).

Definition FlatTerm_empty : FlatTerm := FlatTerm_init (inr []).

(** [FlatTerm.merged]: [sum(flatterms, cls.empty())] folds [__add__] from the
    left. *)
Definition FlatTerm_merged (flatterms : list FlatTerm) : FlatTerm :=
  FlatTerm_init
    (inr (_combined_wildcards_iter
            (_terms (fold_left FlatTerm_add flatterms FlatTerm_empty)))).

Definition op_not_syntactic (term : TermAtom) : bool :=
  match term with
  | AOperation op => commutative op || associative op
  | _ => false
  end.

(** [FlatTerm.is_syntactic]: the loop returns [False] at the first offending
    term. *)
Fixpoint is_syntactic_loop (terms : list TermAtom) : bool :=
  match terms with
  | [] => true
  | term :: rest =>
      if isinstance_Wildcard term && negb (wc_fixed_size term) then false
      else if is_operation term && op_not_syntactic term then false
      else is_syntactic_loop rest
  end.

Definition is_syntactic (t : FlatTerm) : bool := is_syntactic_loop (_terms t).

(* ===================================================================== *)
(** ** Automaton states *)
(* ===================================================================== *)

(** A [_State] is a dict from labels to states with a [payload].  The dict
    keeps insertion order ([keys()] is read in that order); a target is the
    [id] of the state it refers to. *)
Record _State := mkState {
  payload : list nat;
  transitions : list (TransitionLabel * nat)
}.

(** The states created so far, by [id], and the class attribute
    [_State._id] (the next free id, starting at 1). *)
Record Heap := mkHeap {
  _id : nat;
  objects : gmap nat _State
}.

Definition empty_heap : Heap := mkHeap 1 ∅.

(** [_State(payload)] *)
Definition new_State (payload : list nat) (h : Heap) : nat * Heap :=
  (_id h, mkHeap (S (_id h)) (<[_id h := mkState payload []]> (objects h))).

Fixpoint dict_get {V} (d : list (TransitionLabel * V)) (k : TransitionLabel)
    : option V :=
  match d with
  | [] => None
  | (k', v) :: d' => if decide (k' = k) then Some v else dict_get d' k
  end.

(** [d[k] = v]: a present key keeps its place, a new one goes last. *)
Fixpoint dict_set {V} (d : list (TransitionLabel * V)) (k : TransitionLabel)
    (v : V) : list (TransitionLabel * V) :=
  match d with
  | [] => [(k, v)]
  | (k', v') :: d' =>
      if decide (k' = k) then (k, v) :: d' else (k', v') :: dict_set d' k v
  end.

Definition keys (h : Heap) (state : nat) : list TransitionLabel :=
  match objects h !! state with
  | Some st => (transitions st).*1
  | None => []
  end.

(** [state[label]], [None] standing for [KeyError]. *)
Definition getitem (h : Heap) (state : nat) (label : TransitionLabel)
    : option nat :=
  st ← objects h !! state; dict_get (transitions st) label.

(** [state[label] = target] *)
Definition setitem (h : Heap) (state : nat) (label : TransitionLabel)
    (target : nat) : Heap :=
  mkHeap (_id h)
    (alter (λ st, mkState (payload st) (dict_set (transitions st) label target))
       state (objects h)).

Definition get_payload (h : Heap) (state : nat) : list nat :=
  match objects h !! state with
  | Some st => payload st
  | None => []
  end.

(** [state.payload = p] *)
Definition set_payload (h : Heap) (state : nat) (p : list nat) : Heap :=
  mkHeap (_id h)
    (alter (λ st, mkState p (transitions st)) state (objects h)).

(** Truth value of a state: a dict is true when it is not empty. *)
Definition state_bool (h : Heap) (state : nat) : bool :=
  match keys h state with [] => false | _ => true end.

Definition opt_state_bool (h : Heap) (state : option nat) : bool :=
  match state with Some s => state_bool h s | None => false end.

(** [_get_symbol_wildcard_label]: the first key that is a symbol class of
    which [symbol] is an instance. *)
Definition _get_symbol_wildcard_label (h : Heap) (state : nat)
    (symbol : TermAtom) : option TransitionLabel :=
  find (λ t, match t, symbol with
             | LTerm (ASymbolType c), ASymbol _ sc => issubclass_symbol sc c
             | _, _ => false
             end) (keys h state).

(* ===================================================================== *)
(** ** Per-pattern automata *)
(* ===================================================================== *)

(** [DiscriminationNet._create_child_state] *)
Definition _create_child_state (h : Heap) (state : nat)
    (label : TransitionLabel) : nat * Heap :=
  let '(new_state, h1) := new_State [] h in
  (new_state, setitem h1 state label new_state).

(** [DiscriminationNet._generate_state_chain] *)
Fixpoint _generate_state_chain (h : Heap) (state : nat)
    (label : TransitionLabel) (count : nat) : nat * Heap :=
  match count with
  | 0 => (state, h)
  | S count' =>
      let '(state', h') := _create_child_state h state label in
      _generate_state_chain h' state' label count'
  end.

Fixpoint syntactic_loop (h : Heap) (state : nat) (flatterm : list TermAtom)
    : nat * Heap :=
  match flatterm with
  | [] => (state, h)
  | term :: rest =>
      let '(state', h') :=
        if isinstance_Wildcard term
        then _generate_state_chain h state LWildcard (wc_min_count term)
        else _create_child_state h state (LTerm term) in
      syntactic_loop h' state' rest
  end.

(** [DiscriminationNet._generate_syntactic_net]; returns [root]. *)
Definition _generate_syntactic_net (h : Heap) (flatterm : FlatTerm)
    (final_label : nat) : nat * Heap :=
  let '(root, h0) := new_State [] h in
  let '(state, h1) := syntactic_loop h0 root (_terms flatterm) in
  (root, set_payload h1 state [final_label]).

(* ===================================================================== *)
(** ** Exceptions and loops *)
(* ===================================================================== *)

Inductive Exception :=
| TypeError | ValueError | KeyError | IndexError | AttributeError
| AssertionError.

(** The outcome of running a piece of the program: a value, a raised
    exception, or a [while] loop that was still running when the model
    stopped unfolding it. *)
Inductive Result (A : Type) :=
| Returns (a : A)
| Raises (e : Exception)
| Unfinished.
Arguments Returns {A} a.
Arguments Raises {A} e.
Arguments Unfinished {A}.

Global Instance Result_ret : MRet Result := λ A a, Returns a.
Global Instance Result_bind : MBind Result := λ A B f m,
  match m with
  | Returns a => f a
  | Raises e => Raises e
  | Unfinished => Unfinished
  end.

(** What a subscript or attribute access gives, or the exception it raises. *)
Definition or_raise {A} (e : Exception) (o : option A) : Result A :=
  match o with Some a => Returns a | None => Raises e end.

(** A [while] loop: [body] either gives the next loop state or leaves the
    loop with a result.  [while_pow2 k] unfolds up to [2 ^ k] iterations
    without building that number: the second half only runs when the first
    did not leave the loop. *)
Fixpoint while_pow2 {St R} (k : nat) (body : St → Result (St + R)) (s : St)
    : Result (St + R) :=
  match k with
  | 0 => body s
  | S k' =>
      match while_pow2 k' body s with
      | Returns (inl s') => while_pow2 k' body s'
      | other => other
      end
  end.

Definition while_loop {St R} (k : nat) (body : St → Result (St + R)) (s : St)
    : Result R :=
  match while_pow2 k body s with
  | Returns (inr r) => Returns r
  | Returns (inl _) => Unfinished
  | Raises e => Raises e
  | Unfinished => Unfinished
  end.

(** [l[i]] for a Python list and a possibly negative index. *)
Definition list_index {A} (l : list A) (i : Z) : option A :=
  if (0 <=? i)%Z then l !! Z.to_nat i
  else if (- Z.of_nat (length l) <=? i)%Z
       then l !! Z.to_nat (Z.of_nat (length l) + i)
       else None.

(* ===================================================================== *)
(** ** The general per-pattern NFA *)
(* ===================================================================== *)

(** An entry of the [fail_states] stack: [None], one state, or the list of
    states made for an operation of fixed arity. *)
Inductive FailState :=
| FS_None
| FS_State (s : nat)
| FS_List (l : list nat).

Definition FailState_bool (h : Heap) (f : FailState) : bool :=
  match f with
  | FS_None => false
  | FS_State s => state_bool h s
  | FS_List l => match l with [] => false | _ => true end
  end.

(** The locals of [_generate_net].  The three stacks are kept with their
    last element ([stack[-1]]) first.  The dict [states] holds every state
    the function creates, under its id, so [states[s]] is a lookup of [s] in
    the heap. *)
Record NetGen := mkNetGen {
  ng_heap : Heap;
  ng_state : nat;
  last_wildcards : list (option nat);
  fail_states : list FailState;
  operand_counts : list Z
}.

(** [fail_states[-1] if not isinstance(fail_states[-1], list) else
    fail_states[-1][operand_counts[-1]]] *)
Definition last_fail_state_of (f : FailState) (count : Z)
    : Result (option nat) :=
  match f with
  | FS_None => Returns None
  | FS_State s => Returns (Some s)
  | FS_List l => s ← or_raise IndexError (list_index l count); Returns (Some s)
  end.

(** [a or b] on optional states. *)
Definition state_or (h : Heap) (a b : option nat) : option nat :=
  if opt_state_bool h a then a else b.

(** The fail states of an operation of fixed arity: [count] more states
    after [fail_state], linked by [Wildcard]; gives the last one and the
    list [new_fail_states]. *)
Fixpoint fail_ladder (h : Heap) (fail_state : nat) (new_fail_states : list nat)
    (count : nat) : nat * list nat * Heap :=
  match count with
  | 0 => (fail_state, new_fail_states, h)
  | S count' =>
      let '(new_fail_state, h1) := new_State [] h in
      let h2 := setitem h1 fail_state LWildcard new_fail_state in
      fail_ladder h2 new_fail_state (new_fail_states ++ [new_fail_state]) count'
  end.

(** The block under [if is_operation(term)]: the fail state for the new
    nesting level. *)
Definition make_fail_state (h : Heap) (op : OperationClass)
    (last_wildcard : option nat) (fail_top : FailState) (count : Z)
    : Result (FailState * Heap) :=
  if opt_state_bool h last_wildcard || FailState_bool h fail_top then
    last_fail_state ← last_fail_state_of fail_top count;
    (* a target that is [None] cannot be stored in the model; the condition
       above makes one of the two operands a state *)
    target ← or_raise AttributeError (state_or h last_wildcard last_fail_state);
    if arity_fixed_size (arity op) then
      let '(fail_state, h0) := new_State [] h in
      let '(fail_state', new_fail_states, h1) :=
        fail_ladder h0 fail_state [fail_state] (arity_min_count (arity op)) in
      Returns (FS_List new_fail_states,
               setitem h1 fail_state' (LTerm OPERATION_END) target)
    else
      let '(fail_state, h0) := new_State [] h in
      let h1 := setitem h0 fail_state (LTerm OPERATION_END) target in
      Returns (FS_State fail_state, setitem h1 fail_state LWildcard fail_state)
  else Returns (FS_None, h).

(** The last block of the loop body: the epsilon edge for backtracking.
    [last_wildcards[-1] != state] compares two dicts; the left one, when it is
    a state, has a [Wildcard] self loop, which no other state has at this
    point, so it is a comparison of identities. *)
Definition add_epsilon (g : NetGen) : Result NetGen :=
  lw ← or_raise IndexError (head (last_wildcards g));
  if decide (lw = Some (ng_state g)) then Returns g
  else if opt_state_bool (ng_heap g) lw then
    target ← or_raise AttributeError lw;
    Returns (mkNetGen (setitem (ng_heap g) (ng_state g) EPSILON target)
               (ng_state g) (last_wildcards g) (fail_states g)
               (operand_counts g))
  else
    ft ← or_raise IndexError (head (fail_states g));
    if FailState_bool (ng_heap g) ft then
      count ← or_raise IndexError (head (operand_counts g));
      last_fail_state ← last_fail_state_of ft count;
      target ← or_raise AttributeError last_fail_state;
      Returns (mkNetGen (setitem (ng_heap g) (ng_state g) EPSILON target)
                 (ng_state g) (last_wildcards g) (fail_states g)
                 (operand_counts g))
    else Returns g.

(** One iteration of the [for term in flatterm] loop of [_generate_net]. *)
Definition net_step (g : NetGen) (term : TermAtom) : Result NetGen :=
  count0 ← or_raise IndexError (head (operand_counts g));
  let count := if (0 <=? count0)%Z then (count0 + 1)%Z else count0 in
  let counts := count :: tail (operand_counts g) in
  g' ←
    (if isinstance_Wildcard term then
       let '(state, h1) :=
         _generate_state_chain (ng_heap g) (ng_state g) LWildcard
           (wc_min_count term) in
       if negb (wc_fixed_size term) then
         match last_wildcards g with
         | _ :: last_wildcards' =>
             Returns (mkNetGen (setitem h1 state LWildcard state) state
                        (Some state :: last_wildcards') (fail_states g)
                        ((-1)%Z :: tail counts))
         | [] => Raises IndexError
         end
       else Returns (mkNetGen h1 state (last_wildcards g) (fail_states g) counts)
     else
       let '(state, h1) :=
         _create_child_state (ng_heap g) (ng_state g) (LTerm term) in
       match term with
       | AOperation op =>
           lw ← or_raise IndexError (head (last_wildcards g));
           ft ← or_raise IndexError (head (fail_states g));
           '(fail_state, h2) ← make_fail_state h1 op lw ft count;
           Returns (mkNetGen h2 state (None :: last_wildcards g)
                      (fail_state :: fail_states g) (0%Z :: counts))
       | OPERATION_END =>
           match fail_states g, last_wildcards g, counts with
           | _ :: fs, _ :: lws, _ :: cs => Returns (mkNetGen h1 state lws fs cs)
           | _, _, _ => Raises IndexError
           end
       | _ => Returns (mkNetGen h1 state (last_wildcards g) (fail_states g) counts)
       end);
  add_epsilon g'.

Fixpoint net_loop (g : NetGen) (flatterm : list TermAtom) : Result NetGen :=
  match flatterm with
  | [] => Returns g
  | term :: rest => g' ← net_step g term; net_loop g' rest
  end.

(** [_generate_net] up to the call of [_convert_nfa_to_dfa]: the NFA, as its
    root and the heap that holds it. *)
Definition generate_nfa (h : Heap) (flatterm : FlatTerm) (final_label : nat)
    : Result (nat * Heap) :=
  let '(root, h0) := new_State [] h in
  g ← net_loop (mkNetGen h0 root [None] [FS_None] [0%Z]) (_terms flatterm);
  Returns (root, set_payload (ng_heap g) (ng_state g) [final_label]).

(* ===================================================================== *)
(** ** NFA to DFA *)
(* ===================================================================== *)

(** One round of the [while True] loop of [_epsilon_closure]: the set
    [to_add]. *)
Definition epsilon_to_add (h : Heap) (output : gset nat) : gset nat :=
  foldr (λ s to_add,
           match getitem h s EPSILON with
           | Some new_state =>
               if decide (new_state ∈ output) then to_add
               else {[new_state]} ∪ to_add
           | None => to_add
           end) ∅ (elements output).

Fixpoint epsilon_loop (n : nat) (h : Heap) (output : gset nat) : gset nat :=
  match n with
  | 0 => output
  | S n' =>
      let to_add := epsilon_to_add h output in
      if decide (to_add = ∅) then output
      else epsilon_loop n' h (output ∪ to_add)
  end.

(** [_epsilon_closure].  Every round but the last adds a state of the heap to
    [output], so the loop is over after at most [_id h] rounds. *)
Definition _epsilon_closure (h : Heap) (state : gset nat) : gset nat :=
  epsilon_loop (_id h) h state.

(** [_create_state]: the payloads of the set's states, as a set. *)
Definition _create_state (h : Heap) (state_set : gset nat) : nat * Heap :=
  let payload : gset nat :=
    foldr (λ state acc, list_to_set (get_payload h state) ∪ acc) ∅
      (elements state_set) in
  new_State (elements payload) h.

(** The body of the loop of [_target_set] for one NFA state [s]. *)
Definition target_of (h : Heap) (label : TransitionLabel) (s : nat) : gset nat :=
  let exact : gset nat :=
    match getitem h s label with Some t => {[t]} | None => ∅ end in
  let typed : gset nat :=
    match label with
    | LTerm (ASymbol name c) =>
        match _get_symbol_wildcard_label h s (ASymbol name c) with
        | Some type_label =>
            match getitem h s type_label with Some t => {[t]} | None => ∅ end
        | None => ∅
        end
    | _ => ∅
    end in
  let wild : gset nat :=
    match getitem h s LWildcard with
    | Some t =>
        if negb (label_is_operation label)
           && negb (bool_decide (label = LTerm OPERATION_END))
        then {[t]} else ∅
    | None => ∅
    end in
  exact ∪ typed ∪ wild.

(** [_target_set] *)
Definition _target_set (h : Heap) (state : gset nat) (label : TransitionLabel)
    : gset nat :=
  _epsilon_closure h
    (foldr (λ s output, target_of h label s ∪ output) ∅ (elements state)).

(** The labels of a set of NFA states, each once. *)
Definition labels_of_set (h : Heap) (state : gset nat) : list TransitionLabel :=
  remove_dups (concat (map (keys h) (elements state))).

(** The locals of the [while queue] loop of [_convert_nfa_to_dfa]; [queue]
    is kept with its last element first ([queue.pop()] takes the head). *)
Record DfaGen := mkDfaGen {
  dg_heap : Heap;
  new_states : gmap (gset nat) nat;
  dg_queue : list (gset nat)
}.

(** The body of [for label in labels]. *)
Definition dfa_label_step (state : gset nat) (new_state : nat) (d : DfaGen)
    (label : TransitionLabel) : Result DfaGen :=
  if decide (label = EPSILON) then Returns d
  else
    let target := _target_set (dg_heap d) state label in
    let d1 :=
      match new_states d !! target with
      | Some _ => d
      | None =>
          let '(s, h1) := _create_state (dg_heap d) target in
          mkDfaGen h1 (<[target := s]> (new_states d)) (target :: dg_queue d)
      end in
    t ← or_raise KeyError (new_states d1 !! target);
    Returns (mkDfaGen (setitem (dg_heap d1) new_state label t)
               (new_states d1) (dg_queue d1)).

Fixpoint for_each {St L} (body : St → L → Result St) (s : St) (ls : list L)
    : Result St :=
  match ls with
  | [] => Returns s
  | l :: ls' => s' ← body s l; for_each body s' ls'
  end.

Definition dfa_body (d : DfaGen) : Result (DfaGen + DfaGen) :=
  match dg_queue d with
  | [] => Returns (inr d)
  | state :: queue =>
      let labels := labels_of_set (dg_heap d) state in
      new_state ← or_raise KeyError (new_states d !! state);
      d' ← for_each (dfa_label_step state new_state)
             (mkDfaGen (dg_heap d) (new_states d) queue) labels;
      Returns (inl d')
  end.

(** [_convert_nfa_to_dfa]; the loop is unfolded up to [2 ^ (_id h + 1)]
    times, more than there are sets of states of the heap. *)
Definition _convert_nfa_to_dfa (h : Heap) (root : nat) : Result (nat * Heap) :=
  let new_root := _epsilon_closure h {[root]} in
  let '(s, h0) := _create_state h new_root in
  d ← while_loop (S (_id h)) dfa_body
        (mkDfaGen h0 {[new_root := s]} [new_root]);
  t ← or_raise KeyError (new_states d !! new_root);
  Returns (t, dg_heap d).

(** [_generate_net] *)
Definition _generate_net (h : Heap) (flatterm : FlatTerm) (final_label : nat)
    : Result (nat * Heap) :=
  '(root, h1) ← generate_nfa h flatterm final_label;
  _convert_nfa_to_dfa h1 root.

(* ===================================================================== *)
(** ** The product net *)
(* ===================================================================== *)

(** [_StateQueueItem]; a state that is [None] is [None] here and has id 0. *)
Record _StateQueueItem := mkItem {
  state1 : option nat;
  state2 : option nat;
  id1 : nat;
  id2 : nat;
  item_payload : list nat;
  depth : Z;
  fixed : nat
}.

(** [_StateQueueItem.__init__]; the [id] of a state is the key it has in the
    heap. *)
Definition _StateQueueItem_init (h : Heap) (state1 state2 : option nat)
    : _StateQueueItem :=
  let p1 := match state1 with Some s => get_payload h s | None => [] end in
  let p2 := match state2 with Some s => get_payload h s | None => [] end in
  mkItem state1 state2 (default 0 state1) (default 0 state2) (p1 ++ p2) 0 0.

(** [_StateQueueItem.labels], each label once. *)
Definition labels (h : Heap) (q : _StateQueueItem) : list TransitionLabel :=
  remove_dups
    ((match state1 q with
      | Some s => if decide (fixed q = 1) then [] else keys h s
      | None => []
      end)
     ++ (match state2 q with
         | Some s => if decide (fixed q = 2) then [] else keys h s
         | None => []
         end)
     ++ (if decide (fixed q = 0) then []
         else (if decide (fixed q = 1) then
                 (if state2 q is None then [LTerm OPERATION_END] else [])
               else if decide (fixed q = 2) then
                 (if state1 q is None then [LTerm OPERATION_END] else [])
               else [])
              ++ [LWildcard])).

(** [DiscriminationNet._get_next_state] *)
Definition _get_next_state (h : Heap) (state : option nat)
    (label : TransitionLabel) (fixed : bool) : option nat * bool :=
  if fixed then (state, false)
  else
    match state with
    | Some s =>
        match getitem h s label with
        | Some t => (Some t, false)
        | None =>
            if decide (label = LTerm OPERATION_END) then (None, false)
            else
              let by_wildcard :=
                match getitem h s LWildcard with
                | Some t => (Some t, true)
                | None => (None, false)
                end in
              match label with
              | LTerm (ASymbol name c) =>
                  match _get_symbol_wildcard_label h s (ASymbol name c) with
                  | Some symbol_wildcard_key =>
                      match getitem h s symbol_wildcard_key with
                      | Some t => (Some t, false)
                      | None => (None, false)
                      end
                  | None => by_wildcard
                  end
              | _ => by_wildcard
              end
        end
    | None => (None, false)
    end.

(** The child item for [label], before it is looked up in [states]. *)
Definition child_item (h : Heap) (current_state : _StateQueueItem)
    (label : TransitionLabel) : Result _StateQueueItem :=
  let '(t1, with_wildcard1) :=
    _get_next_state h (state1 current_state) label
      (bool_decide (fixed current_state = 1)) in
  let '(t2, with_wildcard2) :=
    _get_next_state h (state2 current_state) label
      (bool_decide (fixed current_state = 2)) in
  let c := _StateQueueItem_init h t1 t2 in
  let c := mkItem (state1 c) (state2 c) (id1 c) (id2 c) (item_payload c)
             (depth current_state) (fixed current_state) in
  if label_is_operation label then
    if negb (bool_decide (fixed current_state = 0)) then
      Returns (mkItem (state1 c) (state2 c) (id1 c) (id2 c) (item_payload c)
                 (depth c + 1) (fixed c))
    else if with_wildcard1 then
      s2 ← or_raise AttributeError (state2 c);
      s1 ← or_raise AttributeError (state1 current_state);
      Returns (mkItem (state1 current_state) (state2 c) (id1 current_state)
                 (id2 c) (get_payload h s2 ++ get_payload h s1) 1 1)
    else if with_wildcard2 then
      s1 ← or_raise AttributeError (state1 c);
      s2 ← or_raise AttributeError (state2 current_state);
      Returns (mkItem (state1 c) (state2 current_state) (id1 c)
                 (id2 current_state) (get_payload h s1 ++ get_payload h s2) 1 2)
    else Returns c
  else if bool_decide (label = LTerm OPERATION_END)
          && negb (bool_decide (fixed current_state = 0)) then
    let c := mkItem (state1 c) (state2 c) (id1 c) (id2 c) (item_payload c)
               (depth c - 1) (fixed c) in
    if decide (depth c = 0%Z) then
      if decide (fixed c = 1) then
        s1 ← or_raise TypeError (state1 c);
        s1' ← or_raise KeyError (getitem h s1 LWildcard);
        Returns (mkItem (Some s1') (state2 c) s1' (id2 c)
                   (item_payload c ++ get_payload h s1') (depth c) 0)
      else if decide (fixed c = 2) then
        s2 ← or_raise TypeError (state2 c);
        s2' ← or_raise KeyError (getitem h s2 LWildcard);
        Returns (mkItem (state1 c) (Some s2') (id1 c) s2'
                   (item_payload c ++ get_payload h s2') (depth c) 0)
      else Raises AssertionError
    else Returns c
  else Returns c.

(** The locals of the [while] loop of [_product_net]; [pn_queue] is in the
    order of the Python list ([pop(0)] takes the head, [append] adds at the
    end). *)
Record ProductGen := mkProductGen {
  pn_heap : Heap;
  pn_states : gmap (nat * nat * Z) nat;
  pn_queue : list _StateQueueItem
}.

Definition item_key (q : _StateQueueItem) : nat * nat * Z :=
  (id1 q, id2 q, depth q).

(** The body of [for label in list(current_state.labels)]. *)
Definition product_label_step (current_state : _StateQueueItem) (state : nat)
    (p : ProductGen) (label : TransitionLabel) : Result ProductGen :=
  child_state ← child_item (pn_heap p) current_state label;
  let p1 :=
    match pn_states p !! item_key child_state with
    | Some _ => p
    | None =>
        let '(s, h1) := new_State (item_payload child_state) (pn_heap p) in
        mkProductGen h1 (<[item_key child_state := s]> (pn_states p))
          (pn_queue p ++ [child_state])
    end in
  t ← or_raise KeyError (pn_states p1 !! item_key child_state);
  Returns (mkProductGen (setitem (pn_heap p1) state label t) (pn_states p1)
             (pn_queue p1)).

Definition product_body (p : ProductGen) : Result (ProductGen + ProductGen) :=
  match pn_queue p with
  | [] => Returns (inr p)
  | current_state :: queue =>
      state ← or_raise KeyError (pn_states p !! item_key current_state);
      p' ← for_each (product_label_step current_state state)
             (mkProductGen (pn_heap p) (pn_states p) queue)
             (labels (pn_heap p) current_state);
      Returns (inl p')
  end.

(** The root of the product automaton and the locals with which the [while]
    loop of [_product_net] is entered. *)
Definition product_start (h : Heap) (state1 state2 : nat) : nat * ProductGen :=
  let '(root, h0) := new_State [] h in
  (root, mkProductGen h0 {[(state1, state2, 0%Z) := root]}
           [_StateQueueItem_init h0 (Some state1) (Some state2)]).

(** [DiscriminationNet._product_net]; the loop is unfolded up to
    [2 ^ (3 * (log2 (_id h) + 1) + 2)] times, more than there are triples of
    two ids below [_id h] and a depth of at most twice [_id h]. *)
Definition _product_net (h : Heap) (state1 state2 : nat) : Result (nat * Heap) :=
  let '(root, start) := product_start h state1 state2 in
  p ← while_loop (3 * (Nat.log2 (_id h) + 1) + 2) product_body start;
  Returns (root, pn_heap p).

(* ===================================================================== *)
(** ** DiscriminationNet *)
(* ===================================================================== *)

(** Modelled from the spec: [Expression.is_syntactic], a property of the
    external expression classes, read by [add] as [pattern.is_syntactic].
    The spec's glossary: a syntactic pattern has no variadic wildcards and no
    commutative or associative operations. *)
Fixpoint Expression_is_syntactic (e : Expression) : bool :=
  match e with
  | EVariable _ inner => Expression_is_syntactic inner
  | EOperation op operands =>
      negb (commutative op || associative op)
      && (fix all (os : list Expression) : bool :=
            match os with
            | [] => true
            | o :: os' => Expression_is_syntactic o && all os'
            end) operands
  | ESymbolWildcard _ => true
  | ESymbol _ _ => true
  | EWildcard _ f => f
  end.

(** A pattern or a subject is an [Expression] or a [FlatTerm]. *)
Definition Term := (Expression + FlatTerm)%type.

(** [FlatTerm(x) if isinstance(x, Expression) else x] *)
Definition to_flatterm (x : Term) : FlatTerm :=
  match x with
  | inl e => FlatTerm_init (inl e)
  | inr flatterm => flatterm
  end.

Definition Term_is_syntactic (x : Term) : bool :=
  match x with
  | inl e => Expression_is_syntactic e
  | inr flatterm => is_syntactic flatterm
  end.

(** A [DiscriminationNet] with labels of type [T]; [None] is a label too.
    The states of the net live in [net_heap]. *)
Record DiscriminationNet (T : Type) := mkNet {
  net_heap : Heap;
  _root : nat;
  _patterns : list (Term * option T)
}.
Arguments mkNet {T}.
Arguments net_heap {T}.
Arguments _root {T}.
Arguments _patterns {T}.

(** [DiscriminationNet()] *)
Definition DiscriminationNet_init {T} : DiscriminationNet T :=
  let '(root, h) := new_State [] empty_heap in mkNet h root [].

(** The automaton [add] builds for one pattern: the lines of [add] from
    [flatterm = ...] to the end of the [if]/[else] that binds [net]. *)
Definition pattern_net (h : Heap) (pattern : Term) (index : nat)
    : Result (nat * Heap) :=
  let flatterm := to_flatterm pattern in
  if Term_is_syntactic pattern || bool_decide (FlatTerm_len flatterm = 1)
  then Returns (_generate_syntactic_net h flatterm index)
  else _generate_net h flatterm index.

(** [DiscriminationNet.add]; [final_label] is [None] when the argument is
    left out.  The net after the call is given also when the call raises:
    [_patterns] is appended to before the automaton is built. *)
Definition DiscriminationNet_add {T} (self : DiscriminationNet T)
    (pattern : Term) (final_label : option T)
    : DiscriminationNet T * Result nat :=
  let index := length (_patterns self) in
  let patterns := _patterns self ++ [(pattern, final_label)] in
  let net := pattern_net (net_heap self) pattern index in
  match net with
  | Returns (net, h) =>
      if state_bool h (_root self) then
        match _product_net h (_root self) net with
        | Returns (root, h') => (mkNet h' root patterns, Returns index)
        | Raises e => (mkNet h (_root self) patterns, Raises e)
        | Unfinished => (mkNet h (_root self) patterns, Unfinished)
        end
      else (mkNet h net patterns, Returns index)
  | Raises e => (mkNet (net_heap self) (_root self) patterns, Raises e)
  | Unfinished => (mkNet (net_heap self) (_root self) patterns, Unfinished)
  end.

(** The locals of the loop of [_match]. *)
Record MatchState := mkMatchState {
  m_state : nat;
  m_depth : Z;
  m_result : list nat
}.

(** One iteration of [for term in flatterm] in [_match]: the next loop state,
    or the value the function returns from inside the loop. *)
Definition match_step (h : Heap) (collect first : bool) (m : MatchState)
    (term : TermAtom) : Result (MatchState + list nat) :=
  if (0 <? m_depth m)%Z then
    if is_operation term then
      Returns (inl (mkMatchState (m_state m) (m_depth m + 1) (m_result m)))
    else if decide (term = OPERATION_END) then
      Returns (inl (mkMatchState (m_state m) (m_depth m - 1) (m_result m)))
    else Returns (inl m)
  else if first && negb (bool_decide (get_payload h (m_state m) = [])) then
    Returns (inr (get_payload h (m_state m)))
  else
    let on_KeyError := Returns (inr (if collect then m_result m else [])) in
    let enter state depth :=
      Returns (inl (mkMatchState state depth
                      (m_result m ++ get_payload h state))) in
    match getitem h (m_state m) (LTerm term) with
    | Some state => enter state (m_depth m)
    | None =>
        if is_operation term then
          match getitem h (m_state m) LWildcard with
          | Some state => enter state 1%Z
          | None => on_KeyError
          end
        else if decide (term = OPERATION_END) then Returns (inr [])
        else if isinstance_Symbol term then
          let symbol_wildcard_key :=
            _get_symbol_wildcard_label h (m_state m) term in
          match getitem h (m_state m) (default LWildcard symbol_wildcard_key) with
          | Some state => enter state (m_depth m)
          | None => on_KeyError
          end
        else Raises TypeError
    end.

Fixpoint match_loop (h : Heap) (collect first : bool) (m : MatchState)
    (flatterm : list TermAtom) : Result (list nat) :=
  match flatterm with
  | [] => Returns (if collect then m_result m else get_payload h (m_state m))
  | term :: rest =>
      r ← match_step h collect first m term;
      match r with
      | inl m' => match_loop h collect first m' rest
      | inr result => Returns result
      end
  end.

(** [DiscriminationNet._match] *)
Definition _match {T} (self : DiscriminationNet T) (subject : Term)
    (collect first : bool) : Result (list nat) :=
  let flatterm := to_flatterm subject in
  let state := _root self in
  match_loop (net_heap self) collect first
    (mkMatchState state 0 (get_payload (net_heap self) state))
    (_terms flatterm).

(** The substitution module and the constraints are external; the spec
    (section 6) gives their interface. *)
Section External.
Context {Substitution : Type}.
(** [Substitution()] *)
Context (Substitution_init : Substitution).
(** [subst.extract_substitution(subject, pattern)]: the substitution after
    the call and the truth value returned. *)
Context (extract_substitution :
           Substitution → Term → Term → Substitution * bool).
(** [subst.try_add_variable(name, value)]: [None] when it raises
    [ValueError]. *)
Context (try_add_variable :
           Substitution → string → list Expression → option Substitution).
(** The constraints of the sub-expressions of a pattern taken together:
    [constraint is None or constraint(subst)], for the [constraint] made
    from what [pattern.preorder_iter()] yields. *)
Context (constraints_hold : Term → Substitution → bool).

(** The body of the loop of [DiscriminationNet.match] for one index: what
    it yields, if anything.  A pattern that was added as a [FlatTerm] has
    no [preorder_iter]: once the substitution is extracted, the attribute
    access raises [AttributeError]. *)
Definition match_index {T} (self : DiscriminationNet T) (subject : Term)
    (index : nat) : Result (list (option T * Substitution)) :=
  '(pattern, label) ← or_raise IndexError (_patterns self !! index);
  let '(subst, ok) :=
    extract_substitution Substitution_init subject pattern in
  if ok then
    match pattern with
    | inl _ =>
        if constraints_hold pattern subst then Returns [(label, subst)]
        else Returns []
    | inr _ => Raises AttributeError
    end
  else Returns [].

Fixpoint collect_yields {A B} (body : A → Result (list B)) (xs : list A)
    : Result (list B) :=
  match xs with
  | [] => Returns []
  | x :: xs' =>
      ys ← body x; rest ← collect_yields body xs'; Returns (ys ++ rest)
  end.

(** [DiscriminationNet.match]: everything the generator yields, or the
    exception that ends it. *)
Definition DiscriminationNet_match {T} (self : DiscriminationNet T)
    (subject : Term) : Result (list (option T * Substitution)) :=
  indices ← _match self subject false false;
  collect_yields (match_index self subject) indices.
End External.

(* ===================================================================== *)
(** ** SequenceMatcher *)
(* ===================================================================== *)

(** [isinstance(e, Operation)]: the operation's class and operands. *)
Definition as_Operation (e : Expression)
    : option (OperationClass * list Expression) :=
  match e with
  | EOperation op operands => Some (op, operands)
  | _ => None
  end.

(** [isinstance(e, operation)] for an operation class.  Operation heads are
    the classes themselves (the interface of the spec has no sub-heads). *)
Definition isinstance_of (e : Expression) (operation : OperationClass) : bool :=
  match e with
  | EOperation op _ => bool_decide (op = operation)
  | _ => false
  end.

(** [e.operands] of an operation ([[]] stands in where there are none to
    read). *)
Definition operands_of (e : Expression) : list Expression :=
  match e with
  | EOperation _ operands => operands
  | _ => []
  end.

(** [l[1:-1]] *)
Definition middle {A} (l : list A) : list A := removelast (tail l).

Record SequenceMatcher := mkSequenceMatcher {
  _net : DiscriminationNet nat;
  sm_patterns : list (Expression * option string * option string);
  operation : option OperationClass
}.

(** [SequenceMatcher()] *)
Definition SequenceMatcher_init : SequenceMatcher :=
  mkSequenceMatcher DiscriminationNet_init [] None.

(** [SequenceMatcher._check_wildcard_and_get_name] *)
Definition _check_wildcard_and_get_name (operand : Expression)
    : Result (option string) :=
  let '(name, operand) :=
    match operand with
    | EVariable name inner => (Some name, inner)
    | _ => (None, operand)
    end in
  match operand with
  | EWildcard min_count fixed_size =>
      if fixed_size || bool_decide (0 < min_count) then Raises ValueError
      else Returns name
  | ESymbolWildcard _ => Raises ValueError
  | _ => Raises ValueError
  end.

(** [SequenceMatcher.add]: the matcher after the call, also when it raises,
    and the outcome. *)
Definition SequenceMatcher_add (self : SequenceMatcher) (pattern : Expression)
    : SequenceMatcher * Result nat :=
  let checked : Result SequenceMatcher :=
    match operation self with
    | None =>
        match as_Operation pattern with
        | Some (op, _) =>
            if commutative op then Raises TypeError
            else Returns (mkSequenceMatcher (_net self) (sm_patterns self)
                            (Some op))
        | None => Raises TypeError
        end
    | Some operation =>
        if isinstance_of pattern operation then Returns self
        else Raises TypeError
    end in
  match checked with
  | Returns self1 =>
      let operands := operands_of pattern in
      if bool_decide (length operands < 3) then (self1, Raises ValueError)
      else
        match
          (first_name ← _check_wildcard_and_get_name
                          (default pattern (head operands));
           last_name ← _check_wildcard_and_get_name
                         (default pattern (last operands));
           Returns (first_name, last_name))
        with
        | Returns (first_name, last_name) =>
            let index := length (sm_patterns self1) in
            let patterns :=
              sm_patterns self1 ++ [(pattern, first_name, last_name)] in
            let flatterm :=
              FlatTerm_merged
                (map (λ o, FlatTerm_init (inl o)) (middle operands)) in
            let '(net, r) :=
              DiscriminationNet_add (_net self1) (inr flatterm) (Some index) in
            (mkSequenceMatcher net patterns (operation self1),
             _ ← r; Returns index)
        | Raises e => (self1, Raises e)
        | Unfinished => (self1, Unfinished)
        end
  | Raises e => (self, Raises e)
  | Unfinished => (self, Unfinished)
  end.

(** [SequenceMatcher.can_match] *)
Definition can_match (pattern : Expression) : bool :=
  match as_Operation pattern with
  | Some (op, operands) =>
      if commutative op then false
      else if bool_decide (length operands < 3) then false
      else
        match _check_wildcard_and_get_name (default pattern (head operands)),
              _check_wildcard_and_get_name (default pattern (last operands))
        with
        | Returns _, Returns _ => true
        | _, _ => false
        end
  | None => false
  end.

Section SequenceMatch.
Context {Substitution : Type}.
Context (Substitution_init : Substitution).
Context (extract_substitution :
           Substitution → Term → Term → Substitution * bool).
Context (try_add_variable :
           Substitution → string → list Expression → option Substitution).

(** [all(itertools.starmap(substitution.extract_substitution, zip(...)))]:
    stops at the first call that returns a false value. *)
Fixpoint extract_all (substitution : Substitution)
    (expr_operands patt_operands : list Expression) : Substitution * bool :=
  match expr_operands, patt_operands with
  | e :: es, p :: ps =>
      let '(substitution', ok) :=
        extract_substitution substitution (inl e) (inl p) in
      if ok then extract_all substitution' es ps else (substitution', false)
  | _, _ => (substitution, true)
  end.

(** The [try] block: [None] when [ValueError] is raised. *)
Definition add_names (substitution : Substitution)
    (first_name last_name : option string) (before after : list Expression)
    : option Substitution :=
  s1 ← match first_name with
       | Some name => try_add_variable substitution name before
       | None => Some substitution
       end;
  match last_name with
  | Some name => try_add_variable s1 name after
  | None => Some s1
  end.

(** The body of the inner loop of [SequenceMatcher.match] for one index of
    the net at offset [i]. *)
Definition sequence_match_index (self : SequenceMatcher)
    (subject_operands : list Expression) (i : nat) (index : nat)
    : Result (list (Expression * Substitution)) :=
  '(_, label) ← or_raise IndexError (_patterns (_net self) !! index);
  match_index ← or_raise TypeError label;
  '(pattern, first_name, last_name) ←
    or_raise IndexError (sm_patterns self !! match_index);
  let operand_count := length (operands_of pattern) - 2 in
  let expr_operands := take operand_count (drop i subject_operands) in
  let patt_operands := middle (operands_of pattern) in
  let '(substitution, ok) :=
    extract_all Substitution_init expr_operands patt_operands in
  if ok then
    match add_names substitution first_name last_name
            (take i subject_operands)
            (drop (i + operand_count) subject_operands) with
    | Some substitution' => Returns [(pattern, substitution')]
    | None => Returns []
    end
  else Returns [].

(** The body of [for i in range(len(flatterms))]. *)
Definition sequence_match_at (self : SequenceMatcher)
    (subject_operands : list Expression) (i : nat)
    : Result (list (Expression * Substitution)) :=
  let flatterms := map (λ o, FlatTerm_init (inl o)) subject_operands in
  let flatterm := FlatTerm_merged (drop i flatterms) in
  indices ← _match (_net self) (inr flatterm) false true;
  collect_yields (sequence_match_index self subject_operands i) indices.

(** [SequenceMatcher.match]: everything the generator yields, or the
    exception that ends it.  [isinstance(subject, None)] raises
    [TypeError]. *)
Definition SequenceMatcher_match (self : SequenceMatcher)
    (subject : Expression) : Result (list (Expression * Substitution)) :=
  operation ← or_raise TypeError (operation self);
  if isinstance_of subject operation then
    let subject_operands := operands_of subject in
    collect_yields (sequence_match_at self subject_operands)
      (seq 0 (length subject_operands))
  else Returns [].
End SequenceMatch.

(* ===================================================================== *)
(** ** Notions used to state the properties *)
(* ===================================================================== *)

(** A plain wildcard atom, from its [min_count] and [fixed_size]. *)
Definition plain (w : nat * bool) : TermAtom := AWildcard w.1 w.2.

(** Two neighbours on the tape are both plain wildcards. *)
Fixpoint adjacent_plain_wildcards (terms : list TermAtom) : bool :=
  match terms with
  | a :: (b :: _) as rest =>
      (is_plain_wildcard a && is_plain_wildcard b)
      || adjacent_plain_wildcards rest
  | _ => false
  end.

(** No plain wildcard stands at the given end of a piece of tape. *)
Definition not_plain_at (o : option TermAtom) : Prop :=
  ∀ a, o = Some a → is_plain_wildcard a = false.

(** The tape of the operands of an operation, with its end marker: what
    [_flatterm_iter] yields after the operation's class. *)
Definition operands_tape (operands : list Expression) : list TermAtom :=
  (fix each (os : list Expression) : list TermAtom :=
     match os with
     | [] => [OPERATION_END]
     | operand :: os' => _flatterm_iter operand ++ each os'
     end) operands.

(** The payload of the state an automaton is in after [_match] has read
    [word] from [root] (nothing when a transition is missing). *)
Definition read (h : Heap) (root : nat) (word : list TermAtom)
    : Result (list nat) :=
  match_loop h false false (mkMatchState root 0 (get_payload h root)) word.

(** The entries of [_patterns] that [_match] reports for a subject. *)
Definition accepted {T} (self : DiscriminationNet T) (subject : Term)
    : Result (list (option (Term * option T))) :=
  indices ← _match self subject false false;
  Returns (map (λ index, _patterns self !! index) indices).

(** A net after [add] was called for each pattern in turn, with the label
    given for it. *)
Definition added {T} (self : DiscriminationNet T)
    (patterns : list (Term * option T)) : DiscriminationNet T :=
  fold_left (λ net pl, (DiscriminationNet_add net pl.1 pl.2).1) patterns self.

(* ===================================================================== *)
(** ** Invariants of the net builders *)
(* ===================================================================== *)


(** The change of nesting depth a label stands for. *)
Definition delta (label : TransitionLabel) : Z :=
  match label with
  | LTerm (AOperation _) => 1
  | LTerm OPERATION_END => -1
  | _ => 0
  end.

Definition alive (h : Heap) (s : nat) : Prop := is_Some (objects h !! s).

(** Every state of the heap has an id below [_id], a depth [g] of less than
    [_id] in absolute value, and transitions that lead to states of the heap
    and change the depth as their label says. *)
Record graded (g : nat → Z) (h : Heap) : Prop := mkGraded {
  graded_pos : 0 < _id h;
  graded_alive : ∀ s, alive h s →
    0 < s < _id h ∧ (- Z.of_nat (_id h) < g s < Z.of_nat (_id h))%Z;
  graded_trans : ∀ s label t, getitem h s label = Some t →
    alive h t ∧ g t = (g s + delta label)%Z
}.

(** The states of [h] are still there in [h'], at the same depth. *)
Definition preserved (g : nat → Z) (h : Heap) (g' : nat → Z) (h' : Heap) : Prop :=
  ∀ s, alive h s → alive h' s ∧ g' s = g s.

(** [body] run up to [n] times. *)
Fixpoint iterate {St R} (n : nat) (body : St → Result (St + R)) (s : St)
    : Result (St + R) :=
  match n with
  | 0 => Returns (inl s)
  | S n' =>
      match body s with
      | Returns (inl s') => iterate n' body s'
      | other => other
      end
  end.

(** A heap reached from [h]: graded, with the states of [h] kept. *)
Definition grows (g : nat → Z) (h : Heap) (g' : nat → Z) (h' : Heap) : Prop :=
  graded g' h' ∧ preserved g h g' h'.


(** The depth of the product state with a given key: the depth of the side
    that is ahead. *)
Definition key_grade (g : nat → Z) (key : nat * nat * Z) : Z :=
  let '(i1, i2, d) := key in
  if decide (i1 = 0) then (g i2 + d)%Z
  else if decide (i2 = 0) then (g i1 + d)%Z
  else Z.max (g i1) (g i2).

(** What holds of every item in the queue of [_product_net], for two
    automata in the graded heap [h]. *)
Record item_ok (g : nat → Z) (h : Heap) (q : _StateQueueItem) : Prop := {
  io_id1 : id1 q = default 0 (state1 q);
  io_id2 : id2 q = default 0 (state2 q);
  io_alive1 : ∀ s, state1 q = Some s → alive h s;
  io_alive2 : ∀ s, state2 q = Some s → alive h s;
  io_some : is_Some (state1 q) ∨ is_Some (state2 q);
  io_fixed : fixed q ≤ 2;
  io_fixed0 : fixed q = 0 →
    depth q = 0%Z
    ∧ ∀ s1 s2, state1 q = Some s1 → state2 q = Some s2 → g s1 = g s2;
  io_fixed1 : fixed q = 1 →
    (1 <= depth q)%Z
    ∧ ∃ s1, state1 q = Some s1 ∧ is_Some (getitem h s1 LWildcard)
            ∧ (g s1 + depth q < Z.of_nat (_id h))%Z
            ∧ ∀ s2, state2 q = Some s2 → g s2 = (g s1 + depth q)%Z;
  io_fixed2 : fixed q = 2 →
    (1 <= depth q)%Z
    ∧ ∃ s2, state2 q = Some s2 ∧ is_Some (getitem h s2 LWildcard)
            ∧ (g s2 + depth q < Z.of_nat (_id h))%Z
            ∧ ∀ s1, state1 q = Some s1 → g s1 = (g s2 + depth q)%Z
}.

(** The heap [h'] has the states of [h] as they are in [h]. *)
Definition agrees (h h' : Heap) : Prop :=
  ∀ s, s < _id h → objects h' !! s = objects h !! s.

(** Keys in the box of ids below [n] and depths from 0 to below [2 * n]. *)
Definition key_ok (n : nat) (key : nat * nat * Z) : Prop :=
  key.1.1 < n ∧ key.1.2 < n ∧ (0 <= key.2 < 2 * Z.of_nat n)%Z.

Definition key_code (n : nat) (key : nat * nat * Z) : nat :=
  (key.1.1 * n + key.1.2) * (2 * n) + Z.to_nat key.2.

(** The invariant of the [while] loop of [_product_net] for two automata of
    the graded heap [h]; [gp] gives the depths of the product states. *)
Record product_inv (g : nat → Z) (h : Heap) (gp : nat → Z) (p : ProductGen)
    : Prop := {
  pi_graded : graded gp (pn_heap p);
  pi_agrees : agrees h (pn_heap p);
  pi_pres : preserved g h gp (pn_heap p);
  pi_states : ∀ key s, pn_states p !! key = Some s →
    _id h ≤ s ∧ alive (pn_heap p) s ∧ gp s = key_grade g key
    ∧ key_ok (_id h) key;
  pi_queue : ∀ q, q ∈ pn_queue p →
    item_ok g h q ∧ is_Some (pn_states p !! item_key q)
}.

Definition product_measure (n : nat) (p : ProductGen) : nat :=
  n * n * (2 * n) + length (pn_queue p) - size (pn_states p).


(** A fail state entry whose states are all at depth [d]. *)
Definition fail_state_ok (g : nat → Z) (h : Heap) (d : Z) (f : FailState)
    : Prop :=
  match f with
  | FS_None => True
  | FS_State s => alive h s ∧ g s = d
  | FS_List l => ∀ s, s ∈ l → alive h s ∧ g s = d
  end.

(** The stacks of [_generate_net], the top being at depth [d]. *)
Fixpoint stacks_ok (g : nat → Z) (h : Heap) (d : Z)
    (lws : list (option nat)) (fss : list FailState) : Prop :=
  match lws, fss with
  | [], [] => True
  | lw :: lws', fs :: fss' =>
      (∀ w, lw = Some w → alive h w ∧ g w = d)
      ∧ fail_state_ok g h d fs
      ∧ stacks_ok g h (d - 1) lws' fss'
  | _, _ => False
  end.

Record net_inv (g : nat → Z) (G : NetGen) : Prop := {
  ni_graded : graded g (ng_heap G);
  ni_state : alive (ng_heap G) (ng_state G);
  ni_stacks :
    stacks_ok g (ng_heap G) (g (ng_state G)) (last_wildcards G) (fail_states G)
}.


(** A set of states of [h] that are all at depth [z]. *)
Definition uniform (g : nat → Z) (h : Heap) (X : gset nat) (z : Z) : Prop :=
  ∀ x, x ∈ X → alive h x ∧ g x = z.

(** The characteristic vector of a set of numbers below [n]. *)
Definition set_code (n : nat) (X : gset nat) : list bool :=
  (λ i, bool_decide (i ∈ X)) <$> seq 0 n.

Fixpoint bool_lists (n : nat) : list (list bool) :=
  match n with
  | 0 => [[]]
  | S n' => (cons true <$> bool_lists n') ++ (cons false <$> bool_lists n')
  end.

(** The invariant of the [while] loop of [_convert_nfa_to_dfa] for the NFA
    in the graded heap [h]; [gd] gives the depths of the DFA states. *)
Record dfa_inv (g : nat → Z) (h : Heap) (gd : nat → Z) (d : DfaGen) : Prop := {
  di_graded : graded gd (dg_heap d);
  di_agrees : agrees h (dg_heap d);
  di_pres : preserved g h gd (dg_heap d);
  di_states : ∀ X s, new_states d !! X = Some s →
    _id h ≤ s ∧ alive (dg_heap d) s ∧ uniform g h X (gd s);
  di_queue : ∀ X, X ∈ dg_queue d → is_Some (new_states d !! X)
}.

Definition dfa_measure (n : nat) (d : DfaGen) : nat :=
  2 ^ n + length (dg_queue d) - size (new_states d).


(** A sequence wildcard, possibly under variables: the operand that takes
    any number of operands of the subject. *)
Fixpoint sequence_wildcard (e : Expression) : bool :=
  match e with
  | EVariable _ inner => sequence_wildcard inner
  | EWildcard _ fixed_size => negb fixed_size
  | _ => false
  end.

(** The number of operands before the first sequence wildcard. *)
Fixpoint leading_operands (operands : list Expression) : nat :=
  match operands with
  | [] => 0
  | o :: os => if sequence_wildcard o then 0 else S (leading_operands os)
  end.

(** Modelled from the spec: the operands of a compound fit its
    [arity: {fixed_size, min_count}].  The constructor of the external class
    [Operation] rejects an operation of fixed arity with more operands than
    [arity.min_count]; operands from a sequence wildcard on are not counted
    here, so that every expression the class can build is covered.  The
    module relies on it when it indexes the fail states of such an operation
    by the operand position. *)
Fixpoint operands_fit_arity (e : Expression) : Prop :=
  match e with
  | EVariable _ inner => operands_fit_arity inner
  | EOperation op operands =>
      (arity_fixed_size (arity op) = true →
       leading_operands operands ≤ arity_min_count (arity op))
      ∧ (fix all (os : list Expression) : Prop :=
           match os with
           | [] => True
           | o :: os' => operands_fit_arity o ∧ all os'
           end) operands
  | _ => True
  end.

(** How many more atoms a nesting level may take: a number for an operation
    of fixed arity, [None] for no limit. *)
Definition Budget := option nat.

Definition spend (b : Budget) : option Budget :=
  match b with
  | None => Some None
  | Some 0 => None
  | Some (S k) => Some (Some k)
  end.

(** The budget with which the operands of an operation start. *)
Definition operation_budget (op : OperationClass) : Budget :=
  if arity_fixed_size (arity op) then Some (arity_min_count (arity op))
  else None.

(** The budgets of the open nesting levels, innermost first, after one more
    atom; [None] when the atom does not fit.  A sequence wildcard lifts the
    limit of its level, [OPERATION_END] closes a level, which must not be
    the outermost. *)
Definition budget_step (B : list Budget) (term : TermAtom)
    : option (list Budget) :=
  match B with
  | [] => None
  | b :: bs =>
      match term with
      | OPERATION_END => match bs with [] => None | _ => Some bs end
      | _ =>
          if isinstance_Wildcard term && negb (wc_fixed_size term)
          then Some (None :: bs)
          else
            b' ← spend b;
            match term with
            | AOperation op => Some (operation_budget op :: b' :: bs)
            | _ => Some (b' :: bs)
            end
      end
  end.

Fixpoint budget_run (B : list Budget) (tape : list TermAtom)
    : option (list Budget) :=
  match tape with
  | [] => Some B
  | term :: rest => B' ← budget_step B term; budget_run B' rest
  end.

(** [b'] leaves at least as much room as [b]. *)
Definition budget_le (b b' : Budget) : Prop :=
  match b', b with
  | None, _ => True
  | Some k', Some k => k ≤ k'
  | Some _, None => False
  end.

Definition room_for (n : nat) (b : Budget) : Prop :=
  match b with Some k => n ≤ k | None => True end.


(** A frame of the stacks of [_generate_net] against the budget of its
    nesting level: a list of fail states has an entry at [operand_counts[-1]]
    and at every position the budget still allows. *)
Definition frame_fit (fs : FailState) (c : Z) (b : Budget) : Prop :=
  match fs with
  | FS_List l =>
      l ≠ []
      ∧ (c = (-1)%Z
         ∨ (0 ≤ c)%Z
           ∧ ∃ k, b = Some k ∧ (c + Z.of_nat k < Z.of_nat (length l))%Z)
  | _ => True
  end.

Fixpoint frames_fit (lws : list (option nat)) (fss : list FailState)
    (cs : list Z) (B : list Budget) : Prop :=
  match lws, fss, cs, B with
  | [], [], [], [] => True
  | _ :: lws', fs :: fss', c :: cs', b :: B' =>
      frame_fit fs c b ∧ frames_fit lws' fss' cs' B'
  | _, _, _, _ => False
  end.

(** The three stacks have a frame for each open nesting level, the
    outermost included, and each frame fits its budget. *)
Definition stacks_fit (G : NetGen) (B : list Budget) : Prop :=
  B ≠ []
  ∧ frames_fit (last_wildcards G) (fail_states G) (operand_counts G) B.


(** A net whose states can be given depths that the transitions respect,
    the root being at depth 0. *)
Definition net_ok {T} (net : DiscriminationNet T) : Prop :=
  ∃ g, graded g (net_heap net) ∧ alive (net_heap net) (_root net)
       ∧ g (_root net) = 0%Z.

(** [SequenceMatcher] objects after [add] was called for each pattern in
    turn (whether the call raised or not). *)
Definition sequence_added (patterns : list Expression) : SequenceMatcher :=
  fold_left (λ self pattern, (SequenceMatcher_add self pattern).1) patterns
    SequenceMatcher_init.

(** The accepted shape in the words of the spec, to be compared with what
    [SequenceMatcher.add] checks: first, an unbounded, non-fixed, min-0
    wildcard. *)
Definition star_wildcard (e : Expression) : bool :=
  match e with
  | EWildcard 0 false => true
  | _ => false
  end.

(** The spec's unwrapping of an optional variable binder. *)
Definition unwrap_variable (e : Expression) : Expression :=
  match e with
  | EVariable _ inner => inner
  | _ => e
  end.

(** The spec's condition on the outer operation: the first pattern is a
    non-commutative operation; a later pattern has the established outer
    operation. *)
Definition outer_operation_accepted (established : option OperationClass)
    (pattern : Expression) : bool :=
  match pattern with
  | EOperation op _ =>
      match established with
      | None => negb (commutative op)
      | Some operation => bool_decide (op = operation)
      end
  | _ => false
  end.

(** The spec's condition on the operands: at least 3, the first and the last
    of which are star wildcards, possibly under a variable. *)
Definition operands_accepted (pattern : Expression) : bool :=
  match pattern with
  | EOperation _ operands =>
      bool_decide (3 ≤ length operands)
      && match head operands, last operands with
         | Some operand0, Some operand_n =>
             star_wildcard (unwrap_variable operand0)
             && star_wildcard (unwrap_variable operand_n)
         | _, _ => false
         end
  | _ => false
  end.

(* ===================================================================== *)
(** ** Further notions: subjects, payloads, closures *)
(* ===================================================================== *)


(** An expression without variable binders. *)
Fixpoint variable_free (e : Expression) : bool :=
  match e with
  | EVariable _ _ => false
  | EOperation _ operands =>
      (fix all (os : list Expression) : bool :=
         match os with
         | [] => true
         | o :: os' => variable_free o && all os'
         end) operands
  | _ => true
  end.

(** The [min_count]s of the plain wildcards of a tape, added up. *)
Definition plain_min_count (terms : list TermAtom) : nat :=
  sum_list_with wc_min_count
    (filter (λ a, is_plain_wildcard a = true) terms).

(** The atoms of a tape that are not plain wildcards, in order. *)
Definition other_atoms (terms : list TermAtom) : list TermAtom :=
  filter (λ a, is_plain_wildcard a = false) terms.


(** A set of states that has, with each state, the state its [EPSILON]
    transition leads to. *)
Definition epsilon_closed (h : Heap) (X : gset nat) : Prop :=
  ∀ s t, s ∈ X → getitem h s EPSILON = Some t → t ∈ X.


(** The set of NFA states that becomes the root of the DFA, and the locals
    with which the [while queue] loop of [_convert_nfa_to_dfa] is
    entered. *)
Definition dfa_start (h : Heap) (root : nat) : gset nat * DfaGen :=
  let new_root := _epsilon_closure h {[root]} in
  let '(s, h0) := _create_state h new_root in
  (new_root, mkDfaGen h0 {[new_root := s]} [new_root]).


(** A terminal atom: a symbol, the class of an operation or
    [OPERATION_END], as the tape of a constant expression has them. *)
Definition terminal_atom (term : TermAtom) : bool :=
  match term with
  | ASymbol _ _ | AOperation _ | OPERATION_END => true
  | _ => false
  end.

(** An expression without wildcards (variables are looked through, as
    [_flatterm_iter] does). *)
Fixpoint constant_expression (e : Expression) : bool :=
  match e with
  | EVariable _ inner => constant_expression inner
  | EOperation _ operands =>
      (fix all (os : list Expression) : bool :=
         match os with
         | [] => true
         | o :: os' => constant_expression o && all os'
         end) operands
  | ESymbol _ _ => true
  | ESymbolWildcard _ | EWildcard _ _ => false
  end.

(** A subject without wildcards, given as an expression or as a flatterm. *)
Definition constant_subject (subject : Term) : bool :=
  match subject with
  | inl e => constant_expression e
  | inr flatterm => forallb terminal_atom (_terms flatterm)
  end.


(** Every entry of a payload in the heap is an index below [n]. *)
Definition payloads_below (n : nat) (h : Heap) : Prop :=
  ∀ s i, i ∈ get_payload h s → i < n.

(** The payloads of a net hold indices of its [_patterns] only. *)
Definition net_payloads {T} (self : DiscriminationNet T) : Prop :=
  payloads_below (length (_patterns self)) (net_heap self).



(** [isinstance(pattern, Expression)]: the pattern was not given as a
    [FlatTerm]. *)
Definition isinstance_Expression (pattern : Term) : bool :=
  match pattern with inl _ => true | inr _ => false end.


(** The states [_match] enters while it reads [tape] from the loop state
    [m]: the target of each transition it takes, in order.  While an
    operation is skipped no state is entered. *)
Fixpoint entered (h : Heap) (first : bool) (m : MatchState)
    (tape : list TermAtom) : list nat :=
  match tape with
  | [] => []
  | term :: rest =>
      match match_step h false first m term with
      | Returns (inl m') =>
          (if (0 <? m_depth m)%Z then [] else [m_state m'])
          ++ entered h first m' rest
      | _ => []
      end
  end.

(** The run is ended inside the loop by a statement that does not look at
    [collect]: the [return state.payload[:]] under [first], the
    [return []] for an [OPERATION_END] without transition, or the
    [raise]. *)
Fixpoint ended_regardless (h : Heap) (first : bool) (m : MatchState)
    (tape : list TermAtom) : bool :=
  match tape with
  | [] => false
  | term :: rest =>
      match match_step h false first m term with
      | Returns (inl m') => ended_regardless h first m' rest
      | Returns (inr _) =>
          (first && negb (bool_decide (get_payload h (m_state m) = [])))
          || bool_decide (term = OPERATION_END)
      | _ => true
      end
  end.


(** The heap [h'] comes after [h]: every state of [h] is in [h'] as it is
    in [h], transitions and payload, and no id is given out twice. *)
Definition extends (h h' : Heap) : Prop :=
  agrees h h' ∧ _id h ≤ _id h'.


(** An expression of symbols and operations only. *)
Fixpoint ground (e : Expression) : bool :=
  match e with
  | ESymbol _ _ => true
  | EOperation _ operands =>
      (fix all (os : list Expression) : bool :=
         match os with
         | [] => true
         | o :: os' => ground o && all os'
         end) operands
  | _ => false
  end.

(** The [min_count] of an operand that is a wildcard, possibly under
    variables. *)
Fixpoint wildcard_width (p : Expression) : option nat :=
  match p with
  | EVariable _ inner => wildcard_width inner
  | EWildcard m _ => Some m
  | _ => None
  end.

(** What it means for a ground subject to match a syntactic pattern,
    variables being looked through: a symbol matches itself, a symbol
    wildcard the symbols of its class, an operation the operations of the
    same class whose operands match in order, where a wildcard of
    [min_count] [m] stands for [m] operands. *)
Fixpoint instance_of (p : Expression) (s : Expression) {struct p} : bool :=
  match p with
  | EVariable _ inner => instance_of inner s
  | ESymbol name c =>
      match s with
      | ESymbol name' c' => bool_decide (name = name' ∧ c = c')
      | _ => false
      end
  | ESymbolWildcard c =>
      match s with
      | ESymbol _ c' => issubclass_symbol c' c
      | _ => false
      end
  | EWildcard m _ => bool_decide (m = 1)
  | EOperation op ps =>
      match s with
      | EOperation op' ss =>
          bool_decide (op = op')
          && (fix operands (ps ss : list Expression) {struct ps} : bool :=
                match ps with
                | [] => match ss with [] => true | _ => false end
                | p :: ps' =>
                    match wildcard_width p with
                    | Some m =>
                        bool_decide (m ≤ length ss)
                        && operands ps' (drop m ss)
                    | None =>
                        match ss with
                        | s :: ss' => instance_of p s && operands ps' ss'
                        | [] => false
                        end
                    end
                end) ps ss
      | _ => false
      end
  end.

(** The operands of a subject against the operands of a pattern. *)
Definition operands_instance : list Expression → list Expression → bool :=
  fix operands (ps ss : list Expression) {struct ps} : bool :=
    match ps with
    | [] => match ss with [] => true | _ => false end
    | p :: ps' =>
        match wildcard_width p with
        | Some m => bool_decide (m ≤ length ss) && operands ps' (drop m ss)
        | None =>
            match ss with
            | s :: ss' => instance_of p s && operands ps' ss'
            | [] => false
            end
        end
    end.

(** The labels of the chain of states that [_generate_syntactic_net] makes
    for a tape. *)
Definition chain_labels (tape : list TermAtom) : list TransitionLabel :=
  flat_map (λ term,
              if isinstance_Wildcard term
              then replicate (wc_min_count term) LWildcard
              else [LTerm term]) tape.

(** A chain of states in the heap from [x] on: the state [x + i] has no
    payload and the single transition [(l, x + i + 1)], for the [i]-th label
    [l] of [ls]. *)
Definition chain (h : Heap) (x : nat) (ls : list TransitionLabel) : Prop :=
  ∀ i l, ls !! i = Some l →
    objects h !! (x + i) = Some (mkState [] [(l, S (x + i))]).

(** The builders of the syntactic net extend a chain: from the newest state
    [x], still empty, of [h] they reach the newest state [x'], still empty,
    of [h'], over the labels [ls], and leave the older states alone. *)
Definition chain_built (h : Heap) (x : nat) (h' : Heap) (x' : nat)
    (ls : list TransitionLabel) : Prop :=
  x' = x + length ls
  ∧ S x' = _id h'
  ∧ objects h' !! x' = Some (mkState [] [])
  ∧ chain h' x ls
  ∧ ∀ s, s < x → objects h' !! s = objects h !! s.

(** Reading a ground subject along the chain of a pattern that is not a
    wildcard: the reader gets to the end of the chain when the subject is
    an instance, and gives up with no index otherwise. *)
Definition reads_as (h : Heap) (p : Expression) : Prop :=
  ∀ x s rest,
    ground s = true →
    wildcard_width p = None →
    chain h x (chain_labels (_flatterm_iter p)) →
    read h x (_flatterm_iter s ++ rest)
    = if instance_of p s
      then read h (x + length (chain_labels (_flatterm_iter p))) rest
      else Returns [].


(** What the class [_StateQueueItem] says of its attributes: [fixed] is 0,
    1 or 2, and it is not 0 exactly when [depth] is greater than 0. *)
Definition item_fixed_ok (q : _StateQueueItem) : Prop :=
  fixed q ≤ 2
  ∧ (fixed q = 0 → depth q = 0%Z)
  ∧ (fixed q ≠ 0 → (0 < depth q)%Z).


(** The states made since the heap had [n] states form an automaton of
    their own, without [EPSILON] transitions: their transitions lead to
    states made since then. *)
Definition closed_from (n : nat) (h : Heap) : Prop :=
  ∀ s label t, n ≤ s < _id h → getitem h s label = Some t →
    label ≠ EPSILON ∧ n ≤ t < _id h.

(** The invariant of the loop of [_convert_nfa_to_dfa], entered with a heap
    of [n] states. *)
Definition dfa_closed (n : nat) (d : DfaGen) : Prop :=
  n ≤ _id (dg_heap d)
  ∧ (∀ X s, new_states d !! X = Some s → n ≤ s < _id (dg_heap d))
  ∧ closed_from n (dg_heap d).


(** The states from [lo] to below [hi] form an automaton: their
    transitions stay among them, and none is labelled [EPSILON]. *)
Definition automaton (h : Heap) (lo hi : nat) : Prop :=
  hi ≤ _id h
  ∧ ∀ s label t, lo ≤ s < hi → getitem h s label = Some t →
      label ≠ EPSILON ∧ lo ≤ t < hi.

(** The states [_match] can get to from [root]. *)
Inductive reachable (h : Heap) (root : nat) : nat → Prop :=
| reachable_root : reachable h root root
| reachable_step s label t :
    reachable h root s → getitem h s label = Some t → reachable h root t.

(** The two states of a queue item of [_product_net] are states of the two
    automata the product is made of. *)
Definition item_within (lo1 hi1 lo2 hi2 : nat) (q : _StateQueueItem) : Prop :=
  (∀ s, state1 q = Some s → lo1 ≤ s < hi1)
  ∧ (∀ s, state2 q = Some s → lo2 ≤ s < hi2).

(** The invariant of the loop of [_product_net], entered with the heap [h]
    for two automata in it. *)
Definition product_closed (h : Heap) (lo1 hi1 lo2 hi2 : nat)
    (p : ProductGen) : Prop :=
  agrees h (pn_heap p)
  ∧ _id h < _id (pn_heap p)
  ∧ (∀ key s, pn_states p !! key = Some s → _id h ≤ s < _id (pn_heap p))
  ∧ closed_from (_id h) (pn_heap p)
  ∧ Forall (item_within lo1 hi1 lo2 hi2) (pn_queue p).

(** The root of a net is in an automaton of its heap. *)
Definition net_automaton {T} (self : DiscriminationNet T) : Prop :=
  ∃ lo hi, lo ≤ _root self < hi ∧ automaton (net_heap self) lo hi.


(** The label of a transition for a symbol, the class of an operation or
    [OPERATION_END]. *)
Definition terminal_label (label : TransitionLabel) : bool :=
  match label with LTerm a => terminal_atom a | _ => false end.

(** The states from [lo] to below [hi] form an automaton for constant
    tapes: their transitions stay among them and are labelled with
    terminal atoms only. *)
Definition trie (h : Heap) (lo hi : nat) : Prop :=
  0 < lo ∧ hi ≤ _id h
  ∧ ∀ s label t, lo ≤ s < hi → getitem h s label = Some t →
      terminal_label label = true ∧ lo ≤ t < hi.

(** Following the transitions for the atoms of [word]: the payload of the
    state that is reached, nothing when a transition is missing. *)
Fixpoint walk (h : Heap) (state : option nat) (word : list TermAtom)
    : list nat :=
  match state, word with
  | None, _ => []
  | Some s, [] => get_payload h s
  | Some s, a :: rest => walk h (getitem h s (LTerm a)) rest
  end.

(** The state with a given id, [None] for the id 0 of a missing state. *)
Definition state_of (i : nat) : option nat :=
  if decide (i = 0) then None else Some i.

(** The id of the state the atom [a] leads to from the state with id [i],
    0 when there is none. *)
Definition next_id (h : Heap) (i : nat) (a : TermAtom) : nat :=
  match state_of i with
  | Some s => default 0 (getitem h s (LTerm a))
  | None => 0
  end.

(** The invariant of the loop of [_product_net] for the states [s1] and
    [s2] of two tries of the heap [h]: a product state stands for a pair of
    ids, has the payloads of the pair (the root apart), and its transitions
    follow the two tries; they are all there once the pair has left the
    queue.  [extra] is the key of the pair that is being worked on. *)
Record product_trie (h : Heap) (lo1 hi1 lo2 hi2 s1 s2 : nat)
    (extra : list (nat * nat * Z)) (p : ProductGen) : Prop := {
  pt_agrees : agrees h (pn_heap p);
  pt_id : _id h < _id (pn_heap p);
  pt_root : pn_states p !! (s1, s2, 0%Z) = Some (_id h)
            ∧ get_payload (pn_heap p) (_id h) = [];
  pt_states : ∀ i1 i2 d s, pn_states p !! (i1, i2, d) = Some s →
    d = 0%Z ∧ (i1 = 0 ∨ lo1 ≤ i1 < hi1) ∧ (i2 = 0 ∨ lo2 ≤ i2 < hi2)
    ∧ _id h ≤ s < _id (pn_heap p) ∧ alive (pn_heap p) s
    ∧ (s ≠ _id h →
       get_payload (pn_heap p) s
       = walk h (state_of i1) [] ++ walk h (state_of i2) []);
  pt_inj : ∀ k1 k2 s,
    pn_states p !! k1 = Some s → pn_states p !! k2 = Some s → k1 = k2;
  pt_onto : ∀ s, _id h ≤ s < _id (pn_heap p) →
    ∃ key, pn_states p !! key = Some s;
  pt_sound : ∀ i1 i2 d s label t,
    pn_states p !! (i1, i2, d) = Some s →
    getitem (pn_heap p) s label = Some t →
    ∃ a, label = LTerm a ∧ terminal_atom a = true
         ∧ (next_id h i1 a ≠ 0 ∨ next_id h i2 a ≠ 0)
         ∧ pn_states p !! (next_id h i1 a, next_id h i2 a, 0%Z) = Some t;
  pt_complete : ∀ i1 i2 d s, pn_states p !! (i1, i2, d) = Some s →
    (∀ a, next_id h i1 a ≠ 0 ∨ next_id h i2 a ≠ 0 →
       is_Some (getitem (pn_heap p) s (LTerm a)))
    ∨ (i1, i2, d) ∈ map item_key (pn_queue p)
    ∨ (i1, i2, d) ∈ extra;
  pt_queue : ∀ q, q ∈ pn_queue p →
    state1 q = state_of (id1 q) ∧ state2 q = state_of (id2 q)
    ∧ depth q = 0%Z ∧ fixed q = 0
    ∧ is_Some (pn_states p !! item_key q)
}.

(** The indices, counted from [i], of the patterns whose tape is [word],
    in the order of the patterns. *)
Fixpoint matching_from {T} (i : nat) (patterns : list (Term * option T))
    (word : list TermAtom) : list nat :=
  match patterns with
  | [] => []
  | pl :: rest =>
      (if decide (word = _terms (to_flatterm pl.1)) then [i] else [])
      ++ matching_from (S i) rest word
  end.

(** A syntactic pattern without wildcards, as an expression or as a tape
    that is not empty. *)
Definition constant_pattern (pattern : Term) : Prop :=
  Term_is_syntactic pattern = true
  ∧ constant_subject pattern = true
  ∧ _terms (to_flatterm pattern) ≠ [].

(** A net of constant patterns: its automaton is a trie in which a tape
    leads to the indices of the patterns with that tape. *)
Definition trie_net {T} (self : DiscriminationNet T) : Prop :=
  net_ok self
  ∧ Forall (λ pl, _terms (to_flatterm pl.1) ≠ []) (_patterns self)
  ∧ ∃ lo hi,
      trie (net_heap self) lo hi
      ∧ lo ≤ _root self < hi
      ∧ (∀ s label, lo ≤ s < hi →
           getitem (net_heap self) s label ≠ Some (_root self))
      ∧ (_patterns self ≠ [] →
           state_bool (net_heap self) (_root self) = true)
      ∧ ∀ word, walk (net_heap self) (Some (_root self)) word
                = matching_from 0 (_patterns self) word.


(** What is found for the shortest prefix of [word] for which something is
    found, where [found prefix] is what is found for a prefix; what is
    found for [word] itself when nothing is found for a shorter one. *)
Fixpoint first_found (found : list TermAtom → list nat)
    (word : list TermAtom) : list nat :=
  match word with
  | [] => found []
  | a :: rest =>
      match found [] with
      | [] => first_found (λ w, found (a :: w)) rest
      | result => result
      end
  end.


(** The matcher driver in the words of the spec (section 4.6), to be
    compared with [_match].  First, a matching symbol-wildcard transition:
    the target of the first transition of [state] that is labelled with a
    symbol category to which a symbol of type [symbol_type] belongs. *)
Definition symbol_wildcard_transition (h : Heap) (state : nat)
    (symbol_type : SymbolClass) : option nat :=
  st ← objects h !! state;
  snd <$> find (λ t, match t.1 with
                     | LTerm (ASymbolType c) => issubclass_symbol symbol_type c
                     | _ => false
                     end) (transitions st).

(** What the lookup of an atom at nesting depth 0 comes to. *)
Inductive Lookup :=
| Follow (target : nat)
| SkipSubtree (target : nat)
| NoResult
| NoTransition
| NonTerminalAtom.

(** The spec's lookup of an atom in [state]: the exact transition first;
    failing that, an [OPERATION_END] ends the match with no result, an
    operation head takes the generic wildcard transition and has its
    subtree skipped, a symbol takes a matching symbol-wildcard transition
    and then the generic wildcard transition.  Any other atom without exact
    transition is not an atom of a constant subject. *)
Definition lookup_order (h : Heap) (state : nat) (term : TermAtom) : Lookup :=
  match getitem h state (LTerm term) with
  | Some exact => Follow exact
  | None =>
      match term with
      | OPERATION_END => NoResult
      | AOperation _ =>
          match getitem h state LWildcard with
          | Some any => SkipSubtree any
          | None => NoTransition
          end
      | ASymbol _ symbol_type =>
          match symbol_wildcard_transition h state symbol_type with
          | Some category => Follow category
          | None =>
              match getitem h state LWildcard with
              | Some any => Follow any
              | None => NoTransition
              end
          end
      | _ => NonTerminalAtom
      end
  end.

(** The spec's matcher driver.  With [counter] at 0 each atom is looked up
    in [state], and the payload of the state that is entered is added to
    [result]; in first-hit mode a state with a payload ends the run before
    the next atom is looked up.  With [counter] above 0 the driver is in
    skip-subtree mode: the counter goes up on each operation head and down
    on each [OPERATION_END], and [state] is not touched.  At the end of the
    tape the collect mode gives all of [result], the last-state mode the
    payload of [state]. *)
Fixpoint matcher_driver (h : Heap) (collect first : bool) (state : nat)
    (counter : nat) (result : list nat) (tape : list TermAtom)
    : Result (list nat) :=
  match tape with
  | [] => Returns (if collect then result else get_payload h state)
  | term :: rest =>
      match counter with
      | S below =>
          matcher_driver h collect first state
            (if is_operation term then S counter
             else if decide (term = OPERATION_END) then below
             else counter)
            result rest
      | 0 =>
          if first && negb (bool_decide (get_payload h state = [])) then
            Returns (get_payload h state)
          else
            match lookup_order h state term with
            | Follow target =>
                matcher_driver h collect first target 0
                  (result ++ get_payload h target) rest
            | SkipSubtree target =>
                matcher_driver h collect first target 1
                  (result ++ get_payload h target) rest
            | NoResult => Returns []
            | NoTransition => Returns (if collect then result else [])
            | NonTerminalAtom => Raises TypeError
            end
      end
  end.


(** The operation a pattern establishes on a matcher that has none yet: its
    own, when it is a non-commutative operation. *)
Definition establishes (pattern : Expression) : option OperationClass :=
  match pattern with
  | EOperation op _ => if commutative op then None else Some op
  | _ => None
  end.

(** The established operation of a matcher to which the patterns [previous]
    were offered, in this order: the operation of the first of them that is
    a non-commutative operation. *)
Fixpoint established (previous : list Expression) : option OperationClass :=
  match previous with
  | [] => None
  | pattern :: later =>
      match establishes pattern with
      | Some operation => Some operation
      | None => established later
      end
  end.

(** The accepted shape of the spec for a pattern offered after [previous]:
    its outer operation is accepted and so are its operands. *)
Definition shape_accepted (previous : list Expression) (pattern : Expression)
    : bool :=
  outer_operation_accepted (established previous) pattern
  && operands_accepted pattern.

(** The patterns of [later] that are registered when they are offered in
    this order after [earlier]: those of the accepted shape. *)
Fixpoint registered_after (earlier later : list Expression)
    : list Expression :=
  match later with
  | [] => []
  | pattern :: later' =>
      (if shape_accepted earlier pattern then [pattern] else [])
      ++ registered_after (earlier ++ [pattern]) later'
  end.

(** The previously registered patterns. *)
Definition registered (previous : list Expression) : list Expression :=
  registered_after [] previous.

(* ===================================================================== *)
(** * Properties *)
(* ===================================================================== *)

Section FlatTermFacts.

Lemma combined_loop_split acc l1 a l2 :
  is_plain_wildcard a = false →
  combined_loop acc (l1 ++ a :: l2)
  = combined_loop acc l1 ++ a :: combined_loop None l2.
Proof.
  intros Ha. revert acc.
  induction l1 as [|t l1 IH]; intros acc; simpl.
  - rewrite Ha. destruct acc as [[m f]|]; reflexivity.
  - destruct (is_plain_wildcard t).
    + destruct acc as [[m f]|]; apply IH.
    + rewrite IH, <- app_assoc. reflexivity.
Qed.

Lemma combined_loop_after_pre acc pre l :
  pre ≠ [] → not_plain_at (last pre) →
  combined_loop acc (pre ++ l)
  = combined_loop acc pre ++ combined_loop None l.
Proof.
  intros Hne Hlast.
  destruct (exists_last Hne) as (pre' & a & ->).
  rewrite last_snoc in Hlast.
  rewrite <- app_assoc. simpl.
  rewrite !combined_loop_split by (apply Hlast; reflexivity).
  simpl. rewrite <- app_assoc. reflexivity.
Qed.

Lemma combined_loop_run m f run rest :
  not_plain_at (head rest) →
  combined_loop (Some (m, f)) (map plain run ++ rest)
  = AWildcard (m + sum_list run.*1) (f && forallb id run.*2)
    :: combined_loop None rest.
Proof.
  intros Hrest. revert m f.
  induction run as [|[m' f'] run IH]; intros m f; simpl.
  - rewrite Nat.add_0_r, andb_true_r.
    destruct rest as [|a rest]; simpl; [reflexivity|].
    rewrite (Hrest a) by reflexivity. reflexivity.
  - rewrite IH. rewrite Nat.add_assoc, andb_assoc. reflexivity.
Qed.

Lemma combined_run run rest :
  run ≠ [] → not_plain_at (head rest) →
  combined_loop None (map plain run ++ rest)
  = AWildcard (sum_list run.*1) (forallb id run.*2)
    :: combined_loop None rest.
Proof.
  intros Hne Hrest. destruct run as [|[m f] run]; [done|].
  simpl. rewrite combined_loop_run by done. reflexivity.
Qed.

Lemma combined_loop_no_adjacent acc l :
  adjacent_plain_wildcards (combined_loop acc l) = false.
Proof.
  revert acc. induction l as [|t l IH]; intros acc; simpl.
  - destruct acc as [[m f]|]; reflexivity.
  - destruct (is_plain_wildcard t) eqn:Ht.
    + destruct acc as [[m f]|]; apply IH.
    + specialize (IH None).
      assert (Htl : adjacent_plain_wildcards (t :: combined_loop None l)
                    = false).
      { simpl. destruct (combined_loop None l); [reflexivity|].
        rewrite Ht. simpl. exact IH. }
      destruct acc as [[m f]|]; [|exact Htl].
      change (yield_last (Some (m, f)) ++ t :: combined_loop None l)
        with (AWildcard m f :: t :: combined_loop None l).
      change (adjacent_plain_wildcards
                (AWildcard m f :: t :: combined_loop None l))
        with (is_plain_wildcard (AWildcard m f) && is_plain_wildcard t
              || adjacent_plain_wildcards (t :: combined_loop None l)).
      rewrite Ht, Htl. reflexivity.
Qed.

End FlatTermFacts.

(** C3.  When a [FlatTerm] is made from an expression, a maximal run of
    consecutive plain wildcards on the flattened tape becomes one wildcard
    whose [min_count] is the sum of the run's and whose [fixed_size] is the
    conjunction of the run's; an atom that is not a plain wildcard (a symbol
    wildcard's class among them) is kept as it is and ends the run before
    it. *)
Theorem FlatTerm_combines_wildcard_runs (e : Expression) :
  (∀ pre run rest,
     _flatterm_iter e = pre ++ map plain run ++ rest →
     run ≠ [] → not_plain_at (last pre) → not_plain_at (head rest) →
     _terms (FlatTerm_init (inl e))
     = _combined_wildcards_iter pre
       ++ AWildcard (sum_list run.*1) (forallb id run.*2)
       :: _combined_wildcards_iter rest)
  ∧ (∀ pre a rest,
       _flatterm_iter e = pre ++ a :: rest →
       is_plain_wildcard a = false →
       _terms (FlatTerm_init (inl e))
       = _combined_wildcards_iter pre ++ a :: _combined_wildcards_iter rest)
  ∧ (∀ c, _flatterm_iter (ESymbolWildcard c) = [ASymbolType c]
          ∧ is_plain_wildcard (ASymbolType c) = false
          ∧ is_plain_wildcard (ASymbolWildcard c) = false).
Proof.
  split; [|split].
  - intros pre run rest He Hrun Hpre Hrest. simpl. rewrite He.
    unfold _combined_wildcards_iter.
    destruct pre as [|p pre].
    + simpl. apply combined_run; assumption.
    + rewrite combined_loop_after_pre by done.
      rewrite combined_run by done. reflexivity.
  - intros pre a rest He Ha. simpl. rewrite He.
    apply combined_loop_split, Ha.
  - intros c. repeat split.
Qed.

(** The run [_ __ __] under [f] is fused into [_[3+]], next to a symbol
    wildcard that stays. *)
Lemma FlatTerm_combines_wildcard_runs_witness :
  let f := mkOperationClass "f" (mkArity 0 false) false false in
  _terms (FlatTerm_init (inl (EOperation f
            [EWildcard 1 true; EWildcard 1 false; EWildcard 1 false;
             ESymbolWildcard []])))
  = [AOperation f; AWildcard 3 false; ASymbolType []; OPERATION_END].
Proof.
  intros f.
  apply (proj1 (FlatTerm_combines_wildcard_runs
                  (EOperation f [EWildcard 1 true; EWildcard 1 false;
                                 EWildcard 1 false; ESymbolWildcard []]))
           [AOperation f] [(1, true); (1, false); (1, false)]
           [ASymbolType []; OPERATION_END]).
  - reflexivity.
  - discriminate.
  - intros a [= <-]; reflexivity.
  - intros a [= <-]; reflexivity.
Defined.

(** C4, as the code has it.  A [FlatTerm] made from an expression or by
    [merged] has no two adjacent plain wildcards; the constructor stores a
    raw sequence of atoms unchanged, so such a tape has adjacent plain
    wildcards exactly when the sequence has. *)
Theorem FlatTerm_no_adjacent_wildcards :
  (∀ e : Expression,
     adjacent_plain_wildcards (_terms (FlatTerm_init (inl e))) = false)
  ∧ (∀ flatterms : list FlatTerm,
       adjacent_plain_wildcards (_terms (FlatTerm_merged flatterms)) = false)
  ∧ (∀ terms : list TermAtom, _terms (FlatTerm_init (inr terms)) = terms).
Proof.
  split; [|split].
  - intros e. apply combined_loop_no_adjacent.
  - intros flatterms. apply combined_loop_no_adjacent.
  - reflexivity.
Qed.

(** C4, as stated, fails for the public constructor on a raw sequence: the
    tape of [FlatTerm([_, _])] is the sequence itself. *)
Lemma FlatTerm_raw_sequence_keeps_adjacent_wildcards :
  adjacent_plain_wildcards
    (_terms (FlatTerm_init (inr [AWildcard 1 true; AWildcard 1 true]))) = true.
Proof. reflexivity. Qed.

Lemma is_syntactic_loop_spec (terms : list TermAtom) :
  is_syntactic_loop terms = true ↔
  Forall (λ a, (isinstance_Wildcard a = true → wc_fixed_size a = true)
               ∧ op_not_syntactic a = false) terms.
Proof.
  induction terms as [|a terms IH]; simpl.
  - split; [constructor|reflexivity].
  - rewrite Forall_cons, <- IH. clear IH.
    destruct a as [| m [] | | op | |]; simpl;
      try (split; [intros H; repeat split; auto | intros [_ H]; exact H]).
    + split; [discriminate | intros [[H _] _]; discriminate (H eq_refl)].
    + destruct (commutative op || associative op) eqn:E; simpl.
      * split; [discriminate | intros [[_ H] _]; discriminate H].
      * split; [intros H; repeat split; auto | intros [_ H]; exact H].
  Qed.

(** C5.  [is_syntactic] is [True] exactly when every [Wildcard] atom of the
    tape has [fixed_size] and no operation atom is the class of a commutative
    or associative operation. *)
Theorem is_syntactic_iff (t : FlatTerm) :
  is_syntactic t = true ↔
  (∀ a, a ∈ _terms t → isinstance_Wildcard a = true → wc_fixed_size a = true)
  ∧ (∀ op, AOperation op ∈ _terms t →
           commutative op = false ∧ associative op = false).
Proof.
  unfold is_syntactic. rewrite is_syntactic_loop_spec, Forall_forall.
  split.
  - intros H. split.
    + intros a Ha. apply (H a Ha).
    + intros op Hop. destruct (H _ Hop) as [_ Hn]. simpl in Hn.
      apply orb_false_iff in Hn. exact Hn.
  - intros [Hw Ho] a Ha. split; [apply Hw, Ha|].
    destruct a; try reflexivity. simpl.
    destruct (Ho _ Ha) as [-> ->]. reflexivity.
Qed.

Section MatchFacts.
Context (h : Heap) (collect first : bool).

(** Induction on expressions that reaches the operands. *)
Lemma Expression_nested_ind (P : Expression → Prop) :
  (∀ name e, P e → P (EVariable name e)) →
  (∀ op operands, Forall P operands → P (EOperation op operands)) →
  (∀ c, P (ESymbolWildcard c)) →
  (∀ name c, P (ESymbol name c)) →
  (∀ m f, P (EWildcard m f)) →
  ∀ e, P e.
Proof.
  intros HV HO HSW HS HW.
  fix IH 1. intros [name e|op operands|c|name c|m f].
  - apply HV, IH.
  - apply HO. induction operands as [|o os IHos]; constructor.
    + apply IH.
    + apply IHos.
  - apply HSW.
  - apply HS.
  - apply HW.
Qed.

Lemma flatterm_iter_operation op operands :
  _flatterm_iter (EOperation op operands)
  = AOperation op :: operands_tape operands.
Proof. reflexivity. Qed.

(** In skip mode a whole sub-expression leaves the loop state as it is. *)
Lemma match_loop_skips_expression (e : Expression) :
  ∀ state d result rest,
    (0 < d)%Z →
    match_loop h collect first (mkMatchState state d result)
      (_flatterm_iter e ++ rest)
    = match_loop h collect first (mkMatchState state d result) rest.
Proof.
  induction e as [name e IH|op operands IH|c|name c|m f]
    using Expression_nested_ind; intros state d result rest Hd.
  - apply IH, Hd.
  - rewrite flatterm_iter_operation.
    change ((AOperation op :: operands_tape operands) ++ rest)
      with (AOperation op :: (operands_tape operands ++ rest)).
    cbn [match_loop]. unfold match_step at 1. cbn [m_depth m_state m_result].
    destruct (Z.ltb_spec 0 d) as [_|]; [|lia].
    cbn [is_operation mbind Result_bind].
    assert (Hops : ∀ d', (0 < d')%Z →
      match_loop h collect first (mkMatchState state (d' + 1) result)
        (operands_tape operands ++ rest)
      = match_loop h collect first (mkMatchState state d' result) rest).
    { intros d' Hd'. induction IH as [|o os Ho _ IHos].
      - cbn [operands_tape app match_loop]. unfold match_step.
        cbn [m_depth m_state m_result].
        destruct (Z.ltb_spec 0 (d' + 1)) as [_|]; [|lia].
        cbn [is_operation]. destruct (decide _) as [_|]; [|done].
        cbn [mbind Result_bind]. replace (d' + 1 - 1)%Z with d' by lia.
        reflexivity.
      - change (operands_tape (o :: os))
          with (_flatterm_iter o ++ operands_tape os).
        rewrite <- app_assoc, Ho by lia. exact IHos. }
    apply Hops, Hd.
  - cbn [_flatterm_iter app match_loop]. unfold match_step.
    cbn [m_depth]. destruct (Z.ltb_spec 0 d) as [_|]; [|lia]. reflexivity.
  - cbn [_flatterm_iter app match_loop]. unfold match_step.
    cbn [m_depth]. destruct (Z.ltb_spec 0 d) as [_|]; [|lia]. reflexivity.
  - cbn [_flatterm_iter app match_loop]. unfold match_step.
    cbn [m_depth]. destruct (Z.ltb_spec 0 d) as [_|]; [|lia]. reflexivity.
Qed.

Lemma match_loop_skips_operands (operands : list Expression) :
  ∀ state d result rest,
    (0 <= d)%Z →
    match_loop h collect first (mkMatchState state (d + 1) result)
      (operands_tape operands ++ rest)
    = match_loop h collect first (mkMatchState state d result) rest.
Proof.
  induction operands as [|o os IH]; intros state d result rest Hd.
  - cbn [operands_tape app match_loop]. unfold match_step.
    cbn [m_depth m_state m_result].
    destruct (Z.ltb_spec 0 (d + 1)) as [_|]; [|lia].
    cbn [is_operation]. destruct (decide _) as [_|]; [|done].
    cbn [mbind Result_bind]. replace (d + 1 - 1)%Z with d by lia.
    reflexivity.
  - change (operands_tape (o :: os))
      with (_flatterm_iter o ++ operands_tape os).
    rewrite <- app_assoc, match_loop_skips_expression by lia.
    apply IH, Hd.
Qed.

End MatchFacts.

(** C8 fails for a [SequenceMatcher] without patterns: [operation] is still
    [None], and [match] raises [TypeError] for every subject instead of
    yielding nothing. *)
Theorem SequenceMatcher_match_without_patterns_raises
    {Substitution : Type} (Substitution_init : Substitution)
    (extract_substitution : Substitution → Term → Term → Substitution * bool)
    (try_add_variable :
       Substitution → string → list Expression → option Substitution)
    (subject : Expression) :
  SequenceMatcher_match Substitution_init extract_substitution
    try_add_variable SequenceMatcher_init subject
  = Raises TypeError.
Proof. reflexivity. Qed.

Lemma collect_yields_elem {A B} (body : A → Result (list B)) (xs : list A)
    (results : list B) (r : B) :
  collect_yields body xs = Returns results → r ∈ results →
  ∃ x ys, x ∈ xs ∧ body x = Returns ys ∧ r ∈ ys.
Proof.
  revert results. induction xs as [|x xs IH]; intros results Hc Hr; cbn in Hc.
  - injection Hc as <-. inversion Hr.
  - destruct (body x) as [ys| |] eqn:Ex; [|done..]. cbn in Hc.
    destruct (collect_yields body xs) as [rest| |]; [|done..].
    cbn in Hc. injection Hc as <-.
    apply elem_of_app in Hr as [Hr|Hr].
    + exists x, ys. split; [left|]. split; [exact Ex|exact Hr].
    + destruct (IH rest eq_refl Hr) as (x' & ys' & Hx' & Hb & Hy).
      exists x', ys'. split; [right; exact Hx'|]. split; assumption.
Qed.

Lemma add_patterns {T} (self : DiscriminationNet T) pattern final_label :
  _patterns (DiscriminationNet_add self pattern final_label).1
  = _patterns self ++ [(pattern, final_label)].
Proof.
  unfold DiscriminationNet_add.
  destruct (pattern_net _ _ _) as [[net h]| |]; [|reflexivity..].
  destruct (state_bool h (_root self)); [|reflexivity].
  destruct (_product_net _ _ _) as [[root h']| |]; reflexivity.
Qed.

Lemma added_patterns {T} (later : list (Term * option T)) :
  ∀ self : DiscriminationNet T,
    _patterns (added self later) = _patterns self ++ later.
Proof.
  induction later as [|[p l] later IH]; intros self; simpl.
  - rewrite app_nil_r. reflexivity.
  - change (added self ((p, l) :: later))
      with (added (DiscriminationNet_add self p l).1 later).
    rewrite IH, add_patterns, <- app_assoc. reflexivity.
Qed.

(** C10.  [add] without [final_label] stores [None] as the pattern's label;
    later calls of [add] leave the entry alone; and what [match] yields for
    the pattern's index has [None] as its first component, whatever the
    subject.  Every pair [match] yields carries the label stored for one of
    the indices that [_match] returned. *)
Theorem add_without_label_stores_None {T Substitution : Type}
    (Substitution_init : Substitution)
    (extract_substitution : Substitution → Term → Term → Substitution * bool)
    (constraints_hold : Term → Substitution → bool)
    (self : DiscriminationNet T) (pattern : Term)
    (later : list (Term * option T)) :
  let index := length (_patterns self) in
  let net := added (DiscriminationNet_add self pattern None).1 later in
  _patterns (DiscriminationNet_add self pattern None).1 !! index
  = Some (pattern, None)
  ∧ _patterns net !! index = Some (pattern, None)
  ∧ (∀ subject results,
       match_index Substitution_init extract_substitution constraints_hold
         net subject index = Returns results →
       ∀ r, r ∈ results → r.1 = None)
  ∧ (∀ subject results,
       DiscriminationNet_match Substitution_init extract_substitution
         constraints_hold net subject = Returns results →
       ∀ r, r ∈ results →
         ∃ indices i p,
           _match net subject false false = Returns indices
           ∧ i ∈ indices ∧ _patterns net !! i = Some (p, r.1)).
Proof.
  intros index net.
  assert (Hentry : _patterns net !! index = Some (pattern, None)).
  { subst net index. rewrite added_patterns, add_patterns, <- app_assoc.
    rewrite lookup_app_r by lia. rewrite Nat.sub_diag. reflexivity. }
  split; [|split; [exact Hentry|split]].
  - subst index. rewrite add_patterns, lookup_app_r by lia.
    rewrite Nat.sub_diag. reflexivity.
  - intros subject results Hm r Hr. unfold match_index in Hm.
    rewrite Hentry in Hm. cbn in Hm.
    destruct (extract_substitution _ _ _) as [subst ok].
    destruct ok;
      [destruct pattern as [e|flatterm];
         [destruct (constraints_hold _ _)|discriminate]|].
    + injection Hm as <-. apply list_elem_of_singleton in Hr as ->. reflexivity.
    + injection Hm as <-. inversion Hr.
    + injection Hm as <-. inversion Hr.
  - intros subject results Hm r Hr. unfold DiscriminationNet_match in Hm.
    destruct (_match net subject false false) as [indices| |]; [|done..].
    cbn in Hm. exists indices.
    destruct (collect_yields_elem _ _ _ _ Hm Hr) as (i & ys & Hi & Ei & Hys).
    unfold match_index in Ei.
    destruct (_patterns net !! i) as [[p l]|] eqn:Ep; [|done].
    cbn in Ei. destruct (extract_substitution _ _ _) as [subst ok].
    exists i, p. split; [reflexivity|]. split; [exact Hi|].
    destruct ok;
      [destruct p as [e|flatterm];
         [destruct (constraints_hold _ _)|discriminate]|];
      injection Ei as <-; try (inversion Hys; fail).
    apply list_elem_of_singleton in Hys as ->. exact Ep.
Qed.

(** A net with the single pattern [a], added without label: the subject [a]
    is matched and the pair yielded has the label [None]. *)
Lemma add_without_label_stores_None_witness :
  let a : Term := inl (ESymbol "a" []) in
  let net := (DiscriminationNet_add (@DiscriminationNet_init nat) a None).1 in
  match_index tt (λ s _ _, (s, true)) (λ _ _, true) net a 0
  = Returns [(None, tt)]
  ∧ (None : option nat, tt).1 = None.
Proof.
  intros a net. split; [reflexivity|].
  apply (proj1 (proj2 (proj2
           (add_without_label_stores_None tt (λ s _ _, (s, true))
              (λ _ _, true) (@DiscriminationNet_init nat) a [])))
           a [(None, tt)] eq_refl (None, tt)).
  left.
Defined.

(** C1 fails on the code.  For the patterns [_] and [f(a)] and the word of
    [f()], the automaton of [_] ends in its accepting state, the automaton of
    [f(a)] has no transition for [OPERATION_END] after [f], and the product
    automaton has none either: in the state it is in after [f], the first
    side is pinned on its wildcard and the second is still alive, so
    [labels] leaves out [OPERATION_END].  The product reports nothing where
    the union has pattern 0; a net holding both patterns does not match
    [f()], a net holding [_] alone does. *)
Theorem _product_net_loses_wildcard_side :
  let f := mkOperationClass "f" (mkArity 0 false) false false in
  let A : Term := inl (EWildcard 1 true) in
  let B : Term := inl (EOperation f [ESymbol "a" []]) in
  let subject : Term := inl (EOperation f []) in
  let word := _terms (to_flatterm subject) in
  ('(a, h1) ← pattern_net empty_heap A 0;
   '(b, h2) ← pattern_net h1 B 1;
   '(p, h3) ← _product_net h2 a b;
   in_a ← read h3 a word;
   in_b ← read h3 b word;
   in_p ← read h3 p word;
   Returns (in_a, in_b, in_p)) = Returns ([0], [], [])
  ∧ _match (added (@DiscriminationNet_init nat) [(A, None)]) subject
      false false = Returns [0]
  ∧ _match (added (@DiscriminationNet_init nat) [(A, None); (B, None)]) subject
      false false = Returns [].
Proof. vm_compute. repeat split. Qed.

(** C2 fails on the code.  The automata of [___] and of [x___] are a single
    state without transitions.  [add] takes a root without transitions for
    the root of a new net and replaces it by the automaton of the second
    pattern instead of the product, so the first pattern is lost: on the
    empty flatterm the net reports the pattern that was added last, a
    different one in the two orders. *)
Theorem add_order_changes_accepted_patterns :
  let p1 : Term := inl (EWildcard 0 false) in
  let p2 : Term := inl (EVariable "x" (EWildcard 0 false)) in
  let subject : Term := inr FlatTerm_empty in
  accepted (added (@DiscriminationNet_init nat) [(p1, None); (p2, None)])
    subject = Returns [Some (p2, None)]
  ∧ accepted (added (@DiscriminationNet_init nat) [(p2, None); (p1, None)])
      subject = Returns [Some (p1, None)].
Proof. vm_compute. split; reflexivity. Qed.

(* ===================================================================== *)
(** ** The net builders return *)
(* ===================================================================== *)

Section Loops.
Context {St R : Type} (body : St → Result (St + R)).

Lemma iterate_add (n m : nat) (s : St) :
  iterate (n + m) body s
  = match iterate n body s with
    | Returns (inl s') => iterate m body s'
    | other => other
    end.
Proof.
  revert s. induction n as [|n IH]; intros s; simpl; [reflexivity|].
  destruct (body s) as [[s'|r]| |]; try reflexivity. apply IH.
Qed.

Lemma while_pow2_iterate (k : nat) (s : St) :
  while_pow2 k body s = iterate (2 ^ k) body s.
Proof.
  revert s. induction k as [|k IH]; intros s.
  - simpl. destruct (body s) as [[s'|r]| |]; reflexivity.
  - cbn [while_pow2]. replace (2 ^ S k) with (2 ^ k + 2 ^ k) by (simpl; lia).
    rewrite iterate_add, IH.
    destruct (iterate (2 ^ k) body s) as [[s'|r]| |]; try reflexivity.
    apply IH.
Qed.

Lemma iterate_done_le (n m : nat) (s : St) (r : R) :
  n ≤ m → iterate n body s = Returns (inr r) →
  iterate m body s = Returns (inr r).
Proof.
  intros Hle Hn. replace m with (n + (m - n)) by lia.
  rewrite iterate_add, Hn. reflexivity.
Qed.

Lemma while_loop_done (k n : nat) (s : St) (r : R) :
  n ≤ 2 ^ k → iterate n body s = Returns (inr r) →
  while_loop k body s = Returns r.
Proof.
  intros Hle Hn. unfold while_loop.
  rewrite while_pow2_iterate, (iterate_done_le n _ s r Hle Hn). reflexivity.
Qed.

Lemma while_loop_returns (k : nat) (s : St) (r : R) :
  while_loop k body s = Returns r → iterate (2 ^ k) body s = Returns (inr r).
Proof.
  unfold while_loop. rewrite while_pow2_iterate.
  destruct (iterate (2 ^ k) body s) as [[s'|r']| |]; try discriminate.
  intros [= ->]. reflexivity.
Qed.

(** A loop invariant holds in the state from which the loop is left. *)
Lemma iterate_invariant (Inv : St → Prop) :
  (∀ s s', Inv s → body s = Returns (inl s') → Inv s') →
  ∀ n s r, Inv s → iterate n body s = Returns (inr r) →
    ∃ s_last, Inv s_last ∧ body s_last = Returns (inr r).
Proof.
  intros Hstep. induction n as [|n IH]; intros s r Hs Hn; simpl in Hn.
  - discriminate.
  - destruct (body s) as [[s'|r']| |] eqn:Hb; try discriminate.
    + eapply IH; [|exact Hn]. eapply Hstep; eassumption.
    + injection Hn as ->. exists s. split; assumption.
Qed.

(** A loop whose body, under the invariant, neither raises nor is cut, and
    makes a measure go down when it stays in the loop, is left after at most
    [measure + 1] rounds. *)
Lemma iterate_terminates (Inv : St → Prop) (measure : St → nat) :
  (∀ s, Inv s →
     match body s with
     | Returns (inl s') => Inv s' ∧ measure s' < measure s
     | Returns (inr _) => True
     | _ => False
     end) →
  ∀ s, Inv s →
    ∃ n r s_last, n ≤ S (measure s) ∧ iterate n body s = Returns (inr r)
                  ∧ Inv s_last ∧ body s_last = Returns (inr r).
Proof.
  intros Hstep s. remember (measure s) as m eqn:Hm.
  revert s Hm. induction m as [m IH] using lt_wf_ind. intros s -> Hs.
  pose proof (Hstep s Hs) as Hb.
  destruct (body s) as [[s'|r]| |] eqn:Eb; try done.
  - destruct Hb as [Hs' Hlt].
    destruct (IH _ Hlt s' eq_refl Hs') as (n & r & sl & Hn & Hit & Hsl & Hbl).
    exists (S n), r, sl. repeat split; try assumption; [lia|].
    simpl. rewrite Eb. exact Hit.
  - exists 1, r, s. repeat split; try assumption; [lia|].
    simpl. rewrite Eb. reflexivity.
Qed.

(** The same with a count that goes up by one in each round but the last:
    it tells after how many rounds the loop is left. *)
Lemma iterate_terminates_count (Inv : St → Prop) (measure count : St → nat) :
  (∀ s, Inv s →
     match body s with
     | Returns (inl s') =>
         Inv s' ∧ measure s' < measure s ∧ count s' = S (count s)
     | Returns (inr _) => True
     | _ => False
     end) →
  ∀ s, Inv s →
    ∃ n r s_last, n ≤ S (measure s) ∧ iterate n body s = Returns (inr r)
                  ∧ Inv s_last ∧ body s_last = Returns (inr r)
                  ∧ count s + n = S (count s_last).
Proof.
  intros Hstep s. remember (measure s) as m eqn:Hm.
  revert s Hm. induction m as [m IH] using lt_wf_ind. intros s -> Hs.
  pose proof (Hstep s Hs) as Hb.
  destruct (body s) as [[s'|r]| |] eqn:Eb; try done.
  - destruct Hb as (Hs' & Hlt & Hc).
    destruct (IH _ Hlt s' eq_refl Hs')
      as (n & r & sl & Hn & Hit & Hsl & Hbl & Hcl).
    exists (S n), r, sl. repeat split; try assumption; [lia| |lia].
    simpl. rewrite Eb. exact Hit.
  - exists 1, r, s. repeat split; try assumption; [lia| |lia].
    simpl. rewrite Eb. reflexivity.
Qed.
End Loops.

Section ForEach.
Context {St L : Type} (body : St → L → Result St).

Lemma for_each_invariant (Inv : St → Prop) (ls : list L) :
  (∀ s l s', l ∈ ls → Inv s → body s l = Returns s' → Inv s') →
  ∀ s s', Inv s → for_each body s ls = Returns s' → Inv s'.
Proof.
  induction ls as [|l ls IH]; intros Hstep s s' Hs Hf; simpl in Hf.
  - injection Hf as <-. exact Hs.
  - destruct (body s l) as [s1| |] eqn:Hb; try discriminate. cbn in Hf.
    eapply IH; [|eapply Hstep; [left|exact Hs|exact Hb]|exact Hf].
    intros ? ? ? ?. apply Hstep. right. assumption.
Qed.

Lemma for_each_progress (Inv : St → Prop) (ls : list L) :
  (∀ s l, l ∈ ls → Inv s → ∃ s', body s l = Returns s' ∧ Inv s') →
  ∀ s, Inv s → ∃ s', for_each body s ls = Returns s' ∧ Inv s'.
Proof.
  induction ls as [|l ls IH]; intros Hstep s Hs; simpl.
  - exists s. split; [reflexivity|exact Hs].
  - destruct (Hstep s l) as (s1 & Hb & Hs1); [left|exact Hs|].
    rewrite Hb. cbn. apply IH; [|exact Hs1].
    intros ? ? ?. apply Hstep. right. assumption.
Qed.
End ForEach.

Lemma dict_get_set {V} (d : list (TransitionLabel * V)) k v k' :
  dict_get (dict_set d k v) k' = if decide (k = k') then Some v else dict_get d k'.
Proof.
  induction d as [|[k0 v0] d IH]; simpl.
  - destruct (decide (k = k')); reflexivity.
  - destruct (decide (k0 = k)) as [->|Hne]; simpl.
    + destruct (decide (k = k')); reflexivity.
    + destruct (decide (k0 = k')) as [->|Hne'].
      * destruct (decide (k = k')); [congruence|reflexivity].
      * exact IH.
Qed.

Lemma dict_get_keys {V} (d : list (TransitionLabel * V)) k :
  k ∈ d.*1 ↔ is_Some (dict_get d k).
Proof.
  induction d as [|[k0 v0] d IH]; simpl.
  - split; [intros H; inversion H | intros [? ?]; discriminate].
  - destruct (decide (k0 = k)) as [->|Hne].
    + split; [eauto | left].
    + rewrite <- IH. split.
      * intros H. inversion H; subst; [done|assumption].
      * intros H. right. exact H.
Qed.

Lemma alive_new_State p h s :
  alive (new_State p h).2 s ↔ s = _id h ∨ alive h s.
Proof.
  unfold alive, new_State; simpl.
  rewrite lookup_insert_is_Some. destruct (decide (_id h = s)); naive_solver.
Qed.

Lemma _id_new_State p h : _id (new_State p h).2 = S (_id h).
Proof. reflexivity. Qed.

Lemma getitem_new_State p h s label :
  getitem (new_State p h).2 s label
  = if decide (s = _id h) then None else getitem h s label.
Proof.
  unfold getitem, new_State; simpl.
  destruct (decide (s = _id h)) as [->|Hne].
  - rewrite lookup_insert_eq. reflexivity.
  - rewrite lookup_insert_ne by done. reflexivity.
Qed.

Lemma alive_setitem h s label t s' :
  alive (setitem h s label t) s' ↔ alive h s'.
Proof.
  unfold alive, setitem; simpl.
  destruct (decide (s = s')) as [->|Hne].
  - rewrite lookup_alter_eq. rewrite fmap_is_Some. reflexivity.
  - rewrite lookup_alter_ne by done. reflexivity.
Qed.

Lemma getitem_setitem h s label t s' label' :
  getitem (setitem h s label t) s' label'
  = if decide (s = s' ∧ label = label' ∧ alive h s) then Some t
    else getitem h s' label'.
Proof.
  unfold getitem, setitem, alive; simpl.
  destruct (decide (s = s')) as [->|Hne].
  - rewrite lookup_alter_eq.
    destruct (objects h !! s') as [st|] eqn:E; simpl.
    + rewrite dict_get_set.
      destruct (decide (label = label')) as [->|]; simpl.
      * rewrite decide_True by eauto. reflexivity.
      * rewrite decide_False by naive_solver. reflexivity.
    + rewrite decide_False; [reflexivity|]. intros (_ & _ & [? ?]). done.
  - rewrite lookup_alter_ne by done.
    rewrite decide_False by naive_solver. reflexivity.
Qed.

Lemma alive_set_payload h s p s' :
  alive (set_payload h s p) s' ↔ alive h s'.
Proof.
  unfold alive, set_payload; simpl.
  destruct (decide (s = s')) as [->|Hne].
  - rewrite lookup_alter_eq. rewrite fmap_is_Some. reflexivity.
  - rewrite lookup_alter_ne by done. reflexivity.
Qed.

Lemma getitem_set_payload h s p s' label :
  getitem (set_payload h s p) s' label = getitem h s' label.
Proof.
  unfold getitem, set_payload; simpl.
  destruct (decide (s = s')) as [->|Hne].
  - rewrite lookup_alter_eq. destruct (objects h !! s'); reflexivity.
  - rewrite lookup_alter_ne by done. reflexivity.
Qed.

Lemma preserved_refl g h : preserved g h g h.
Proof. intros s Hs. done. Qed.

Lemma preserved_trans g1 h1 g2 h2 g3 h3 :
  preserved g1 h1 g2 h2 → preserved g2 h2 g3 h3 → preserved g1 h1 g3 h3.
Proof.
  intros H12 H23 s Hs. destruct (H12 s Hs) as [Hs2 E2].
  destruct (H23 s Hs2) as [Hs3 E3]. split; [done|congruence].
Qed.

Lemma graded_new_State g h p z :
  graded g h → (- Z.of_nat (_id h) <= z <= Z.of_nat (_id h))%Z →
  graded (<[_id h := z]> g) (new_State p h).2
  ∧ preserved g h (<[_id h := z]> g) (new_State p h).2.
Proof.
  intros [Hpos Ha Ht] Hz.
  assert (Hfresh : ∀ s, alive h s → s ≠ _id h).
  { intros s Hs. destruct (Ha s Hs). lia. }
  split; [split|].
  - rewrite _id_new_State. lia.
  - intros s Hs. rewrite _id_new_State. apply alive_new_State in Hs as [->|Hs].
    + rewrite fn_lookup_insert. lia.
    + rewrite fn_lookup_insert_ne by (apply not_eq_sym, Hfresh, Hs).
      destruct (Ha s Hs). lia.
  - intros s label t Hg. rewrite getitem_new_State in Hg.
    destruct (decide (s = _id h)); [discriminate|].
    destruct (Ht s label t Hg) as [Halive Heq].
    assert (alive h s).
    { unfold getitem in Hg. unfold alive.
      destruct (objects h !! s); [eauto|discriminate]. }
    split; [apply alive_new_State; right; exact Halive|].
    rewrite !fn_lookup_insert_ne by (apply not_eq_sym, Hfresh; assumption).
    exact Heq.
  - intros s Hs. split; [apply alive_new_State; right; exact Hs|].
    apply fn_lookup_insert_ne, not_eq_sym, Hfresh, Hs.
Qed.

Lemma graded_setitem g h s label t :
  graded g h → alive h t → g t = (g s + delta label)%Z →
  graded g (setitem h s label t) ∧ preserved g h g (setitem h s label t).
Proof.
  intros [Hpos Ha Ht] Halive Hg. split; [split|].
  - exact Hpos.
  - intros s' Hs'. apply alive_setitem in Hs'. apply (Ha s' Hs').
  - intros s' label' t' Hget. rewrite getitem_setitem in Hget.
    destruct (decide _) as [(-> & -> & _)|_].
    + injection Hget as <-. split; [apply alive_setitem; exact Halive|exact Hg].
    + destruct (Ht _ _ _ Hget) as [? ?]. split; [apply alive_setitem|]; done.
  - intros s' Hs'. split; [apply alive_setitem; exact Hs'|reflexivity].
Qed.

Lemma graded_set_payload g h s p :
  graded g h → graded g (set_payload h s p) ∧ preserved g h g (set_payload h s p).
Proof.
  intros [Hpos Ha Ht]. split; [split|].
  - exact Hpos.
  - intros s' Hs'. apply alive_set_payload in Hs'. apply (Ha s' Hs').
  - intros s' label' t' Hget. rewrite getitem_set_payload in Hget.
    destruct (Ht _ _ _ Hget) as [? ?]. split; [apply alive_set_payload|]; done.
  - intros s' Hs'. split; [apply alive_set_payload; exact Hs'|reflexivity].
Qed.

Lemma getitem_alive h s label t : getitem h s label = Some t → alive h s.
Proof.
  unfold getitem, alive. destruct (objects h !! s); [eauto|discriminate].
Qed.

Lemma graded_empty_heap g : graded g empty_heap.
Proof.
  split.
  - simpl. lia.
  - intros s [st Hs]. simpl in Hs. rewrite lookup_empty in Hs. discriminate.
  - intros s label t Hg. unfold getitem in Hg. simpl in Hg.
    rewrite lookup_empty in Hg. discriminate.
Qed.

Lemma grows_trans g1 h1 g2 h2 g3 h3 :
  grows g1 h1 g2 h2 → grows g2 h2 g3 h3 → grows g1 h1 g3 h3.
Proof.
  intros [_ H12] [G3 H23]. split; [exact G3|].
  eapply preserved_trans; eassumption.
Qed.

Lemma child_state_grows g h s label c h' :
  graded g h → alive h s → _create_child_state h s label = (c, h') →
  ∃ g', grows g h g' h' ∧ alive h' c ∧ g' c = (g s + delta label)%Z
        ∧ ¬ alive h c.
Proof.
  intros G Hs Hc. unfold _create_child_state in Hc.
  change (new_State [] h) with (_id h, (new_State [] h).2) in Hc.
  cbv beta iota in Hc. injection Hc as <- <-.
  destruct (graded_alive _ _ G s Hs) as [Hlt Hb].
  set (z := (g s + delta label)%Z).
  assert (Hz : (- Z.of_nat (_id h) <= z <= Z.of_nat (_id h))%Z).
  { subst z. destruct label as [[]| |]; simpl; lia. }
  destruct (graded_new_State g h [] z G Hz) as [G1 P1].
  assert (Hn : alive (new_State [] h).2 (_id h)).
  { apply alive_new_State. left. reflexivity. }
  assert (Hne : s ≠ _id h) by lia.
  destruct (graded_setitem (<[_id h := z]> g) (new_State [] h).2 s label (_id h)
              G1 Hn) as [G2 P2].
  { rewrite fn_lookup_insert, fn_lookup_insert_ne by done. reflexivity. }
  exists (<[_id h := z]> g). split; [split|split; [|split]].
  - exact G2.
  - eapply preserved_trans; eassumption.
  - apply alive_setitem. exact Hn.
  - apply fn_lookup_insert.
  - intros Hal. destruct (graded_alive _ _ G _ Hal). lia.
Qed.

Lemma grows_refl g h : graded g h → grows g h g h.
Proof. intros G. split; [exact G|apply preserved_refl]. Qed.

Lemma state_chain_grows count : ∀ g h s label c h',
  graded g h → alive h s → delta label = 0%Z →
  _generate_state_chain h s label count = (c, h') →
  ∃ g', grows g h g' h' ∧ alive h' c ∧ g' c = g s.
Proof.
  induction count as [|count IH]; intros g h s label c h' G Hs Hd Hc;
    cbn [_generate_state_chain] in Hc.
  - injection Hc as <- <-. exists g.
    split; [apply grows_refl, G|]. split; [exact Hs|reflexivity].
  - destruct (_create_child_state h s label) as [s1 h1] eqn:E1.
    destruct (child_state_grows _ _ _ _ _ _ G Hs E1) as (g1 & Gr1 & Hs1 & Hg1 & _).
    destruct (IH g1 h1 s1 label c h' (proj1 Gr1) Hs1 Hd Hc)
      as (g2 & Gr2 & Hc2 & Hg2).
    exists g2. split; [eapply grows_trans; eassumption|]. split; [exact Hc2|].
    rewrite Hg2, Hg1, Hd. lia.
Qed.

Lemma syntactic_loop_grows flatterm : ∀ g h s c h',
  graded g h → alive h s →
  syntactic_loop h s flatterm = (c, h') →
  ∃ g', grows g h g' h' ∧ alive h' c.
Proof.
  induction flatterm as [|term rest IH]; intros g h s c h' G Hs Hc;
    cbn [syntactic_loop] in Hc.
  - injection Hc as <- <-. exists g.
    split; [apply grows_refl, G|exact Hs].
  - destruct (isinstance_Wildcard term).
    + destruct (_generate_state_chain h s LWildcard (wc_min_count term))
        as [s1 h1] eqn:E1.
      destruct (state_chain_grows _ _ _ _ LWildcard _ _ G Hs eq_refl E1)
        as (g1 & Gr1 & Hs1 & _).
      destruct (IH g1 h1 s1 c h' (proj1 Gr1) Hs1 Hc) as (g2 & Gr2 & Hc2).
      exists g2. split; [eapply grows_trans; eassumption|exact Hc2].
    + destruct (_create_child_state h s (LTerm term)) as [s1 h1] eqn:E1.
      destruct (child_state_grows _ _ _ _ _ _ G Hs E1) as (g1 & Gr1 & Hs1 & _).
      destruct (IH g1 h1 s1 c h' (proj1 Gr1) Hs1 Hc) as (g2 & Gr2 & Hc2).
      exists g2. split; [eapply grows_trans; eassumption|exact Hc2].
Qed.

Lemma root_grows g h p :
  graded g h →
  ∃ g', grows g h g' (new_State p h).2 ∧ alive (new_State p h).2 (_id h)
        ∧ g' (_id h) = 0%Z.
Proof.
  intros G.
  destruct (graded_new_State g h p 0%Z G) as [G1 P1]; [lia|].
  exists (<[_id h := 0%Z]> g). split; [split; assumption|]. split.
  - apply alive_new_State. left. reflexivity.
  - apply fn_lookup_insert.
Qed.

Lemma _generate_syntactic_net_grows g h flatterm final_label root h' :
  graded g h →
  _generate_syntactic_net h flatterm final_label = (root, h') →
  ∃ g', grows g h g' h' ∧ alive h' root ∧ g' root = 0%Z.
Proof.
  intros G Hn. unfold _generate_syntactic_net in Hn.
  change (new_State [] h) with (_id h, (new_State [] h).2) in Hn.
  cbv beta iota in Hn.
  destruct (root_grows g h [] G) as (g0 & Gr0 & Hr0 & Hg0).
  destruct (syntactic_loop _ _ _) as [state h1] eqn:E1.
  injection Hn as <- <-.
  destruct (syntactic_loop_grows _ _ _ _ _ _ (proj1 Gr0) Hr0 E1)
    as (g1 & Gr1 & Hs1).
  destruct (graded_set_payload g1 h1 state [final_label] (proj1 Gr1)) as [G2 P2].
  exists g1. split; [|split].
  - eapply grows_trans; [exact Gr0|]. eapply grows_trans; [exact Gr1|].
    split; assumption.
  - apply alive_set_payload. apply (proj2 Gr1 _ Hr0).
  - rewrite (proj2 (proj2 Gr1 _ Hr0)). exact Hg0.
Qed.


Section Agrees.
Context (h h' : Heap) (A : agrees h h').

Lemma agrees_getitem s label : s < _id h → getitem h' s label = getitem h s label.
Proof. intros Hs. unfold getitem. rewrite (A s Hs). reflexivity. Qed.

Lemma agrees_keys s : s < _id h → keys h' s = keys h s.
Proof. intros Hs. unfold keys. rewrite (A s Hs). reflexivity. Qed.

Lemma agrees_get_payload s : s < _id h → get_payload h' s = get_payload h s.
Proof. intros Hs. unfold get_payload. rewrite (A s Hs). reflexivity. Qed.

Lemma agrees_symbol_wildcard s symbol :
  s < _id h →
  _get_symbol_wildcard_label h' s symbol = _get_symbol_wildcard_label h s symbol.
Proof.
  intros Hs. unfold _get_symbol_wildcard_label. rewrite agrees_keys by done.
  reflexivity.
Qed.

Lemma agrees_next_state s label f :
  (∀ x, s = Some x → x < _id h) →
  _get_next_state h' s label f = _get_next_state h s label f.
Proof.
  intros Hs. unfold _get_next_state. destruct f; [reflexivity|].
  destruct s as [x|]; [|reflexivity]. specialize (Hs x eq_refl).
  rewrite !agrees_getitem by done.
  destruct label as [[]| |]; try rewrite agrees_symbol_wildcard by done;
    try reflexivity.
  destruct (getitem h x _); [reflexivity|].
  destruct (decide _); [reflexivity|].
  destruct (_get_symbol_wildcard_label h x _); [|reflexivity].
  rewrite agrees_getitem by done. reflexivity.
Qed.
End Agrees.

Lemma keys_getitem h s label :
  label ∈ keys h s ↔ is_Some (getitem h s label).
Proof.
  unfold keys, getitem. destruct (objects h !! s) as [st|]; simpl.
  - apply dict_get_keys.
  - split; [intros H; inversion H | intros [? ?]; discriminate].
Qed.

Lemma symbol_wildcard_label_spec h s symbol key :
  _get_symbol_wildcard_label h s symbol = Some key →
  key ∈ keys h s ∧ delta key = 0%Z.
Proof.
  unfold _get_symbol_wildcard_label. intros Hf.
  apply find_some in Hf as [Hin Hp].
  split; [apply list_elem_of_In; exact Hin|].
  destruct key as [[]| |]; try discriminate; reflexivity.
Qed.

(** What [_get_next_state] gives for a state of a graded heap. *)
Lemma next_state_spec g h s label t w :
  graded g h → alive h s →
  _get_next_state h (Some s) label false = (t, w) →
  match t with
  | None => w = false ∧ getitem h s label = None
  | Some t' =>
      alive h t'
      ∧ if w then
          getitem h s label = None ∧ getitem h s LWildcard = Some t'
          ∧ label ≠ LTerm OPERATION_END ∧ g t' = g s
        else
          g t' = (g s + delta label)%Z
          ∧ (label_is_operation label = true → getitem h s label = Some t')
  end.
Proof.
  intros G Hs. unfold _get_next_state.
  destruct (getitem h s label) as [t0|] eqn:E.
  { intros [= <- <-]. destruct (graded_trans _ _ G _ _ _ E). done. }
  destruct (decide (label = LTerm OPERATION_END)) as [->|Hne].
  { intros [= <- <-]. done. }
  assert (Hw : ∀ t w,
    match getitem h s LWildcard with
    | Some t1 => (Some t1, true)
    | None => (None, false)
    end = (t, w) →
    match t with
    | None => w = false ∧ None = (None : option nat)
    | Some t' =>
        alive h t'
        ∧ (if w
           then
            None = (None : option nat) ∧ getitem h s LWildcard = Some t'
            ∧ label ≠ LTerm OPERATION_END ∧ g t' = g s
           else g t' = (g s + delta label)%Z
                ∧ (label_is_operation label = true → None = Some t'))
    end).
  { intros t1 w1. destruct (getitem h s LWildcard) as [t2|] eqn:E2.
    - intros [= <- <-]. destruct (graded_trans _ _ G _ _ _ E2) as [? Hg].
      simpl in Hg. repeat split; try done. lia.
    - intros [= <- <-]. done. }
  destruct label as [[name c| | | | |]| |]; try apply Hw.
  destruct (_get_symbol_wildcard_label h s (ASymbol name c)) as [key|] eqn:Ek;
    [|apply Hw].
  destruct (symbol_wildcard_label_spec _ _ _ _ Ek) as [Hk Hd].
  destruct (getitem h s key) as [t1|] eqn:E1.
  - intros [= <- <-]. destruct (graded_trans _ _ G _ _ _ E1) as [? Hg].
    rewrite Hd in Hg. simpl. split; [done|]. split; [lia|discriminate].
  - intros [= <- <-]. done.
Qed.

Lemma delta_operation label : label_is_operation label = true → delta label = 1%Z.
Proof. destruct label as [[]| |]; try discriminate; reflexivity. Qed.

Lemma delta_other label :
  label_is_operation label = false → label ≠ LTerm OPERATION_END →
  delta label = 0%Z.
Proof. destruct label as [[]| |]; try discriminate; try reflexivity; done. Qed.

(** [_get_next_state] on a side that is not pinned. *)
Lemma advance g h st label t w :
  graded g h → (∀ s, st = Some s → alive h s) →
  _get_next_state h st label false = (t, w) →
  (∀ x, t = Some x →
     alive h x
     ∧ ∃ s, st = Some s
            ∧ (w = false → g x = (g s + delta label)%Z)
            ∧ (w = true →
                 getitem h s label = None ∧ getitem h s LWildcard = Some x
                 ∧ label ≠ LTerm OPERATION_END ∧ g x = g s))
  ∧ (t = None → w = false)
  ∧ (∀ s x, st = Some s → getitem h s label = Some x → t = Some x ∧ w = false).
Proof.
  intros G Hst Hn. destruct st as [s|].
  - pose proof (next_state_spec g h s label t w G (Hst s eq_refl) Hn) as Hs.
    split; [|split].
    + intros x ->. destruct Hs as [Hx Hs]. split; [exact Hx|].
      exists s. split; [reflexivity|].
      destruct w; split; try discriminate; intros _; [exact Hs|apply Hs].
    + intros ->. apply Hs.
    + intros s' x [= <-] Hx. unfold _get_next_state in Hn. rewrite Hx in Hn.
      injection Hn as <- <-. done.
  - injection Hn as <- <-. split; [|split]; [discriminate|done|discriminate].
Qed.

Lemma elem_of_labels h q label :
  label ∈ labels h q →
  (∃ s, state1 q = Some s ∧ fixed q ≠ 1 ∧ label ∈ keys h s)
  ∨ (∃ s, state2 q = Some s ∧ fixed q ≠ 2 ∧ label ∈ keys h s)
  ∨ (fixed q ≠ 0
     ∧ (label = LWildcard
        ∨ (label = LTerm OPERATION_END
           ∧ ((fixed q = 1 ∧ state2 q = None)
              ∨ (fixed q = 2 ∧ state1 q = None))))).
Proof.
  unfold labels. rewrite elem_of_remove_dups, !elem_of_app.
  intros [H|[H|H]].
  - left. destruct (state1 q) as [s|]; [|inversion H].
    destruct (decide (fixed q = 1)); [inversion H|]. eauto.
  - right. left. destruct (state2 q) as [s|]; [|inversion H].
    destruct (decide (fixed q = 2)); [inversion H|]. eauto.
  - right. right. destruct (decide (fixed q = 0)); [inversion H|].
    split; [done|]. apply elem_of_app in H as [H|H].
    + right. destruct (decide (fixed q = 1)).
      * destruct (state2 q); [inversion H|].
        apply list_elem_of_singleton in H. eauto.
      * destruct (decide (fixed q = 2)); [|inversion H].
        destruct (state1 q); [inversion H|].
        apply list_elem_of_singleton in H. eauto.
    + left. apply list_elem_of_singleton in H. exact H.
Qed.



Lemma alive_pos g h s : graded g h → alive h s → s ≠ 0 ∧ s < _id h.
Proof. intros G Hs. destruct (graded_alive _ _ G s Hs). lia. Qed.

Lemma alive_bound g h s :
  graded g h → alive h s → (- Z.of_nat (_id h) < g s < Z.of_nat (_id h))%Z.
Proof. intros G Hs. destruct (graded_alive _ _ G s Hs). lia. Qed.

Lemma key_grade_both g a b d :
  a ≠ 0 → b ≠ 0 → key_grade g (a, b, d) = Z.max (g a) (g b).
Proof. intros. unfold key_grade. rewrite !decide_False by done. reflexivity. Qed.

Lemma key_grade_left g a d : a ≠ 0 → key_grade g (a, 0, d) = (g a + d)%Z.
Proof.
  intros. unfold key_grade. rewrite decide_False by done.
  rewrite decide_True by done. reflexivity.
Qed.

Lemma key_grade_right g b d : key_grade g (0, b, d) = (g b + d)%Z.
Proof. unfold key_grade. rewrite decide_True by done. reflexivity. Qed.

Ltac key_grade_tac :=
  unfold item_key, key_grade; cbn [id1 id2 depth from_option id];
  repeat case_decide; lia.

Lemma child_item_ok_free g h h' q label :
  graded g h → agrees h h' → item_ok g h q → label ∈ labels h' q →
  fixed q = 0 →
  ∃ c, child_item h' q label = Returns c ∧ item_ok g h c
       ∧ key_grade g (item_key c)
         = (key_grade g (item_key q) + delta label)%Z.
Proof.
  intros G A [Hi1 Hi2 Ha1 Ha2 Hsome _ Hf _ _] Hl Hf0.
  destruct q as [st1 st2 i1 i2 pl d f]. simpl in *. subst f i1 i2.
  destruct (Hf (eq_refl)) as [-> Heq]. clear Hf.
  assert (Hlt1 : ∀ x, st1 = Some x → x < _id h).
  { intros x Hx. apply (alive_pos g h x G), Ha1, Hx. }
  assert (Hlt2 : ∀ x, st2 = Some x → x < _id h).
  { intros x Hx. apply (alive_pos g h x G), Ha2, Hx. }
  (* the label is a key of one of the two states *)
  assert (Hkey : (∃ s x, st1 = Some s ∧ getitem h s label = Some x)
                 ∨ (∃ s x, st2 = Some s ∧ getitem h s label = Some x)).
  { apply elem_of_labels in Hl as [(s & Hs & _ & Hk)|[(s & Hs & _ & Hk)|[? _]]];
      simpl in *; [| |done].
    - left. rewrite (agrees_keys h h' A) in Hk by auto.
      apply keys_getitem in Hk as [x Hx]. eauto.
    - right. rewrite (agrees_keys h h' A) in Hk by auto.
      apply keys_getitem in Hk as [x Hx]. eauto. }
  unfold child_item. cbn [state1 state2 fixed depth].
  rewrite !(agrees_next_state h h' A) by assumption.
  change (bool_decide (0 = 1)) with false. change (bool_decide (0 = 2)) with false.
  destruct (_get_next_state h st1 label false) as [t1 w1] eqn:E1.
  destruct (_get_next_state h st2 label false) as [t2 w2] eqn:E2.
  destruct (advance g h st1 label t1 w1 G Ha1 E1) as (Hx1 & Hn1 & He1).
  destruct (advance g h st2 label t2 w2 G Ha2 E2) as (Hx2 & Hn2 & He2).
  change (bool_decide (0 = 0)) with true. cbn [negb andb].
  rewrite andb_false_r.
  cbn [_StateQueueItem_init state1 state2 id1 id2 item_payload depth fixed].
  (* both sides advance: neither takes its wildcard for an operation *)
  assert (Hcommon :
    (w1 = false ∨ label_is_operation label = false) →
    (w2 = false ∨ label_is_operation label = false) →
    ∀ pl', item_ok g h (mkItem t1 t2 (default 0 t1) (default 0 t2) pl' 0%Z 0)
           ∧ key_grade g (default 0 t1, default 0 t2, 0%Z)
             = (key_grade g (default 0%nat st1, default 0%nat st2, 0%Z)
                + delta label)%Z).
  { intros Hw1 Hw2 pl'.
    assert (Hadv1 : ∀ x, t1 = Some x →
              alive h x ∧ ∃ s, st1 = Some s ∧ g x = (g s + delta label)%Z).
    { intros x Hx. destruct (Hx1 x Hx) as (Hal & s & Hs & Hf & Ht).
      split; [exact Hal|]. exists s. split; [exact Hs|].
      destruct w1; [|auto]. destruct Hw1 as [|Hop]; [done|].
      destruct (Ht eq_refl) as (_ & _ & Hne & ->).
      rewrite (delta_other label Hop Hne). lia. }
    assert (Hadv2 : ∀ x, t2 = Some x →
              alive h x ∧ ∃ s, st2 = Some s ∧ g x = (g s + delta label)%Z).
    { intros x Hx. destruct (Hx2 x Hx) as (Hal & s & Hs & Hf & Ht).
      split; [exact Hal|]. exists s. split; [exact Hs|].
      destruct w2; [|auto]. destruct Hw2 as [|Hop]; [done|].
      destruct (Ht eq_refl) as (_ & _ & Hne & ->).
      rewrite (delta_other label Hop Hne). lia. }
    assert (Hsome' : is_Some t1 ∨ is_Some t2).
    { destruct Hkey as [(s & x & Hs & Hx)|(s & x & Hs & Hx)].
      - left. destruct (He1 s x Hs Hx) as [-> _]. eauto.
      - right. destruct (He2 s x Hs Hx) as [-> _]. eauto. }
    split.
    - split; cbn [state1 state2 id1 id2 depth fixed]; try done; try lia.
      + intros s Hs. apply (Hadv1 s Hs).
      + intros s Hs. apply (Hadv2 s Hs).
      + intros _. split; [reflexivity|]. intros x1 x2 Hx1' Hx2'.
        destruct (Hadv1 x1 Hx1') as (_ & s1 & Hs1 & ->).
        destruct (Hadv2 x2 Hx2') as (_ & s2 & Hs2 & ->).
        rewrite (Heq s1 s2 Hs1 Hs2). reflexivity.
    - destruct t1 as [x1|], t2 as [x2|].
      + destruct (Hadv1 x1 eq_refl) as (Hal1 & s1 & -> & Hg1).
        destruct (Hadv2 x2 eq_refl) as (Hal2 & s2 & -> & Hg2).
        pose proof (Heq s1 s2 eq_refl eq_refl).
        pose proof (alive_pos g h s1 G (Ha1 _ eq_refl)).
        pose proof (alive_pos g h s2 G (Ha2 _ eq_refl)).
        pose proof (alive_pos g h x1 G Hal1).
        pose proof (alive_pos g h x2 G Hal2).
        key_grade_tac.
      + destruct (Hadv1 x1 eq_refl) as (Hal1 & s1 & -> & Hg1).
        pose proof (alive_pos g h s1 G (Ha1 _ eq_refl)).
        pose proof (alive_pos g h x1 G Hal1).
        destruct st2 as [s2|].
        * pose proof (Heq s1 s2 eq_refl eq_refl).
          pose proof (alive_pos g h s2 G (Ha2 _ eq_refl)).
          key_grade_tac.
        * key_grade_tac.
      + destruct (Hadv2 x2 eq_refl) as (Hal2 & s2 & -> & Hg2).
        pose proof (alive_pos g h s2 G (Ha2 _ eq_refl)).
        pose proof (alive_pos g h x2 G Hal2).
        destruct st1 as [s1|].
        * pose proof (Heq s1 s2 eq_refl eq_refl).
          pose proof (alive_pos g h s1 G (Ha1 _ eq_refl)).
          key_grade_tac.
        * key_grade_tac.
      + destruct Hsome' as [[? ?]|[? ?]]; discriminate. }
  destruct (label_is_operation label) eqn:Hop.
  - (* an operation *)
    pose proof (delta_operation label Hop) as Hd.
    destruct w1.
    + destruct t1 as [x1|]; [|discriminate (Hn1 eq_refl)].
      destruct (Hx1 x1 eq_refl) as (Hal1 & s1 & -> & _ & Hw).
      destruct (Hw eq_refl) as (Hno & Hwild & _ & Hg1).
      destruct Hkey as [(s & x & [= <-] & Hx)|(s2 & x2 & -> & Hx)]; [congruence|].
      destruct (He2 s2 x2 eq_refl Hx) as [-> ->].
      destruct (graded_trans _ _ G _ _ _ Hx) as [Hal2 Hg2].
      pose proof (Heq s1 s2 eq_refl eq_refl) as Hg.
      pose proof (alive_bound g h x2 G Hal2).
      pose proof (alive_pos g h s1 G (Ha1 _ eq_refl)).
      pose proof (alive_pos g h s2 G (Ha2 _ eq_refl)).
      pose proof (alive_pos g h x2 G Hal2).
      cbn. eexists. split; [reflexivity|]. split.
      * split; simpl; try done; try lia; eauto.
        -- intros s [= <-]. exact Hal2.
        -- intros _. split; [lia|]. exists s1. repeat split; eauto; try lia.
           intros s [= <-]. lia.
      * key_grade_tac.
    + destruct w2.
      * destruct t2 as [x2|]; [|discriminate (Hn2 eq_refl)].
        destruct (Hx2 x2 eq_refl) as (Hal2 & s2 & -> & _ & Hw).
        destruct (Hw eq_refl) as (Hno & Hwild & _ & Hg2).
        destruct Hkey as [(s1 & x1 & -> & Hx)|(s & x & [= <-] & Hx)]; [|congruence].
        destruct (He1 s1 x1 eq_refl Hx) as [-> _].
        destruct (graded_trans _ _ G _ _ _ Hx) as [Hal1 Hg1].
        pose proof (Heq s1 s2 eq_refl eq_refl) as Hg.
        pose proof (alive_bound g h x1 G Hal1).
        pose proof (alive_pos g h s1 G (Ha1 _ eq_refl)).
        pose proof (alive_pos g h s2 G (Ha2 _ eq_refl)).
        pose proof (alive_pos g h x1 G Hal1).
        cbn. eexists. split; [reflexivity|]. split.
        -- split; simpl; try done; try lia; eauto.
           ++ intros s [= <-]. exact Hal1.
           ++ intros _. split; [lia|]. exists s2. repeat split; eauto; try lia.
              intros s [= <-]. lia.
        -- key_grade_tac.
      * eexists. split; [reflexivity|]. apply Hcommon; auto.
  - eexists. split; [reflexivity|]. apply Hcommon; auto.
Qed.

Lemma child_item_ok_fixed1 g h h' q label :
  graded g h → agrees h h' → item_ok g h q → label ∈ labels h' q →
  fixed q = 1 →
  ∃ c, child_item h' q label = Returns c ∧ item_ok g h c
       ∧ key_grade g (item_key c)
         = (key_grade g (item_key q) + delta label)%Z.
Proof.
  intros G A [Hi1 Hi2 Ha1 Ha2 Hsome _ _ Hf _] Hl Hf1.
  destruct q as [st1 st2 i1 i2 pl d f]. simpl in *. subst f i1 i2.
  destruct (Hf eq_refl) as (Hd & s1 & -> & [wt Hwt] & Hb & Heq). clear Hf.
  pose proof (alive_pos g h s1 G (Ha1 _ eq_refl)) as Hp1.
  pose proof (alive_bound g h s1 G (Ha1 _ eq_refl)) as Hb1.
  assert (Hlt2 : ∀ x, st2 = Some x → x < _id h).
  { intros x Hx. apply (alive_pos g h x G), Ha2, Hx. }
  assert (Hkey : (∃ s x, st2 = Some s ∧ getitem h s label = Some x)
                 ∨ label = LWildcard
                 ∨ (label = LTerm OPERATION_END ∧ st2 = None)).
  { apply elem_of_labels in Hl
      as [(s & Hs & Hne & Hk)|[(s & Hs & _ & Hk)|[_ Hk]]]; simpl in *.
    - done.
    - left. rewrite (agrees_keys h h' A) in Hk by auto.
      apply keys_getitem in Hk as [x Hx]. eauto.
    - right. destruct Hk as [?|[? [[_ ?]|[? _]]]]; [auto|auto|done]. }
  unfold child_item. cbn [state1 state2 fixed depth].
  rewrite (agrees_next_state h h' A _ _ false) by assumption.
  change (bool_decide (1 = 1)) with true. change (bool_decide (1 = 2)) with false.
  change (bool_decide (1 = 0)) with false.
  change (_get_next_state h' (Some s1) label true) with (Some s1, false).
  destruct (_get_next_state h st2 label false) as [t2 w2] eqn:E2.
  destruct (advance g h st2 label t2 w2 G Ha2 E2) as (Hx2 & Hn2 & He2).
  cbn [negb andb].
  cbn [_StateQueueItem_init state1 state2 id1 id2 item_payload depth fixed].
  assert (Hadv2 : ∀ x, t2 = Some x →
            alive h x ∧ ∃ s, st2 = Some s ∧ g x = (g s + delta label)%Z).
  { intros x Hx. destruct (Hx2 x Hx) as (Hal & s & Hs & Hff & Ht).
    split; [exact Hal|]. exists s. split; [exact Hs|].
    destruct w2; [|auto].
    destruct (Ht eq_refl) as (Hno & _ & Hne & ->).
    destruct (label_is_operation label) eqn:Hop.
    - destruct Hkey as [(s' & x' & Hs' & Hx')|[->|[-> _]]]; try discriminate.
      rewrite Hs in Hs'. injection Hs' as <-. congruence.
    - rewrite (delta_other label Hop Hne). lia. }
  (* the pinned side stays, the depth follows the label *)
  assert (Hstay : ∀ pl' d', d' = (d + delta label)%Z → (1 <= d')%Z →
    (is_Some t2 ∨ (delta label <= 0)%Z) →
    item_ok g h (mkItem (Some s1) t2 s1 (default 0 t2) pl' d' 1)
    ∧ key_grade g (s1, default 0 t2, d')
      = (key_grade g (s1, default 0%nat st2, d) + delta label)%Z).
  { intros pl' d' -> Hd' Hsome'. split.
    - split; cbn [state1 state2 id1 id2 depth fixed]; try done; try lia; eauto.
      + intros s Hs. apply (Hadv2 s Hs).
      + intros _. split; [exact Hd'|]. exists s1.
        split; [reflexivity|]. split; [eauto|]. split.
        * destruct Hsome' as [[x ->]|Hle]; [|lia].
          destruct (Hadv2 x eq_refl) as (Hal & s2 & Hs2 & Hg).
          pose proof (alive_bound g h x G Hal). rewrite (Heq s2 Hs2) in Hg. lia.
        * intros x Hx. destruct (Hadv2 x Hx) as (Hal & s2 & Hs2 & Hg).
          rewrite (Heq s2 Hs2) in Hg. lia.
    - destruct t2 as [x|].
      + destruct (Hadv2 x eq_refl) as (Hal & s2 & -> & Hg).
        pose proof (Heq s2 eq_refl).
        pose proof (alive_pos g h x G Hal).
        pose proof (alive_pos g h s2 G (Ha2 _ eq_refl)).
        key_grade_tac.
      + destruct st2 as [s2|].
        * pose proof (Heq s2 eq_refl).
          pose proof (alive_pos g h s2 G (Ha2 _ eq_refl)).
          key_grade_tac.
        * key_grade_tac. }
  destruct (label_is_operation label) eqn:Hop.
  - pose proof (delta_operation label Hop) as Hdl.
    eexists. split; [reflexivity|].
    apply Hstay; [lia|lia|]. left.
    destruct Hkey as [(s' & x' & Hs' & Hx')|[->|[-> _]]]; try discriminate.
    destruct (He2 s' x' Hs' Hx') as [-> _]. eauto.
  - destruct (decide (label = LTerm OPERATION_END)) as [->|Hne].
    + rewrite bool_decide_eq_true_2 by reflexivity. cbn [andb].
      cbn [state1 state2 id1 id2 item_payload depth fixed].
      destruct (decide ((d - 1)%Z = 0%Z)) as [Hd0|Hd0].
      * rewrite decide_True by reflexivity. cbn [or_raise mbind Result_bind].
        rewrite (agrees_getitem h h' A) by tauto. rewrite Hwt.
        cbn [or_raise mbind Result_bind].
        destruct (graded_trans _ _ G _ _ _ Hwt) as [Halw Hgw]. simpl in Hgw.
        pose proof (alive_pos g h wt G Halw).
        eexists. split; [reflexivity|]. split.
        -- split; cbn [state1 state2 id1 id2 depth fixed]; try done; try lia;
             eauto.
           ++ intros s [= <-]. exact Halw.
           ++ intros s Hs. apply (Hadv2 s Hs).
           ++ intros _. split; [exact Hd0|]. intros x1 x2 [= <-] Hx.
              destruct (Hadv2 x2 Hx) as (Hal & s2 & Hs2 & Hg).
              rewrite (Heq s2 Hs2) in Hg. simpl in Hg. lia.
        -- destruct t2 as [x|].
           ++ destruct (Hadv2 x eq_refl) as (Hal & s2 & -> & Hg).
              pose proof (Heq s2 eq_refl). simpl in Hg.
              pose proof (alive_pos g h x G Hal).
              pose proof (alive_pos g h s2 G (Ha2 _ eq_refl)).
              simpl. key_grade_tac.
           ++ destruct st2 as [s2|].
              ** pose proof (Heq s2 eq_refl).
                 pose proof (alive_pos g h s2 G (Ha2 _ eq_refl)).
                 simpl. key_grade_tac.
              ** simpl. key_grade_tac.
      * eexists. split; [reflexivity|].
        apply Hstay; simpl; [lia|lia|]. right. lia.
    + rewrite bool_decide_eq_false_2 by exact Hne. cbn [andb].
      pose proof (delta_other label Hop Hne) as Hdl.
      eexists. split; [reflexivity|].
      apply Hstay; [lia|lia|]. right. lia.
Qed.

Lemma child_item_ok_fixed2 g h h' q label :
  graded g h → agrees h h' → item_ok g h q → label ∈ labels h' q →
  fixed q = 2 →
  ∃ c, child_item h' q label = Returns c ∧ item_ok g h c
       ∧ key_grade g (item_key c)
         = (key_grade g (item_key q) + delta label)%Z.
Proof.
  intros G A [Hi1 Hi2 Ha1 Ha2 Hsome _ _ _ Hf] Hl Hf2.
  destruct q as [st1 st2 i1 i2 pl d f]. simpl in *. subst f i1 i2.
  destruct (Hf eq_refl) as (Hd & s2 & -> & [wt Hwt] & Hb & Heq). clear Hf.
  pose proof (alive_pos g h s2 G (Ha2 _ eq_refl)) as Hp2.
  pose proof (alive_bound g h s2 G (Ha2 _ eq_refl)) as Hb2.
  assert (Hlt1 : ∀ x, st1 = Some x → x < _id h).
  { intros x Hx. apply (alive_pos g h x G), Ha1, Hx. }
  assert (Hkey : (∃ s x, st1 = Some s ∧ getitem h s label = Some x)
                 ∨ label = LWildcard
                 ∨ (label = LTerm OPERATION_END ∧ st1 = None)).
  { apply elem_of_labels in Hl
      as [(s & Hs & _ & Hk)|[(s & Hs & Hne & Hk)|[_ Hk]]]; simpl in *.
    - left. rewrite (agrees_keys h h' A) in Hk by auto.
      apply keys_getitem in Hk as [x Hx]. eauto.
    - done.
    - right. destruct Hk as [?|[? [[? _]|[_ ?]]]]; [auto|done|auto]. }
  unfold child_item. cbn [state1 state2 fixed depth].
  rewrite (agrees_next_state h h' A _ _ false) by assumption.
  change (bool_decide (2 = 1)) with false. change (bool_decide (2 = 2)) with true.
  change (bool_decide (2 = 0)) with false.
  change (_get_next_state h' (Some s2) label true) with (Some s2, false).
  destruct (_get_next_state h st1 label false) as [t1 w1] eqn:E1.
  destruct (advance g h st1 label t1 w1 G Ha1 E1) as (Hx1 & Hn1 & He1).
  cbn [negb andb].
  cbn [_StateQueueItem_init state1 state2 id1 id2 item_payload depth fixed].
  assert (Hadv1 : ∀ x, t1 = Some x →
            alive h x ∧ ∃ s, st1 = Some s ∧ g x = (g s + delta label)%Z).
  { intros x Hx. destruct (Hx1 x Hx) as (Hal & s & Hs & Hff & Ht).
    split; [exact Hal|]. exists s. split; [exact Hs|].
    destruct w1; [|auto].
    destruct (Ht eq_refl) as (Hno & _ & Hne & ->).
    destruct (label_is_operation label) eqn:Hop.
    - destruct Hkey as [(s' & x' & Hs' & Hx')|[->|[-> _]]]; try discriminate.
      rewrite Hs in Hs'. injection Hs' as <-. congruence.
    - rewrite (delta_other label Hop Hne). lia. }
  assert (Hstay : ∀ pl' d', d' = (d + delta label)%Z → (1 <= d')%Z →
    (is_Some t1 ∨ (delta label <= 0)%Z) →
    item_ok g h (mkItem t1 (Some s2) (default 0 t1) s2 pl' d' 2)
    ∧ key_grade g (default 0 t1, s2, d')
      = (key_grade g (default 0%nat st1, s2, d) + delta label)%Z).
  { intros pl' d' -> Hd' Hsome'. split.
    - split; cbn [state1 state2 id1 id2 depth fixed]; try done; try lia; eauto.
      + intros s Hs. apply (Hadv1 s Hs).
      + intros _. split; [exact Hd'|]. exists s2.
        split; [reflexivity|]. split; [eauto|]. split.
        * destruct Hsome' as [[x ->]|Hle]; [|lia].
          destruct (Hadv1 x eq_refl) as (Hal & s1 & Hs1 & Hg).
          pose proof (alive_bound g h x G Hal). rewrite (Heq s1 Hs1) in Hg. lia.
        * intros x Hx. destruct (Hadv1 x Hx) as (Hal & s1 & Hs1 & Hg).
          rewrite (Heq s1 Hs1) in Hg. lia.
    - destruct t1 as [x|].
      + destruct (Hadv1 x eq_refl) as (Hal & s1 & -> & Hg).
        pose proof (Heq s1 eq_refl).
        pose proof (alive_pos g h x G Hal).
        pose proof (alive_pos g h s1 G (Ha1 _ eq_refl)).
        key_grade_tac.
      + destruct st1 as [s1|].
        * pose proof (Heq s1 eq_refl).
          pose proof (alive_pos g h s1 G (Ha1 _ eq_refl)).
          key_grade_tac.
        * key_grade_tac. }
  destruct (label_is_operation label) eqn:Hop.
  - pose proof (delta_operation label Hop) as Hdl.
    eexists. split; [reflexivity|].
    apply Hstay; [lia|lia|]. left.
    destruct Hkey as [(s' & x' & Hs' & Hx')|[->|[-> _]]]; try discriminate.
    destruct (He1 s' x' Hs' Hx') as [-> _]. eauto.
  - destruct (decide (label = LTerm OPERATION_END)) as [->|Hne].
    + rewrite bool_decide_eq_true_2 by reflexivity. cbn [andb].
      cbn [state1 state2 id1 id2 item_payload depth fixed].
      destruct (decide ((d - 1)%Z = 0%Z)) as [Hd0|Hd0].
      * rewrite decide_False by discriminate.
        rewrite decide_True by reflexivity. cbn [or_raise mbind Result_bind].
        rewrite (agrees_getitem h h' A) by tauto. rewrite Hwt.
        cbn [or_raise mbind Result_bind].
        destruct (graded_trans _ _ G _ _ _ Hwt) as [Halw Hgw]. simpl in Hgw.
        pose proof (alive_pos g h wt G Halw).
        eexists. split; [reflexivity|]. split.
        -- split; cbn [state1 state2 id1 id2 depth fixed]; try done; try lia;
             eauto.
           ++ intros s Hs. apply (Hadv1 s Hs).
           ++ intros s [= <-]. exact Halw.
           ++ intros _. split; [exact Hd0|]. intros x1 x2 Hx [= <-].
              destruct (Hadv1 x1 Hx) as (Hal & s1 & Hs1 & Hg).
              rewrite (Heq s1 Hs1) in Hg. simpl in Hg. lia.
        -- destruct t1 as [x|].
           ++ destruct (Hadv1 x eq_refl) as (Hal & s1 & -> & Hg).
              pose proof (Heq s1 eq_refl). simpl in Hg.
              pose proof (alive_pos g h x G Hal).
              pose proof (alive_pos g h s1 G (Ha1 _ eq_refl)).
              simpl. key_grade_tac.
           ++ destruct st1 as [s1|].
              ** pose proof (Heq s1 eq_refl).
                 pose proof (alive_pos g h s1 G (Ha1 _ eq_refl)).
                 simpl. key_grade_tac.
              ** simpl. key_grade_tac.
      * eexists. split; [reflexivity|].
        apply Hstay; simpl; [lia|lia|]. right. lia.
    + rewrite bool_decide_eq_false_2 by exact Hne. cbn [andb].
      pose proof (delta_other label Hop Hne) as Hdl.
      eexists. split; [reflexivity|].
      apply Hstay; [lia|lia|]. right. lia.
Qed.

(** The child of an item of the queue for one of the item's labels: it is
    made without an exception, it is an item of the same kind, and its
    product state is at the depth the label leads to. *)
Lemma child_item_ok g h h' q label :
  graded g h → agrees h h' → item_ok g h q → label ∈ labels h' q →
  ∃ c, child_item h' q label = Returns c ∧ item_ok g h c
       ∧ key_grade g (item_key c)
         = (key_grade g (item_key q) + delta label)%Z.
Proof.
  intros G A Hq Hl. pose proof (io_fixed _ _ _ Hq) as Hf.
  destruct (fixed q) as [|[|[|]]] eqn:E; [| | |lia].
  - apply child_item_ok_free; assumption.
  - apply child_item_ok_fixed1; assumption.
  - apply child_item_ok_fixed2; assumption.
Qed.



Lemma mul_add_inj (M a b a' b' : nat) :
  b < M → b' < M → a * M + b = a' * M + b' → a = a' ∧ b = b'.
Proof. intros Hb Hb' E. assert (a = a') by nia. subst. lia. Qed.

Lemma key_code_lt n key : key_ok n key → key_code n key < n * n * (2 * n).
Proof.
  destruct key as [[i1 i2] d]. unfold key_ok, key_code; simpl.
  intros (H1 & H2 & H3).
  assert (Z.to_nat d < 2 * n) by lia.
  assert (i1 * n + i2 < n * n) by nia.
  nia.
Qed.

Lemma key_code_inj n k1 k2 :
  key_ok n k1 → key_ok n k2 → key_code n k1 = key_code n k2 → k1 = k2.
Proof.
  destruct k1 as [[i1 i2] d], k2 as [[j1 j2] e]. unfold key_ok, key_code; simpl.
  intros (H1 & H2 & H3) (H1' & H2' & H3') E.
  apply mul_add_inj in E as [E Ed]; [|lia..].
  apply mul_add_inj in E as [-> ->]; [|lia..].
  assert (d = e) by lia. subst. reflexivity.
Qed.

(** There are no more keys in a map than the box has room for. *)
Lemma size_keys_bound {A} (n : nat) (m : gmap (nat * nat * Z) A) :
  (∀ key x, m !! key = Some x → key_ok n key) →
  size m ≤ n * n * (2 * n).
Proof.
  intros Hok. rewrite <- length_map_to_list.
  rewrite <- (length_fmap fst (map_to_list m)).
  rewrite <- (length_fmap (key_code n) ((map_to_list m).*1)).
  transitivity (length (seq 0 (n * n * (2 * n)))); [|rewrite length_seq; lia].
  apply submseteq_length, NoDup_submseteq.
  - apply NoDup_fmap_2_strong; [|apply NoDup_fst_map_to_list].
    intros k1 k2 Hk1 Hk2. 
    apply list_elem_of_fmap in Hk1 as [[k1' x1] [-> Hk1]].
    apply list_elem_of_fmap in Hk2 as [[k2' x2] [-> Hk2]].
    apply elem_of_map_to_list in Hk1, Hk2. simpl.
    apply key_code_inj; eapply Hok; eassumption.
  - intros c Hc. apply list_elem_of_fmap in Hc as [k [-> Hk]].
    apply list_elem_of_fmap in Hk as [[k' x] [-> Hk]].
    apply elem_of_map_to_list in Hk. simpl.
    apply elem_of_seq. split; [lia|]. simpl. apply key_code_lt. eapply Hok, Hk.
Qed.

Lemma labels_agrees g h h' q :
  graded g h → agrees h h' → item_ok g h q → labels h' q = labels h q.
Proof.
  intros G A Hq. unfold labels.
  assert (H1 : ∀ s, state1 q = Some s → keys h' s = keys h s).
  { intros s Hs. apply (agrees_keys h h' A).
    apply (alive_pos g h s G), (io_alive1 _ _ _ Hq), Hs. }
  assert (H2 : ∀ s, state2 q = Some s → keys h' s = keys h s).
  { intros s Hs. apply (agrees_keys h h' A).
    apply (alive_pos g h s G), (io_alive2 _ _ _ Hq), Hs. }
  destruct (state1 q) as [s1|], (state2 q) as [s2|];
    rewrite ?(H1 _ eq_refl), ?(H2 _ eq_refl); reflexivity.
Qed.

Lemma item_key_ok g h q :
  graded g h → item_ok g h q → key_ok (_id h) (item_key q).
Proof.
  intros G Hq. pose proof (graded_pos _ _ G) as Hpos.
  unfold key_ok, item_key; simpl.
  rewrite (io_id1 _ _ _ Hq), (io_id2 _ _ _ Hq).
  assert (H1 : default 0 (state1 q) < _id h).
  { destruct (state1 q) as [s|] eqn:E; simpl; [|exact Hpos].
    apply (alive_pos g h s G), (io_alive1 _ _ _ Hq), E. }
  assert (H2 : default 0 (state2 q) < _id h).
  { destruct (state2 q) as [s|] eqn:E; simpl; [|exact Hpos].
    apply (alive_pos g h s G), (io_alive2 _ _ _ Hq), E. }
  split; [exact H1|]. split; [exact H2|].
  pose proof (io_fixed _ _ _ Hq) as Hf.
  destruct (fixed q) as [|[|[|]]] eqn:E; [| | |lia].
  - destruct (io_fixed0 _ _ _ Hq E) as [-> _]. lia.
  - destruct (io_fixed1 _ _ _ Hq E) as (Hd & s1 & Hs1 & _ & Hb & _).
    pose proof (alive_bound g h s1 G (io_alive1 _ _ _ Hq _ Hs1)). lia.
  - destruct (io_fixed2 _ _ _ Hq E) as (Hd & s2 & Hs2 & _ & Hb & _).
    pose proof (alive_bound g h s2 G (io_alive2 _ _ _ Hq _ Hs2)). lia.
Qed.

Lemma item_grade_bound g h q :
  graded g h → item_ok g h q →
  (- Z.of_nat (_id h) < key_grade g (item_key q) < Z.of_nat (_id h))%Z.
Proof.
  intros G Hq. unfold item_key.
  rewrite (io_id1 _ _ _ Hq), (io_id2 _ _ _ Hq).
  pose proof (io_fixed _ _ _ Hq) as Hf.
  pose proof (io_alive1 _ _ _ Hq) as Ha1.
  pose proof (io_alive2 _ _ _ Hq) as Ha2.
  pose proof (io_some _ _ _ Hq) as Hsome.
  pose proof (io_fixed0 _ _ _ Hq) as H0.
  pose proof (io_fixed1 _ _ _ Hq) as H1.
  pose proof (io_fixed2 _ _ _ Hq) as H2.
  destruct (state1 q) as [s1|], (state2 q) as [s2|]; cbn [from_option id].
  - pose proof (alive_pos g h s1 G (Ha1 _ eq_refl)).
    pose proof (alive_pos g h s2 G (Ha2 _ eq_refl)).
    pose proof (alive_bound g h s1 G (Ha1 _ eq_refl)).
    pose proof (alive_bound g h s2 G (Ha2 _ eq_refl)).
    rewrite key_grade_both by tauto. lia.
  - pose proof (alive_pos g h s1 G (Ha1 _ eq_refl)).
    pose proof (alive_bound g h s1 G (Ha1 _ eq_refl)).
    rewrite key_grade_left by tauto.
    destruct (fixed q) as [|[|[|]]] eqn:E; [| | |lia].
    + destruct (H0 eq_refl) as [-> _]. lia.
    + destruct (H1 eq_refl) as (Hd & s & [= <-] & _ & Hb & _). lia.
    + destruct (H2 eq_refl) as (Hd & s & ? & _). discriminate.
  - pose proof (alive_pos g h s2 G (Ha2 _ eq_refl)).
    pose proof (alive_bound g h s2 G (Ha2 _ eq_refl)).
    rewrite key_grade_right.
    destruct (fixed q) as [|[|[|]]] eqn:E; [| | |lia].
    + destruct (H0 eq_refl) as [-> _]. lia.
    + destruct (H1 eq_refl) as (Hd & s & ? & _). discriminate.
    + destruct (H2 eq_refl) as (Hd & s & [= <-] & _ & Hb & _). lia.
  - destruct Hsome as [[? ?]|[? ?]]; discriminate.
Qed.

Lemma agrees_new_State h h' p :
  agrees h h' → _id h ≤ _id h' → agrees h (new_State p h').2.
Proof.
  intros A Hle s Hs. unfold new_State; simpl.
  rewrite lookup_insert_ne by lia. apply A, Hs.
Qed.

Lemma agrees_setitem h h' s label t :
  agrees h h' → _id h ≤ s → agrees h (setitem h' s label t).
Proof.
  intros A Hle x Hx. unfold setitem; simpl.
  rewrite lookup_alter_ne by lia. apply A, Hx.
Qed.

Lemma product_label_step_ok g h gp p current state label :
  graded g h → product_inv g h gp p → item_ok g h current →
  pn_states p !! item_key current = Some state →
  label ∈ labels h current →
  ∃ gp' p',
    product_label_step current state p label = Returns p'
    ∧ product_inv g h gp' p'
    ∧ pn_states p ⊆ pn_states p'
    ∧ size (pn_states p') + length (pn_queue p)
      = size (pn_states p) + length (pn_queue p').
Proof.
  intros G [Gp A P Hst Hq] Hcur Hstate Hl.
  destruct (Hst _ _ Hstate) as (Hle & Hal & Hgs & _).
  destruct (child_item_ok g h (pn_heap p) current label G A Hcur)
    as (c & Ec & Hc & Hgc).
  { rewrite (labels_agrees g h (pn_heap p) current G A Hcur). exact Hl. }
  unfold product_label_step. rewrite Ec. cbn [mbind Result_bind].
  destruct (pn_states p !! item_key c) as [t|] eqn:Et.
  - (* the key is known *)
    rewrite Et. cbn [or_raise mbind Result_bind].
    destruct (Hst _ _ Et) as (Hlt & Halt & Hgt & _).
    destruct (graded_setitem gp (pn_heap p) state label t Gp Halt)
      as [G' P'].
    { rewrite Hgt, Hgs. exact Hgc. }
    exists gp. eexists. split; [reflexivity|]. split; [|split; [done|done]].
    split; cbn [pn_heap pn_states pn_queue].
    + exact G'.
    + apply agrees_setitem; assumption.
    + eapply preserved_trans; eassumption.
    + intros key s Hs. destruct (Hst _ _ Hs) as (? & ? & ? & ?).
      split; [assumption|]. split; [apply alive_setitem; assumption|].
      split; assumption.
    + exact Hq.
  - (* a new key: a new state, a new item in the queue *)
    change (new_State (item_payload c) (pn_heap p))
      with (_id (pn_heap p), (new_State (item_payload c) (pn_heap p)).2).
    cbv beta iota. cbn [pn_heap pn_states pn_queue].
    rewrite lookup_insert_eq. cbn [or_raise mbind Result_bind].
    set (s := _id (pn_heap p)).
    set (h1 := (new_State (item_payload c) (pn_heap p)).2).
    set (z := key_grade g (item_key c)).
    assert (Hs_state : state < s).
    { apply (alive_pos gp (pn_heap p) state Gp Hal). }
    pose proof (item_grade_bound g h c G Hc) as Hzb. fold z in Hzb.
    destruct (graded_new_State gp (pn_heap p) (item_payload c) z Gp)
      as [G1 P1]; [fold s; lia|].
    fold s h1 in G1, P1.
    assert (Hs1 : alive h1 s).
    { apply alive_new_State. left. reflexivity. }
    destruct (graded_setitem (<[s := z]> gp) h1 state label s G1 Hs1)
      as [G2 P2].
    { rewrite fn_lookup_insert, fn_lookup_insert_ne by lia.
      subst z. rewrite Hgs. exact Hgc. }
    exists (<[s := z]> gp). eexists. split; [reflexivity|].
    split; [|split].
    + split; cbn [pn_heap pn_states pn_queue].
      * exact G2.
      * apply agrees_setitem; [|exact Hle].
        apply agrees_new_State; [exact A|]. fold s. lia.
      * eapply preserved_trans; [exact P|].
        eapply preserved_trans; eassumption.
      * intros key s' Hs'. apply lookup_insert_Some in Hs' as [[<- <-]|[Hk Hs']].
        -- split; [lia|]. split; [apply alive_setitem, Hs1|].
           split; [apply fn_lookup_insert|].
           apply (item_key_ok g h c G Hc).
        -- destruct (Hst _ _ Hs') as (? & Hal' & Hg' & ?).
           split; [assumption|]. split; [apply alive_setitem, P1, Hal'|].
           split; [|assumption].
           rewrite fn_lookup_insert_ne; [exact Hg'|].
           pose proof (alive_pos gp (pn_heap p) s' Gp Hal'). fold s in H1. lia.
      * intros q Hqin. apply elem_of_app in Hqin as [Hqin|Hqin].
        -- destruct (Hq q Hqin) as [? ?]. split; [assumption|].
           apply lookup_insert_is_Some'. right. assumption.
        -- apply list_elem_of_singleton in Hqin as ->. split; [exact Hc|].
           rewrite lookup_insert_eq. eauto.
    + cbn [pn_states]. apply insert_subseteq, Et.
    + cbn [pn_states pn_queue]. rewrite map_size_insert_None by exact Et.
      rewrite length_app. simpl. lia.
Qed.

Lemma product_body_ok g h p :
  graded g h → (∃ gp, product_inv g h gp p) →
  match product_body p with
  | Returns (inl p') =>
      (∃ gp', product_inv g h gp' p')
      ∧ pn_states p ⊆ pn_states p'
      ∧ product_measure (_id h) p' < product_measure (_id h) p
      ∧ size (pn_states p') + length (pn_queue p)
        = S (size (pn_states p) + length (pn_queue p'))
  | Returns (inr p') => p' = p ∧ pn_queue p = []
  | _ => False
  end.
Proof.
  intros G [gp Hinv]. unfold product_body.
  destruct (pn_queue p) as [|current rest] eqn:Eq; [split; reflexivity|].
  destruct (pi_queue _ _ _ _ Hinv current) as [Hcur [state Hstate]].
  { rewrite Eq. left. }
  rewrite Hstate. cbn [or_raise mbind Result_bind].
  rewrite (labels_agrees g h (pn_heap p) current G (pi_agrees _ _ _ _ Hinv) Hcur).
  destruct (for_each_progress (product_label_step current state)
              (λ p', (∃ gp', product_inv g h gp' p')
                     ∧ pn_states p ⊆ pn_states p'
                     ∧ size (pn_states p') + length rest
                       = size (pn_states p) + length (pn_queue p'))
              (labels h current)) with
    (s := mkProductGen (pn_heap p) (pn_states p) rest)
    as (p' & Ep & [gp' Hinv'] & Hsub & Hsize).
  - intros p1 label Hl ([gp1 Hinv1] & Hst1 & Hsz1).
    destruct (product_label_step_ok g h gp1 p1 current state label G Hinv1
                Hcur (lookup_weaken _ _ _ _ Hstate Hst1) Hl)
      as (gp2 & p2 & E2 & Hinv2 & Hst2 & Hsz2).
    exists p2. split; [exact E2|]. split; [eauto|].
    split; [etransitivity; eassumption|]. lia.
  - split; [|split; [reflexivity|reflexivity]].
    exists gp. destruct Hinv as [Gp A P Hst Hq]. split; try assumption.
    cbn [pn_queue pn_states]. intros q Hq'. apply Hq. rewrite Eq. right. exact Hq'.
  - rewrite Ep. cbn [mbind Result_bind]. split; [eauto|]. split; [exact Hsub|].
    cbn [pn_states pn_queue] in Hsize. split; [|simpl length; lia].
    unfold product_measure. rewrite Eq. simpl length.
    pose proof (size_keys_bound (_id h) (pn_states p')) as Hb.
    assert (size (pn_states p') ≤ _id h * _id h * (2 * _id h)).
    { apply Hb. intros key x Hx. apply (pi_states _ _ _ _ Hinv' _ _ Hx). }
    lia.
Qed.

Lemma pow2_fuel (n : nat) :
  0 < n → n * n * (2 * n) + 1 ≤ 2 ^ (3 * (Nat.log2 n + 1) + 2).
Proof.
  intros Hn. destruct (Nat.log2_spec n Hn) as [_ Hlt].
  replace (Nat.log2 n + 1) with (S (Nat.log2 n)) by lia.
  set (P := 2 ^ S (Nat.log2 n)) in *.
  rewrite Nat.pow_add_r, (Nat.mul_comm 3), Nat.pow_mul_r. fold P.
  change (2 ^ 2) with 4. change (P ^ 3) with (P * (P * (P * 1))).
  assert (H2 : (n + 1) * (n + 1) ≤ P * P) by (apply Nat.mul_le_mono; lia).
  assert (H3 : (n + 1) * (n + 1) * (n + 1) ≤ P * P * P)
    by (apply Nat.mul_le_mono; lia).
  nia.
Qed.

(** The loop of [_product_net] for two automata of a graded heap whose roots
    are at the same depth is left with an empty queue, after one round for
    each key of [states] and the round that finds the queue empty; the keys
    are ids of the heap with a depth below its size, and the heap that is
    left is graded again. *)
Lemma product_loop_returns g h a b :
  graded g h → alive h a → alive h b → g a = g b →
  ∃ n p gp,
    iterate n product_body (product_start h a b).2 = Returns (inr p)
    ∧ pn_queue p = []
    ∧ n = S (size (pn_states p))
    ∧ size (pn_states p) ≤ _id h * _id h * (2 * _id h)
    ∧ (∀ key s, pn_states p !! key = Some s → key_ok (_id h) key)
    ∧ grows g h gp (pn_heap p)
    ∧ alive (pn_heap p) (product_start h a b).1
    ∧ gp (product_start h a b).1 = g a.
Proof.
  intros G Ha Hb Hab. unfold product_start.
  change (new_State [] h) with (_id h, (new_State [] h).2). cbv beta iota.
  cbn [fst snd].
  set (root := _id h). set (h0 := (new_State [] h).2).
  set (q0 := _StateQueueItem_init h0 (Some a) (Some b)).
  set (p0 := mkProductGen h0 {[(a, b, 0%Z) := root]} [q0]).
  pose proof (alive_pos g h a G Ha) as Hpa.
  pose proof (alive_pos g h b G Hb) as Hpb.
  pose proof (alive_bound g h a G Ha) as Hba.
  pose proof (graded_pos _ _ G) as Hpos.
  assert (Hq0 : item_ok g h q0).
  { split; cbn; try done; try lia; eauto.
    - intros s [= <-]. exact Ha.
    - intros s [= <-]. exact Hb.
    - intros _. split; [reflexivity|]. intros s1 s2 [= <-] [= <-]. exact Hab. }
  assert (Hk0 : item_key q0 = (a, b, 0%Z)) by reflexivity.
  assert (Hg0 : key_grade g (a, b, 0%Z) = g a).
  { rewrite key_grade_both by tauto. lia. }
  destruct (graded_new_State g h [] (g a) G) as [G0 P0]; [lia|].
  fold root h0 in G0, P0.
  assert (Hroot : alive h0 root).
  { apply alive_new_State. left. reflexivity. }
  assert (Hinv0 : product_inv g h (<[root := g a]> g) p0).
  { split; cbn [pn_heap pn_states pn_queue p0].
    - exact G0.
    - intros s Hs. unfold h0, new_State; simpl.
      rewrite lookup_insert_ne by (unfold root; lia). reflexivity.
    - exact P0.
    - intros key s Hs. apply lookup_singleton_Some in Hs as [<- <-].
      split; [unfold root; lia|]. split; [exact Hroot|].
      split; [rewrite fn_lookup_insert; symmetry; exact Hg0|].
      unfold key_ok; simpl. lia.
    - intros q Hq. apply list_elem_of_singleton in Hq as ->.
      split; [exact Hq0|]. rewrite Hk0, lookup_singleton_eq. eauto. }
  destruct (iterate_terminates_count product_body
              (λ p, (∃ gp, product_inv g h gp p)
                    ∧ pn_states p !! (a, b, 0%Z) = Some root
                    ∧ length (pn_queue p) ≤ size (pn_states p))
              (product_measure (_id h))
              (λ p, size (pn_states p) - length (pn_queue p))) with (s := p0)
    as (n & r & p_last & Hn & Hit & ([gp Hlast] & Hfirst & _) & Hbody & Hcount).
  - intros p (Hp & Hfirst & Hlen).
    pose proof (product_body_ok g h p G Hp) as Hb'.
    destruct (product_body p) as [[p'|p']| |]; try done.
    destruct Hb' as (Hp' & Hsub & Hlt & Hsz).
    split; [|split; [exact Hlt|lia]].
    split; [exact Hp'|]. split; [eapply lookup_weaken; eassumption|lia].
  - split; [eauto|]. split; [apply lookup_singleton_eq|].
    cbn [p0 pn_queue pn_states length]. rewrite map_size_singleton. lia.
  - pose proof (product_body_ok g h p_last G (ex_intro _ gp Hlast)) as Hb'.
    rewrite Hbody in Hb'. destruct Hb' as [-> Hempty].
    exists n, p_last, gp. split; [exact Hit|]. split; [exact Hempty|].
    split.
    { revert Hcount. cbn [p0 pn_queue pn_states length].
      rewrite map_size_singleton, Hempty. simpl. lia. }
    split.
    { apply size_keys_bound. intros key x Hx.
      apply (pi_states _ _ _ _ Hlast _ _ Hx). }
    split.
    { intros key x Hx. apply (pi_states _ _ _ _ Hlast _ _ Hx). }
    destruct Hlast as [Gp A P Hst Hq]. split; [split; assumption|].
    destruct (Hst _ _ Hfirst) as (_ & Hal & Hgr & _).
    split; [exact Hal|]. rewrite Hgr. exact Hg0.
Qed.

(** [_product_net] returns what its loop leaves. *)
Lemma _product_net_returns g h a b :
  graded g h → alive h a → alive h b → g a = g b →
  ∃ root h' gp,
    _product_net h a b = Returns (root, h')
    ∧ grows g h gp h' ∧ alive h' root ∧ gp root = g a.
Proof.
  intros G Ha Hb Hab.
  destruct (product_loop_returns g h a b G Ha Hb Hab)
    as (n & p & gp & Hit & _ & Hn & Hsz & _ & Gr & Hal & Hgr).
  unfold _product_net. destruct (product_start h a b) as [root start].
  cbn [fst snd] in *.
  rewrite (while_loop_done product_body _ n start p); [| |exact Hit].
  - cbn [mbind Result_bind]. exists root, (pn_heap p), gp. auto.
  - pose proof (pow2_fuel (_id h) (graded_pos _ _ G)). lia.
Qed.


Lemma fail_state_ok_preserved g h g' h' d f :
  preserved g h g' h' → fail_state_ok g h d f → fail_state_ok g' h' d f.
Proof.
  intros P. destruct f as [|s|l]; simpl; [done| |].
  - intros [Hs Hg]. destruct (P s Hs). split; [done|congruence].
  - intros Hl s Hs. destruct (Hl s Hs) as [Ha Hg].
    destruct (P s Ha). split; [done|congruence].
Qed.

Lemma stacks_ok_preserved g h g' h' lws : ∀ d fss,
  preserved g h g' h' → stacks_ok g h d lws fss → stacks_ok g' h' d lws fss.
Proof.
  induction lws as [|lw lws IH]; intros d [|fs fss] P; simpl; try done.
  intros (Hlw & Hfs & Hrest). split; [|split].
  - intros w Hw. destruct (Hlw w Hw) as [Ha Hg].
    destruct (P w Ha). split; [done|congruence].
  - eapply fail_state_ok_preserved; eassumption.
  - apply IH; assumption.
Qed.

Lemma fail_ladder_grows count : ∀ g h fail_state acc last l h' z,
  graded g h → alive h fail_state → g fail_state = z →
  (∀ s, s ∈ acc → alive h s ∧ g s = z) →
  fail_ladder h fail_state acc count = (last, l, h') →
  ∃ g', grows g h g' h' ∧ alive h' last ∧ g' last = z
        ∧ ∀ s, s ∈ l → alive h' s ∧ g' s = z.
Proof.
  induction count as [|count IH];
    intros g h fs acc last l h' z G Hfs Hz Hacc Hl; cbn [fail_ladder] in Hl.
  - injection Hl as <- <- <-. exists g. split; [apply grows_refl, G|done].
  - change (new_State [] h) with (_id h, (new_State [] h).2) in Hl.
    cbv beta iota zeta in Hl.
    set (n := _id h) in *. set (h1 := (new_State [] h).2) in *.
    pose proof (graded_alive _ _ G fs Hfs) as [Hlt Hb].
    destruct (graded_new_State g h [] z G) as [G1 P1]; [lia|].
    fold n h1 in G1, P1.
    assert (Hn : alive h1 n) by (apply alive_new_State; left; reflexivity).
    destruct (graded_setitem (<[n := z]> g) h1 fs LWildcard n G1 Hn) as [G2 P2].
    { rewrite fn_lookup_insert, fn_lookup_insert_ne by (unfold n; lia).
      simpl. lia. }
    assert (P12 : preserved g h (<[n := z]> g) (setitem h1 fs LWildcard n)).
    { eapply preserved_trans; eassumption. }
    destruct (IH (<[n := z]> g) (setitem h1 fs LWildcard n) n (acc ++ [n])
                last l h' z G2) as (g' & Gr & Hlast & Hgl & Hall).
    + apply alive_setitem, Hn.
    + apply fn_lookup_insert.
    + intros s Hs. apply elem_of_app in Hs as [Hs|Hs].
      * destruct (Hacc s Hs) as [Ha Hg]. destruct (P12 s Ha). split; [done|congruence].
      * apply list_elem_of_singleton in Hs as ->.
        split; [apply alive_setitem, Hn|apply fn_lookup_insert].
    + exact Hl.
    + exists g'. split; [|done].
      eapply grows_trans; [|exact Gr]. split; assumption.
Qed.

Lemma make_fail_state_grows g h op lw ft count fail_state h' d :
  graded g h → (- Z.of_nat (_id h) <= d + 1 <= Z.of_nat (_id h))%Z →
  (∀ w, lw = Some w → alive h w ∧ g w = d) → fail_state_ok g h d ft →
  make_fail_state h op lw ft count = Returns (fail_state, h') →
  ∃ g', grows g h g' h' ∧ fail_state_ok g' h' (d + 1) fail_state.
Proof.
  intros G Hb Hlw Hft Hm. unfold make_fail_state in Hm.
  destruct (opt_state_bool h lw || FailState_bool h ft);
    [|injection Hm as <- <-; exists g; split; [apply grows_refl, G|done]].
  destruct (last_fail_state_of ft count) as [lfs| |] eqn:El; try discriminate.
  cbn [mbind Result_bind] in Hm.
  destruct (state_or h lw lfs) as [target|] eqn:Et; [|discriminate].
  cbn [or_raise mbind Result_bind] in Hm.
  assert (Htarget : alive h target ∧ g target = d).
  { unfold state_or in Et. destruct (opt_state_bool h lw).
    - apply Hlw, Et.
    - subst lfs. destruct ft as [|s|l]; simpl in El.
      + discriminate.
      + injection El as <-. exact Hft.
      + destruct (list_index l count) as [s|] eqn:Ei; [|discriminate].
        cbn in El. injection El as <-. apply Hft.
        unfold list_index in Ei.
        repeat (destruct (_ <=? _)%Z in Ei); try discriminate;
          eapply list_elem_of_lookup_2; exact Ei. }
  destruct Htarget as [Hta Htg].
  change (new_State [] h) with (_id h, (new_State [] h).2) in Hm.
  cbv beta iota zeta in Hm.
  set (n := _id h) in *. set (h0 := (new_State [] h).2) in *.
  destruct (graded_new_State g h [] (d + 1)%Z G) as [G0 P0]; [lia|].
  fold n h0 in G0, P0.
  assert (Hn : alive h0 n) by (apply alive_new_State; left; reflexivity).
  assert (Hgn : (<[n := (d + 1)%Z]> g) n = (d + 1)%Z) by apply fn_lookup_insert.
  destruct (arity_fixed_size (arity op)).
  - destruct (fail_ladder h0 n [n] (arity_min_count (arity op)))
      as [[last l] h1] eqn:Ef.
    injection Hm as <- <-.
    assert (Hacc : ∀ s, s ∈ [n] →
              alive h0 s ∧ (<[n := (d + 1)%Z]> g) s = (d + 1)%Z).
    { intros s Hs. apply list_elem_of_singleton in Hs as ->. done. }
    destruct (fail_ladder_grows _ _ _ _ _ _ _ _ _ G0 Hn Hgn Hacc Ef)
      as (g1 & Gr1 & Hlast & Hgl & Hall).
    destruct (P0 target Hta) as [Hta0 Htg0].
    destruct (proj2 Gr1 target Hta0) as [Hta1 Htg1].
    destruct (graded_setitem g1 h1 last (LTerm OPERATION_END) target
                (proj1 Gr1) Hta1) as [G2 P2].
    { rewrite Htg1, Htg0, Htg, Hgl. simpl. lia. }
    exists g1. split.
    + eapply grows_trans; [split; [exact G0|exact P0]|].
      eapply grows_trans; [exact Gr1|]. split; assumption.
    + simpl. intros s Hs. destruct (Hall s Hs).
      split; [apply alive_setitem|]; assumption.
  - injection Hm as <- <-.
    destruct (P0 target Hta) as [Hta0 Htg0].
    destruct (graded_setitem _ h0 n (LTerm OPERATION_END) target G0 Hta0)
      as [G1 P1].
    { rewrite Htg0, Htg, Hgn. simpl. lia. }
    assert (Hn1 : alive (setitem h0 n (LTerm OPERATION_END) target) n)
      by apply alive_setitem, Hn.
    destruct (graded_setitem _ _ n LWildcard n G1 Hn1) as [G2 P2].
    { simpl. lia. }
    eexists. split.
    + eapply grows_trans; [split; [exact G0|exact P0]|].
      eapply grows_trans; [split; [exact G1|exact P1]|split; [exact G2|exact P2]].
    + simpl. split; [|exact Hgn]. apply alive_setitem, alive_setitem, Hn.
Qed.

Lemma net_inv_setitem g G label target :
  net_inv g G → alive (ng_heap G) target →
  g target = (g (ng_state G) + delta label)%Z →
  net_inv g (mkNetGen (setitem (ng_heap G) (ng_state G) label target)
               (ng_state G) (last_wildcards G) (fail_states G)
               (operand_counts G)).
Proof.
  intros [Gr Hs Hst] Ht Hg.
  destruct (graded_setitem g (ng_heap G) (ng_state G) label target Gr Ht Hg)
    as [G' P'].
  split; cbn [ng_heap ng_state last_wildcards fail_states].
  - exact G'.
  - apply alive_setitem, Hs.
  - eapply stacks_ok_preserved; eassumption.
Qed.

Lemma last_fail_state_of_ok g h d ft count target :
  fail_state_ok g h d ft →
  last_fail_state_of ft count = Returns (Some target) →
  alive h target ∧ g target = d.
Proof.
  intros Hft El. destruct ft as [|s|l]; simpl in El.
  - discriminate.
  - injection El as <-. exact Hft.
  - destruct (list_index l count) as [s|] eqn:Ei; [|discriminate].
    cbn in El. injection El as <-. apply Hft.
    unfold list_index in Ei.
    repeat (destruct (_ <=? _)%Z in Ei); try discriminate;
      eapply list_elem_of_lookup_2; exact Ei.
Qed.

Lemma add_epsilon_inv g G G' :
  net_inv g G → add_epsilon G = Returns G' →
  net_inv g G' ∧ ng_state G' = ng_state G
  ∧ preserved g (ng_heap G) g (ng_heap G').
Proof.
  intros Hinv He. unfold add_epsilon in He.
  pose proof (ni_stacks _ _ Hinv) as Hst.
  destruct (last_wildcards G) as [|lw lws] eqn:Elw; [discriminate|].
  destruct (fail_states G) as [|ft fss] eqn:Efs; [done|].
  destruct Hst as (Hlw & Hft & _).
  cbn [head or_raise mbind Result_bind] in He.
  destruct (decide (lw = Some (ng_state G))).
  { injection He as <-. split; [exact Hinv|]. split; [reflexivity|].
    apply preserved_refl. }
  assert (Hset : ∀ target, alive (ng_heap G) target →
    g target = g (ng_state G) →
    let G1 := mkNetGen (setitem (ng_heap G) (ng_state G) EPSILON target)
                (ng_state G) (last_wildcards G) (fail_states G)
                (operand_counts G) in
    net_inv g G1 ∧ ng_state G1 = ng_state G
    ∧ preserved g (ng_heap G) g (ng_heap G1)).
  { intros target Ht Hg G1. split; [|split; [reflexivity|]].
    - apply net_inv_setitem; [exact Hinv|exact Ht|]. simpl. lia.
    - apply (graded_setitem g (ng_heap G) (ng_state G) EPSILON target
               (ni_graded _ _ Hinv) Ht). simpl. lia. }
  destruct (opt_state_bool (ng_heap G) lw).
  - destruct lw as [w|]; [|discriminate].
    cbn [or_raise mbind Result_bind] in He. injection He as <-.
    rewrite <- Elw, <- Efs. apply Hset; apply (Hlw w eq_refl).
  - destruct (FailState_bool (ng_heap G) ft).
    + destruct (head (operand_counts G)) as [count|]; [|discriminate].
      cbn [or_raise mbind Result_bind] in He.
      destruct (last_fail_state_of ft count) as [[target|]| |] eqn:El;
        try discriminate.
      cbn [or_raise mbind Result_bind] in He. injection He as <-.
      rewrite <- Elw, <- Efs.
      apply Hset; eapply last_fail_state_of_ok; eassumption.
    + injection He as <-. split; [exact Hinv|]. split; [reflexivity|].
      apply preserved_refl.
Qed.

Lemma net_step_inv g G term G' :
  net_inv g G → net_step G term = Returns G' →
  ∃ g', net_inv g' G' ∧ preserved g (ng_heap G) g' (ng_heap G').
Proof.
  intros Hinv Hs. unfold net_step in Hs.
  destruct (head (operand_counts G)) as [count0|]; [|discriminate].
  cbn [or_raise mbind Result_bind] in Hs.
  set (count := if (0 <=? count0)%Z then (count0 + 1)%Z else count0) in *.
  match type of Hs with
  | mbind _ ?m = _ => destruct m as [G1| |] eqn:E1; try discriminate
  end.
  cbn [mbind Result_bind] in Hs.
  assert (H1 : ∃ g1, net_inv g1 G1 ∧ preserved g (ng_heap G) g1 (ng_heap G1)).
  { destruct Hinv as [Gr Hal Hst].
    destruct (isinstance_Wildcard term) eqn:Ew.
    - destruct (_generate_state_chain _ _ _ _) as [state h1] eqn:Ec.
      destruct (state_chain_grows _ _ _ _ LWildcard _ _ Gr Hal eq_refl Ec)
        as (g1 & [G1' P1] & Hal1 & Hg1).
      destruct (negb (wc_fixed_size term)).
      + destruct (last_wildcards G) as [|lw lws] eqn:Elw; [discriminate|].
        injection E1 as <-.
        destruct (fail_states G) as [|ft fss] eqn:Efs; [done|].
        destruct (graded_setitem g1 h1 state LWildcard state G1' Hal1)
          as [G2 P2]; [simpl; lia|].
        exists g1. split; [|eapply preserved_trans; eassumption].
        split; cbn [ng_heap ng_state last_wildcards fail_states].
        * exact G2.
        * apply alive_setitem, Hal1.
        * rewrite Hg1. destruct Hst as (Hlw & Hft & Hrest).
          assert (P12 : preserved g (ng_heap G) g1 (setitem h1 state LWildcard state))
            by (eapply preserved_trans; eassumption).
          split; [|split].
          -- intros w [= <-]. split; [apply alive_setitem, Hal1|exact Hg1].
          -- eapply fail_state_ok_preserved; eassumption.
          -- eapply stacks_ok_preserved; eassumption.
      + injection E1 as <-. exists g1. split; [|exact P1].
        split; cbn [ng_heap ng_state last_wildcards fail_states];
          try assumption.
        rewrite Hg1. eapply stacks_ok_preserved; eassumption.
    - destruct (_create_child_state _ _ _) as [state h1] eqn:Ec.
      destruct (child_state_grows _ _ _ _ _ _ Gr Hal Ec)
        as (g1 & [G1' P1] & Hal1 & Hg1 & _).
      pose proof (stacks_ok_preserved _ _ _ _ _ _ _ P1 Hst) as Hst1.
      destruct term as [name c|m f|c|op|c|]; try discriminate.
      + injection E1 as <-. exists g1. split; [|exact P1].
        split; cbn [ng_heap ng_state last_wildcards fail_states];
          try assumption.
        rewrite Hg1. simpl. rewrite Z.add_0_r. exact Hst1.
      + destruct (last_wildcards G) as [|lw lws] eqn:Elw; [discriminate|].
        destruct (fail_states G) as [|ft fss] eqn:Efs; [done|].
        cbn [head or_raise mbind Result_bind] in E1.
        destruct (make_fail_state h1 op lw ft count) as [[fail_state h2]| |]
          eqn:Em; try discriminate.
        cbn [mbind Result_bind] in E1. injection E1 as <-.
        destruct Hst1 as (Hlw & Hft & Hrest).
        pose proof (graded_alive _ _ G1' state Hal1) as [_ Hb].
        simpl in Hg1.
        destruct (make_fail_state_grows g1 h1 op lw ft count fail_state h2
                    (g (ng_state G)) G1' ltac:(lia) Hlw Hft Em)
          as (g2 & [G2 P2] & Hfs).
        exists g2. split; [|eapply preserved_trans; eassumption].
        destruct (P2 state Hal1) as [Hal2 Hg2].
        split; cbn [ng_heap ng_state last_wildcards fail_states].
        * exact G2.
        * exact Hal2.
        * rewrite Hg2, Hg1. split; [discriminate|]. split; [exact Hfs|].
          replace (g (ng_state G) + 1 - 1)%Z with (g (ng_state G)) by lia.
          split; [|split].
          -- intros w Hw. destruct (Hlw w Hw) as [Ha Hg].
             destruct (P2 w Ha). split; [done|congruence].
          -- eapply fail_state_ok_preserved; eassumption.
          -- eapply stacks_ok_preserved; eassumption.
      + injection E1 as <-. exists g1. split; [|exact P1].
        split; cbn [ng_heap ng_state last_wildcards fail_states];
          try assumption.
        rewrite Hg1. simpl. rewrite Z.add_0_r. exact Hst1.
      + destruct (fail_states G) as [|ft fss] eqn:Efs; [discriminate|].
        destruct (last_wildcards G) as [|lw lws] eqn:Elw; [discriminate|].
        cbn [tail] in E1. injection E1 as <-.
        exists g1. split; [|exact P1].
        split; cbn [ng_heap ng_state last_wildcards fail_states];
          try assumption.
        rewrite Hg1. simpl. destruct Hst1 as (_ & _ & Hrest).
        replace (g (ng_state G) + -1)%Z with (g (ng_state G) - 1)%Z by lia.
        exact Hrest. }
  destruct H1 as (g1 & Hinv1 & P1).
  destruct (add_epsilon_inv g1 G1 G' Hinv1 Hs) as (Hinv' & _ & P').
  exists g1. split; [exact Hinv'|]. eapply preserved_trans; eassumption.
Qed.

Lemma net_loop_inv flatterm : ∀ g G G',
  net_inv g G → net_loop G flatterm = Returns G' →
  ∃ g', net_inv g' G' ∧ preserved g (ng_heap G) g' (ng_heap G').
Proof.
  induction flatterm as [|term rest IH]; intros g G G' Hinv Hl;
    cbn [net_loop] in Hl.
  - injection Hl as <-. exists g. split; [exact Hinv|apply preserved_refl].
  - destruct (net_step G term) as [G1| |] eqn:E1; try discriminate.
    cbn [mbind Result_bind] in Hl.
    destruct (net_step_inv g G term G1 Hinv E1) as (g1 & Hinv1 & P1).
    destruct (IH g1 G1 G' Hinv1 Hl) as (g2 & Hinv2 & P2).
    exists g2. split; [exact Hinv2|]. eapply preserved_trans; eassumption.
Qed.

(** The NFA of a pattern is graded, with its root at depth 0. *)
Lemma generate_nfa_grows g h flatterm final_label root h' :
  graded g h →
  generate_nfa h flatterm final_label = Returns (root, h') →
  ∃ g', grows g h g' h' ∧ alive h' root ∧ g' root = 0%Z.
Proof.
  intros G Hn. unfold generate_nfa in Hn.
  change (new_State [] h) with (_id h, (new_State [] h).2) in Hn.
  cbv beta iota in Hn.
  destruct (root_grows g h [] G) as (g0 & Gr0 & Hr0 & Hg0).
  destruct (net_loop _ _) as [G1| |] eqn:El; try discriminate.
  cbn [mbind Result_bind] in Hn. injection Hn as <- <-.
  assert (Hinv0 : net_inv g0 (mkNetGen (new_State [] h).2 (_id h) [None]
                                [FS_None] [0%Z])).
  { split; cbn [ng_heap ng_state last_wildcards fail_states].
    - apply Gr0.
    - exact Hr0.
    - simpl. rewrite Hg0. done. }
  destruct (net_loop_inv _ g0 _ G1 Hinv0 El) as (g1 & Hinv1 & P1).
  cbn [ng_heap] in P1.
  destruct (graded_set_payload g1 (ng_heap G1) (ng_state G1) [final_label]
              (ni_graded _ _ Hinv1)) as [G2 P2].
  exists g1. split; [|split].
  - split; [exact G2|]. eapply preserved_trans; [apply Gr0|].
    eapply preserved_trans; eassumption.
  - apply alive_set_payload. apply (P1 _ Hr0).
  - rewrite (proj2 (P1 _ Hr0)). exact Hg0.
Qed.


Lemma elem_of_union_fold (F : nat → gset nat) (l : list nat) (x : nat) :
  x ∈ foldr (λ s acc, F s ∪ acc) (∅ : gset nat) l ↔ ∃ s, s ∈ l ∧ x ∈ F s.
Proof.
  induction l as [|s l IH]; simpl.
  - split; [set_solver|]. intros (s & Hs & _). inversion Hs.
  - rewrite elem_of_union, IH. split.
    + intros [H|(s' & Hs' & Hx)]; [exists s; split; [left|done]|].
      exists s'. split; [right; done|done].
    + intros (s' & Hs' & Hx). apply elem_of_cons in Hs' as [->|Hs'].
      * left. exact Hx.
      * right. eauto.
Qed.

Lemma elem_of_epsilon_to_add h output x :
  x ∈ epsilon_to_add h output →
  ∃ s, s ∈ output ∧ getitem h s EPSILON = Some x.
Proof.
  unfold epsilon_to_add. intros Hx.
  assert (H : ∃ s, s ∈ elements output ∧ getitem h s EPSILON = Some x).
  { induction (elements output) as [|s l IH]; simpl in Hx; [set_solver|].
    destruct (getitem h s EPSILON) as [t|] eqn:E.
    - destruct (decide (t ∈ output)).
      + destruct (IH Hx) as (s' & ? & ?). exists s'. split; [right|]; done.
      + apply elem_of_union in Hx as [Hx|Hx].
        * apply elem_of_singleton in Hx as ->. exists s. split; [left|done].
        * destruct (IH Hx) as (s' & ? & ?). exists s'. split; [right|]; done.
    - destruct (IH Hx) as (s' & ? & ?). exists s'. split; [right|]; done. }
  destruct H as (s & Hs & E). exists s. split; [|exact E].
  apply elem_of_elements, Hs.
Qed.

Lemma epsilon_loop_subseteq h' n : ∀ X : gset nat, X ⊆ epsilon_loop n h' X.
Proof.
  induction n as [|n IH]; intros X; cbn [epsilon_loop]; [done|].
  destruct (decide _); [done|]. etransitivity; [|apply IH].
  apply union_subseteq_l.
Qed.

Section Closure.
Context (g : nat → Z) (h h' : Heap) (G : graded g h) (A : agrees h h').

Lemma epsilon_loop_uniform n : ∀ X z,
  uniform g h X z → uniform g h (epsilon_loop n h' X) z.
Proof.
  induction n as [|n IH]; intros X z HX; cbn [epsilon_loop]; [exact HX|].
  destruct (decide (epsilon_to_add h' X = ∅)); [exact HX|].
  apply IH. intros x Hx. apply elem_of_union in Hx as [Hx|Hx]; [apply HX, Hx|].
  apply elem_of_epsilon_to_add in Hx as (s & Hs & E).
  destruct (HX s Hs) as [Hal Hg].
  rewrite (agrees_getitem h h' A) in E by apply (alive_pos g h s G Hal).
  destruct (graded_trans _ _ G _ _ _ E) as [Hx Hgx]. simpl in Hgx.
  split; [exact Hx|lia].
Qed.

Lemma target_of_uniform label s x :
  alive h s → x ∈ target_of h' label s →
  alive h x ∧ g x = (g s + delta label)%Z.
Proof.
  intros Hs. pose proof (alive_pos g h s G Hs) as [_ Hlt].
  unfold target_of. rewrite !(agrees_getitem h h' A) by exact Hlt.
  rewrite !elem_of_union. intros [[Hx|Hx]|Hx].
  - destruct (getitem h s label) as [t|] eqn:E; [|set_solver].
    apply elem_of_singleton in Hx as ->. apply (graded_trans _ _ G _ _ _ E).
  - destruct label as [[name c| | | | |]| |]; try set_solver.
    rewrite (agrees_symbol_wildcard h h' A) in Hx by exact Hlt.
    destruct (_get_symbol_wildcard_label h s (ASymbol name c)) as [key|] eqn:Ek;
      [|set_solver].
    rewrite (agrees_getitem h h' A) in Hx by exact Hlt.
    destruct (symbol_wildcard_label_spec _ _ _ _ Ek) as [_ Hd].
    destruct (getitem h s key) as [t|] eqn:E; [|set_solver].
    apply elem_of_singleton in Hx as ->.
    destruct (graded_trans _ _ G _ _ _ E) as [Ht Hg].
    split; [exact Ht|]. rewrite Hg, Hd. simpl. reflexivity.
  - destruct (getitem h s LWildcard) as [t|] eqn:E; [|set_solver].
    destruct (label_is_operation label) eqn:Hop; [set_solver|].
    destruct (bool_decide (label = LTerm OPERATION_END)) eqn:He; [set_solver|].
    apply bool_decide_eq_false in He. simpl in Hx.
    apply elem_of_singleton in Hx as ->.
    destruct (graded_trans _ _ G _ _ _ E) as [Ht Hg].
    split; [exact Ht|]. rewrite Hg, (delta_other label Hop He). reflexivity.
Qed.

Lemma _target_set_uniform X z label :
  _id h ≤ _id h' →
  uniform g h X z → uniform g h (_target_set h' X label) (z + delta label).
Proof.
  intros Hid HX. unfold _target_set, _epsilon_closure.
  apply epsilon_loop_uniform. intros x Hx.
  apply elem_of_union_fold in Hx as (s & Hs & Hx).
  apply elem_of_elements in Hs. destruct (HX s Hs) as [Hal <-].
  apply target_of_uniform; assumption.
Qed.

Lemma _target_set_nonempty X z label :
  uniform g h X z → label ∈ labels_of_set h' X →
  ∃ x, x ∈ _target_set h' X label.
Proof.
  intros HX Hl. unfold labels_of_set in Hl.
  apply elem_of_remove_dups, list_elem_of_In, in_concat in Hl
    as (ks & Hks & Hl).
  apply in_map_iff in Hks as (s & <- & Hs).
  apply list_elem_of_In, elem_of_elements in Hs.
  apply list_elem_of_In, keys_getitem in Hl as [t Ht].
  exists t. unfold _target_set, _epsilon_closure.
  apply epsilon_loop_subseteq, elem_of_union_fold.
  exists s. split; [apply elem_of_elements, Hs|].
  unfold target_of. rewrite Ht. set_solver.
Qed.
End Closure.

Lemma length_bool_lists n : length (bool_lists n) = 2 ^ n.
Proof.
  induction n as [|n IH]; [reflexivity|].
  cbn [bool_lists]. rewrite length_app, !length_fmap, IH. simpl. lia.
Qed.

Lemma elem_of_bool_lists (l : list bool) : l ∈ bool_lists (length l).
Proof.
  induction l as [|b l IH]; [left|].
  cbn [length bool_lists]. apply elem_of_app.
  destruct b; [left|right]; apply list_elem_of_fmap; eauto.
Qed.

Lemma set_code_inj n (X Y : gset nat) :
  (∀ x, x ∈ X → x < n) → (∀ y, y ∈ Y → y < n) →
  set_code n X = set_code n Y → X = Y.
Proof.
  intros HX HY E. apply set_eq. intros i.
  destruct (decide (i < n)) as [Hi|Hi].
  - assert (Hl : set_code n X !! i = set_code n Y !! i) by (rewrite E; done).
    unfold set_code in Hl. rewrite !list_lookup_fmap in Hl.
    rewrite !lookup_seq_lt in Hl by exact Hi. simpl in Hl.
    injection Hl as Hl. split; intros H.
    + apply (bool_decide_eq_true_1 (i ∈ Y)). rewrite <- Hl.
      apply bool_decide_eq_true_2, H.
    + apply (bool_decide_eq_true_1 (i ∈ X)). rewrite Hl.
      apply bool_decide_eq_true_2, H.
  - split; intros H; [specialize (HX i H)|specialize (HY i H)]; lia.
Qed.

(** There are at most [2 ^ n] sets of numbers below [n]. *)
Lemma size_sets_bound {A} (n : nat) (m : gmap (gset nat) A) :
  (∀ X a, m !! X = Some a → ∀ x, x ∈ X → x < n) →
  size m ≤ 2 ^ n.
Proof.
  intros Hok. rewrite <- length_map_to_list.
  rewrite <- (length_fmap fst (map_to_list m)).
  rewrite <- (length_fmap (set_code n) ((map_to_list m).*1)).
  rewrite <- (length_bool_lists n).
  apply submseteq_length, NoDup_submseteq.
  - apply NoDup_fmap_2_strong; [|apply NoDup_fst_map_to_list].
    intros k1 k2 Hk1 Hk2.
    apply list_elem_of_fmap in Hk1 as [[k1' x1] [-> Hk1]].
    apply list_elem_of_fmap in Hk2 as [[k2' x2] [-> Hk2]].
    apply elem_of_map_to_list in Hk1, Hk2. simpl.
    apply set_code_inj; eapply Hok; eassumption.
  - intros c Hc. apply list_elem_of_fmap in Hc as [k [-> Hk]].
    replace n with (length (set_code n k)) at 2
      by (unfold set_code; rewrite length_fmap, length_seq; reflexivity).
    apply elem_of_bool_lists.
Qed.

Lemma labels_of_set_agrees g h h' X z :
  graded g h → agrees h h' → uniform g h X z →
  labels_of_set h' X = labels_of_set h X.
Proof.
  intros G A HX. unfold labels_of_set. f_equal. f_equal.
  apply map_ext_in. intros s Hs.
  apply list_elem_of_In, elem_of_elements in Hs.
  apply (agrees_keys h h' A), (alive_pos g h s G), HX, Hs.
Qed.

Lemma dfa_label_step_ok g h gd d X new_state label :
  graded g h → dfa_inv g h gd d →
  new_states d !! X = Some new_state →
  label ∈ labels_of_set h X →
  ∃ gd' d',
    dfa_label_step X new_state d label = Returns d'
    ∧ dfa_inv g h gd' d'
    ∧ new_states d ⊆ new_states d'
    ∧ size (new_states d') + length (dg_queue d)
      = size (new_states d) + length (dg_queue d').
Proof.
  intros G [Gd A P Hst Hq] HX Hl.
  destruct (Hst _ _ HX) as (Hle & Hal & Hu).
  unfold dfa_label_step.
  destruct (decide (label = EPSILON)) as [->|Hne].
  { exists gd, d. split; [reflexivity|]. split; [split; assumption|done]. }
  assert (Hid : _id h ≤ _id (dg_heap d)).
  { pose proof (alive_pos gd (dg_heap d) new_state Gd Hal). lia. }
  set (target := _target_set (dg_heap d) X label).
  pose proof (_target_set_uniform g h (dg_heap d) G A X (gd new_state) label
                Hid Hu) as Hut. fold target in Hut.
  destruct (_target_set_nonempty g h (dg_heap d) G A X (gd new_state) label Hu)
    as [x0 Hx0].
  { rewrite (labels_of_set_agrees g h (dg_heap d) X (gd new_state) G A Hu).
    exact Hl. }
  fold target in Hx0.
  destruct (new_states d !! target) as [t|] eqn:Et.
  - rewrite Et. cbn [or_raise mbind Result_bind].
    destruct (Hst _ _ Et) as (Hlt & Halt & Hutt).
    destruct (graded_setitem gd (dg_heap d) new_state label t Gd Halt)
      as [G' P'].
    { destruct (Hutt x0 Hx0) as [_ <-]. destruct (Hut x0 Hx0) as [_ ->].
      reflexivity. }
    exists gd. eexists. split; [reflexivity|]. split; [|done].
    split; cbn [dg_heap new_states dg_queue].
    + exact G'.
    + apply agrees_setitem; assumption.
    + eapply preserved_trans; eassumption.
    + intros Y s Hs. destruct (Hst _ _ Hs) as (? & ? & ?).
      split; [assumption|]. split; [apply alive_setitem; assumption|assumption].
    + exact Hq.
  - unfold _create_state.
    match goal with
    | |- context [new_State ?pl (dg_heap d)] =>
        change (new_State pl (dg_heap d))
          with (_id (dg_heap d), (new_State pl (dg_heap d)).2);
        set (h1 := (new_State pl (dg_heap d)).2)
    end.
    cbv beta iota. cbn [dg_heap new_states dg_queue].
    rewrite lookup_insert_eq. cbn [or_raise mbind Result_bind].
    set (s := _id (dg_heap d)).
    set (z := (gd new_state + delta label)%Z).
    pose proof (graded_alive _ _ Gd new_state Hal) as [Hns Hnb]. fold s in Hns.
    destruct (graded_new_State gd (dg_heap d)
                (elements (foldr (λ state acc,
                   list_to_set (get_payload (dg_heap d) state) ∪ acc)
                   (∅ : gset nat) (elements target))) z Gd)
      as [G1 P1].
    { subst z. destruct label as [[]| |]; simpl; lia. }
    fold s h1 in G1, P1.
    assert (Hs1 : alive h1 s) by (apply alive_new_State; left; reflexivity).
    destruct (graded_setitem (<[s := z]> gd) h1 new_state label s G1 Hs1)
      as [G2 P2].
    { rewrite fn_lookup_insert, fn_lookup_insert_ne by lia. reflexivity. }
    exists (<[s := z]> gd). eexists. split; [reflexivity|].
    split; [|split].
    + split; cbn [dg_heap new_states dg_queue].
      * exact G2.
      * apply agrees_setitem; [|exact Hle].
        apply agrees_new_State; [exact A|]. fold s. lia.
      * eapply preserved_trans; [exact P|].
        eapply preserved_trans; eassumption.
      * intros Y s' Hs'. apply lookup_insert_Some in Hs' as [[<- <-]|[Hk Hs']].
        -- split; [lia|]. split; [apply alive_setitem, Hs1|].
           rewrite fn_lookup_insert. exact Hut.
        -- destruct (Hst _ _ Hs') as (? & Hal' & Hu').
           split; [assumption|]. split; [apply alive_setitem, P1, Hal'|].
           rewrite fn_lookup_insert_ne; [exact Hu'|].
           pose proof (alive_pos gd (dg_heap d) s' Gd Hal'). fold s in H0. lia.
      * intros Y HY. apply elem_of_cons in HY as [->|HY].
        -- rewrite lookup_insert_eq. eauto.
        -- apply lookup_insert_is_Some'. right. apply Hq, HY.
    + cbn [new_states]. apply insert_subseteq, Et.
    + cbn [new_states dg_queue]. rewrite map_size_insert_None by exact Et.
      simpl. lia.
Qed.

Lemma dfa_body_ok g h d :
  graded g h → (∃ gd, dfa_inv g h gd d) →
  match dfa_body d with
  | Returns (inl d') =>
      (∃ gd', dfa_inv g h gd' d')
      ∧ new_states d ⊆ new_states d'
      ∧ dfa_measure (_id h) d' < dfa_measure (_id h) d
  | Returns (inr d') => d' = d
  | _ => False
  end.
Proof.
  intros G [gd Hinv]. unfold dfa_body.
  destruct (dg_queue d) as [|X rest] eqn:Eq; [reflexivity|].
  destruct (di_queue _ _ _ _ Hinv X) as [new_state HX].
  { rewrite Eq. left. }
  rewrite HX. cbn [or_raise mbind Result_bind].
  destruct (di_states _ _ _ _ Hinv _ _ HX) as (_ & _ & Hu).
  rewrite (labels_of_set_agrees g h (dg_heap d) X (gd new_state) G
             (di_agrees _ _ _ _ Hinv) Hu).
  destruct (for_each_progress (dfa_label_step X new_state)
              (λ d', (∃ gd', dfa_inv g h gd' d')
                     ∧ new_states d ⊆ new_states d'
                     ∧ size (new_states d') + length rest
                       = size (new_states d) + length (dg_queue d'))
              (labels_of_set h X)) with
    (s := mkDfaGen (dg_heap d) (new_states d) rest)
    as (d' & Ed & [gd' Hinv'] & Hsub & Hsize).
  - intros d1 label Hl ([gd1 Hinv1] & Hst1 & Hsz1).
    destruct (dfa_label_step_ok g h gd1 d1 X new_state label G Hinv1
                (lookup_weaken _ _ _ _ HX Hst1) Hl)
      as (gd2 & d2 & E2 & Hinv2 & Hst2 & Hsz2).
    exists d2. split; [exact E2|]. split; [eauto|].
    split; [etransitivity; eassumption|]. lia.
  - split; [|split; [reflexivity|reflexivity]].
    exists gd. destruct Hinv as [Gd A P Hst Hq]. split; try assumption.
    cbn [dg_queue new_states]. intros Y HY. apply Hq. rewrite Eq. right. exact HY.
  - rewrite Ed. cbn [mbind Result_bind]. split; [eauto|]. split; [exact Hsub|].
    unfold dfa_measure. rewrite Eq. simpl length.
    assert (size (new_states d') ≤ 2 ^ _id h).
    { apply size_sets_bound. intros Y a HY x Hx.
      destruct (di_states _ _ _ _ Hinv' _ _ HY) as (_ & _ & Hu').
      apply (alive_pos g h x G), Hu', Hx. }
    lia.
Qed.

Lemma agrees_refl h : agrees h h.
Proof. intros s _. reflexivity. Qed.

(** [_convert_nfa_to_dfa] returns for an NFA of a graded heap, and the DFA
    it returns is graded, with its root at the depth of the NFA's root. *)
Lemma _convert_nfa_to_dfa_returns g h root :
  graded g h → alive h root →
  ∃ t h' gd,
    _convert_nfa_to_dfa h root = Returns (t, h')
    ∧ grows g h gd h' ∧ alive h' t ∧ gd t = g root.
Proof.
  intros G Hroot. unfold _convert_nfa_to_dfa.
  set (new_root := _epsilon_closure h {[root]}).
  assert (Hu0 : uniform g h new_root (g root)).
  { apply (epsilon_loop_uniform g h h G (agrees_refl h)).
    intros x Hx. apply elem_of_singleton in Hx as ->. done. }
  unfold _create_state.
  match goal with
  | |- context [new_State ?pl h] =>
      change (new_State pl h) with (_id h, (new_State pl h).2);
      set (h0 := (new_State pl h).2);
      destruct (graded_new_State g h pl (g root) G) as [G0 P0]
  end.
  { pose proof (alive_bound g h root G Hroot). lia. }
  cbv beta iota. set (s := _id h) in *. fold h0 in G0, P0.
  set (d0 := mkDfaGen h0 {[new_root := s]} [new_root]).
  assert (Hs0 : alive h0 s) by (apply alive_new_State; left; reflexivity).
  assert (Hinv0 : dfa_inv g h (<[s := g root]> g) d0).
  { split; cbn [dg_heap new_states dg_queue d0].
    - exact G0.
    - intros x Hx. unfold h0, new_State; simpl.
      rewrite lookup_insert_ne by (unfold s; lia). reflexivity.
    - exact P0.
    - intros X s' Hs'. apply lookup_singleton_Some in Hs' as [<- <-].
      split; [unfold s; lia|]. split; [exact Hs0|].
      rewrite fn_lookup_insert. exact Hu0.
    - intros X HX. apply list_elem_of_singleton in HX as ->.
      rewrite lookup_singleton_eq. eauto. }
  destruct (iterate_terminates dfa_body
              (λ d, (∃ gd, dfa_inv g h gd d)
                    ∧ new_states d !! new_root = Some s)
              (dfa_measure (_id h))) with (s := d0)
    as (n & r & d_last & Hn & Hit & [[gd Hlast] Hfirst] & Hbody).
  - intros d [Hd Hfirst]. pose proof (dfa_body_ok g h d G Hd) as Hb'.
    destruct (dfa_body d) as [[d'|d']| |]; try done.
    destruct Hb' as (Hd' & Hsub & Hlt). split; [|exact Hlt].
    split; [exact Hd'|]. eapply lookup_weaken; eassumption.
  - split; [eauto|]. apply lookup_singleton_eq.
  - assert (Hr : r = d_last).
    { pose proof (dfa_body_ok g h d_last G (ex_intro _ gd Hlast)) as Hb'.
      rewrite Hbody in Hb'. exact Hb'. }
    subst r.
    rewrite (while_loop_done dfa_body _ n d0 d_last); [| |exact Hit].
    + cbn [mbind Result_bind]. rewrite Hfirst.
      cbn [or_raise mbind Result_bind].
      exists s, (dg_heap d_last), gd. split; [reflexivity|].
      destruct Hlast as [Gd A P Hst Hq]. split; [split; assumption|].
      destruct (Hst _ _ Hfirst) as (_ & Hal & Hu).
      split; [exact Hal|].
      assert (Hin : root ∈ new_root).
      { apply (epsilon_loop_subseteq h). apply elem_of_singleton. reflexivity. }
      destruct (Hu root Hin) as [_ <-]. reflexivity.
    + etransitivity; [exact Hn|].
      unfold dfa_measure, d0; cbn [new_states dg_queue length].
      rewrite map_size_singleton, Nat.pow_succ_r'.
      subst s. pose proof (Nat.pow_nonzero 2 (_id h)). lia.
Qed.

(** [_generate_net], when building the NFA raises no exception, returns a
    graded DFA with its root at depth 0. *)
Lemma _generate_net_grows g h flatterm final_label r :
  graded g h →
  _generate_net h flatterm final_label = r →
  match generate_nfa h flatterm final_label with
  | Returns _ =>
      ∃ root h' g', r = Returns (root, h')
                    ∧ grows g h g' h' ∧ alive h' root ∧ g' root = 0%Z
  | Raises e => r = Raises e
  | Unfinished => r = Unfinished
  end.
Proof.
  intros G <-. unfold _generate_net.
  destruct (generate_nfa h flatterm final_label) as [[root h1]| |] eqn:En;
    [|reflexivity..].
  cbn [mbind Result_bind].
  destruct (generate_nfa_grows g h flatterm final_label root h1 G En)
    as (g1 & Gr1 & Hr1 & Hg1).
  destruct (_convert_nfa_to_dfa_returns g1 h1 root (proj1 Gr1) Hr1)
    as (t & h' & gd & E & Gr2 & Ht & Hgt).
  exists t, h', gd. split; [exact E|]. split; [|split; [exact Ht|]].
  - eapply grows_trans; eassumption.
  - rewrite Hgt. exact Hg1.
Qed.



Lemma pattern_net_grows g h pattern index root h' :
  graded g h → pattern_net h pattern index = Returns (root, h') →
  ∃ g', grows g h g' h' ∧ alive h' root ∧ g' root = 0%Z.
Proof.
  intros G Hp. unfold pattern_net in Hp.
  destruct (_ || _).
  - injection Hp as Hp.
    eapply _generate_syntactic_net_grows; eassumption.
  - pose proof (_generate_net_grows g h _ _ _ G Hp) as Hg.
    destruct (generate_nfa _ _ _) as [?| |]; try discriminate.
    destruct Hg as (r & h1 & g' & [= <- <-] & Hrest). eauto.
Qed.


Lemma budget_le_refl b : budget_le b b.
Proof. destruct b; simpl; lia. Qed.

Lemma budget_le_trans a b c : budget_le a b → budget_le b c → budget_le a c.
Proof. destruct a, b, c; simpl; try lia; done. Qed.

Lemma Forall2_budget_le_refl B : Forall2 budget_le B B.
Proof. induction B; constructor; [apply budget_le_refl|assumption]. Qed.

Lemma Forall2_budget_le_trans B1 B2 B3 :
  Forall2 budget_le B1 B2 → Forall2 budget_le B2 B3 → Forall2 budget_le B1 B3.
Proof.
  intros H12. revert B3. induction H12; intros B3 H23; inversion H23; subst;
    constructor; eauto using budget_le_trans.
Qed.

Lemma spend_mono b b' c :
  budget_le b b' → spend b = Some c → ∃ c', spend b' = Some c' ∧ budget_le c c'.
Proof.
  destruct b as [[|k]|], b' as [[|k']|]; simpl; intros Hle Hs;
    try discriminate; try lia; try done; injection Hs as <-.
  - exists (Some k'). split; [done|simpl; lia].
  - exists None. done.
  - exists None. done.
Qed.

Lemma spend_le b c : spend b = Some c → budget_le c b.
Proof.
  destruct b as [[|k]|]; simpl; intros [= <-]; simpl; try lia; done.
Qed.

(** [budget_step] on an atom that is neither [OPERATION_END] nor a sequence
    wildcard. *)
Lemma budget_step_spend b bs term :
  term ≠ OPERATION_END →
  isinstance_Wildcard term && negb (wc_fixed_size term) = false →
  budget_step (b :: bs) term
  = b' ← spend b;
    Some (match term with
          | AOperation op => operation_budget op :: b' :: bs
          | _ => b' :: bs
          end).
Proof.
  intros Hne Hw. unfold budget_step. rewrite Hw.
  destruct term; try done; destruct (spend b); reflexivity.
Qed.

Lemma budget_step_mono B B' term B1 :
  Forall2 budget_le B B' → budget_step B term = Some B1 →
  ∃ B1', budget_step B' term = Some B1' ∧ Forall2 budget_le B1 B1'.
Proof.
  intros HB Hs. destruct HB as [|b b' bs bs' Hb Hbs]; [discriminate|].
  destruct (decide (term = OPERATION_END)) as [->|Hne].
  - cbn [budget_step] in *.
    destruct Hbs as [|? ? ? ? ? ?]; [discriminate|]. injection Hs as <-.
    eexists. split; [reflexivity|]. constructor; assumption.
  - destruct (isinstance_Wildcard term && negb (wc_fixed_size term)) eqn:Hw.
    + assert (Hst : ∀ b0 bs0, budget_step (b0 :: bs0) term = Some (None :: bs0)).
      { intros b0 bs0. unfold budget_step. rewrite Hw.
        destruct term; try done. }
      rewrite Hst in Hs. injection Hs as <-. rewrite Hst.
      eexists. split; [reflexivity|]. constructor; [done|assumption].
    + rewrite budget_step_spend in Hs by assumption.
      rewrite budget_step_spend by assumption.
      destruct (spend b) as [b1|] eqn:Eb; [|discriminate].
      cbn [mbind option_bind] in Hs. injection Hs as <-.
      destruct (spend_mono b b' b1 Hb Eb) as (b1' & -> & Hb1).
      cbn [mbind option_bind]. eexists. split; [reflexivity|].
      destruct term; repeat constructor; try assumption.
      apply budget_le_refl.
Qed.

Lemma budget_run_mono tape : ∀ B B' B1,
  Forall2 budget_le B B' → budget_run B tape = Some B1 →
  ∃ B1', budget_run B' tape = Some B1' ∧ Forall2 budget_le B1 B1'.
Proof.
  induction tape as [|term rest IH]; intros B B' B1 HB Hr; cbn in *.
  - injection Hr as <-. eauto.
  - destruct (budget_step B term) as [B2|] eqn:E2; [|discriminate]. cbn in Hr.
    destruct (budget_step_mono B B' term B2 HB E2) as (B2' & -> & HB2).
    cbn. eapply IH; eassumption.
Qed.

Lemma budget_run_app t1 t2 B :
  budget_run B (t1 ++ t2) = B' ← budget_run B t1; budget_run B' t2.
Proof.
  revert B. induction t1 as [|term t1 IH]; intros B; cbn; [reflexivity|].
  destruct (budget_step B term); cbn; [apply IH|reflexivity].
Qed.

(** The flattened tape of an expression takes one atom of the budget of the
    level it stands in, or lifts its limit when it is a sequence wildcard,
    and leaves the levels below alone. *)
Lemma budget_run_expression (e : Expression) :
  operands_fit_arity e →
  ∀ b bs,
    if sequence_wildcard e
    then budget_run (b :: bs) (_flatterm_iter e) = Some (None :: bs)
    else ∀ b', spend b = Some b' →
           budget_run (b :: bs) (_flatterm_iter e) = Some (b' :: bs).
Proof.
  induction e as [name e IH|op operands IH|c|name c|m f]
    using Expression_nested_ind; intros Hfit b bs.
  - apply IH; assumption.
  - cbn [sequence_wildcard]. intros b' Hb.
    rewrite flatterm_iter_operation. cbn [budget_run].
    rewrite budget_step_spend by done. rewrite Hb.
    cbn [mbind option_bind].
    destruct Hfit as [Hlen Hall].
    assert (Hroom : room_for (leading_operands operands) (operation_budget op)).
    { unfold operation_budget.
      destruct (arity_fixed_size (arity op)); simpl; auto. }
    revert Hroom. generalize (operation_budget op) as nb. clear Hlen.
    induction IH as [|o os Ho _ IHos]; intros nb Hr.
    + reflexivity.
    + destruct Hall as [Hfo Hfos].
      change (operands_tape (o :: os))
        with (_flatterm_iter o ++ operands_tape os).
      rewrite budget_run_app. specialize (Ho Hfo nb (b' :: bs)).
      cbn [leading_operands] in Hr. destruct (sequence_wildcard o).
      * rewrite Ho. cbn [mbind option_bind]. apply (IHos Hfos). exact I.
      * assert (Hsp : ∃ nb1, spend nb = Some nb1
                             ∧ room_for (leading_operands os) nb1).
        { destruct nb as [[|k]|]; simpl in *; [lia| |].
          - exists (Some k). split; [done|simpl; lia].
          - exists None. done. }
        destruct Hsp as (nb1 & Hsp & Hr1).
        rewrite (Ho nb1 Hsp). cbn [mbind option_bind].
        apply (IHos Hfos). exact Hr1.
  - cbn. intros b' ->. reflexivity.
  - cbn. intros b' ->. reflexivity.
  - cbn [sequence_wildcard _flatterm_iter budget_run budget_step
         isinstance_Wildcard wc_fixed_size].
    destruct f; cbn; [|reflexivity]. intros b' ->. reflexivity.
Qed.

(** Combining wildcards leaves at least as much room. *)
Lemma budget_run_combined tape : ∀ acc B B1,
  budget_run B (yield_last acc ++ tape) = Some B1 →
  ∃ B1', budget_run B (combined_loop acc tape) = Some B1'
         ∧ Forall2 budget_le B1 B1'.
Proof.
  induction tape as [|term rest IH]; intros acc B B1 Hr.
  - cbn [combined_loop]. rewrite app_nil_r in Hr.
    exists B1. split; [exact Hr|apply Forall2_budget_le_refl].
  - cbn [combined_loop]. destruct (is_plain_wildcard term) eqn:Hp.
    + destruct term as [|m' f'| | | |]; try discriminate.
      destruct acc as [[m f]|]; [|apply IH; exact Hr].
      cbn [wc_min_count wc_fixed_size].
      (* two wildcards in a row become one, which takes no more room *)
      assert (Hm : ∃ B2, budget_run B (yield_last (Some (m + m', f && f'))
                                       ++ rest) = Some B2
                         ∧ Forall2 budget_le B1 B2).
      { cbn [yield_last app budget_run] in *.
        destruct B as [|b bs]; [discriminate|].
        cbn [budget_step isinstance_Wildcard wc_fixed_size andb negb] in *.
        destruct f; cbn [negb andb] in *.
        - destruct (spend b) as [b1|] eqn:Eb; [|discriminate].
          cbn [mbind option_bind budget_step isinstance_Wildcard
               wc_fixed_size andb negb] in *.
          destruct f'; cbn [negb] in *.
          + destruct (spend b1) as [b2|] eqn:Eb2; [|discriminate].
            cbn [mbind option_bind] in Hr.
            apply (budget_run_mono rest (b2 :: bs)); [|exact Hr].
            constructor; [apply spend_le, Eb2|apply Forall2_budget_le_refl].
          + exists B1. split; [exact Hr|apply Forall2_budget_le_refl].
        - cbn [mbind option_bind budget_step isinstance_Wildcard
               wc_fixed_size andb negb] in *.
          destruct f'; cbn [negb] in *.
          + cbn [spend mbind option_bind] in Hr.
            exists B1. split; [exact Hr|apply Forall2_budget_le_refl].
          + exists B1. split; [exact Hr|apply Forall2_budget_le_refl]. }
      destruct Hm as (B2 & Hr2 & Hle2).
      destruct (IH _ _ _ Hr2) as (B1' & Hr' & Hle').
      exists B1'. split; [exact Hr'|].
      eapply Forall2_budget_le_trans; eassumption.
    + rewrite budget_run_app in Hr. rewrite budget_run_app.
      destruct (budget_run B (yield_last acc)) as [B2|]; [|discriminate].
      cbn [mbind option_bind] in *. cbn [budget_run] in *.
      destruct (budget_step B2 term) as [B3|]; [|discriminate].
      cbn [mbind option_bind] in *. apply (IH None). exact Hr.
Qed.


Lemma last_fail_state_of_returns fs c b :
  frame_fit fs c b →
  ∃ r, last_fail_state_of fs c = Returns r ∧ (fs ≠ FS_None → is_Some r).
Proof.
  destruct fs as [|s|l]; simpl; intros Hfit.
  - exists None. split; [reflexivity|done].
  - exists (Some s). split; [reflexivity|eauto].
  - destruct Hfit as [Hne Hc].
    assert (Hlen : 0 < length l) by (destruct l; [done|simpl; lia]).
    assert (Hi : is_Some (list_index l c)).
    { unfold list_index. destruct Hc as [->|(Hc & k & _ & Hk)].
      - destruct (Z.leb_spec 0 (-1)) as [|_]; [lia|].
        destruct (Z.leb_spec (- Z.of_nat (length l)) (-1)) as [_|]; [|lia].
        apply lookup_lt_is_Some. lia.
      - destruct (Z.leb_spec 0 c) as [_|]; [|lia].
        apply lookup_lt_is_Some. lia. }
    destruct Hi as [s ->]. exists (Some s). split; [reflexivity|eauto].
Qed.

Lemma fail_ladder_length count : ∀ h fail_state acc,
  length (fail_ladder h fail_state acc count).1.2 = length acc + count.
Proof.
  induction count as [|count IH]; intros h fail_state acc;
    cbn [fail_ladder].
  - simpl. lia.
  - change (new_State [] h) with (_id h, (new_State [] h).2).
    cbv beta iota. rewrite IH, length_app. simpl. lia.
Qed.

(** The fail state for a new nesting level is made without an exception
    when the frame of the level above fits, and fits the budget of the
    operation. *)
Lemma make_fail_state_returns h op lw ft count b :
  frame_fit ft count b →
  ∃ fs h', make_fail_state h op lw ft count = Returns (fs, h')
           ∧ frame_fit fs 0 (operation_budget op).
Proof.
  intros Hfit. unfold make_fail_state.
  destruct (opt_state_bool h lw || FailState_bool h ft) eqn:Hcond;
    [|exists FS_None, h; split; [reflexivity|exact I]].
  destruct (last_fail_state_of_returns ft count b Hfit) as (r & -> & Hr).
  cbn [mbind Result_bind].
  assert (Ht : is_Some (state_or h lw r)).
  { unfold state_or. destruct (opt_state_bool h lw) eqn:Hlw.
    - destruct lw; [eauto|discriminate].
    - apply Hr. intros ->. simpl in Hcond. discriminate. }
  destruct Ht as [target ->]. cbn [or_raise mbind Result_bind].
  unfold operation_budget. destruct (arity_fixed_size (arity op)).
  - change (new_State [] h) with (_id h, (new_State [] h).2).
    cbv beta iota.
    pose proof (fail_ladder_length (arity_min_count (arity op))
                  (new_State [] h).2 (_id h) [_id h]) as Hlen.
    destruct (fail_ladder _ _ _ _) as [[last l] h1]. simpl in Hlen.
    eexists _, _. split; [reflexivity|]. simpl. split.
    + destruct l; [discriminate|done].
    + right. split; [lia|]. eexists. split; [reflexivity|]. lia.
  - change (new_State [] h) with (_id h, (new_State [] h).2).
    cbv beta iota. eexists _, _. split; [reflexivity|exact I].
Qed.

(** The epsilon edge is added without an exception and leaves the stacks
    alone. *)
Lemma add_epsilon_returns G B :
  stacks_fit G B →
  ∃ G', add_epsilon G = Returns G'
        ∧ last_wildcards G' = last_wildcards G
        ∧ fail_states G' = fail_states G
        ∧ operand_counts G' = operand_counts G.
Proof.
  intros [HB Hfit]. unfold add_epsilon. revert Hfit.
  destruct B as [|b bs]; [by destruct HB|clear HB].
  destruct (last_wildcards G) as [|lw lws] eqn:Elw;
    destruct (fail_states G) as [|ft fss] eqn:Efs;
    destruct (operand_counts G) as [|c cs] eqn:Ec; try done.
  cbn [frames_fit]. intros [Hf _]. cbn [head or_raise mbind Result_bind].
  destruct (decide (lw = Some (ng_state G)));
    [exists G; repeat split; assumption|].
  destruct (opt_state_bool (ng_heap G) lw) eqn:Hlw.
  - destruct lw as [w|]; [|discriminate].
    cbn [or_raise mbind Result_bind]. eexists. split; [reflexivity|].
    cbn. done.
  - destruct (FailState_bool (ng_heap G) ft) eqn:Hft;
      [|exists G; repeat split; assumption].
    destruct (last_fail_state_of_returns ft c b Hf) as (r & -> & Hr).
    cbn [mbind Result_bind].
    destruct Hr as [target ->]; [intros ->; discriminate|].
    cbn [or_raise mbind Result_bind]. eexists. split; [reflexivity|].
    cbn. done.
Qed.

Lemma frame_fit_spend fs c b b' :
  frame_fit fs c b → spend b = Some b' →
  frame_fit fs (if (0 <=? c)%Z then (c + 1)%Z else c) b'.
Proof.
  destruct fs as [|s|l]; simpl; try done. intros [Hne Hc] Hs.
  split; [exact Hne|]. destruct Hc as [->|(Hc & k & -> & Hk)].
  - left. reflexivity.
  - right. destruct (Z.leb_spec 0 c) as [_|]; [|lia].
    destruct k as [|k]; [discriminate|]. injection Hs as <-.
    split; [lia|]. exists k. split; [reflexivity|lia].
Qed.

Lemma frame_fit_unbounded fs c b : frame_fit fs c b → frame_fit fs (-1) None.
Proof.
  destruct fs as [|s|l]; simpl; try done. intros [Hne _]. split; auto.
Qed.

(** One round of the loop of [_generate_net] raises no exception on an atom
    that the budgets allow. *)
Lemma net_step_returns G term B B' :
  stacks_fit G B → budget_step B term = Some B' →
  ∃ G', net_step G term = Returns G' ∧ stacks_fit G' B'.
Proof.
  intros [HB Hfit] Hstep. unfold net_step. revert Hfit.
  destruct B as [|b bs]; [by destruct HB|clear HB].
  destruct (last_wildcards G) as [|lw lws] eqn:Elw;
    destruct (fail_states G) as [|ft fss] eqn:Efs;
    destruct (operand_counts G) as [|c cs] eqn:Ec; try done.
  cbn [frames_fit]. intros [Hf Hrest]. cbn [head tail or_raise mbind Result_bind].
  set (count := if (0 <=? c)%Z then (c + 1)%Z else c).
  assert (Hafter : ∀ G1, stacks_fit G1 B' →
            ∃ G', add_epsilon G1 = Returns G' ∧ stacks_fit G' B').
  { intros G1 H1.
    destruct (add_epsilon_returns G1 B' H1) as (G' & E & H2 & H3 & H4).
    exists G'. split; [exact E|]. destruct H1 as [Hne H1]. split; [exact Hne|].
    rewrite H2, H3, H4. exact H1. }
  destruct (decide (term = OPERATION_END)) as [->|Hne].
  - (* the level is closed *)
    cbn [isinstance_Wildcard].
    change (_create_child_state (ng_heap G) (ng_state G) (LTerm OPERATION_END))
      with ((_create_child_state (ng_heap G) (ng_state G)
               (LTerm OPERATION_END)).1,
            (_create_child_state (ng_heap G) (ng_state G)
               (LTerm OPERATION_END)).2).
    cbv beta iota. cbn [mbind Result_bind].
    cbn [budget_step] in Hstep.
    destruct bs as [|b1 bs]; [discriminate|]. injection Hstep as <-.
    apply Hafter. split; [done|]. exact Hrest.
  - destruct (isinstance_Wildcard term && negb (wc_fixed_size term)) eqn:Hw.
    + (* a sequence wildcard *)
      assert (HB' : B' = None :: bs).
      { unfold budget_step in Hstep. rewrite Hw in Hstep.
        destruct term; try done; congruence. }
      subst B'. apply andb_prop in Hw as [-> ->].
      destruct (_generate_state_chain _ _ _ _) as [state h1].
      cbn [mbind Result_bind]. apply Hafter. split; [done|].
      cbn [last_wildcards fail_states operand_counts tail].
      split; [|exact Hrest]. eapply frame_fit_unbounded, Hf.
    + rewrite budget_step_spend in Hstep by assumption.
      destruct (spend b) as [b'|] eqn:Eb; [|discriminate].
      cbn [mbind option_bind] in Hstep. injection Hstep as <-.
      pose proof (frame_fit_spend ft c b b' Hf Eb) as Hf'. fold count in Hf'.
      destruct (isinstance_Wildcard term) eqn:Hiw.
      * (* a wildcard of fixed size *)
        rewrite andb_true_l in Hw. rewrite Hw.
        destruct (_generate_state_chain _ _ _ _) as [state h1].
        cbn [mbind Result_bind].
        assert (HB : match term with
                     | AOperation op => operation_budget op :: b' :: bs
                     | _ => b' :: bs
                     end = b' :: bs) by (destruct term; done).
        rewrite HB in Hafter |- *. apply Hafter. split; [done|].
        cbn [last_wildcards fail_states operand_counts frames_fit].
        split; assumption.
      * destruct (_create_child_state _ _ _) as [state h1].
        destruct term as [name cls| | |op|cls|]; try done;
          cbv beta iota in Hafter |- *.
        -- cbn [mbind Result_bind]. apply Hafter. split; [done|].
           cbn [last_wildcards fail_states operand_counts frames_fit].
           split; assumption.
        -- cbn [head or_raise mbind Result_bind].
           destruct (make_fail_state_returns h1 op lw ft count b' Hf')
             as (fs & h2 & -> & Hfs).
           cbn [mbind Result_bind]. apply Hafter. split; [done|].
           cbn [last_wildcards fail_states operand_counts frames_fit].
           split; [exact Hfs|]. split; assumption.
        -- cbn [mbind Result_bind]. apply Hafter. split; [done|].
           cbn [last_wildcards fail_states operand_counts frames_fit].
           split; assumption.
Qed.

Lemma net_loop_returns flatterm : ∀ G B B',
  stacks_fit G B → budget_run B flatterm = Some B' →
  ∃ G', net_loop G flatterm = Returns G' ∧ stacks_fit G' B'.
Proof.
  induction flatterm as [|term rest IH]; intros G B B' Hfit Hrun;
    cbn [net_loop budget_run] in *.
  - injection Hrun as <-. eauto.
  - destruct (budget_step B term) as [B1|] eqn:E1; [|discriminate].
    cbn [mbind option_bind] in Hrun.
    destruct (net_step_returns G term B B1 Hfit E1) as (G1 & -> & Hfit1).
    cbn [mbind Result_bind]. eapply IH; eassumption.
Qed.

(** The NFA of a tape that the budgets allow is built without an
    exception. *)
Lemma generate_nfa_returns h flatterm final_label B' :
  budget_run [None] (_terms flatterm) = Some B' →
  ∃ root h', generate_nfa h flatterm final_label = Returns (root, h').
Proof.
  intros Hrun. unfold generate_nfa.
  change (new_State [] h) with (_id h, (new_State [] h).2). cbv beta iota.
  destruct (net_loop_returns (_terms flatterm)
              (mkNetGen (new_State [] h).2 (_id h) [None] [FS_None] [0%Z])
              [None] B') as (G' & -> & _); [|exact Hrun|].
  - split; [done|]. simpl. done.
  - cbn [mbind Result_bind]. eauto.
Qed.


Lemma fold_FlatTerm_add fts : ∀ acc,
  _terms (fold_left FlatTerm_add fts acc)
  = _terms acc ++ concat (map _terms fts).
Proof.
  induction fts as [|ft fts IH]; intros acc; cbn [fold_left map concat].
  - rewrite app_nil_r. reflexivity.
  - rewrite IH. cbn [FlatTerm_add FlatTerm_init _terms].
    rewrite <- app_assoc. reflexivity.
Qed.

Lemma operands_fit_arity_Forall op operands :
  operands_fit_arity (EOperation op operands) →
  Forall operands_fit_arity operands.
Proof.
  intros [_ Hall]. induction operands as [|o os IH]; constructor.
  - apply Hall.
  - apply IH, Hall.
Qed.

Lemma Forall_removelast {A} (P : A → Prop) (l : list A) :
  Forall P l → Forall P (removelast l).
Proof.
  induction 1 as [|x l Hx Hl IH]; cbn [removelast]; [constructor|].
  destruct l; [constructor|]. constructor; assumption.
Qed.

Lemma Forall_middle {A} (P : A → Prop) (l : list A) :
  Forall P l → Forall P (middle l).
Proof.
  intros Hl. apply Forall_removelast. destruct Hl; [constructor|assumption].
Qed.

(** At the outermost level, where nothing is limited, the tape of an
    expression leaves the budgets as they are. *)
Lemma budget_run_top (e : Expression) :
  operands_fit_arity e →
  budget_run [None] (_terms (FlatTerm_init (inl e))) = Some [None].
Proof.
  intros Hfit. cbn [FlatTerm_init _terms]. unfold _combined_wildcards_iter.
  assert (Hflat : budget_run [None] (_flatterm_iter e) = Some [None]).
  { pose proof (budget_run_expression e Hfit None []) as He.
    destruct (sequence_wildcard e); [exact He|]. apply He. reflexivity. }
  destruct (budget_run_combined (_flatterm_iter e) None [None] [None] Hflat)
    as (B' & -> & Hle).
  inversion Hle as [|b b' bs bs' Hb Hbs]; subst. inversion Hbs; subst.
  destruct b'; [done|reflexivity].
Qed.

(** The tape that [SequenceMatcher.add] gives the net is within budget. *)
Lemma budget_run_merged (operands : list Expression) :
  Forall operands_fit_arity operands →
  budget_run [None]
    (_terms (FlatTerm_merged (map (λ o, FlatTerm_init (inl o)) operands)))
  = Some [None].
Proof.
  intros Hfit. cbn [FlatTerm_merged FlatTerm_init _terms].
  rewrite fold_FlatTerm_add. cbn [FlatTerm_empty FlatTerm_init _terms app].
  unfold _combined_wildcards_iter at 1.
  match goal with
  | |- budget_run _ (combined_loop None ?tape) = _ =>
      assert (Hcat : budget_run [None] tape = Some [None])
  end.
  { induction Hfit as [|o os Ho _ IH]; [reflexivity|].
    cbn [map concat]. rewrite budget_run_app.
    pose proof (budget_run_top o Ho) as Hrun.
    cbn [FlatTerm_init _terms] in Hrun.
    cbn [_terms]. rewrite Hrun. exact IH. }
  destruct (budget_run_combined _ None [None] [None] Hcat) as (B' & -> & Hle).
  inversion Hle as [|b b' bs bs' Hb Hbs]; subst. inversion Hbs; subst.
  destruct b'; [done|reflexivity].
Qed.

(** [pattern_net] for a tape within budget returns an automaton whose root
    is at depth 0. *)
Lemma pattern_net_returns g h pattern index B' :
  graded g h →
  budget_run [None] (_terms (to_flatterm pattern)) = Some B' →
  ∃ root h' g', pattern_net h pattern index = Returns (root, h')
                ∧ grows g h g' h' ∧ alive h' root ∧ g' root = 0%Z.
Proof.
  intros G Hrun. unfold pattern_net. destruct (_ || _).
  - destruct (_generate_syntactic_net h (to_flatterm pattern) index)
      as [root h'] eqn:E.
    destruct (_generate_syntactic_net_grows g h _ _ _ _ G E) as (g' & Hg').
    exists root, h', g'. split; [reflexivity|exact Hg'].
  - pose proof (_generate_net_grows g h (to_flatterm pattern) index _ G eq_refl)
      as Hg.
    destruct (generate_nfa_returns h (to_flatterm pattern) index B' Hrun)
      as (r0 & h0 & E0).
    rewrite E0 in Hg. exact Hg.
Qed.

Lemma net_ok_init {T} : net_ok (@DiscriminationNet_init T).
Proof.
  unfold DiscriminationNet_init.
  change (new_State [] empty_heap)
    with (_id empty_heap, (new_State [] empty_heap).2).
  cbv beta iota.
  destruct (root_grows (λ _, 0%Z) empty_heap [] (graded_empty_heap _))
    as (g & Gr & Ha & Hg).
  exists g. split; [apply Gr|]. split; assumption.
Qed.

(** [add] keeps the net well formed, whatever its outcome. *)
Lemma net_ok_add {T} (self : DiscriminationNet T) pattern final_label :
  net_ok self → net_ok (DiscriminationNet_add self pattern final_label).1.
Proof.
  intros (g & G & Hr & Hg). unfold DiscriminationNet_add.
  destruct (pattern_net (net_heap self) pattern (length (_patterns self)))
    as [[net h]| |] eqn:Ep; cbn [fst];
    [|exists g; auto..].
  destruct (pattern_net_grows g _ _ _ _ _ G Ep) as (g1 & Gr1 & Hn & Hgn).
  destruct (proj2 Gr1 _ Hr) as [Hr1 Hgr1].
  destruct (state_bool h (_root self)).
  - destruct (_product_net_returns g1 h (_root self) net (proj1 Gr1) Hr1 Hn)
      as (root & h' & gp & -> & Gr2 & Ha & Hgp); [congruence|].
    unfold net_ok. cbn [fst net_heap _root]. exists gp. split; [apply Gr2|].
    split; [exact Ha|]. congruence.
  - unfold net_ok. cbn [fst net_heap _root]. exists g1.
    split; [apply Gr1|]. auto.
Qed.

(** [add] of a tape within budget returns the index of the pattern. *)
Lemma DiscriminationNet_add_returns {T} (self : DiscriminationNet T)
    pattern final_label B' :
  net_ok self →
  budget_run [None] (_terms (to_flatterm pattern)) = Some B' →
  (DiscriminationNet_add self pattern final_label).2
  = Returns (length (_patterns self)).
Proof.
  intros (g & G & Hr & Hg) Hrun. unfold DiscriminationNet_add.
  destruct (pattern_net_returns g (net_heap self) pattern
              (length (_patterns self)) B' G Hrun)
    as (net & h & g1 & -> & Gr1 & Hn & Hgn).
  destruct (proj2 Gr1 _ Hr) as [Hr1 Hgr1].
  destruct (state_bool h (_root self)); [|reflexivity].
  destruct (_product_net_returns g1 h (_root self) net (proj1 Gr1) Hr1 Hn)
    as (root & h' & gp & -> & _); [congruence|]. reflexivity.
Qed.

Lemma _check_wildcard_and_get_name_spec operand :
  _check_wildcard_and_get_name operand
  = if star_wildcard (unwrap_variable operand)
    then Returns (match operand with
                  | EVariable name _ => Some name
                  | _ => None
                  end)
    else Raises ValueError.
Proof.
  unfold _check_wildcard_and_get_name.
  destruct operand as [name [| | | |[|m] [|]]| | | |[|m] [|]]; reflexivity.
Qed.

Lemma net_ok_SequenceMatcher_add self pattern :
  net_ok (_net self) → net_ok (_net (SequenceMatcher_add self pattern).1).
Proof.
  intros Hok. unfold SequenceMatcher_add.
  set (check_first := _check_wildcard_and_get_name
                        (default pattern (head (operands_of pattern)))).
  set (check_last := _check_wildcard_and_get_name
                       (default pattern (last (operands_of pattern)))).
  set (checked := match operation self with
                  | Some operation => _
                  | None => _
                  end).
  assert (Hchecked : ∀ self1, checked = Returns self1 → _net self1 = _net self).
  { subst checked. intros self1. destruct (operation self) as [operation|].
    - destruct (isinstance_of pattern operation); [|discriminate].
      intros [= <-]. reflexivity.
    - destruct (as_Operation pattern) as [[op operands]|]; [|discriminate].
      destruct (commutative op); [discriminate|]. intros [= <-]. reflexivity. }
  destruct checked as [self1| |]; [|exact Hok..].
  specialize (Hchecked self1 eq_refl). rewrite <- Hchecked in Hok.
  destruct (bool_decide _); [exact Hok|].
  destruct check_first as [first_name| |]; cbn [mbind Result_bind];
    [|exact Hok..].
  destruct check_last as [last_name| |]; cbn [mbind Result_bind];
    [|exact Hok..].
  destruct (DiscriminationNet_add _ _ _) as [net r] eqn:Ea.
  cbn [fst _net]. change net with (net, r).1. rewrite <- Ea.
  apply net_ok_add, Hok.
Qed.

Lemma net_ok_sequence_added patterns : net_ok (_net (sequence_added patterns)).
Proof.
  unfold sequence_added.
  assert (H0 : net_ok (_net SequenceMatcher_init)) by apply net_ok_init.
  revert H0. generalize SequenceMatcher_init as self.
  induction patterns as [|p ps IH]; intros self Hok; cbn [fold_left].
  - exact Hok.
  - apply IH, net_ok_SequenceMatcher_add, Hok.
Qed.

Lemma net_ok_added {T} (patterns : list (Term * option T)) :
  ∀ self, net_ok self → net_ok (added self patterns).
Proof.
  unfold added. induction patterns as [|[pattern label] ps IH];
    intros self Hok; cbn [fold_left].
  - exact Hok.
  - apply IH, net_ok_add, Hok.
Qed.

(** C9.  In the heap of a net to which any patterns were added, for every
    two automata that the net builds for patterns, one after the other, the
    [while] loop of [_product_net] is left with an empty queue: after one
    round for each key of [states] (each key is put in the queue once, when
    it is created) and the round that finds the queue empty.  There are at
    most [N * N * 2N] keys for a heap of [N] ids, and [_product_net] returns
    the root with the heap the loop leaves. *)
Theorem _product_net_terminates {T} (patterns : list (Term * option T))
    (pattern1 pattern2 : Term) (index1 index2 : nat) (state1 state2 : nat)
    (h1 h2 : Heap) :
  pattern_net (net_heap (added DiscriminationNet_init patterns))
    pattern1 index1 = Returns (state1, h1) →
  pattern_net h1 pattern2 index2 = Returns (state2, h2) →
  ∃ n p,
    iterate n product_body (product_start h2 state1 state2).2
    = Returns (inr p)
    ∧ pn_queue p = []
    ∧ n = S (size (pn_states p))
    ∧ size (pn_states p) ≤ _id h2 * _id h2 * (2 * _id h2)
    ∧ _product_net h2 state1 state2
      = Returns ((product_start h2 state1 state2).1, pn_heap p).
Proof.
  intros H1 H2.
  destruct (net_ok_added patterns _ (@net_ok_init T)) as (g & G & _).
  destruct (pattern_net_grows g _ _ _ _ _ G H1) as (g1 & Gr1 & Ha1 & Hg1).
  destruct (pattern_net_grows g1 h1 _ _ _ _ (proj1 Gr1) H2)
    as (g2 & Gr2 & Ha2 & Hg2).
  destruct (proj2 Gr2 state1 Ha1) as [Ha1' Hg1'].
  destruct (product_loop_returns g2 h2 state1 state2 (proj1 Gr2) Ha1' Ha2)
    as (n & p & _ & Hit & Hq & Hn & Hsz & _).
  { rewrite Hg1', Hg1, Hg2. reflexivity. }
  exists n, p. repeat (split; [assumption|]).
  unfold _product_net.
  destruct (product_start h2 state1 state2) as [root start].
  cbn [fst snd] in *.
  rewrite (while_loop_done product_body _ n start p); [reflexivity| |exact Hit].
  pose proof (pow2_fuel (_id h2) (graded_pos _ _ (proj1 Gr2))). lia.
Qed.

Lemma _product_net_terminates_witness :
  let f := mkOperationClass "f" (mkArity 0 false) false false in
  let a := ESymbol "a" [] in
  let pattern1 : Term := inl (EOperation f [a; EWildcard 0 false]) in
  let pattern2 : Term := inl (EOperation f [EWildcard 1 true; a]) in
  let h := net_heap (added (@DiscriminationNet_init nat) []) in
  ∃ state1 h1 state2 h2,
    pattern_net h pattern1 0 = Returns (state1, h1)
    ∧ pattern_net h1 pattern2 1 = Returns (state2, h2)
    ∧ ∃ n p,
        iterate n product_body (product_start h2 state1 state2).2
        = Returns (inr p)
        ∧ pn_queue p = []
        ∧ n = S (size (pn_states p))
        ∧ size (pn_states p) ≤ _id h2 * _id h2 * (2 * _id h2)
        ∧ _product_net h2 state1 state2
          = Returns ((product_start h2 state1 state2).1, pn_heap p).
Proof.
  intros f a pattern1 pattern2 h.
  eexists _, _, _, _.
  split; [vm_compute; reflexivity|].
  split; [vm_compute; reflexivity|].
  eapply (_product_net_terminates (T := nat) [] pattern1 pattern2 0 1);
    vm_compute; reflexivity.
Defined.

(* ===================================================================== *)
(** ** Further properties of the module *)
(* ===================================================================== *)

Lemma flatterm_iter_head (e : Expression) :
  ∃ a rest, _flatterm_iter e = a :: rest ∧ a ≠ OPERATION_END.
Proof.
  induction e as [name e IH|op operands _|c|name c|m f]
    using Expression_nested_ind; cbn [_flatterm_iter]; eauto.
Qed.

Lemma variable_free_operands op operands :
  variable_free (EOperation op operands) = true →
  Forall (λ o, variable_free o = true) operands.
Proof.
  cbn [variable_free]. induction operands as [|o os IH]; intros H;
    constructor; apply andb_prop in H as [Ho Hos]; auto.
Qed.

(** Reading one expression off the front of a tape: the tapes of two
    expressions without variables, each followed by anything, are equal only
    if the expressions and what follows are. *)
Lemma flatterm_iter_prefix_free (e1 : Expression) :
  ∀ e2 rest1 rest2,
    variable_free e1 = true → variable_free e2 = true →
    _flatterm_iter e1 ++ rest1 = _flatterm_iter e2 ++ rest2 →
    e1 = e2 ∧ rest1 = rest2.
Proof.
  induction e1 as [name e IH|op operands IH|c|name c|m f]
    using Expression_nested_ind; intros e2 rest1 rest2 H1 H2 Heq;
    try discriminate.
  - destruct e2 as [?|op2 operands2| | |]; try discriminate.
    rewrite !flatterm_iter_operation in Heq. cbn [app] in Heq.
    injection Heq as <- Heq.
    apply variable_free_operands in H1, H2.
    assert (Hops : operands = operands2 ∧ rest1 = rest2);
      [|destruct Hops as [<- <-]; done].
    revert operands2 H2 Heq.
    induction IH as [|o os Ho _ IHos]; intros [|o2 os2] H2 Heq.
    + injection Heq as <-. done.
    + change (operands_tape (o2 :: os2))
        with (_flatterm_iter o2 ++ operands_tape os2) in Heq.
      destruct (flatterm_iter_head o2) as (a & r & Ea & Ha).
      rewrite Ea in Heq. cbn in Heq. congruence.
    + change (operands_tape (o :: os))
        with (_flatterm_iter o ++ operands_tape os) in Heq.
      destruct (flatterm_iter_head o) as (a & r & Ea & Ha).
      rewrite Ea in Heq. cbn in Heq. congruence.
    + change (operands_tape (o :: os))
        with (_flatterm_iter o ++ operands_tape os) in Heq.
      change (operands_tape (o2 :: os2))
        with (_flatterm_iter o2 ++ operands_tape os2) in Heq.
      rewrite <- !app_assoc in Heq.
      inversion H1 as [|? ? Hfo Hfos]; subst.
      inversion H2 as [|? ? Hfo2 Hfos2]; subst.
      destruct (Ho o2 _ _ Hfo Hfo2 Heq) as [<- Heq'].
      destruct (IHos Hfos os2 Hfos2 Heq') as [<- <-]. done.
  - destruct e2 as [?|op2 operands2| | |]; try discriminate.
    cbn in Heq. injection Heq as <- <-. done.
  - destruct e2 as [?|op2 operands2| | |]; try discriminate.
    cbn in Heq. injection Heq as <- <- <-. done.
  - destruct e2 as [?|op2 operands2| | |]; try discriminate.
    cbn in Heq. injection Heq as <- <- <-. done.
Qed.

(** [_flatterm_iter] loses nothing but the variable binders: two
    expressions without variables that have the same tape are equal, and a
    variable has the tape of the expression it binds. *)
Theorem flatterm_iter_injective :
  (∀ e1 e2, variable_free e1 = true → variable_free e2 = true →
            _flatterm_iter e1 = _flatterm_iter e2 → e1 = e2)
  ∧ (∀ name e, _flatterm_iter (EVariable name e) = _flatterm_iter e).
Proof.
  split; [|reflexivity]. intros e1 e2 H1 H2 Heq.
  apply (flatterm_iter_prefix_free e1 e2 [] [] H1 H2).
  rewrite !app_nil_r. exact Heq.
Qed.

Lemma flatterm_iter_injective_witness :
  let f := mkOperationClass "f" (mkArity 2 true) false false in
  let e := EOperation f [ESymbol "a" []; EWildcard 1 true] in
  variable_free e = true ∧ (_flatterm_iter e = _flatterm_iter e → e = e).
Proof.
  intros f e. split; [reflexivity|].
  apply (proj1 flatterm_iter_injective e e); reflexivity.
Defined.

(** *** Combining wildcards *)

Lemma combined_loop_pending acc terms :
  combined_loop acc terms = combined_loop None (yield_last acc ++ terms).
Proof.
  destruct acc as [[m f]|]; [|reflexivity].
  cbn [yield_last app combined_loop is_plain_wildcard isinstance_Wildcard
       isinstance_SymbolWildcard andb negb wc_min_count wc_fixed_size].
  reflexivity.
Qed.

Lemma combined_loop_idempotent terms : ∀ acc,
  combined_loop None (combined_loop acc terms) = combined_loop acc terms.
Proof.
  induction terms as [|term rest IH]; intros acc; cbn [combined_loop].
  - destruct acc as [[m f]|]; reflexivity.
  - destruct (is_plain_wildcard term) eqn:Hp.
    + destruct acc as [[m f]|]; apply IH.
    + destruct acc as [[m f]|]; cbn [yield_last app combined_loop].
      * cbn [is_plain_wildcard isinstance_Wildcard isinstance_SymbolWildcard
             andb negb combined_loop wc_min_count wc_fixed_size yield_last
             app].
        rewrite Hp. cbn [yield_last app]. rewrite IH. reflexivity.
      * rewrite Hp. cbn [yield_last app]. rewrite IH. reflexivity.
Qed.

(** [_combined_wildcards_iter] changes nothing on a tape it has made. *)
Theorem _combined_wildcards_iter_idempotent (flatterm : list TermAtom) :
  _combined_wildcards_iter (_combined_wildcards_iter flatterm)
  = _combined_wildcards_iter flatterm.
Proof. apply combined_loop_idempotent. Qed.

Lemma is_syntactic_loop_app t1 t2 :
  is_syntactic_loop (t1 ++ t2) = is_syntactic_loop t1 && is_syntactic_loop t2.
Proof.
  induction t1 as [|a t1 IH]; cbn [app is_syntactic_loop]; [reflexivity|].
  destruct (isinstance_Wildcard a && negb (wc_fixed_size a)); [reflexivity|].
  destruct (is_operation a && op_not_syntactic a); [reflexivity|]. exact IH.
Qed.

Lemma is_syntactic_combined_loop terms : ∀ acc,
  is_syntactic_loop (combined_loop acc terms)
  = is_syntactic_loop (yield_last acc) && is_syntactic_loop terms.
Proof.
  induction terms as [|term rest IH]; intros acc; cbn [combined_loop].
  - cbn [is_syntactic_loop]. rewrite andb_true_r. reflexivity.
  - destruct (is_plain_wildcard term) eqn:Hp.
    + destruct term as [|m' f'| | | |]; try discriminate.
      cbn [wc_min_count wc_fixed_size]. destruct acc as [[m f]|]; rewrite IH;
        cbn [yield_last is_syntactic_loop isinstance_Wildcard wc_fixed_size
             is_operation andb negb];
        destruct f'; try destruct f; reflexivity.
    + rewrite is_syntactic_loop_app. f_equal.
      change (term :: combined_loop None rest)
        with ([term] ++ combined_loop None rest).
      rewrite is_syntactic_loop_app, IH. cbn [yield_last is_syntactic_loop].
      cbn [andb app].
      destruct (isinstance_Wildcard term && negb (wc_fixed_size term));
        [reflexivity|].
      destruct (is_operation term && op_not_syntactic term); reflexivity.
Qed.

(** Combining wildcards neither makes nor hides a sequence wildcard: the
    tape of an expression is syntactic exactly when the [FlatTerm] made from
    it is, and a [FlatTerm] made by [merged] is syntactic exactly when all
    the flatterms it is made from are. *)
Theorem is_syntactic_combined :
  (∀ e : Expression,
     is_syntactic (FlatTerm_init (inl e))
     = is_syntactic (FlatTerm_init (inr (_flatterm_iter e))))
  ∧ (∀ flatterms : list FlatTerm,
       is_syntactic (FlatTerm_merged flatterms)
       = forallb is_syntactic flatterms).
Proof.
  split.
  - intros e. unfold is_syntactic. cbn [FlatTerm_init _terms].
    unfold _combined_wildcards_iter. rewrite is_syntactic_combined_loop.
    reflexivity.
  - intros flatterms. unfold is_syntactic at 1.
    cbn [FlatTerm_merged FlatTerm_init _terms].
    unfold _combined_wildcards_iter. rewrite is_syntactic_combined_loop.
    cbn [yield_last is_syntactic_loop andb]. rewrite fold_FlatTerm_add.
    cbn [FlatTerm_empty FlatTerm_init _terms app].
    induction flatterms as [|ft fts IH]; cbn [map concat forallb];
      [reflexivity|].
    rewrite is_syntactic_loop_app, IH. reflexivity.
Qed.

Lemma other_atoms_app t1 t2 :
  other_atoms (t1 ++ t2) = other_atoms t1 ++ other_atoms t2.
Proof. apply filter_app. Qed.

Lemma plain_min_count_app t1 t2 :
  plain_min_count (t1 ++ t2) = plain_min_count t1 + plain_min_count t2.
Proof.
  unfold plain_min_count. rewrite filter_app, sum_list_with_app.
  reflexivity.
Qed.

Lemma other_atoms_cons a terms :
  other_atoms (a :: terms)
  = if is_plain_wildcard a then other_atoms terms else a :: other_atoms terms.
Proof.
  unfold other_atoms. rewrite filter_cons.
  destruct (is_plain_wildcard a); [rewrite decide_False by done|
                                   rewrite decide_True by done]; reflexivity.
Qed.

Lemma plain_min_count_cons a terms :
  plain_min_count (a :: terms)
  = (if is_plain_wildcard a then wc_min_count a else 0)
    + plain_min_count terms.
Proof.
  unfold plain_min_count. rewrite filter_cons.
  destruct (is_plain_wildcard a); [rewrite decide_True by done|
                                   rewrite decide_False by done]; reflexivity.
Qed.

Lemma combined_loop_conserves terms : ∀ acc,
  other_atoms (combined_loop acc terms) = other_atoms terms
  ∧ plain_min_count (combined_loop acc terms)
    = plain_min_count (yield_last acc) + plain_min_count terms
  ∧ length (combined_loop acc terms) ≤ length (yield_last acc) + length terms.
Proof.
  induction terms as [|term rest IH]; intros acc; cbn [combined_loop].
  - destruct acc as [[m f]|]; cbn [yield_last];
      rewrite ?other_atoms_cons, ?plain_min_count_cons; cbn;
      repeat split; lia.
  - rewrite other_atoms_cons, plain_min_count_cons.
    destruct (is_plain_wildcard term) eqn:Hp.
    + destruct acc as [[m f]|];
        [destruct (IH (Some (m + wc_min_count term, f && wc_fixed_size term)))
           as (H1 & H2 & H3)
        |destruct (IH (Some (wc_min_count term, wc_fixed_size term)))
           as (H1 & H2 & H3)];
        rewrite H1, H2; cbn [yield_last] in *;
        rewrite ?plain_min_count_cons in *; cbn in *; repeat split; lia.
    + destruct (IH None) as (H1 & H2 & H3).
      change (term :: combined_loop None rest)
        with ([term] ++ combined_loop None rest).
      rewrite !other_atoms_app, !plain_min_count_app, !length_app.
      rewrite !other_atoms_cons, !plain_min_count_cons, Hp, H1, H2.
      cbn [yield_last] in *.
      destruct acc as [[m f]|]; cbn [yield_last];
        rewrite ?other_atoms_cons, ?plain_min_count_cons; cbn in *;
        repeat split; lia.
Qed.

(** [_combined_wildcards_iter] only touches plain wildcards: the other
    atoms stay as they are and in their order, the [min_count]s add up to
    the same number, and the tape gets no longer. *)
Theorem _combined_wildcards_iter_conserves (flatterm : list TermAtom) :
  other_atoms (_combined_wildcards_iter flatterm) = other_atoms flatterm
  ∧ plain_min_count (_combined_wildcards_iter flatterm)
    = plain_min_count flatterm
  ∧ length (_combined_wildcards_iter flatterm) ≤ length flatterm.
Proof.
  destruct (combined_loop_conserves flatterm None) as (H1 & H2 & H3).
  split; [exact H1|]. split; [exact H2|exact H3].
Qed.

(** *** [merged] *)

Lemma combined_loop_front a : ∀ acc b,
  combined_loop None (combined_loop acc a ++ b) = combined_loop acc (a ++ b).
Proof.
  induction a as [|term rest IH]; intros acc b; cbn [combined_loop app].
  - symmetry. apply combined_loop_pending.
  - destruct (is_plain_wildcard term) eqn:Hp.
    + destruct acc as [[m f]|]; apply IH.
    + rewrite <- app_assoc. cbn [app].
      rewrite <- (combined_loop_pending acc). cbn [combined_loop].
      rewrite Hp, IH. reflexivity.
Qed.

Lemma combined_loop_joined b : ∀ m f acc,
  combined_loop acc (combined_loop (Some (m, f)) b)
  = combined_loop
      (Some match acc with
            | Some (m0, f0) => (m0 + m, f0 && f)
            | None => (m, f)
            end) b.
Proof.
  induction b as [|term rest IH]; intros m f acc; cbn [combined_loop].
  - cbn [yield_last combined_loop is_plain_wildcard isinstance_Wildcard
         isinstance_SymbolWildcard andb negb wc_min_count wc_fixed_size].
    destruct acc as [[m0 f0]|]; reflexivity.
  - destruct (is_plain_wildcard term) eqn:Hp.
    + rewrite IH. destruct acc as [[m0 f0]|]; [|reflexivity].
      rewrite Nat.add_assoc, andb_assoc. reflexivity.
    + cbn [yield_last app combined_loop is_plain_wildcard isinstance_Wildcard
           isinstance_SymbolWildcard andb negb wc_min_count wc_fixed_size].
      rewrite Hp, combined_loop_idempotent.
      destruct acc as [[m0 f0]|]; reflexivity.
Qed.

Lemma combined_loop_back b : ∀ acc,
  combined_loop acc (combined_loop None b) = combined_loop acc b.
Proof.
  intros acc. destruct b as [|term rest]; [reflexivity|].
  cbn [combined_loop]. destruct (is_plain_wildcard term) eqn:Hp.
  - rewrite combined_loop_joined. destruct acc as [[m0 f0]|]; reflexivity.
  - cbn [yield_last app combined_loop]. rewrite Hp, combined_loop_idempotent.
    reflexivity.
Qed.

Lemma combined_loop_middle a : ∀ acc b,
  combined_loop acc (a ++ combined_loop None b) = combined_loop acc (a ++ b).
Proof.
  induction a as [|term rest IH]; intros acc b; cbn [combined_loop app].
  - apply combined_loop_back.
  - destruct (is_plain_wildcard term); [destruct acc as [[m f]|]; apply IH|].
    rewrite IH. reflexivity.
Qed.

Lemma FlatTerm_merged_terms flatterms :
  _terms (FlatTerm_merged flatterms)
  = _combined_wildcards_iter (concat (map _terms flatterms)).
Proof.
  cbn [FlatTerm_merged FlatTerm_init _terms]. rewrite fold_FlatTerm_add.
  reflexivity.
Qed.

(** [merged] combines the wildcards of the concatenated tapes; flatterms
    that were merged before can be merged again without a difference, and
    merging the [FlatTerm] of one expression gives it back. *)
Theorem FlatTerm_merged_merged :
  (∀ flatterms,
     _terms (FlatTerm_merged flatterms)
     = _combined_wildcards_iter (concat (map _terms flatterms)))
  ∧ (∀ xs ys,
       FlatTerm_merged [FlatTerm_merged xs; FlatTerm_merged ys]
       = FlatTerm_merged (xs ++ ys))
  ∧ (∀ e : Expression,
       FlatTerm_merged [FlatTerm_init (inl e)] = FlatTerm_init (inl e)).
Proof.
  split; [exact FlatTerm_merged_terms|]. split.
  - intros xs ys.
    assert (H : ∀ a b : FlatTerm, _terms a = _terms b → a = b).
    { intros [a] [b]. cbn. congruence. }
    apply H. rewrite !FlatTerm_merged_terms. cbn [map concat].
    rewrite !FlatTerm_merged_terms, app_nil_r, map_app, concat_app.
    unfold _combined_wildcards_iter.
    rewrite combined_loop_front, combined_loop_middle. reflexivity.
  - intros e.
    assert (H : ∀ a b : FlatTerm, _terms a = _terms b → a = b).
    { intros [a] [b]. cbn. congruence. }
    apply H. rewrite FlatTerm_merged_terms. cbn [map concat].
    rewrite app_nil_r. cbn [FlatTerm_init _terms].
    apply combined_loop_idempotent.
Qed.


Lemma epsilon_to_add_elem h output s t :
  s ∈ output → getitem h s EPSILON = Some t → t ∉ output →
  t ∈ epsilon_to_add h output.
Proof.
  intros Hs Ht Hn. unfold epsilon_to_add.
  apply elem_of_elements in Hs.
  induction (elements output) as [|s' l IH]; [inversion Hs|].
  cbn [foldr]. apply elem_of_cons in Hs as [<-|Hs].
  - rewrite Ht. rewrite decide_False by exact Hn. set_solver.
  - specialize (IH Hs). destruct (getitem h s' EPSILON) as [t'|]; [|exact IH].
    destruct (decide (t' ∈ output)); [exact IH|]. set_solver.
Qed.

Lemma epsilon_loop_least h n : ∀ X Y : gset nat,
  X ⊆ Y → epsilon_closed h Y → epsilon_loop n h X ⊆ Y.
Proof.
  induction n as [|n IH]; intros X Y HXY HY; cbn [epsilon_loop]; [exact HXY|].
  destruct (decide _); [exact HXY|]. apply IH; [|exact HY].
  apply union_least; [exact HXY|]. intros t Ht.
  apply elem_of_epsilon_to_add in Ht as (s & Hs & E).
  apply (HY s t); [apply HXY, Hs|exact E].
Qed.

(** With a round for each id of the heap the loop of [_epsilon_closure]
    stops because nothing is left to add. *)
Lemma epsilon_loop_closed h :
  (∀ s t, getitem h s EPSILON = Some t → 0 < t < _id h) →
  ∀ n (X : gset nat),
    size (set_seq 1 (_id h - 1) ∖ X : gset nat) < n →
    epsilon_closed h (epsilon_loop n h X).
Proof.
  intros Hh. induction n as [|n IH]; intros X Hsize; [lia|].
  cbn [epsilon_loop]. destruct (decide (epsilon_to_add h X = ∅)) as [He|Hne].
  - intros s t Hs Ht. destruct (decide (t ∈ X)) as [|Hn]; [done|].
    pose proof (epsilon_to_add_elem h X s t Hs Ht Hn) as Hin.
    rewrite He in Hin. set_solver.
  - apply IH.
    apply set_choose_L in Hne as [t Ht].
    assert (HtX : t ∉ X).
    { unfold epsilon_to_add in Ht. clear -Ht.
      induction (elements X) as [|s l IH]; cbn [foldr] in Ht; [set_solver|].
      destruct (getitem h s EPSILON) as [t'|]; [|exact (IH Ht)].
      destruct (decide (t' ∈ X)); [exact (IH Ht)|].
      apply elem_of_union in Ht as [Ht|Ht]; [|exact (IH Ht)].
      apply elem_of_singleton in Ht as ->. assumption. }
    pose proof Ht as Ht'.
    apply elem_of_epsilon_to_add in Ht' as (s & Hs & E).
    pose proof (Hh s t E) as Hb.
    assert (HtD : t ∈ (set_seq 1 (_id h - 1) ∖ X : gset nat)).
    { apply elem_of_difference. split; [|exact HtX].
      apply elem_of_set_seq. lia. }
    assert (Hsub : set_seq 1 (_id h - 1) ∖ (X ∪ epsilon_to_add h X)
                   ⊆ (set_seq 1 (_id h - 1) ∖ X) ∖ ({[t]} : gset nat)).
    { set_solver. }
    apply subseteq_size in Hsub.
    rewrite (size_difference (set_seq 1 (_id h - 1) ∖ X) {[t]}) in Hsub
      by (apply singleton_subseteq_l; exact HtD).
    rewrite size_singleton in Hsub.
    assert (0 < size (set_seq 1 (_id h - 1) ∖ X : gset nat)).
    { assert (Hne' : size (set_seq 1 (_id h - 1) ∖ X : gset nat) ≠ 0);
        [|lia].
      apply size_non_empty_iff. intros He. apply He in HtD. set_solver. }
    lia.
Qed.

(** The NFA that [_generate_net] builds has its [EPSILON] transitions
    between states of the heap. *)
Lemma generate_nfa_epsilon {T} (patterns : list (Term * option T))
    flatterm final_label root h :
  generate_nfa (net_heap (added DiscriminationNet_init patterns))
    flatterm final_label = Returns (root, h) →
  ∀ s t, getitem h s EPSILON = Some t → 0 < t < _id h.
Proof.
  intros Hn s t E.
  destruct (net_ok_added patterns _ (@net_ok_init T)) as (g & G & _).
  destruct (generate_nfa_grows g _ _ _ _ _ G Hn) as (g' & [G' _] & _).
  destruct (graded_trans _ _ G' _ _ _ E) as [Ht _].
  destruct (alive_pos g' h t G' Ht). lia.
Qed.

(** In the NFA that [_generate_net] builds for a flatterm in the heap of a
    net, [_epsilon_closure] of a set of states is the least set that holds
    the given states and is closed under [EPSILON] transitions. *)
Theorem _epsilon_closure_least {T} (patterns : list (Term * option T))
    (flatterm : FlatTerm) (final_label root : nat) (h : Heap)
    (state : gset nat) :
  generate_nfa (net_heap (added DiscriminationNet_init patterns))
    flatterm final_label = Returns (root, h) →
  state ⊆ _epsilon_closure h state
  ∧ epsilon_closed h (_epsilon_closure h state)
  ∧ ∀ X, state ⊆ X → epsilon_closed h X → _epsilon_closure h state ⊆ X.
Proof.
  intros Hn. unfold _epsilon_closure. split; [apply epsilon_loop_subseteq|].
  split; [|intros X; apply epsilon_loop_least].
  apply epsilon_loop_closed; [eapply generate_nfa_epsilon, Hn|].
  pose proof (generate_nfa_epsilon patterns _ _ _ _ Hn) as Hh.
  assert (Hle : size (set_seq 1 (_id h - 1) ∖ state : gset nat)
                ≤ size (set_seq 1 (_id h - 1) : gset nat)).
  { apply subseteq_size. set_solver. }
  rewrite size_set_seq in Hle.
  assert (0 < _id h); [|lia].
  destruct (net_ok_added patterns _ (@net_ok_init T)) as (g & G & _).
  destruct (generate_nfa_grows g _ _ _ _ _ G Hn) as (g' & [G' _] & _).
  apply (graded_pos _ _ G').
Qed.

Lemma _epsilon_closure_least_witness :
  let f := mkOperationClass "f" (mkArity 0 false) false false in
  let flatterm :=
    FlatTerm_init (inl (EOperation f [EWildcard 0 false; ESymbol "a" []])) in
  let h0 := net_heap (added (@DiscriminationNet_init nat) []) in
  ∃ root h,
    generate_nfa h0 flatterm 0 = Returns (root, h)
    ∧ {[root]} ⊆ _epsilon_closure h {[root]}
    ∧ epsilon_closed h (_epsilon_closure h {[root]}).
Proof.
  intros f flatterm h0.
  destruct (generate_nfa h0 flatterm 0) as [[root h]| |] eqn:E;
    [|vm_compute in E; discriminate..].
  exists root, h. split; [reflexivity|].
  destruct (_epsilon_closure_least (T := nat) [] flatterm 0 root h {[root]} E)
    as (H1 & H2 & _).
  split; assumption.
Defined.


Lemma _convert_nfa_to_dfa_start h root :
  _convert_nfa_to_dfa h root
  = let '(new_root, start) := dfa_start h root in
    d ← while_loop (S (_id h)) dfa_body start;
    t ← or_raise KeyError (new_states d !! new_root);
    Returns (t, dg_heap d).
Proof.
  unfold _convert_nfa_to_dfa, dfa_start.
  destruct (_create_state h (_epsilon_closure h {[root]})). reflexivity.
Qed.

Lemma dfa_body_left d r : dfa_body d = Returns (inr r) → dg_queue d = [].
Proof.
  unfold dfa_body. destruct (dg_queue d) as [|X rest]; [reflexivity|].
  destruct (new_states d !! X); cbn [or_raise mbind Result_bind];
    [|discriminate].
  destruct (for_each _ _ _); cbn [mbind Result_bind]; discriminate.
Qed.

(** The loop of [_convert_nfa_to_dfa] on a graded NFA is left with an empty
    queue after at most [2 ^ N + 1] rounds, [N] being the number of ids of
    the heap. *)
Lemma dfa_loop_returns g h root :
  graded g h → alive h root →
  ∃ n d,
    iterate n dfa_body (dfa_start h root).2 = Returns (inr d)
    ∧ dg_queue d = []
    ∧ n ≤ 2 ^ _id h + 1
    ∧ size (new_states d) ≤ 2 ^ _id h
    ∧ is_Some (new_states d !! (dfa_start h root).1).
Proof.
  intros G Hroot. unfold dfa_start.
  set (new_root := _epsilon_closure h {[root]}).
  assert (Hu0 : uniform g h new_root (g root)).
  { apply (epsilon_loop_uniform g h h G (agrees_refl h)).
    intros x Hx. apply elem_of_singleton in Hx as ->. done. }
  unfold _create_state.
  match goal with
  | |- context [new_State ?pl h] =>
      change (new_State pl h) with (_id h, (new_State pl h).2);
      set (h0 := (new_State pl h).2);
      destruct (graded_new_State g h pl (g root) G) as [G0 P0]
  end.
  { pose proof (alive_bound g h root G Hroot). lia. }
  cbv beta iota. cbn [fst snd]. set (s := _id h) in *. fold h0 in G0, P0.
  set (d0 := mkDfaGen h0 {[new_root := s]} [new_root]).
  assert (Hs0 : alive h0 s) by (apply alive_new_State; left; reflexivity).
  assert (Hinv0 : dfa_inv g h (<[s := g root]> g) d0).
  { split; cbn [dg_heap new_states dg_queue d0].
    - exact G0.
    - intros x Hx. unfold h0, new_State; simpl.
      rewrite lookup_insert_ne by (unfold s; lia). reflexivity.
    - exact P0.
    - intros X s' Hs'. apply lookup_singleton_Some in Hs' as [<- <-].
      split; [unfold s; lia|]. split; [exact Hs0|].
      rewrite fn_lookup_insert. exact Hu0.
    - intros X HX. apply list_elem_of_singleton in HX as ->.
      rewrite lookup_singleton_eq. eauto. }
  destruct (iterate_terminates dfa_body
              (λ d, (∃ gd, dfa_inv g h gd d)
                    ∧ new_states d !! new_root = Some s)
              (dfa_measure (_id h))) with (s := d0)
    as (n & r & d_last & Hn & Hit & [[gd Hlast] Hfirst] & Hbody).
  - intros d [Hd Hfirst]. pose proof (dfa_body_ok g h d G Hd) as Hb'.
    destruct (dfa_body d) as [[d'|d']| |]; try done.
    destruct Hb' as (Hd' & Hsub & Hlt). split; [|exact Hlt].
    split; [exact Hd'|]. eapply lookup_weaken; eassumption.
  - split; [eauto|]. apply lookup_singleton_eq.
  - assert (Hr : r = d_last).
    { pose proof (dfa_body_ok g h d_last G (ex_intro _ gd Hlast)) as Hb'.
      rewrite Hbody in Hb'. exact Hb'. }
    subst r. exists n, d_last. split; [exact Hit|].
    split; [eapply dfa_body_left, Hbody|]. split.
    { etransitivity; [exact Hn|].
      unfold dfa_measure, d0; cbn [new_states dg_queue length].
      rewrite map_size_singleton. subst s. lia. }
    split; [|rewrite Hfirst; eauto].
    apply size_sets_bound. intros Y a HY x Hx.
    destruct (di_states _ _ _ _ Hlast _ _ HY) as (_ & _ & Hu').
    apply (alive_pos g h x G), Hu', Hx.
Qed.

(** For the NFA that [_generate_net] builds for a flatterm in the heap of a
    net, the subset construction terminates: the [while queue] loop of
    [_convert_nfa_to_dfa] is left with an empty queue after at most
    [2 ^ N + 1] rounds and with at most [2 ^ N] DFA states, [N] being the
    number of ids of the heap, and the function returns the state made for
    the closure of the root. *)
Theorem _convert_nfa_to_dfa_terminates {T} (patterns : list (Term * option T))
    (flatterm : FlatTerm) (final_label root : nat) (h : Heap) :
  generate_nfa (net_heap (added DiscriminationNet_init patterns))
    flatterm final_label = Returns (root, h) →
  ∃ n d t,
    iterate n dfa_body (dfa_start h root).2 = Returns (inr d)
    ∧ dg_queue d = []
    ∧ n ≤ 2 ^ _id h + 1
    ∧ size (new_states d) ≤ 2 ^ _id h
    ∧ new_states d !! (dfa_start h root).1 = Some t
    ∧ _convert_nfa_to_dfa h root = Returns (t, dg_heap d).
Proof.
  intros Hn.
  destruct (net_ok_added patterns _ (@net_ok_init T)) as (g & G & _).
  destruct (generate_nfa_grows g _ _ _ _ _ G Hn) as (g' & [G' _] & Hr & _).
  destruct (dfa_loop_returns g' h root G' Hr)
    as (n & d & Hit & Hq & Hle & Hsz & [t Ht]).
  exists n, d, t. repeat (split; [assumption|]).
  rewrite _convert_nfa_to_dfa_start.
  destruct (dfa_start h root) as [new_root start]. cbn [fst snd] in *.
  rewrite (while_loop_done dfa_body _ n start d); [| |exact Hit].
  - cbn [mbind Result_bind]. rewrite Ht. reflexivity.
  - rewrite Nat.pow_succ_r'. pose proof (Nat.pow_nonzero 2 (_id h)). lia.
Qed.

Lemma _convert_nfa_to_dfa_terminates_witness :
  let f := mkOperationClass "f" (mkArity 0 false) false false in
  let flatterm :=
    FlatTerm_init (inl (EOperation f [EWildcard 0 false; ESymbol "a" []])) in
  let h0 := net_heap (added (@DiscriminationNet_init nat) []) in
  ∃ root h,
    generate_nfa h0 flatterm 0 = Returns (root, h)
    ∧ ∃ n d t,
        iterate n dfa_body (dfa_start h root).2 = Returns (inr d)
        ∧ dg_queue d = []
        ∧ n ≤ 2 ^ _id h + 1
        ∧ size (new_states d) ≤ 2 ^ _id h
        ∧ new_states d !! (dfa_start h root).1 = Some t
        ∧ _convert_nfa_to_dfa h root = Returns (t, dg_heap d).
Proof.
  intros f flatterm h0.
  destruct (generate_nfa h0 flatterm 0) as [[root h]| |] eqn:E;
    [|vm_compute in E; discriminate..].
  exists root, h. split; [reflexivity|].
  exact (_convert_nfa_to_dfa_terminates (T := nat) [] flatterm 0 root h E).
Defined.

(** [DiscriminationNet.add] of an expression whose operations keep to their
    arity, to a net to which any patterns were added: it raises no
    exception, returns the number of patterns added before, and the pattern
    is stored with its label at that index. *)
Theorem DiscriminationNet_add_index {T} (patterns : list (Term * option T))
    (pattern : Expression) (final_label : option T) :
  operands_fit_arity pattern →
  let self := added DiscriminationNet_init patterns in
  let after := DiscriminationNet_add self (inl pattern) final_label in
  after.2 = Returns (length patterns)
  ∧ _patterns after.1 !! length patterns = Some (inl pattern, final_label)
  ∧ length (_patterns after.1) = S (length patterns).
Proof.
  intros Hfit self after.
  assert (Hlen : _patterns self = patterns).
  { unfold self. rewrite added_patterns. reflexivity. }
  split; [|split].
  - unfold after.
    rewrite (DiscriminationNet_add_returns self (inl pattern) final_label
               [None]).
    + rewrite Hlen. reflexivity.
    + apply net_ok_added, net_ok_init.
    + apply budget_run_top, Hfit.
  - unfold after. rewrite add_patterns, Hlen.
    apply list_lookup_middle. reflexivity.
  - unfold after. rewrite add_patterns, Hlen, length_app. cbn [length]. lia.
Qed.

Lemma DiscriminationNet_add_index_witness :
  let f := mkOperationClass "f" (mkArity 2 true) false false in
  let g := mkOperationClass "g" (mkArity 0 false) true false in
  let a := ESymbol "a" [] in
  let first : Term := inl (EOperation f [a; EWildcard 1 true]) in
  let second := EOperation g [EWildcard 0 false; a] in
  operands_fit_arity second
  ∧ (DiscriminationNet_add (added DiscriminationNet_init [(first, Some 7)])
       (inl second) (Some 8)).2 = Returns 1.
Proof.
  intros f g a first second.
  assert (Hfit : operands_fit_arity second) by (cbn; repeat split; lia).
  split; [exact Hfit|].
  exact (proj1 (DiscriminationNet_add_index [(first, Some 7)] second (Some 8)
                  Hfit)).
Defined.


Lemma match_step_outcome h collect first m term :
  match match_step h collect first m term with
  | Returns _ => True
  | Raises e => e = TypeError ∧ terminal_atom term = false
  | Unfinished => False
  end.
Proof.
  unfold match_step. destruct (0 <? m_depth m)%Z.
  - destruct (is_operation term); [exact I|].
    destruct (decide (term = OPERATION_END)); exact I.
  - destruct (first && _); [exact I|].
    destruct (getitem h (m_state m) (LTerm term)); [exact I|].
    destruct (is_operation term) eqn:Hop.
    + destruct (getitem h (m_state m) LWildcard); exact I.
    + destruct (decide (term = OPERATION_END)); [exact I|].
      destruct (isinstance_Symbol term) eqn:Hs.
      * destruct (getitem h (m_state m) _); exact I.
      * split; [reflexivity|]. destruct term; try done.
Qed.

Lemma match_loop_outcome h collect first flatterm : ∀ m,
  match match_loop h collect first m flatterm with
  | Returns _ => True
  | Raises e => e = TypeError ∧ forallb terminal_atom flatterm = false
  | Unfinished => False
  end.
Proof.
  induction flatterm as [|term rest IH]; intros m; cbn [match_loop];
    [exact I|].
  pose proof (match_step_outcome h collect first m term) as Hs.
  destruct (match_step h collect first m term) as [[m'|r]|e|];
    cbn [mbind Result_bind forallb]; try done.
  - specialize (IH m').
    destruct (match_loop h collect first m' rest) as [r|e|]; try done.
    destruct IH as [-> Hr]. split; [reflexivity|].
    rewrite Hr. apply andb_false_r.
  - destruct Hs as [-> Ht]. rewrite Ht. done.
Qed.

Lemma combined_loop_no_plain terms :
  forallb (λ a, negb (is_plain_wildcard a)) terms = true →
  combined_loop None terms = terms.
Proof.
  induction terms as [|term rest IH]; cbn [forallb combined_loop];
    [reflexivity|].
  intros H. apply andb_prop in H as [Ht Hr].
  destruct (is_plain_wildcard term); [discriminate|].
  cbn [yield_last app]. rewrite (IH Hr). reflexivity.
Qed.

Lemma terminal_not_plain terms :
  forallb terminal_atom terms = true →
  forallb (λ a, negb (is_plain_wildcard a)) terms = true.
Proof.
  induction terms as [|term rest IH]; cbn [forallb]; [reflexivity|].
  intros H. apply andb_prop in H as [Ht Hr]. rewrite (IH Hr).
  destruct term; try discriminate; reflexivity.
Qed.

Lemma constant_expression_tape (e : Expression) :
  constant_expression e = true →
  forallb terminal_atom (_flatterm_iter e) = true.
Proof.
  induction e as [name e IH|op operands IH|c|name c|m f]
    using Expression_nested_ind; cbn [constant_expression]; try done.
  rewrite flatterm_iter_operation. cbn [forallb terminal_atom andb].
  induction IH as [|o os Ho _ IHos]; [reflexivity|].
  intros H. apply andb_prop in H as [H1 H2].
  change (operands_tape (o :: os))
    with (_flatterm_iter o ++ operands_tape os).
  rewrite forallb_app, (Ho H1), (IHos H2). reflexivity.
Qed.

(** The tape of a constant subject has terminal atoms only; for a constant
    expression it is the tape [_flatterm_iter] yields. *)
Lemma constant_subject_tape (subject : Term) :
  constant_subject subject = true →
  forallb terminal_atom (_terms (to_flatterm subject)) = true.
Proof.
  destruct subject as [e|flatterm]; cbn [constant_subject to_flatterm];
    [|done].
  intros He. apply constant_expression_tape in He.
  cbn [FlatTerm_init _terms]. unfold _combined_wildcards_iter.
  rewrite combined_loop_no_plain by apply terminal_not_plain, He. exact He.
Qed.

Lemma _match_outcome {T} (self : DiscriminationNet T)
    (subject : Term) (collect first : bool) :
  (∀ e, _match self subject collect first = Raises e →
        e = TypeError ∧ constant_subject subject = false)
  ∧ (constant_subject subject = true →
     ∃ indices, _match self subject collect first = Returns indices).
Proof.
  unfold _match.
  pose proof (match_loop_outcome (net_heap self) collect first
                (_terms (to_flatterm subject))
                (mkMatchState (_root self) 0
                   (get_payload (net_heap self) (_root self)))) as Ho.
  destruct (match_loop _ _ _ _ _) as [r|e|]; [| |done].
  - split; [discriminate|]. eauto.
  - destruct Ho as [-> Hf].
    assert (Hc : constant_subject subject = false).
    { destruct (constant_subject subject) eqn:Hc; [|reflexivity].
      rewrite (constant_subject_tape subject Hc) in Hf. discriminate. }
    split; [intros e [= <-]; done|]. rewrite Hc. discriminate.
Qed.

(** [_match] raises no exception but the [TypeError] it raises itself, and
    that only for a subject with an atom that is not terminal: on a
    constant subject it returns a list, whatever the net. *)
Theorem _match_raises_only_TypeError {T} (self : DiscriminationNet T)
    (subject : Term) (collect first : bool) :
  (∀ e, _match self subject collect first = Raises e →
        e = TypeError ∧ constant_subject subject = false)
  ∧ (constant_subject subject = true →
     ∃ indices, _match self subject collect first = Returns indices).
Proof. apply _match_outcome. Qed.

Lemma _match_raises_only_TypeError_witness :
  let f := mkOperationClass "f" (mkArity 0 false) false false in
  let a := ESymbol "a" [] in
  let net :=
    added (@DiscriminationNet_init nat)
      [(inl (EOperation f [EWildcard 0 false; a]), None)] in
  let subject : Term := inl (EOperation f [a; a]) in
  constant_subject subject = true
  ∧ ∃ indices, _match net subject false false = Returns indices.
Proof.
  intros f a net subject. split; [reflexivity|].
  apply (proj2 (_match_raises_only_TypeError net subject false false)).
  reflexivity.
Defined.


Lemma payloads_below_mono n m h :
  n ≤ m → payloads_below n h → payloads_below m h.
Proof. intros Hle Hp s i Hi. specialize (Hp s i Hi). lia. Qed.

Lemma get_payload_new_State p h s :
  get_payload (new_State p h).2 s
  = if decide (s = _id h) then p else get_payload h s.
Proof.
  unfold get_payload, new_State; cbn [snd objects].
  destruct (decide (s = _id h)) as [->|Hne].
  - rewrite lookup_insert_eq. reflexivity.
  - rewrite lookup_insert_ne by done. reflexivity.
Qed.

Lemma get_payload_setitem h state label target s :
  get_payload (setitem h state label target) s = get_payload h s.
Proof.
  unfold get_payload, setitem; cbn [objects].
  destruct (decide (s = state)) as [->|Hne].
  - rewrite lookup_alter_eq. destruct (objects h !! state); reflexivity.
  - rewrite lookup_alter_ne by done. reflexivity.
Qed.

Lemma get_payload_set_payload h state p s :
  get_payload (set_payload h state p) s
  = if decide (s = state)
    then match objects h !! state with Some _ => p | None => [] end
    else get_payload h s.
Proof.
  unfold get_payload, set_payload; cbn [objects].
  destruct (decide (s = state)) as [->|Hne].
  - rewrite lookup_alter_eq. destruct (objects h !! state); reflexivity.
  - rewrite lookup_alter_ne by done. reflexivity.
Qed.

Lemma payloads_below_new_State n p h s h' :
  new_State p h = (s, h') → (∀ i, i ∈ p → i < n) →
  payloads_below n h → payloads_below n h'.
Proof.
  intros E Hp Hh x i. replace h' with (new_State p h).2 by (rewrite E; done).
  rewrite get_payload_new_State. destruct (decide _); [apply Hp|apply Hh].
Qed.

Lemma payloads_below_new_State_nil n h s h' :
  new_State [] h = (s, h') → payloads_below n h → payloads_below n h'.
Proof.
  intros E. apply (payloads_below_new_State n [] h s h' E).
  intros i Hi. inversion Hi.
Qed.

Lemma payloads_below_setitem n h state label target :
  payloads_below n h → payloads_below n (setitem h state label target).
Proof. intros Hh x i. rewrite get_payload_setitem. apply Hh. Qed.

Lemma payloads_below_set_payload n h state p :
  (∀ i, i ∈ p → i < n) →
  payloads_below n h → payloads_below n (set_payload h state p).
Proof.
  intros Hp Hh x i. rewrite get_payload_set_payload.
  destruct (decide _); [|apply Hh].
  destruct (objects h !! state); [apply Hp|]. intros Hi. inversion Hi.
Qed.

Lemma payloads_below_child n h state label s h' :
  _create_child_state h state label = (s, h') →
  payloads_below n h → payloads_below n h'.
Proof.
  unfold _create_child_state.
  destruct (new_State [] h) as [s0 h0] eqn:E0. intros [= <- <-] Hh.
  apply payloads_below_setitem.
  eapply payloads_below_new_State_nil; eassumption.
Qed.

Lemma payloads_below_chain n label count : ∀ h state s h',
  _generate_state_chain h state label count = (s, h') →
  payloads_below n h → payloads_below n h'.
Proof.
  induction count as [|count IH]; intros h state s h';
    cbn [_generate_state_chain].
  - intros [= <- <-]. done.
  - destruct (_create_child_state h state label) as [s1 h1] eqn:E1.
    intros E Hh. eapply IH; [exact E|].
    eapply payloads_below_child; eassumption.
Qed.

Lemma payloads_below_syntactic_loop n flatterm : ∀ h state s h',
  syntactic_loop h state flatterm = (s, h') →
  payloads_below n h → payloads_below n h'.
Proof.
  induction flatterm as [|term rest IH]; intros h state s h';
    cbn [syntactic_loop].
  - intros [= <- <-]. done.
  - destruct (isinstance_Wildcard term).
    + destruct (_generate_state_chain _ _ _ _) as [s1 h1] eqn:E1.
      intros E Hh. eapply IH; [exact E|].
      eapply payloads_below_chain; eassumption.
    + destruct (_create_child_state _ _ _) as [s1 h1] eqn:E1.
      intros E Hh. eapply IH; [exact E|].
      eapply payloads_below_child; eassumption.
Qed.

Lemma payloads_below_syntactic_net n h flatterm final_label root h' :
  _generate_syntactic_net h flatterm final_label = (root, h') →
  final_label < n → payloads_below n h → payloads_below n h'.
Proof.
  unfold _generate_syntactic_net.
  destruct (new_State [] h) as [r0 h0] eqn:E0.
  destruct (syntactic_loop h0 r0 (_terms flatterm)) as [s1 h1] eqn:E1.
  intros [= <- <-] Hl Hh. apply payloads_below_set_payload.
  - intros i Hi. apply list_elem_of_singleton in Hi as ->. exact Hl.
  - eapply payloads_below_syntactic_loop; [exact E1|].
    eapply payloads_below_new_State_nil; eassumption.
Qed.

Lemma payloads_below_ladder n count : ∀ h fail_state acc last l h',
  fail_ladder h fail_state acc count = (last, l, h') →
  payloads_below n h → payloads_below n h'.
Proof.
  induction count as [|count IH]; intros h fail_state acc last l h';
    cbn [fail_ladder].
  - intros [= <- <- <-]. done.
  - destruct (new_State [] h) as [s0 h0] eqn:E0. intros E Hh.
    eapply IH; [exact E|]. apply payloads_below_setitem.
    eapply payloads_below_new_State_nil; eassumption.
Qed.

Lemma payloads_below_make_fail_state n h op lw ft count fs h' :
  make_fail_state h op lw ft count = Returns (fs, h') →
  payloads_below n h → payloads_below n h'.
Proof.
  unfold make_fail_state. destruct (_ || _); [|intros [= <- <-]; done].
  destruct (last_fail_state_of ft count) as [lfs| |]; try discriminate.
  cbn [mbind Result_bind].
  destruct (state_or h lw lfs) as [target|]; [|discriminate].
  cbn [or_raise mbind Result_bind].
  destruct (new_State [] h) as [s0 h0] eqn:E0.
  destruct (arity_fixed_size (arity op)).
  - destruct (fail_ladder h0 s0 [s0] _) as [[last l] h1] eqn:E1.
    intros [= <- <-] Hh. apply payloads_below_setitem.
    eapply payloads_below_ladder; [exact E1|].
    eapply payloads_below_new_State_nil; eassumption.
  - intros [= <- <-] Hh. do 2 apply payloads_below_setitem.
    eapply payloads_below_new_State_nil; eassumption.
Qed.

Lemma payloads_below_add_epsilon n G G' :
  add_epsilon G = Returns G' →
  payloads_below n (ng_heap G) → payloads_below n (ng_heap G').
Proof.
  unfold add_epsilon.
  destruct (head (last_wildcards G)) as [lw|]; [|discriminate].
  cbn [or_raise mbind Result_bind].
  destruct (decide _); [intros [= <-]; done|].
  destruct (opt_state_bool (ng_heap G) lw).
  - destruct lw as [w|]; [|discriminate]. cbn [or_raise mbind Result_bind].
    intros [= <-] Hh. apply payloads_below_setitem, Hh.
  - destruct (head (fail_states G)) as [ft|]; [|discriminate].
    cbn [or_raise mbind Result_bind].
    destruct (FailState_bool (ng_heap G) ft); [|intros [= <-]; done].
    destruct (head (operand_counts G)) as [count|]; [|discriminate].
    cbn [or_raise mbind Result_bind].
    destruct (last_fail_state_of ft count) as [[target|]| |];
      try discriminate.
    cbn [or_raise mbind Result_bind].
    intros [= <-] Hh. apply payloads_below_setitem, Hh.
Qed.

Lemma payloads_below_net_step n G term G' :
  net_step G term = Returns G' →
  payloads_below n (ng_heap G) → payloads_below n (ng_heap G').
Proof.
  unfold net_step.
  destruct (head (operand_counts G)) as [count0|]; [|discriminate].
  cbn [or_raise mbind Result_bind].
  match goal with
  | |- mbind _ ?m = _ → _ => destruct m as [G1| |] eqn:E1; try discriminate
  end.
  cbn [mbind Result_bind]. intros He Hh.
  eapply payloads_below_add_epsilon; [exact He|].
  destruct (isinstance_Wildcard term).
  - destruct (_generate_state_chain _ _ _ _) as [state h1] eqn:Ec.
    pose proof (payloads_below_chain n _ _ _ _ _ _ Ec Hh) as H1.
    destruct (negb (wc_fixed_size term)).
    + destruct (last_wildcards G); [discriminate|]. injection E1 as <-.
      apply payloads_below_setitem, H1.
    + injection E1 as <-. exact H1.
  - destruct (_create_child_state _ _ _) as [state h1] eqn:Ec.
    pose proof (payloads_below_child n _ _ _ _ _ Ec Hh) as H1.
    destruct term as [name c|m f|c|op|c|]; try (injection E1 as <-; exact H1).
    + destruct (head (last_wildcards G)) as [lw|]; [|discriminate].
      destruct (head (fail_states G)) as [ft|]; [|discriminate].
      cbn [or_raise mbind Result_bind] in E1.
      destruct (make_fail_state h1 op lw ft _) as [[fs h2]| |] eqn:Em;
        try discriminate.
      cbn [mbind Result_bind] in E1. injection E1 as <-.
      eapply payloads_below_make_fail_state; eassumption.
    + destruct (fail_states G); [discriminate|].
      destruct (last_wildcards G); [discriminate|].
      injection E1 as <-. exact H1.
Qed.

Lemma payloads_below_net_loop n flatterm : ∀ G G',
  net_loop G flatterm = Returns G' →
  payloads_below n (ng_heap G) → payloads_below n (ng_heap G').
Proof.
  induction flatterm as [|term rest IH]; intros G G'; cbn [net_loop].
  - intros [= <-]. done.
  - destruct (net_step G term) as [G1| |] eqn:E1; try discriminate.
    cbn [mbind Result_bind]. intros E Hh. eapply IH; [exact E|].
    eapply payloads_below_net_step; eassumption.
Qed.

Lemma payloads_below_generate_nfa n h flatterm final_label root h' :
  generate_nfa h flatterm final_label = Returns (root, h') →
  final_label < n → payloads_below n h → payloads_below n h'.
Proof.
  unfold generate_nfa. destruct (new_State [] h) as [r0 h0] eqn:E0.
  destruct (net_loop _ _) as [G| |] eqn:El; try discriminate.
  cbn [mbind Result_bind]. intros [= <- <-] Hl Hh.
  apply payloads_below_set_payload.
  - intros i Hi. apply list_elem_of_singleton in Hi as ->. exact Hl.
  - eapply (payloads_below_net_loop n _ _ _ El). cbn [ng_heap].
    eapply payloads_below_new_State_nil; eassumption.
Qed.

Lemma payloads_below_create_state n h X s h' :
  _create_state h X = (s, h') → payloads_below n h → payloads_below n h'.
Proof.
  unfold _create_state. intros E Hh.
  eapply payloads_below_new_State; [exact E| |exact Hh].
  intros i Hi. apply elem_of_elements in Hi.
  apply (elem_of_union_fold (λ state, list_to_set (get_payload h state)))
    in Hi as (x & _ & Hi).
  apply elem_of_list_to_set in Hi. apply (Hh x i Hi).
Qed.

Lemma payloads_below_dfa_label_step n X new_state d label d' :
  dfa_label_step X new_state d label = Returns d' →
  payloads_below n (dg_heap d) → payloads_below n (dg_heap d').
Proof.
  unfold dfa_label_step. destruct (decide _); [intros [= <-]; done|].
  destruct (new_states d !! _target_set (dg_heap d) X label) as [t|] eqn:Et.
  - rewrite Et. cbn [or_raise mbind Result_bind]. intros [= <-] Hh.
    apply payloads_below_setitem, Hh.
  - destruct (_create_state _ _) as [s h1] eqn:Ec.
    cbn [new_states dg_heap dg_queue]. rewrite lookup_insert_eq.
    cbn [or_raise mbind Result_bind]. intros [= <-] Hh.
    apply payloads_below_setitem.
    eapply payloads_below_create_state; eassumption.
Qed.

Lemma payloads_below_dfa_body n d d' :
  dfa_body d = Returns (inl d') →
  payloads_below n (dg_heap d) → payloads_below n (dg_heap d').
Proof.
  unfold dfa_body. destruct (dg_queue d) as [|X queue]; [discriminate|].
  destruct (new_states d !! X) as [new_state|]; [|discriminate].
  cbn [or_raise mbind Result_bind].
  destruct (for_each _ _ _) as [d1| |] eqn:Ef; try discriminate.
  cbn [mbind Result_bind]. intros [= <-] Hh.
  refine (for_each_invariant (dfa_label_step X new_state)
            (λ d0, payloads_below n (dg_heap d0)) _ _
            (mkDfaGen (dg_heap d) (new_states d) queue) _ Hh Ef).
  intros d0 l d2 _ H0 E. eapply payloads_below_dfa_label_step; eassumption.
Qed.

Lemma dfa_body_inr d r : dfa_body d = Returns (inr r) → r = d.
Proof.
  unfold dfa_body. destruct (dg_queue d) as [|X queue];
    [intros [= <-]; reflexivity|].
  destruct (new_states d !! X); cbn [or_raise mbind Result_bind];
    [|discriminate].
  destruct (for_each _ _ _); cbn [mbind Result_bind]; discriminate.
Qed.

Lemma payloads_below_convert n h root t h' :
  _convert_nfa_to_dfa h root = Returns (t, h') →
  payloads_below n h → payloads_below n h'.
Proof.
  unfold _convert_nfa_to_dfa.
  destruct (_create_state h _) as [s h0] eqn:Ec.
  destruct (while_loop _ _ _) as [d| |] eqn:Ew; try discriminate.
  cbn [mbind Result_bind].
  destruct (new_states d !! _) as [t'|]; [|discriminate].
  cbn [or_raise mbind Result_bind]. intros [= <- <-] Hh.
  apply while_loop_returns in Ew.
  destruct (iterate_invariant dfa_body
              (λ d0, payloads_below n (dg_heap d0))) with
    (n := 2 ^ S (_id h))
    (s := mkDfaGen h0 {[_epsilon_closure h {[root]} := s]}
            [_epsilon_closure h {[root]}]) (r := d)
    as (d_last & Hlast & Hbody).
  - intros d1 d2 H1 E. eapply payloads_below_dfa_body; eassumption.
  - cbn [dg_heap]. eapply payloads_below_create_state; eassumption.
  - exact Ew.
  - apply dfa_body_inr in Hbody as ->. exact Hlast.
Qed.

Lemma payloads_below_generate_net n h flatterm final_label root h' :
  _generate_net h flatterm final_label = Returns (root, h') →
  final_label < n → payloads_below n h → payloads_below n h'.
Proof.
  unfold _generate_net.
  destruct (generate_nfa h flatterm final_label) as [[r1 h1]| |] eqn:En;
    try discriminate.
  cbn [mbind Result_bind]. intros E Hl Hh.
  eapply payloads_below_convert; [exact E|].
  eapply payloads_below_generate_nfa; eassumption.
Qed.

(** *** The product net *)

Lemma item_init_payload n h t1 t2 :
  payloads_below n h →
  ∀ i, i ∈ item_payload (_StateQueueItem_init h t1 t2) → i < n.
Proof.
  intros Hh i. unfold _StateQueueItem_init. cbn [item_payload].
  rewrite elem_of_app. intros [Hi|Hi].
  - destruct t1 as [s|]; [apply (Hh s i Hi)|inversion Hi].
  - destruct t2 as [s|]; [apply (Hh s i Hi)|inversion Hi].
Qed.

Lemma child_item_payload n h current label c :
  child_item h current label = Returns c →
  payloads_below n h → ∀ i, i ∈ item_payload c → i < n.
Proof.
  unfold child_item.
  destruct (_get_next_state h (state1 current) label _) as [t1 w1].
  destruct (_get_next_state h (state2 current) label _) as [t2 w2].
  intros E Hh.
  pose proof (item_init_payload n h t1 t2 Hh) as Hinit.
  set (c0 := _StateQueueItem_init h t1 t2) in *.
  cbn [state1 state2 id1 id2 item_payload depth fixed] in E.
  assert (Happ : ∀ s1 s2 i, i ∈ get_payload h s1 ++ get_payload h s2 → i < n).
  { intros s1 s2 i Hi. apply elem_of_app in Hi as [Hi|Hi]; eapply Hh, Hi. }
  assert (Hext : ∀ s i, i ∈ item_payload c0 ++ get_payload h s → i < n).
  { intros s i Hi. apply elem_of_app in Hi as [Hi|Hi];
      [apply Hinit, Hi|eapply Hh, Hi]. }
  destruct (label_is_operation label).
  - destruct (negb _); [injection E as <-; exact Hinit|].
    destruct w1.
    { destruct (state2 c0) as [s2|]; [|discriminate].
      destruct (state1 current) as [s1|]; [|discriminate].
      cbn [or_raise mbind Result_bind] in E. injection E as <-.
      cbn [item_payload]. apply Happ. }
    destruct w2; [|injection E as <-; exact Hinit].
    destruct (state1 c0) as [s1|]; [|discriminate].
    destruct (state2 current) as [s2|]; [|discriminate].
    cbn [or_raise mbind Result_bind] in E. injection E as <-.
    cbn [item_payload]. apply Happ.
  - destruct (_ && _); [|injection E as <-; exact Hinit].
    destruct (decide _); [|injection E as <-; exact Hinit].
    destruct (decide (fixed current = 1)).
    { destruct (state1 c0) as [s1|]; [|discriminate].
      cbn [or_raise mbind Result_bind] in E.
      destruct (getitem h s1 LWildcard) as [s1'|]; [|discriminate].
      cbn [or_raise mbind Result_bind] in E. injection E as <-.
      cbn [item_payload]. apply Hext. }
    destruct (decide (fixed current = 2)); [|discriminate].
    destruct (state2 c0) as [s2|]; [|discriminate].
    cbn [or_raise mbind Result_bind] in E.
    destruct (getitem h s2 LWildcard) as [s2'|]; [|discriminate].
    cbn [or_raise mbind Result_bind] in E. injection E as <-.
    cbn [item_payload]. apply Hext.
Qed.

Lemma payloads_below_product_label_step n current state p label p' :
  product_label_step current state p label = Returns p' →
  payloads_below n (pn_heap p) → payloads_below n (pn_heap p').
Proof.
  unfold product_label_step.
  destruct (child_item (pn_heap p) current label) as [c| |] eqn:Ec;
    try discriminate.
  cbn [mbind Result_bind]. intros E Hh.
  pose proof (child_item_payload n _ _ _ _ Ec Hh) as Hc.
  destruct (pn_states p !! item_key c) as [t|] eqn:Et.
  - rewrite Et in E. cbn [or_raise mbind Result_bind] in E.
    injection E as <-. apply payloads_below_setitem, Hh.
  - destruct (new_State (item_payload c) (pn_heap p)) as [s h1] eqn:En.
    cbn [pn_states pn_heap pn_queue] in E. rewrite lookup_insert_eq in E.
    cbn [or_raise mbind Result_bind] in E. injection E as <-.
    apply payloads_below_setitem.
    eapply payloads_below_new_State; eassumption.
Qed.

Lemma payloads_below_product_body n p p' :
  product_body p = Returns (inl p') →
  payloads_below n (pn_heap p) → payloads_below n (pn_heap p').
Proof.
  unfold product_body. destruct (pn_queue p) as [|current queue];
    [discriminate|].
  destruct (pn_states p !! item_key current) as [state|]; [|discriminate].
  cbn [or_raise mbind Result_bind].
  destruct (for_each _ _ _) as [p1| |] eqn:Ef; try discriminate.
  cbn [mbind Result_bind]. intros [= <-] Hh.
  refine (for_each_invariant (product_label_step current state)
            (λ p0, payloads_below n (pn_heap p0)) _ _
            (mkProductGen (pn_heap p) (pn_states p) queue) _ Hh Ef).
  intros p0 l p2 _ H0 E.
  eapply payloads_below_product_label_step; eassumption.
Qed.

Lemma product_body_inr p r : product_body p = Returns (inr r) → r = p.
Proof.
  unfold product_body. destruct (pn_queue p) as [|current queue];
    [intros [= <-]; reflexivity|].
  destruct (pn_states p !! _); cbn [or_raise mbind Result_bind];
    [|discriminate].
  destruct (for_each _ _ _); cbn [mbind Result_bind]; discriminate.
Qed.

Lemma payloads_below_product_net n h state1 state2 root h' :
  _product_net h state1 state2 = Returns (root, h') →
  payloads_below n h → payloads_below n h'.
Proof.
  unfold _product_net, product_start.
  destruct (new_State [] h) as [r0 h0] eqn:E0.
  destruct (while_loop _ _ _) as [p| |] eqn:Ew; try discriminate.
  cbn [mbind Result_bind]. intros [= <- <-] Hh.
  apply while_loop_returns in Ew.
  destruct (iterate_invariant product_body
              (λ p0, payloads_below n (pn_heap p0)) ) with
    (n := 2 ^ (3 * (Nat.log2 (_id h) + 1) + 2))
    (s := mkProductGen h0 {[(state1, state2, 0%Z) := r0]}
            [_StateQueueItem_init h0 (Some state1) (Some state2)]) (r := p)
    as (p_last & Hlast & Hbody).
  - intros p1 p2 H1 E. eapply payloads_below_product_body; eassumption.
  - cbn [pn_heap]. eapply payloads_below_new_State_nil; eassumption.
  - exact Ew.
  - apply product_body_inr in Hbody as ->. exact Hlast.
Qed.

(** *** Nets *)

Lemma payloads_below_pattern_net n h pattern index root h' :
  pattern_net h pattern index = Returns (root, h') →
  index < n → payloads_below n h → payloads_below n h'.
Proof.
  unfold pattern_net. destruct (_ || _).
  - intros [= E]. eapply payloads_below_syntactic_net, E.
  - apply payloads_below_generate_net.
Qed.

Lemma net_payloads_init {T} : net_payloads (@DiscriminationNet_init T).
Proof.
  unfold net_payloads, DiscriminationNet_init.
  destruct (new_State [] empty_heap) as [root h] eqn:E.
  cbn [net_heap _patterns].
  eapply payloads_below_new_State_nil; [exact E|].
  intros s i Hi. unfold get_payload in Hi. cbn in Hi.
  rewrite lookup_empty in Hi. inversion Hi.
Qed.

Lemma net_payloads_add {T} (self : DiscriminationNet T) pattern final_label :
  net_payloads self →
  net_payloads (DiscriminationNet_add self pattern final_label).1.
Proof.
  unfold net_payloads. intros Hh.
  rewrite add_patterns, length_app. cbn [length].
  assert (Hh' : payloads_below (length (_patterns self) + 1) (net_heap self))
    by (eapply payloads_below_mono; [|exact Hh]; lia).
  unfold DiscriminationNet_add.
  destruct (pattern_net _ _ _) as [[net h]| |] eqn:Ep; cbn [fst net_heap];
    [|exact Hh'..].
  assert (H1 : payloads_below (length (_patterns self) + 1) h).
  { eapply payloads_below_pattern_net; [exact Ep|lia|exact Hh']. }
  destruct (state_bool h (_root self)); [|exact H1].
  destruct (_product_net h (_root self) net) as [[root h']| |] eqn:Epn;
    cbn [fst net_heap]; [|exact H1..].
  eapply payloads_below_product_net; eassumption.
Qed.

Lemma net_payloads_added {T} (patterns : list (Term * option T)) :
  ∀ self, net_payloads self → net_payloads (added self patterns).
Proof.
  unfold added. induction patterns as [|[pattern label] ps IH];
    intros self Hok; cbn [fold_left].
  - exact Hok.
  - apply IH, net_payloads_add, Hok.
Qed.

Lemma match_step_indices n h collect first m term :
  payloads_below n h → (∀ i, i ∈ m_result m → i < n) →
  match match_step h collect first m term with
  | Returns (inl m') => ∀ i, i ∈ m_result m' → i < n
  | Returns (inr r) => ∀ i, i ∈ r → i < n
  | _ => True
  end.
Proof.
  intros Hh Hm. unfold match_step.
  assert (Hnil : ∀ i : nat, i ∈ @nil nat → i < n) by (intros i Hi; inversion Hi).
  assert (Henter : ∀ state i, i ∈ m_result m ++ get_payload h state → i < n).
  { intros state i Hi. apply elem_of_app in Hi as [Hi|Hi];
      [apply Hm, Hi|eapply Hh, Hi]. }
  destruct (0 <? m_depth m)%Z.
  - destruct (is_operation term); [exact Hm|].
    destruct (decide _); exact Hm.
  - destruct (first && _); [intros i; apply Hh|].
    destruct (getitem h (m_state m) (LTerm term)); [apply Henter|].
    destruct (is_operation term).
    + destruct (getitem h (m_state m) LWildcard); [apply Henter|].
      destruct collect; [exact Hm|exact Hnil].
    + destruct (decide _); [exact Hnil|].
      destruct (isinstance_Symbol term); [|exact I].
      destruct (getitem h (m_state m) _); [apply Henter|].
      destruct collect; [exact Hm|exact Hnil].
Qed.

Lemma match_loop_indices n h collect first flatterm : ∀ m r,
  payloads_below n h → (∀ i, i ∈ m_result m → i < n) →
  match_loop h collect first m flatterm = Returns r →
  ∀ i, i ∈ r → i < n.
Proof.
  induction flatterm as [|term rest IH]; intros m r Hh Hm; cbn [match_loop].
  - intros [= <-]. destruct collect; [exact Hm|]. intros i; apply Hh.
  - pose proof (match_step_indices n h collect first m term Hh Hm) as Hs.
    destruct (match_step h collect first m term) as [[m'|r']| |];
      cbn [mbind Result_bind]; try discriminate.
    + apply IH; assumption.
    + intros [= <-]. exact Hs.
Qed.


Lemma _match_indices {T} (self : DiscriminationNet T) subject collect first
    indices :
  net_payloads self →
  _match self subject collect first = Returns indices →
  ∀ i, i ∈ indices → i < length (_patterns self).
Proof.
  intros Hh Hm. unfold _match in Hm.
  eapply match_loop_indices; [exact Hh| |exact Hm].
  cbn [m_result]. intros i. apply Hh.
Qed.

(** Every index that [_match] reports, for any subject and in either mode,
    is the index of a pattern that was added to the net: the lookups
    [self._patterns[index]] of the callers cannot fail. *)
Theorem _match_indices_valid {T} (patterns : list (Term * option T))
    (subject : Term) (collect first : bool) (indices : list nat) :
  _match (added DiscriminationNet_init patterns) subject collect first
  = Returns indices →
  ∀ i, i ∈ indices →
    is_Some (_patterns (added DiscriminationNet_init patterns) !! i).
Proof.
  intros Hm i Hi. apply lookup_lt_is_Some.
  eapply _match_indices; [|exact Hm|exact Hi].
  apply net_payloads_added, net_payloads_init.
Qed.

Lemma _match_indices_valid_witness :
  let f := mkOperationClass "f" (mkArity 0 false) false false in
  let a := ESymbol "a" [] in
  let patterns : list (Term * option nat) :=
    [(inl (EOperation f [EWildcard 0 false; a]), None);
     (inl (EOperation f [a; EWildcard 1 true]), None)] in
  let net := added DiscriminationNet_init patterns in
  let subject : Term := inl (EOperation f [a; a]) in
  _match net subject false false = Returns [0; 1]
  ∧ ∀ i, i ∈ [0; 1] → is_Some (_patterns net !! i).
Proof.
  intros f a patterns net subject.
  assert (Hm : _match net subject false false = Returns [0; 1])
    by (vm_compute; reflexivity).
  split; [exact Hm|].
  exact (_match_indices_valid patterns subject false false [0; 1] Hm).
Defined.

Lemma collect_yields_returns {A B} (body : A → Result (list B)) (xs : list A) :
  (∀ x, x ∈ xs → ∃ ys, body x = Returns ys) →
  ∃ results, collect_yields body xs = Returns results.
Proof.
  induction xs as [|x xs IH]; intros Hb; cbn [collect_yields]; [eauto|].
  destruct (Hb x) as [ys ->]; [left|].
  destruct IH as [rest ->]; [intros y Hy; apply Hb; right; exact Hy|].
  cbn [mbind Result_bind]. eauto.
Qed.

(** [collect_yields] when each body returns or raises one exception. *)
Lemma collect_yields_outcome {A B} (body : A → Result (list B)) (xs : list A)
    (e : Exception) :
  (∀ x, x ∈ xs → (∃ ys, body x = Returns ys) ∨ body x = Raises e) →
  (∃ results, collect_yields body xs = Returns results)
  ∨ collect_yields body xs = Raises e.
Proof.
  induction xs as [|x xs IH]; intros Hb; cbn [collect_yields]; [eauto|].
  destruct (Hb x) as [[ys ->]| ->]; [left| |right; reflexivity].
  cbn [mbind Result_bind].
  destruct IH as [[rest ->]| ->];
    [intros y Hy; apply Hb; right; exact Hy| |right; reflexivity].
  left. cbn [mbind Result_bind]. eauto.
Qed.

Section MatchReturns.
Context {Substitution : Type}.
Context (Substitution_init : Substitution).
Context (extract_substitution :
           Substitution → Term → Term → Substitution * bool).
Context (try_add_variable :
           Substitution → string → list Expression → option Substitution).
Context (constraints_hold : Term → Substitution → bool).

(** [DiscriminationNet.match] on a net to which any patterns were added,
    for a constant subject: [_match] returns indices and each of them is
    found in [_patterns], so the only exception that can end the generator
    is the [AttributeError] of [pattern.preorder_iter()] for a pattern that
    was added as a [FlatTerm]; when every pattern was added as an
    expression, [match] raises no exception. *)
Theorem DiscriminationNet_match_returns {T}
    (patterns : list (Term * option T)) (subject : Term) :
  constant_subject subject = true →
  let outcome :=
    DiscriminationNet_match Substitution_init extract_substitution
      constraints_hold (added DiscriminationNet_init patterns) subject in
  (∀ e, outcome = Raises e → e = AttributeError)
  ∧ outcome ≠ Unfinished
  ∧ (Forall (λ pl, isinstance_Expression pl.1 = true) patterns →
     ∃ yielded, outcome = Returns yielded).
Proof.
  intros Hc outcome. subst outcome. unfold DiscriminationNet_match.
  destruct (proj2 (_match_outcome
                     (added DiscriminationNet_init patterns) subject
                     false false) Hc) as [indices Hm].
  rewrite Hm. cbn [mbind Result_bind].
  assert (Hentry : ∀ index, index ∈ indices →
            ∃ pattern label, patterns !! index = Some (pattern, label)
              ∧ _patterns (added DiscriminationNet_init patterns) !! index
                = Some (pattern, label)).
  { intros index Hi.
    assert (Hlt : index < length (_patterns (added DiscriminationNet_init
                                                patterns))).
    { eapply _match_indices; [|exact Hm|exact Hi].
      apply net_payloads_added, net_payloads_init. }
    apply lookup_lt_is_Some in Hlt as [[pattern label] Hp].
    exists pattern, label. split; [|exact Hp].
    rewrite added_patterns in Hp. exact Hp. }
  assert (Hbody : ∀ index, index ∈ indices →
            (∃ ys, match_index Substitution_init extract_substitution
                     constraints_hold
                     (added DiscriminationNet_init patterns) subject index
                   = Returns ys)
            ∨ match_index Substitution_init extract_substitution
                constraints_hold
                (added DiscriminationNet_init patterns) subject index
              = Raises AttributeError).
  { intros index Hi. destruct (Hentry index Hi) as (pattern & label & _ & Hp).
    unfold match_index. rewrite Hp. cbn [or_raise mbind Result_bind].
    destruct (extract_substitution _ _ _) as [subst ok].
    destruct ok; [|eauto]. destruct pattern as [e|flatterm]; [|by right].
    destruct (constraints_hold _ _); eauto. }
  split; [|split].
  - intros e.
    destruct (collect_yields_outcome _ _ _ Hbody) as [[results ->]| ->];
      [discriminate|]. by intros [= <-].
  - destruct (collect_yields_outcome _ _ _ Hbody) as [[results ->]| ->];
      discriminate.
  - intros Hall. apply collect_yields_returns. intros index Hi.
    destruct (Hentry index Hi) as (pattern & label & Hin & Hp).
    unfold match_index. rewrite Hp. cbn [or_raise mbind Result_bind].
    destruct (extract_substitution _ _ _) as [subst ok].
    destruct ok; [|eauto].
    apply list_elem_of_lookup_2 in Hin.
    rewrite Forall_forall in Hall. specialize (Hall _ Hin). cbn in Hall.
    destruct pattern as [e|flatterm]; [|discriminate].
    destruct (constraints_hold _ _); eauto.
Qed.
End MatchReturns.

(** Two patterns added as expressions: [match] returns.  The pattern [a]
    added as a [FlatTerm]: [match] finds it for the subject [a] and raises
    [AttributeError]. *)
Lemma DiscriminationNet_match_returns_witness :
  let f := mkOperationClass "f" (mkArity 0 false) false false in
  let a := ESymbol "a" [] in
  let patterns : list (Term * option nat) :=
    [(inl (EOperation f [EWildcard 0 false; a]), Some 5);
     (inl (EOperation f [a; EWildcard 1 true]), None)] in
  let subject : Term := inl (EOperation f [a; a]) in
  constant_subject subject = true
  ∧ (∃ yielded,
       DiscriminationNet_match tt (λ s _ _, (s, true)) (λ _ _, true)
         (added DiscriminationNet_init patterns) subject
       = Returns yielded)
  ∧ DiscriminationNet_match tt (λ s _ _, (s, true)) (λ _ _, true)
      (added (@DiscriminationNet_init nat)
         [(inr (mkFlatTerm [ASymbol "a" []]), None)]) (inl a)
    = Raises AttributeError.
Proof.
  intros f a patterns subject. split; [reflexivity|]. split.
  - apply (DiscriminationNet_match_returns tt (λ s _ _, (s, true))
             (λ _ _, true) patterns subject eq_refl).
    repeat constructor.
  - vm_compute. reflexivity.
Defined.

(** *** [SequenceMatcher.match] *)





Section SequenceMatchReturns.
Context {Substitution : Type}.
Context (Substitution_init : Substitution).
Context (extract_substitution :
           Substitution → Term → Term → Substitution * bool).
Context (try_add_variable :
           Substitution → string → list Expression → option Substitution).

End SequenceMatchReturns.



(** A step with [collect] against the step without: the same next loop
    state and the same exception; a [return] differs only where a
    [KeyError] is caught. *)
Lemma match_step_collect h first m term :
  match_step h true first m term
  = match match_step h false first m term with
    | Returns (inr r) =>
        if (first && negb (bool_decide (get_payload h (m_state m) = [])))
           || bool_decide (term = OPERATION_END)
        then Returns (inr r)
        else Returns (inr (m_result m))
    | other => other
    end.
Proof.
  unfold match_step.
  destruct (0 <? m_depth m)%Z.
  - destruct (is_operation term); [reflexivity|].
    destruct (decide _); reflexivity.
  - destruct (first && _); [reflexivity|]. cbn [orb].
    destruct (getitem h (m_state m) (LTerm term)); [reflexivity|].
    destruct term as [name c|n f|c|op|c|];
      cbn [is_operation isinstance_Symbol]; try reflexivity.
    + destruct (decide _) as [|_]; [done|].
      destruct (getitem h (m_state m) _); reflexivity.
    + destruct (getitem h (m_state m) LWildcard); reflexivity.
Qed.

(** The result of the next loop state has the payload of the state that
    was entered, if one was. *)
Lemma match_step_result_entered h first m term m' :
  match_step h false first m term = Returns (inl m') →
  m_result m'
  = m_result m
    ++ concat (map (get_payload h)
                 (if (0 <? m_depth m)%Z then [] else [m_state m'])).
Proof.
  unfold match_step.
  destruct (0 <? m_depth m)%Z.
  - destruct (is_operation term);
      [intros [= <-]; cbn; by rewrite app_nil_r|].
    destruct (decide _); intros [= <-]; cbn; by rewrite app_nil_r.
  - destruct (first && _); [discriminate|].
    assert (Henter : ∀ state d,
      Returns (inl (mkMatchState state d (m_result m ++ get_payload h state)))
      = Returns (inl m' : MatchState + list nat) →
      m_result m'
      = m_result m ++ concat (map (get_payload h) [m_state m'])).
    { intros state d [= <-]. cbn. by rewrite app_nil_r. }
    destruct (getitem h (m_state m) (LTerm term)); [apply Henter|].
    destruct (is_operation term).
    + destruct (getitem h (m_state m) LWildcard);
        [apply Henter|discriminate].
    + destruct (decide _); [discriminate|].
      destruct (isinstance_Symbol term); [|discriminate].
      destruct (getitem h (m_state m) _); [apply Henter|discriminate].
Qed.

Lemma match_loop_collect h first tape : ∀ m,
  match_loop h true first m tape
  = if ended_regardless h first m tape then match_loop h false first m tape
    else Returns (m_result m
                  ++ concat (map (get_payload h) (entered h first m tape))).
Proof.
  induction tape as [|term rest IH]; intros m;
    cbn [match_loop entered ended_regardless].
  - cbn. by rewrite app_nil_r.
  - rewrite match_step_collect.
    destruct (match_step h false first m term) as [[m'|r]| |] eqn:Es;
      cbn [mbind Result_bind]; try reflexivity.
    + rewrite IH. destruct (ended_regardless h first m' rest); [reflexivity|].
      rewrite (match_step_result_entered h first m term m' Es).
      rewrite map_app, concat_app, app_assoc. reflexivity.
    + destruct (_ || _); cbn [mbind Result_bind]; [reflexivity|].
      cbn. by rewrite app_nil_r.
Qed.

(** What [_match] returns with [collect]: the payloads of the root and of
    every state it enters, in the order of the path, when it reads the
    whole tape or stops at a transition that is missing for an operation or
    a symbol.  When the run is ended by [first] at a state with a payload,
    by an [OPERATION_END] without transition or by the [TypeError],
    [collect] makes no difference: the outcome is that of [_match] without
    [collect]. *)
Theorem _match_collect_gathers {T} (self : DiscriminationNet T)
    (subject : Term) (first : bool) :
  let h := net_heap self in
  let start := mkMatchState (_root self) 0 (get_payload h (_root self)) in
  let tape := _terms (to_flatterm subject) in
  _match self subject true first
  = if ended_regardless h first start tape
    then _match self subject false first
    else Returns (concat (map (get_payload h)
                            (_root self :: entered h first start tape))).
Proof.
  intros h start tape. unfold _match. fold h start tape.
  rewrite match_loop_collect. reflexivity.
Qed.

(** A net for the tape [f] and the pattern [f(a)].  On [f(b)] the lookup
    of [b] fails in the state after [f], whose payload is [[0]]: nothing is
    returned without [collect], [[0]] with it.  On [f()] the
    [OPERATION_END] has no transition in that state, and [[]] is returned
    in both modes. *)
Lemma _match_collect_gathers_witness :
  let f := mkOperationClass "f" (mkArity 0 false) false false in
  let a := ESymbol "a" [] in
  let b := ESymbol "b" [] in
  let net :=
    added (@DiscriminationNet_init nat)
      [(inr (mkFlatTerm [AOperation f]), None);
       (inl (EOperation f [a]), None)] in
  _match net (inl (EOperation f [b])) false false = Returns []
  ∧ _match net (inl (EOperation f [b])) true false = Returns [0]
  ∧ _match net (inl (EOperation f [])) true false = Returns [].
Proof.
  intros f a b net. split; [vm_compute; reflexivity|]. split.
  - rewrite (_match_collect_gathers net (inl (EOperation f [b])) false).
    vm_compute. reflexivity.
  - rewrite (_match_collect_gathers net (inl (EOperation f [])) false).
    vm_compute. reflexivity.
Defined.

(** The outcome of [SequenceMatcher.add] on a matcher with a well-formed
    net. *)
Lemma SequenceMatcher_add_result (self : SequenceMatcher)
    (pattern : Expression) :
  net_ok (_net self) → operands_fit_arity pattern →
  (SequenceMatcher_add self pattern).2
  = if negb (outer_operation_accepted (operation self) pattern)
    then Raises TypeError
    else if negb (operands_accepted pattern) then Raises ValueError
    else Returns (length (sm_patterns self)).
Proof.
  intros Hok Hfit. unfold SequenceMatcher_add.
  rewrite !_check_wildcard_and_get_name_spec.
  destruct pattern as [name e|op operands|c|name c|m f];
    try (destruct (operation self); reflexivity).
  cbn [outer_operation_accepted operands_accepted as_Operation isinstance_of
       operands_of].
  assert (Hrest : ∀ self1 : SequenceMatcher,
    _net self1 = _net self → sm_patterns self1 = sm_patterns self →
    (if bool_decide (length operands < 3) then (self1, Raises ValueError)
     else
       match
         (first_name ←
            (if star_wildcard
                  (unwrap_variable
                     (default (EOperation op operands) (head operands)))
             then Returns
                    (match default (EOperation op operands) (head operands)
                     with
                     | EVariable name _ => Some name
                     | _ => None
                     end)
             else Raises ValueError);
          last_name ←
            (if star_wildcard
                  (unwrap_variable
                     (default (EOperation op operands) (last operands)))
             then Returns
                    (match default (EOperation op operands) (last operands)
                     with
                     | EVariable name _ => Some name
                     | _ => None
                     end)
             else Raises ValueError);
          Returns (first_name, last_name))
       with
       | Returns (first_name, last_name) =>
           let index := length (sm_patterns self1) in
           let patterns :=
             sm_patterns self1
             ++ [(EOperation op operands, first_name, last_name)] in
           let flatterm :=
             FlatTerm_merged
               (map (λ o, FlatTerm_init (inl o)) (middle operands)) in
           let '(net, r) :=
             DiscriminationNet_add (_net self1) (inr flatterm) (Some index) in
           (mkSequenceMatcher net patterns (operation self1),
            _ ← r; Returns index)
       | Raises e => (self1, Raises e)
       | Unfinished => (self1, Unfinished)
       end).2
    = if negb (bool_decide (3 ≤ length operands)
               && match head operands, last operands with
                  | Some operand0, Some operand_n =>
                      star_wildcard (unwrap_variable operand0)
                      && star_wildcard (unwrap_variable operand_n)
                  | _, _ => false
                  end)
      then Raises ValueError
      else Returns (length (sm_patterns self))).
  { intros self1 Hnet Hpat.
    destruct (bool_decide_reflect (length operands < 3)) as [Hlt|Hge].
    - rewrite bool_decide_eq_false_2 by lia. reflexivity.
    - rewrite bool_decide_eq_true_2 by lia. cbn [andb].
      destruct (head operands) as [operand0|] eqn:Eh;
        [|destruct operands; [simpl in Hge; lia|discriminate]].
      destruct (last operands) as [operand_n|] eqn:El;
        [|apply last_None in El; subst; simpl in Hge; lia].
      cbn [default from_option id].
      destruct (star_wildcard (unwrap_variable operand0));
        cbn [mbind Result_bind andb negb]; [|reflexivity].
      destruct (star_wildcard (unwrap_variable operand_n));
        cbn [mbind Result_bind andb negb]; [|reflexivity].
      cbv zeta.
      pose proof (DiscriminationNet_add_returns (_net self1)
                    (inr (FlatTerm_merged
                            (map (λ o, FlatTerm_init (inl o))
                               (middle operands))))
                    (Some (length (sm_patterns self1))) [None]) as Hadd.
      destruct (DiscriminationNet_add _ _ _) as [net r].
      cbn [snd] in *. rewrite Hadd.
      + cbn [mbind Result_bind]. rewrite Hpat. reflexivity.
      + rewrite Hnet. exact Hok.
      + apply budget_run_merged, Forall_middle.
        eapply operands_fit_arity_Forall, Hfit. }
  destruct (operation self) as [operation|].
  - destruct (bool_decide (op = operation)); cbn [negb]; [|reflexivity].
    apply Hrest; reflexivity.
  - destruct (commutative op); cbn [negb]; [reflexivity|].
    apply Hrest; reflexivity.
Qed.

Lemma can_match_accepted (pattern : Expression) :
  can_match pattern
  = outer_operation_accepted None pattern && operands_accepted pattern.
Proof.
  unfold can_match.
  destruct pattern as [name e|op operands|c|name c|m f]; try reflexivity.
  cbn [as_Operation outer_operation_accepted operands_accepted].
  destruct (commutative op); [reflexivity|]. cbn [negb andb].
  rewrite !_check_wildcard_and_get_name_spec.
  destruct (bool_decide_reflect (length operands < 3)) as [Hlt|Hge].
  - rewrite bool_decide_eq_false_2 by lia. reflexivity.
  - rewrite bool_decide_eq_true_2 by lia. cbn [andb].
    destruct (head operands) as [operand0|] eqn:Eh;
      [|destruct operands; [simpl in Hge; lia|discriminate]].
    destruct (last operands) as [operand_n|] eqn:El;
      [|apply last_None in El; subst; simpl in Hge; lia].
    cbn [default from_option id].
    destruct (star_wildcard (unwrap_variable operand0)); [|reflexivity].
    destruct (star_wildcard (unwrap_variable operand_n)); reflexivity.
Qed.

(** [can_match] tells what [add] does on a new matcher: it is [True]
    exactly when [add] returns (the index 0), and [False] exactly when
    [add] raises [TypeError] or [ValueError]. *)
Theorem can_match_iff_add (pattern : Expression) :
  operands_fit_arity pattern →
  (can_match pattern = true
   ↔ (SequenceMatcher_add SequenceMatcher_init pattern).2 = Returns 0)
  ∧ (can_match pattern = false
     ↔ (SequenceMatcher_add SequenceMatcher_init pattern).2 = Raises TypeError
       ∨ (SequenceMatcher_add SequenceMatcher_init pattern).2
         = Raises ValueError).
Proof.
  intros Hfit.
  rewrite (SequenceMatcher_add_result SequenceMatcher_init pattern
             net_ok_init Hfit).
  rewrite can_match_accepted. cbn [operation SequenceMatcher_init].
  destruct (outer_operation_accepted None pattern),
           (operands_accepted pattern); cbn [negb andb sm_patterns length];
    split; split; try tauto; try discriminate;
    intros [H|H]; discriminate.
Qed.

Lemma can_match_iff_add_witness :
  let f := mkOperationClass "f" (mkArity 0 false) false false in
  let star := EWildcard 0 false in
  let pattern := EOperation f [star; ESymbol "a" []; EVariable "y" star] in
  operands_fit_arity pattern
  ∧ (can_match pattern = true
     ↔ (SequenceMatcher_add SequenceMatcher_init pattern).2 = Returns 0).
Proof.
  intros f star pattern.
  assert (Hfit : operands_fit_arity pattern) by (cbn; repeat split; lia).
  split; [exact Hfit|]. exact (proj1 (can_match_iff_add pattern Hfit)).
Defined.


Lemma extends_refl h : extends h h.
Proof. split; [apply agrees_refl|lia]. Qed.

Lemma extends_trans h1 h2 h3 : extends h1 h2 → extends h2 h3 → extends h1 h3.
Proof.
  intros [A1 L1] [A2 L2]. split; [|lia].
  intros s Hs. rewrite A2 by lia. apply A1, Hs.
Qed.

Lemma extends_new_State h h' p s h'' :
  new_State p h' = (s, h'') → extends h h' →
  extends h h'' ∧ _id h ≤ s.
Proof.
  intros [= <- <-] [A L]. split; [|exact L].
  split; [apply agrees_new_State; assumption|cbn; lia].
Qed.

Lemma extends_setitem h h' s label t :
  extends h h' → _id h ≤ s → extends h (setitem h' s label t).
Proof. intros [A L] Hs. split; [apply agrees_setitem; assumption|exact L]. Qed.

Lemma extends_set_payload h h' s p :
  extends h h' → _id h ≤ s → extends h (set_payload h' s p).
Proof.
  intros [A L] Hs. split; [|exact L]. intros x Hx.
  unfold set_payload; cbn [objects]. rewrite lookup_alter_ne by lia.
  apply A, Hx.
Qed.

Lemma extends_child h h' state label s h'' :
  _create_child_state h' state label = (s, h'') →
  extends h h' → _id h ≤ state → extends h h'' ∧ _id h ≤ s.
Proof.
  unfold _create_child_state.
  destruct (new_State [] h') as [s0 h0] eqn:E0. intros [= <- <-] He Hs.
  destruct (extends_new_State h h' [] s0 h0 E0 He) as [He0 Hs0].
  split; [apply extends_setitem; assumption|exact Hs0].
Qed.

Lemma extends_chain h label count : ∀ h' state s h'',
  _generate_state_chain h' state label count = (s, h'') →
  extends h h' → _id h ≤ state → extends h h'' ∧ _id h ≤ s.
Proof.
  induction count as [|count IH]; intros h' state s h'';
    cbn [_generate_state_chain].
  - intros [= <- <-]. done.
  - destruct (_create_child_state h' state label) as [s1 h1] eqn:E1.
    intros E He Hs.
    destruct (extends_child h h' state label s1 h1 E1 He Hs) as [He1 Hs1].
    eapply IH; eassumption.
Qed.

Lemma extends_syntactic_loop h flatterm : ∀ h' state s h'',
  syntactic_loop h' state flatterm = (s, h'') →
  extends h h' → _id h ≤ state → extends h h'' ∧ _id h ≤ s.
Proof.
  induction flatterm as [|term rest IH]; intros h' state s h'';
    cbn [syntactic_loop].
  - intros [= <- <-]. done.
  - destruct (isinstance_Wildcard term).
    + destruct (_generate_state_chain _ _ _ _) as [s1 h1] eqn:E1.
      intros E He Hs.
      destruct (extends_chain h _ _ _ _ _ _ E1 He Hs) as [He1 Hs1].
      eapply IH; eassumption.
    + destruct (_create_child_state _ _ _) as [s1 h1] eqn:E1.
      intros E He Hs.
      destruct (extends_child h _ _ _ _ _ E1 He Hs) as [He1 Hs1].
      eapply IH; eassumption.
Qed.

Lemma extends_syntactic_net h flatterm final_label root h' :
  _generate_syntactic_net h flatterm final_label = (root, h') →
  extends h h' ∧ _id h ≤ root.
Proof.
  unfold _generate_syntactic_net.
  destruct (new_State [] h) as [r0 h0] eqn:E0.
  destruct (syntactic_loop h0 r0 (_terms flatterm)) as [s1 h1] eqn:E1.
  intros [= <- <-].
  destruct (extends_new_State h h [] r0 h0 E0 (extends_refl h)) as [He0 Hr0].
  destruct (extends_syntactic_loop h _ _ _ _ _ E1 He0 Hr0) as [He1 Hs1].
  split; [apply extends_set_payload; assumption|exact Hr0].
Qed.

Lemma extends_ladder h count : ∀ h' fail_state acc last l h'',
  fail_ladder h' fail_state acc count = (last, l, h'') →
  extends h h' → _id h ≤ fail_state → extends h h'' ∧ _id h ≤ last.
Proof.
  induction count as [|count IH]; intros h' fail_state acc last l h'';
    cbn [fail_ladder].
  - intros [= <- <- <-]. done.
  - destruct (new_State [] h') as [s0 h0] eqn:E0. intros E He Hs.
    destruct (extends_new_State h h' [] s0 h0 E0 He) as [He0 Hs0].
    eapply IH; [exact E| |exact Hs0]. apply extends_setitem; assumption.
Qed.

Lemma extends_make_fail_state h h' op lw ft count fs h'' :
  make_fail_state h' op lw ft count = Returns (fs, h'') →
  extends h h' → extends h h''.
Proof.
  unfold make_fail_state. destruct (_ || _); [|intros [= <- <-]; done].
  destruct (last_fail_state_of ft count) as [lfs| |]; try discriminate.
  cbn [mbind Result_bind].
  destruct (state_or h' lw lfs) as [target|]; [|discriminate].
  cbn [or_raise mbind Result_bind].
  destruct (new_State [] h') as [s0 h0] eqn:E0.
  destruct (arity_fixed_size (arity op)).
  - destruct (fail_ladder h0 s0 [s0] _) as [[last l] h1] eqn:E1.
    intros [= <- <-] He.
    destruct (extends_new_State h h' [] s0 h0 E0 He) as [He0 Hs0].
    destruct (extends_ladder h _ _ _ _ _ _ _ E1 He0 Hs0) as [He1 Hl].
    apply extends_setitem; assumption.
  - intros [= <- <-] He.
    destruct (extends_new_State h h' [] s0 h0 E0 He) as [He0 Hs0].
    do 2 (apply extends_setitem; [|exact Hs0]). exact He0.
Qed.

Lemma extends_add_epsilon h G G' :
  add_epsilon G = Returns G' →
  extends h (ng_heap G) → _id h ≤ ng_state G →
  extends h (ng_heap G') ∧ ng_state G' = ng_state G.
Proof.
  unfold add_epsilon.
  destruct (head (last_wildcards G)) as [lw|]; [|discriminate].
  cbn [or_raise mbind Result_bind].
  destruct (decide _); [intros [= <-]; done|].
  destruct (opt_state_bool (ng_heap G) lw).
  - destruct lw as [w|]; [|discriminate]. cbn [or_raise mbind Result_bind].
    intros [= <-] He Hs. split; [|reflexivity].
    apply extends_setitem; assumption.
  - destruct (head (fail_states G)) as [ft|]; [|discriminate].
    cbn [or_raise mbind Result_bind].
    destruct (FailState_bool (ng_heap G) ft); [|intros [= <-]; done].
    destruct (head (operand_counts G)) as [count|]; [|discriminate].
    cbn [or_raise mbind Result_bind].
    destruct (last_fail_state_of ft count) as [[target|]| |];
      try discriminate.
    cbn [or_raise mbind Result_bind].
    intros [= <-] He Hs. split; [|reflexivity].
    apply extends_setitem; assumption.
Qed.

Lemma extends_net_step h G term G' :
  net_step G term = Returns G' →
  extends h (ng_heap G) → _id h ≤ ng_state G →
  extends h (ng_heap G') ∧ _id h ≤ ng_state G'.
Proof.
  unfold net_step.
  destruct (head (operand_counts G)) as [count0|]; [|discriminate].
  cbn [or_raise mbind Result_bind].
  match goal with
  | |- mbind _ ?m = _ → _ => destruct m as [G1| |] eqn:E1; try discriminate
  end.
  cbn [mbind Result_bind]. intros He Hh Hs.
  assert (H1 : extends h (ng_heap G1) ∧ _id h ≤ ng_state G1).
  { destruct (isinstance_Wildcard term).
    - destruct (_generate_state_chain _ _ _ _) as [state h1] eqn:Ec.
      destruct (extends_chain h _ _ _ _ _ _ Ec Hh Hs) as [He1 Hs1].
      destruct (negb (wc_fixed_size term)).
      + destruct (last_wildcards G); [discriminate|]. injection E1 as <-.
        cbn [ng_heap ng_state]. split; [|exact Hs1].
        apply extends_setitem; assumption.
      + injection E1 as <-. done.
    - destruct (_create_child_state _ _ _) as [state h1] eqn:Ec.
      destruct (extends_child h _ _ _ _ _ Ec Hh Hs) as [He1 Hs1].
      destruct term as [name c|m f|c|op|c|];
        try (injection E1 as <-; done).
      + destruct (head (last_wildcards G)) as [lw|]; [|discriminate].
        destruct (head (fail_states G)) as [ft|]; [|discriminate].
        cbn [or_raise mbind Result_bind] in E1.
        destruct (make_fail_state h1 op lw ft _) as [[fs h2]| |] eqn:Em;
          try discriminate.
        cbn [mbind Result_bind] in E1. injection E1 as <-.
        cbn [ng_heap ng_state]. split; [|exact Hs1].
        eapply extends_make_fail_state; eassumption.
      + destruct (fail_states G); [discriminate|].
        destruct (last_wildcards G); [discriminate|].
        injection E1 as <-. done. }
  destruct H1 as [He1 Hs1].
  destruct (extends_add_epsilon h G1 G' He He1 Hs1) as [He' Hs'].
  split; [exact He'|]. rewrite Hs'. exact Hs1.
Qed.

Lemma extends_net_loop h flatterm : ∀ G G',
  net_loop G flatterm = Returns G' →
  extends h (ng_heap G) → _id h ≤ ng_state G →
  extends h (ng_heap G') ∧ _id h ≤ ng_state G'.
Proof.
  induction flatterm as [|term rest IH]; intros G G'; cbn [net_loop].
  - intros [= <-]. done.
  - destruct (net_step G term) as [G1| |] eqn:E1; try discriminate.
    cbn [mbind Result_bind]. intros E He Hs.
    destruct (extends_net_step h G term G1 E1 He Hs) as [He1 Hs1].
    eapply IH; eassumption.
Qed.

Lemma extends_generate_nfa h flatterm final_label root h' :
  generate_nfa h flatterm final_label = Returns (root, h') →
  extends h h' ∧ _id h ≤ root.
Proof.
  unfold generate_nfa. destruct (new_State [] h) as [r0 h0] eqn:E0.
  destruct (net_loop _ _) as [G| |] eqn:El; try discriminate.
  cbn [mbind Result_bind]. intros [= <- <-].
  destruct (extends_new_State h h [] r0 h0 E0 (extends_refl h)) as [He0 Hr0].
  destruct (extends_net_loop h _ _ _ El He0 Hr0) as [He1 Hs1].
  split; [apply extends_set_payload; assumption|exact Hr0].
Qed.

Lemma extends_dfa_label_step h X new_state d label d' :
  dfa_label_step X new_state d label = Returns d' →
  extends h (dg_heap d) → _id h ≤ new_state →
  (∀ Y s, new_states d !! Y = Some s → _id h ≤ s) →
  extends h (dg_heap d') ∧ (∀ Y s, new_states d' !! Y = Some s → _id h ≤ s).
Proof.
  unfold dfa_label_step. destruct (decide _); [intros [= <-]; done|].
  destruct (new_states d !! _target_set (dg_heap d) X label) as [t|] eqn:Et.
  - rewrite Et. cbn [or_raise mbind Result_bind]. intros [= <-] He Hs Hst.
    cbn [dg_heap new_states]. split; [|exact Hst].
    apply extends_setitem; assumption.
  - unfold _create_state. destruct (new_State _ (dg_heap d)) as [s h1] eqn:Ec.
    cbn [new_states dg_heap dg_queue]. rewrite lookup_insert_eq.
    cbn [or_raise mbind Result_bind]. intros [= <-] He Hs Hst.
    destruct (extends_new_State h _ _ _ _ Ec He) as [He1 Hs1].
    cbn [dg_heap new_states]. split; [apply extends_setitem; assumption|].
    intros Y s' HY. apply lookup_insert_Some in HY as [[_ <-]|[_ HY]];
      [exact Hs1|eapply Hst, HY].
Qed.

Lemma extends_dfa_body h d d' :
  dfa_body d = Returns (inl d') →
  extends h (dg_heap d) →
  (∀ Y s, new_states d !! Y = Some s → _id h ≤ s) →
  extends h (dg_heap d') ∧ (∀ Y s, new_states d' !! Y = Some s → _id h ≤ s).
Proof.
  unfold dfa_body. destruct (dg_queue d) as [|X queue]; [discriminate|].
  destruct (new_states d !! X) as [new_state|] eqn:EX; [|discriminate].
  cbn [or_raise mbind Result_bind].
  destruct (for_each _ _ _) as [d1| |] eqn:Ef; try discriminate.
  cbn [mbind Result_bind]. intros [= <-] He Hst.
  refine (for_each_invariant (dfa_label_step X new_state)
            (λ d0, extends h (dg_heap d0)
                   ∧ ∀ Y s, new_states d0 !! Y = Some s → _id h ≤ s) _ _
            (mkDfaGen (dg_heap d) (new_states d) queue) _ _ Ef);
    [|split; assumption].
  intros d0 l d2 _ [H0 H0'] E.
  eapply extends_dfa_label_step; try eassumption. eapply Hst, EX.
Qed.

Lemma extends_convert h root t h' :
  _convert_nfa_to_dfa h root = Returns (t, h') → extends h h' ∧ _id h ≤ t.
Proof.
  unfold _convert_nfa_to_dfa, _create_state.
  destruct (new_State _ h) as [s h0] eqn:Ec.
  destruct (while_loop _ _ _) as [d| |] eqn:Ew; try discriminate.
  cbn [mbind Result_bind].
  destruct (new_states d !! _) as [t'|] eqn:Et; [|discriminate].
  cbn [or_raise mbind Result_bind]. intros [= <- <-].
  apply while_loop_returns in Ew.
  destruct (extends_new_State h h _ s h0 Ec (extends_refl h)) as [He0 Hs0].
  destruct (iterate_invariant dfa_body
              (λ d0, extends h (dg_heap d0)
                     ∧ ∀ Y s, new_states d0 !! Y = Some s → _id h ≤ s)) with
    (n := 2 ^ S (_id h))
    (s := mkDfaGen h0 {[_epsilon_closure h {[root]} := s]}
            [_epsilon_closure h {[root]}]) (r := d)
    as (d_last & [Hlast Hst] & Hbody).
  - intros d1 d2 [H1 H1'] E. eapply extends_dfa_body; eassumption.
  - cbn [dg_heap new_states]. split; [exact He0|].
    intros Y s' HY. apply lookup_singleton_Some in HY as [_ <-]. exact Hs0.
  - exact Ew.
  - apply dfa_body_inr in Hbody as ->. split; [exact Hlast|].
    eapply Hst, Et.
Qed.

Lemma extends_generate_net h flatterm final_label root h' :
  _generate_net h flatterm final_label = Returns (root, h') →
  extends h h' ∧ _id h ≤ root.
Proof.
  unfold _generate_net.
  destruct (generate_nfa h flatterm final_label) as [[r1 h1]| |] eqn:En;
    try discriminate.
  cbn [mbind Result_bind]. intros E.
  destruct (extends_generate_nfa h _ _ _ _ En) as [He1 Hr1].
  destruct (extends_convert h1 r1 root h' E) as [He2 Hr2].
  split; [eapply extends_trans; eassumption|]. destruct He1. lia.
Qed.

Lemma extends_product_label_step h current state p label p' :
  product_label_step current state p label = Returns p' →
  extends h (pn_heap p) → _id h ≤ state →
  (∀ key s, pn_states p !! key = Some s → _id h ≤ s) →
  extends h (pn_heap p')
  ∧ (∀ key s, pn_states p' !! key = Some s → _id h ≤ s).
Proof.
  unfold product_label_step.
  destruct (child_item (pn_heap p) current label) as [c| |] eqn:Ec;
    try discriminate.
  cbn [mbind Result_bind]. intros E He Hs Hst.
  destruct (pn_states p !! item_key c) as [t|] eqn:Et.
  - rewrite Et in E. cbn [or_raise mbind Result_bind] in E.
    injection E as <-. cbn [pn_heap pn_states]. split; [|exact Hst].
    apply extends_setitem; assumption.
  - destruct (new_State (item_payload c) (pn_heap p)) as [s h1] eqn:En.
    cbn [pn_states pn_heap pn_queue] in E. rewrite lookup_insert_eq in E.
    cbn [or_raise mbind Result_bind] in E. injection E as <-.
    destruct (extends_new_State h _ _ _ _ En He) as [He1 Hs1].
    cbn [pn_heap pn_states]. split; [apply extends_setitem; assumption|].
    intros key s' Hk. apply lookup_insert_Some in Hk as [[_ <-]|[_ Hk]];
      [exact Hs1|eapply Hst, Hk].
Qed.

Lemma extends_product_body h p p' :
  product_body p = Returns (inl p') →
  extends h (pn_heap p) →
  (∀ key s, pn_states p !! key = Some s → _id h ≤ s) →
  extends h (pn_heap p')
  ∧ (∀ key s, pn_states p' !! key = Some s → _id h ≤ s).
Proof.
  unfold product_body. destruct (pn_queue p) as [|current queue];
    [discriminate|].
  destruct (pn_states p !! item_key current) as [state|] eqn:Es;
    [|discriminate].
  cbn [or_raise mbind Result_bind].
  destruct (for_each _ _ _) as [p1| |] eqn:Ef; try discriminate.
  cbn [mbind Result_bind]. intros [= <-] He Hst.
  refine (for_each_invariant (product_label_step current state)
            (λ p0, extends h (pn_heap p0)
                   ∧ ∀ key s, pn_states p0 !! key = Some s → _id h ≤ s) _ _
            (mkProductGen (pn_heap p) (pn_states p) queue) _ _ Ef);
    [|split; assumption].
  intros p0 l p2 _ [H0 H0'] E.
  eapply extends_product_label_step; try eassumption. eapply Hst, Es.
Qed.

Lemma extends_product_net h state1 state2 root h' :
  _product_net h state1 state2 = Returns (root, h') →
  extends h h' ∧ _id h ≤ root.
Proof.
  unfold _product_net, product_start.
  destruct (new_State [] h) as [r0 h0] eqn:E0.
  destruct (while_loop _ _ _) as [p| |] eqn:Ew; try discriminate.
  cbn [mbind Result_bind]. intros [= <- <-].
  apply while_loop_returns in Ew.
  destruct (extends_new_State h h [] r0 h0 E0 (extends_refl h)) as [He0 Hr0].
  destruct (iterate_invariant product_body
              (λ p0, extends h (pn_heap p0)
                     ∧ ∀ key s, pn_states p0 !! key = Some s → _id h ≤ s))
    with
    (n := 2 ^ (3 * (Nat.log2 (_id h) + 1) + 2))
    (s := mkProductGen h0 {[(state1, state2, 0%Z) := r0]}
            [_StateQueueItem_init h0 (Some state1) (Some state2)]) (r := p)
    as (p_last & [Hlast Hst] & Hbody).
  - intros p1 p2 [H1 H1'] E. eapply extends_product_body; eassumption.
  - cbn [pn_heap pn_states]. split; [exact He0|].
    intros key s' Hk. apply lookup_singleton_Some in Hk as [_ <-]. exact Hr0.
  - exact Ew.
  - apply product_body_inr in Hbody as ->. split; [exact Hlast|exact Hr0].
Qed.

Lemma extends_pattern_net h pattern index root h' :
  pattern_net h pattern index = Returns (root, h') →
  extends h h' ∧ _id h ≤ root.
Proof.
  unfold pattern_net. destruct (_ || _).
  - intros [= E]. eapply extends_syntactic_net, E.
  - apply extends_generate_net.
Qed.

Lemma extends_add {T} (self : DiscriminationNet T) pattern final_label :
  extends (net_heap self)
    (net_heap (DiscriminationNet_add self pattern final_label).1).
Proof.
  unfold DiscriminationNet_add.
  destruct (pattern_net _ _ _) as [[net h]| |] eqn:Ep; cbn [fst net_heap];
    [|apply extends_refl..].
  destruct (extends_pattern_net _ _ _ _ _ Ep) as [He1 Hr1].
  destruct (state_bool h (_root self)); [|exact He1].
  destruct (_product_net h (_root self) net) as [[root h']| |] eqn:Epn;
    cbn [fst net_heap]; [|exact He1..].
  destruct (extends_product_net _ _ _ _ _ Epn) as [He2 _].
  eapply extends_trans; eassumption.
Qed.

(** [DiscriminationNet.add] builds from new states only: every state that
    existed before the call, of this net or of any other, has the same
    transitions and the same payload after it, whether the call returns or
    raises; so has every state that existed before a sequence of calls. *)
Theorem add_keeps_existing_states {T} (self : DiscriminationNet T)
    (later : list (Term * option T)) (s : nat) :
  s < _id (net_heap self) →
  (∀ label,
     getitem (net_heap (added self later)) s label
     = getitem (net_heap self) s label)
  ∧ keys (net_heap (added self later)) s = keys (net_heap self) s
  ∧ get_payload (net_heap (added self later)) s
    = get_payload (net_heap self) s.
Proof.
  intros Hs.
  assert (He : extends (net_heap self) (net_heap (added self later))).
  { unfold added. revert self Hs.
    induction later as [|[pattern label] ps IH]; intros self Hs;
      cbn [fold_left]; [apply extends_refl|].
    eapply extends_trans; [apply (extends_add self pattern label)|].
    apply IH. destruct (extends_add self pattern label) as [_ Hle].
    cbn [fst snd]. lia. }
  destruct He as [A _]. specialize (A s Hs).
  unfold getitem, keys, get_payload. rewrite A. done.
Qed.

Lemma add_keeps_existing_states_witness :
  let f := mkOperationClass "f" (mkArity 0 false) false false in
  let a := ESymbol "a" [] in
  let first : Term := inl (EOperation f [a; EWildcard 0 false]) in
  let second : Term := inl (EOperation f [EWildcard 1 true; a]) in
  let self := added (@DiscriminationNet_init nat) [(first, None)] in
  _root self < _id (net_heap self)
  ∧ keys (net_heap (added self [(second, None)])) (_root self)
    = keys (net_heap self) (_root self).
Proof.
  intros f a first second self.
  assert (Hs : _root self < _id (net_heap self)) by (vm_compute; lia).
  split; [exact Hs|].
  exact (proj1 (proj2 (add_keeps_existing_states self [(second, None)]
                         (_root self) Hs))).
Defined.


Lemma instance_of_operation op ps op' ss :
  instance_of (EOperation op ps) (EOperation op' ss)
  = bool_decide (op = op') && operands_instance ps ss.
Proof. reflexivity. Qed.

Lemma operands_instance_cons p ps ss :
  operands_instance (p :: ps) ss
  = match wildcard_width p with
    | Some m => bool_decide (m ≤ length ss) && operands_instance ps (drop m ss)
    | None =>
        match ss with
        | s :: ss' => instance_of p s && operands_instance ps ss'
        | [] => false
        end
    end.
Proof. reflexivity. Qed.

Lemma ground_operands op operands :
  ground (EOperation op operands) = true →
  Forall (λ o, ground o = true) operands.
Proof.
  cbn [ground]. induction operands as [|o os IH]; [constructor|].
  intros H. apply andb_prop in H as [H1 H2]. constructor; auto.
Qed.

Lemma ground_constant (e : Expression) :
  ground e = true → constant_expression e = true.
Proof.
  induction e as [name e IH|op operands IH|c|name c|m f]
    using Expression_nested_ind; cbn [ground constant_expression]; try done.
  induction IH as [|o os Ho _ IHos]; [reflexivity|].
  intros H. apply andb_prop in H as [H1 H2].
  rewrite (Ho H1), (IHos H2). reflexivity.
Qed.

Lemma operands_tape_cons o os :
  operands_tape (o :: os) = _flatterm_iter o ++ operands_tape os.
Proof. reflexivity. Qed.

Lemma chain_labels_app t1 t2 :
  chain_labels (t1 ++ t2) = chain_labels t1 ++ chain_labels t2.
Proof. apply flat_map_app. Qed.

Lemma chain_labels_combined terms : ∀ acc,
  chain_labels (combined_loop acc terms)
  = chain_labels (yield_last acc ++ terms).
Proof.
  induction terms as [|term rest IH]; intros acc.
  - rewrite app_nil_r. reflexivity.
  - cbn [combined_loop]. destruct (is_plain_wildcard term) eqn:Hp.
    + destruct term as [| m f | | | |]; try discriminate.
      destruct acc as [[lm lf]|]; rewrite IH;
        cbn [yield_last app chain_labels flat_map isinstance_Wildcard
             wc_min_count]; [|reflexivity].
      rewrite replicate_add, <- app_assoc. reflexivity.
    + rewrite !chain_labels_app. f_equal.
      change (term :: combined_loop None rest)
        with ([term] ++ combined_loop None rest).
      change (term :: rest) with ([term] ++ rest).
      rewrite !chain_labels_app, IH. reflexivity.
Qed.

Lemma wildcard_width_tape p m :
  wildcard_width p = Some m → ∃ f, _flatterm_iter p = [AWildcard m f].
Proof.
  induction p as [name e IH|op operands _|c|name c|m' f]
    using Expression_nested_ind; cbn [wildcard_width _flatterm_iter];
    try done.
  intros [= ->]. eauto.
Qed.

Lemma not_wildcard_head p :
  wildcard_width p = None →
  ∃ a ls, chain_labels (_flatterm_iter p) = LTerm a :: ls
          ∧ a ≠ OPERATION_END.
Proof.
  induction p as [name e IH|op operands _|c|name c|m' f]
    using Expression_nested_ind; cbn [wildcard_width]; try done.
  - intros _. rewrite flatterm_iter_operation. by eexists _, _.
  - intros _. by eexists _, _.
  - intros _. by eexists _, _.
Qed.

Lemma chain_cons h x l ls :
  chain h x (l :: ls)
  ↔ objects h !! x = Some (mkState [] [(l, S x)]) ∧ chain h (S x) ls.
Proof.
  unfold chain. split.
  - intros H. split.
    + specialize (H 0 l eq_refl). by rewrite Nat.add_0_r in H.
    + intros i l' Hi. specialize (H (S i) l' Hi).
      by replace (S x + i) with (x + S i) by lia.
  - intros [H0 H] [|i] l' Hi.
    + injection Hi as <-. by rewrite Nat.add_0_r.
    + specialize (H i l' Hi). by replace (x + S i) with (S x + i) by lia.
Qed.

Lemma chain_app h x ls1 ls2 :
  chain h x (ls1 ++ ls2)
  ↔ chain h x ls1 ∧ chain h (x + length ls1) ls2.
Proof.
  revert x. induction ls1 as [|l ls1 IH]; intros x.
  - cbn [app length]. rewrite Nat.add_0_r. unfold chain at 2.
    split; [intros H; split; [intros i l Hi; done|exact H]
           |intros [_ H]; exact H].
  - cbn [app length]. rewrite !chain_cons, IH.
    replace (S x + length ls1) with (x + S (length ls1)) by lia. tauto.
Qed.

Lemma chain_frame h h' x ls :
  chain h x ls →
  (∀ s, s < x + length ls → objects h' !! s = objects h !! s) →
  chain h' x ls.
Proof.
  intros Hc Hf i l Hi. rewrite Hf; [by apply Hc|].
  apply lookup_lt_Some in Hi. lia.
Qed.

Lemma chain_built_refl h x :
  S x = _id h → objects h !! x = Some (mkState [] []) →
  chain_built h x h x [].
Proof.
  intros Hx Ho. unfold chain_built. cbn [length]. rewrite Nat.add_0_r.
  repeat split; try done.
Qed.

Lemma chain_built_trans h x h1 x1 ls1 h2 x2 ls2 :
  chain_built h x h1 x1 ls1 → chain_built h1 x1 h2 x2 ls2 →
  chain_built h x h2 x2 (ls1 ++ ls2).
Proof.
  intros (-> & Hi1 & Ho1 & Hc1 & Hf1) (-> & Hi2 & Ho2 & Hc2 & Hf2).
  unfold chain_built. rewrite length_app.
  split; [|split; [|split; [|split]]].
  - lia.
  - exact Hi2.
  - exact Ho2.
  - apply chain_app. split; [|exact Hc2].
    eapply chain_frame; [exact Hc1|]. intros s Hs. apply Hf2, Hs.
  - intros s Hs. rewrite Hf2 by lia. apply Hf1, Hs.
Qed.

Lemma create_child_built h x l :
  S x = _id h → objects h !! x = Some (mkState [] []) →
  chain_built h x (_create_child_state h x l).2 (_create_child_state h x l).1
    [l].
Proof.
  intros Hx Ho. unfold _create_child_state, new_State, setitem, chain_built.
  cbn [fst snd _id objects length]. split; [|split; [|split; [|split]]].
  - lia.
  - reflexivity.
  - rewrite lookup_alter_ne by lia. apply lookup_insert_eq.
  - apply chain_cons. cbn [objects]. split; [|intros i l' Hi; done].
    rewrite lookup_alter_eq, lookup_insert_ne, Ho by lia.
    cbn [fmap option_fmap option_map payload transitions dict_set].
    rewrite Hx. reflexivity.
  - intros s Hs. rewrite lookup_alter_ne, lookup_insert_ne by lia.
    reflexivity.
Qed.

Lemma state_chain_built l count : ∀ h x,
  S x = _id h → objects h !! x = Some (mkState [] []) →
  chain_built h x (_generate_state_chain h x l count).2
    (_generate_state_chain h x l count).1 (replicate count l).
Proof.
  induction count as [|count IH]; intros h x Hx Ho;
    cbn [_generate_state_chain replicate].
  - cbn [fst snd]. by apply chain_built_refl.
  - pose proof (create_child_built h x l Hx Ho) as Hb.
    destruct (_create_child_state h x l) as [x1 h1]. cbn [fst snd] in Hb.
    change (l :: replicate count l) with ([l] ++ replicate count l).
    eapply chain_built_trans; [exact Hb|].
    destruct Hb as (_ & Hi1 & Ho1 & _). by apply IH.
Qed.

Lemma syntactic_loop_built flatterm : ∀ h x,
  S x = _id h → objects h !! x = Some (mkState [] []) →
  chain_built h x (syntactic_loop h x flatterm).2
    (syntactic_loop h x flatterm).1 (chain_labels flatterm).
Proof.
  induction flatterm as [|term rest IH]; intros h x Hx Ho;
    cbn [syntactic_loop].
  - cbn [fst snd chain_labels flat_map]. by apply chain_built_refl.
  - change (term :: rest) with ([term] ++ rest). rewrite chain_labels_app.
    assert (Hb : ∀ r, r = (if isinstance_Wildcard term
                 then _generate_state_chain h x LWildcard (wc_min_count term)
                 else _create_child_state h x (LTerm term)) →
              chain_built h x r.2 r.1 (chain_labels [term])).
    { intros r ->. cbn [chain_labels flat_map]. rewrite app_nil_r.
      destruct (isinstance_Wildcard term).
      - by apply state_chain_built.
      - by apply create_child_built. }
    specialize (Hb _ eq_refl).
    destruct (if isinstance_Wildcard term then _ else _) as [x1 h1].
    cbn [fst snd] in Hb.
    eapply chain_built_trans; [exact Hb|].
    destruct Hb as (_ & Hi1 & Ho1 & _). by apply IH.
Qed.

(** The syntactic net of a flatterm is a chain over its labels, from the
    root to a state without transitions that holds the final label. *)
Lemma generate_syntactic_net_chain h flatterm final_label :
  let net := _generate_syntactic_net h flatterm final_label in
  net.1 = _id h
  ∧ chain net.2 net.1 (chain_labels (_terms flatterm))
  ∧ objects net.2 !! (net.1 + length (chain_labels (_terms flatterm)))
    = Some (mkState [final_label] []).
Proof.
  unfold _generate_syntactic_net, new_State.
  set (h0 := mkHeap _ _).
  assert (Hx : S (_id h) = _id h0) by reflexivity.
  assert (Ho : objects h0 !! _id h = Some (mkState [] []))
    by apply lookup_insert_eq.
  pose proof (syntactic_loop_built (_terms flatterm) h0 (_id h) Hx Ho) as Hb.
  destruct (syntactic_loop h0 (_id h) (_terms flatterm)) as [x1 h1].
  cbn [fst snd] in Hb |- *. destruct Hb as (-> & Hi1 & Ho1 & Hc1 & _).
  unfold set_payload. cbn [objects]. split; [reflexivity|split].
  - eapply chain_frame; [exact Hc1|]. intros s Hs. cbn [objects].
    by rewrite lookup_alter_ne by lia.
  - rewrite lookup_alter_eq, Ho1. reflexivity.
Qed.

Section Chains.
Context (h : Heap).

Lemma match_step_result first m term r :
  match match_step h false first m term with
  | Returns (inl m') =>
      ∃ r', match_step h false first
              (mkMatchState (m_state m) (m_depth m) r) term
            = Returns (inl (mkMatchState (m_state m') (m_depth m') r'))
  | other =>
      match_step h false first (mkMatchState (m_state m) (m_depth m) r) term
      = other
  end.
Proof.
  unfold match_step. cbn [m_state m_depth m_result].
  destruct (0 <? m_depth m)%Z.
  - destruct (is_operation term); [eauto|]. destruct (decide _); eauto.
  - destruct (first && _); [reflexivity|].
    destruct (getitem h (m_state m) (LTerm term)); [eauto|].
    destruct (is_operation term).
    + destruct (getitem h (m_state m) LWildcard); [eauto|reflexivity].
    + destruct (decide _); [reflexivity|].
      destruct (isinstance_Symbol term); [|reflexivity].
      destruct (getitem h (m_state m) _); [eauto|reflexivity].
Qed.

(** Without [collect] the result so far does not matter. *)
Lemma match_loop_result first tape : ∀ x d r1 r2,
  match_loop h false first (mkMatchState x d r1) tape
  = match_loop h false first (mkMatchState x d r2) tape.
Proof.
  induction tape as [|term rest IH]; intros x d r1 r2; cbn [match_loop];
    [reflexivity|].
  pose proof (match_step_result first (mkMatchState x d r1) term r2) as Hs.
  cbn [m_state m_depth] in Hs.
  destruct (match_step h false first (mkMatchState x d r1) term)
    as [[[x' d' r']|r']| |].
  - destruct Hs as [r'' ->]. cbn [mbind Result_bind m_state m_depth].
    apply IH.
  - rewrite Hs. reflexivity.
  - rewrite Hs. reflexivity.
  - rewrite Hs. reflexivity.
Qed.

Lemma read_nil x : read h x [] = Returns (get_payload h x).
Proof. reflexivity. Qed.

(** One step from a state with the single transition [(l, y)]. *)
Lemma read_step x l y pl term rest :
  objects h !! x = Some (mkState pl [(l, y)]) →
  read h x (term :: rest)
  = if decide (l = LTerm term) then read h y rest
    else if is_operation term then
      if decide (l = LWildcard)
      then match_loop h false false (mkMatchState y 1 []) rest
      else Returns []
    else if decide (term = OPERATION_END) then Returns []
    else if isinstance_Symbol term then
      match l, term with
      | LTerm (ASymbolType c), ASymbol _ sc =>
          if issubclass_symbol sc c then read h y rest else Returns []
      | LWildcard, _ => read h y rest
      | _, _ => Returns []
      end
    else Raises TypeError.
Proof.
  intros Hx. unfold read. cbn [match_loop]. unfold match_step.
  cbn [m_depth m_state m_result andb]. unfold getitem, get_payload, keys,
    _get_symbol_wildcard_label, keys.
  rewrite Hx. cbn [mbind option_bind transitions dict_get fmap list_fmap fst
                   find].
  destruct (decide (l = LTerm term)) as [->|Hne].
  - cbn [mbind Result_bind]. apply match_loop_result.
  - destruct (is_operation term) eqn:Hop.
    + destruct (decide (l = LWildcard)) as [->|Hw].
      * cbn [mbind Result_bind]. apply match_loop_result.
      * reflexivity.
    + destruct (decide (term = OPERATION_END)); [reflexivity|].
      destruct (isinstance_Symbol term) eqn:Hs; [|reflexivity].
      destruct term as [name sc| | | | |]; try discriminate.
      destruct l as [[name' c'|m f|c|op|c|]| |];
        cbn [find default from_option id dict_get];
        try (rewrite decide_False by congruence; reflexivity);
        try (rewrite decide_True by reflexivity; cbn [mbind Result_bind];
             apply match_loop_result).
      destruct (issubclass_symbol sc c); cbn [default from_option id dict_get].
      * rewrite decide_True by reflexivity. cbn [mbind Result_bind].
        apply match_loop_result.
      * rewrite decide_False by congruence. reflexivity.
Qed.

(** From a state without transitions every terminal atom fails. *)
Lemma read_stuck x pl term rest :
  objects h !! x = Some (mkState pl []) →
  terminal_atom term = true →
  read h x (term :: rest) = Returns [].
Proof.
  intros Hx Ht. unfold read. cbn [match_loop]. unfold match_step.
  cbn [m_depth m_state m_result andb]. unfold getitem, get_payload, keys,
    _get_symbol_wildcard_label, keys.
  rewrite Hx. cbn [mbind option_bind transitions dict_get fmap list_fmap fst
                   find default from_option id].
  destruct term; try discriminate; reflexivity.
Qed.

(** A wildcard transition takes one whole ground subject. *)
Lemma read_wildcard x y pl s rest :
  objects h !! x = Some (mkState pl [(LWildcard, y)]) →
  ground s = true →
  read h x (_flatterm_iter s ++ rest) = read h y rest.
Proof.
  intros Hx Hs. destruct s as [|op ts| |name c|]; try discriminate.
  - rewrite flatterm_iter_operation.
    change ((AOperation op :: operands_tape ts) ++ rest)
      with (AOperation op :: (operands_tape ts ++ rest)).
    rewrite (read_step _ _ _ _ _ _ Hx).
    rewrite decide_False by discriminate. cbn [is_operation].
    rewrite decide_True by reflexivity.
    rewrite (match_loop_skips_operands h false false ts y 0) by lia.
    apply match_loop_result.
  - cbn [_flatterm_iter app]. rewrite (read_step _ _ _ _ _ _ Hx).
    rewrite decide_False by discriminate. cbn [is_operation].
    rewrite decide_False by discriminate. reflexivity.
Qed.

(** At the end of the subject's operands a transition for anything but
    [OPERATION_END] fails. *)
Lemma read_end x a y pl rest :
  objects h !! x = Some (mkState pl [(LTerm a, y)]) →
  a ≠ OPERATION_END →
  read h x (OPERATION_END :: rest) = Returns [].
Proof.
  intros Hx Ha. rewrite (read_step _ _ _ _ _ _ Hx).
  rewrite decide_False by congruence. cbn [is_operation].
  rewrite decide_True by reflexivity. reflexivity.
Qed.

(** A chain of [m] wildcard transitions takes [m] operands of the subject,
    and fails when fewer are left. *)
Lemma read_wildcards m : ∀ x ss rest,
  chain h x (replicate m LWildcard) →
  Forall (λ o, ground o = true) ss →
  read h x (operands_tape ss ++ rest)
  = if bool_decide (m ≤ length ss)
    then read h (x + m) (operands_tape (drop m ss) ++ rest)
    else Returns [].
Proof.
  induction m as [|m IH]; intros x ss rest Hc Hss.
  - rewrite bool_decide_true by lia. rewrite Nat.add_0_r. reflexivity.
  - cbn [replicate] in Hc. apply chain_cons in Hc as [Hx Hc].
    destruct Hss as [|s ss Hs Hss].
    + rewrite bool_decide_false by (cbn [length]; lia).
      cbn [operands_tape app]. rewrite (read_step _ _ _ _ _ _ Hx).
      rewrite decide_False by discriminate. cbn [is_operation].
      rewrite decide_True by reflexivity. reflexivity.
    + rewrite operands_tape_cons, <- app_assoc.
      rewrite (read_wildcard _ _ _ _ _ Hx Hs), (IH _ _ _ Hc Hss).
      cbn [length drop]. replace (S x + m) with (x + S m) by lia.
      destruct (decide (m ≤ length ss)).
      * rewrite !bool_decide_true by lia. reflexivity.
      * rewrite !bool_decide_false by lia. reflexivity.
Qed.

(** The operands of a ground subject along the chain of the operands of a
    pattern. *)
Lemma read_operands ps :
  Forall (reads_as h) ps →
  ∀ x ss rest,
    Forall (λ o, ground o = true) ss →
    chain h x (chain_labels (operands_tape ps)) →
    read h x (operands_tape ss ++ rest)
    = if operands_instance ps ss
      then read h (x + length (chain_labels (operands_tape ps))) rest
      else Returns [].
Proof.
  induction 1 as [|p ps Hp _ IH]; intros x ss rest Hss Hc.
  - cbn [operands_tape chain_labels flat_map isinstance_Wildcard app length]
      in Hc |- *.
    apply chain_cons in Hc as [Hx _].
    destruct Hss as [|s ss Hs Hss].
    + cbn [operands_instance operands_tape app].
      rewrite (read_step _ _ _ _ _ _ Hx).
      rewrite decide_True by reflexivity.
      by replace (x + 1) with (S x) by lia.
    + cbn [operands_instance]. rewrite operands_tape_cons, <- app_assoc.
      destruct s as [|op ts| |name c|]; try discriminate.
      * rewrite flatterm_iter_operation.
        change ((AOperation op :: operands_tape ts) ++ ?r)
          with (AOperation op :: (operands_tape ts ++ r)).
        rewrite (read_step _ _ _ _ _ _ Hx).
        rewrite decide_False by discriminate. cbn [is_operation].
        rewrite decide_False by discriminate. reflexivity.
      * cbn [_flatterm_iter app]. rewrite (read_step _ _ _ _ _ _ Hx).
        rewrite decide_False by discriminate. cbn [is_operation].
        rewrite decide_False by discriminate. reflexivity.
  - rewrite operands_tape_cons, chain_labels_app in Hc |- *.
    apply chain_app in Hc as [Hcp Hcs]. rewrite length_app, Nat.add_assoc.
    rewrite operands_instance_cons.
    destruct (wildcard_width p) as [m|] eqn:Hw.
    + destruct (wildcard_width_tape p m Hw) as [f Hf].
      rewrite Hf in Hcp, Hcs |- *.
      cbn [chain_labels flat_map isinstance_Wildcard wc_min_count]
        in Hcp, Hcs |- *.
      rewrite app_nil_r in Hcp, Hcs |- *.
      rewrite length_replicate in Hcs |- *.
      rewrite (read_wildcards m _ _ _ Hcp Hss).
      destruct (bool_decide (m ≤ length ss)); [|reflexivity].
      cbn [andb]. apply IH; [|exact Hcs]. by apply Forall_drop.
    + destruct Hss as [|s ss Hs Hss].
      * destruct (not_wildcard_head p Hw) as (a & ls & Hls & Ha).
        rewrite Hls in Hcp. apply chain_cons in Hcp as [Hx _].
        cbn [operands_tape app]. exact (read_end _ _ _ _ _ Hx Ha).
      * rewrite operands_tape_cons, <- app_assoc.
        rewrite (Hp x s _ Hs Hw Hcp).
        destruct (instance_of p s); [|reflexivity].
        cbn [andb]. by apply IH.
Qed.

(** Every pattern that is not a wildcard is read as its instances are. *)
Lemma read_expression (p : Expression) : reads_as h p.
Proof.
  induction p as [name e IH|op ps IH|c|name c|m f]
    using Expression_nested_ind; intros x s rest Hs Hw Hc.
  - apply IH; assumption.
  - rewrite flatterm_iter_operation in Hc |- *.
    change (AOperation op :: operands_tape ps)
      with ([AOperation op] ++ operands_tape ps) in Hc |- *.
    rewrite chain_labels_app in Hc |- *.
    cbn [chain_labels flat_map isinstance_Wildcard app length] in Hc |- *.
    apply chain_cons in Hc as [Hx Hc].
    destruct s as [|op' ss| |name' c'|]; try discriminate.
    + rewrite instance_of_operation, flatterm_iter_operation.
      change ((AOperation op' :: operands_tape ss) ++ rest)
        with (AOperation op' :: (operands_tape ss ++ rest)).
      rewrite (read_step _ _ _ _ _ _ Hx).
      destruct (decide (op = op')) as [->|Hne].
      * rewrite decide_True, bool_decide_true by reflexivity. cbn [andb].
        rewrite (read_operands ps IH (S x) ss rest
                   (ground_operands _ _ Hs) Hc).
        by replace (x + S (length (chain_labels (operands_tape ps))))
          with (S x + length (chain_labels (operands_tape ps))) by lia.
      * rewrite decide_False, bool_decide_false by congruence.
        cbn [is_operation andb]. rewrite decide_False by discriminate.
        reflexivity.
    + cbn [_flatterm_iter app instance_of].
      rewrite (read_step _ _ _ _ _ _ Hx).
      rewrite decide_False by discriminate. cbn [is_operation].
      rewrite decide_False by discriminate. reflexivity.
  - cbn [_flatterm_iter chain_labels flat_map isinstance_Wildcard app length]
      in Hc |- *.
    apply chain_cons in Hc as [Hx _].
    destruct s as [|op' ss| |name' c'|]; try discriminate.
    + rewrite flatterm_iter_operation.
      change ((AOperation op' :: operands_tape ss) ++ rest)
        with (AOperation op' :: (operands_tape ss ++ rest)).
      rewrite (read_step _ _ _ _ _ _ Hx).
      rewrite decide_False by discriminate. cbn [is_operation instance_of].
      rewrite decide_False by discriminate. reflexivity.
    + cbn [_flatterm_iter app instance_of].
      rewrite (read_step _ _ _ _ _ _ Hx).
      rewrite decide_False by discriminate. cbn [is_operation].
      rewrite decide_False by discriminate. cbn [isinstance_Symbol].
      by replace (x + 1) with (S x) by lia.
  - cbn [_flatterm_iter chain_labels flat_map isinstance_Wildcard app length]
      in Hc |- *.
    apply chain_cons in Hc as [Hx _].
    destruct s as [|op' ss| |name' c'|]; try discriminate.
    + rewrite flatterm_iter_operation.
      change ((AOperation op' :: operands_tape ss) ++ rest)
        with (AOperation op' :: (operands_tape ss ++ rest)).
      rewrite (read_step _ _ _ _ _ _ Hx).
      rewrite decide_False by discriminate. cbn [is_operation instance_of].
      rewrite decide_False by discriminate. reflexivity.
    + cbn [_flatterm_iter app instance_of].
      rewrite (read_step _ _ _ _ _ _ Hx).
      destruct (decide (name = name' ∧ c = c')) as [[-> ->]|Hne].
      * rewrite decide_True, bool_decide_true by done.
        by replace (x + 1) with (S x) by lia.
      * rewrite decide_False, bool_decide_false
          by (try intros [= -> ->]; tauto).
        cbn [is_operation]. rewrite decide_False by discriminate.
        reflexivity.
  - discriminate.
Qed.

(** A ground subject read from the root of the chain of a pattern, to the
    final state. *)
Lemma read_pattern (p s : Expression) x final :
  ground s = true →
  chain h x (chain_labels (_flatterm_iter p)) →
  objects h !! (x + length (chain_labels (_flatterm_iter p)))
  = Some (mkState final []) →
  read h x (_flatterm_iter s)
  = Returns (if instance_of p s then final else []).
Proof.
  intros Hs Hc Hfinal.
  assert (Hend : get_payload h
            (x + length (chain_labels (_flatterm_iter p))) = final).
  { unfold get_payload. by rewrite Hfinal. }
  destruct (wildcard_width p) as [m|] eqn:Hw.
  - assert (Hi : instance_of p s = bool_decide (m = 1)).
    { clear -Hw. induction p using Expression_nested_ind;
        cbn [wildcard_width instance_of] in *; try done; auto.
      by injection Hw as ->. }
    destruct (wildcard_width_tape p m Hw) as [f Hf].
    rewrite Hf in Hc, Hfinal.
    cbn [chain_labels flat_map isinstance_Wildcard wc_min_count]
      in Hc, Hfinal.
    rewrite app_nil_r in Hc, Hfinal. rewrite length_replicate in Hfinal.
    rewrite Hi. destruct m as [|m].
    + rewrite Nat.add_0_r in Hfinal. rewrite bool_decide_false by lia.
      destruct (flatterm_iter_head s) as (a & rest & Ha & _).
      pose proof (constant_expression_tape s (ground_constant s Hs)) as Ht.
      rewrite Ha in Ht |- *. cbn [forallb] in Ht.
      apply andb_prop in Ht as [Ht _].
      exact (read_stuck _ _ _ _ Hfinal Ht).
    + cbn [replicate] in Hc. apply chain_cons in Hc as [Hx Hc].
      rewrite <- (app_nil_r (_flatterm_iter s)).
      rewrite (read_wildcard _ _ _ _ _ Hx Hs), read_nil.
      unfold get_payload. destruct m as [|m].
      * replace (x + 1) with (S x) in Hfinal by lia.
        rewrite Hfinal, bool_decide_true by lia. reflexivity.
      * cbn [replicate] in Hc. apply chain_cons in Hc as [Hy _].
        rewrite Hy, bool_decide_false by lia. reflexivity.
  - rewrite <- (app_nil_r (_flatterm_iter s)).
    rewrite (read_expression p x s [] Hs Hw Hc), read_nil, Hend.
    by destruct (instance_of p s).
Qed.
End Chains.

(** A net that holds one syntactic pattern recognises the instances of the
    pattern: for a ground subject, [_match] (in the mode [match] uses)
    returns the index 0 of the pattern when the subject is an instance of
    it, and no index otherwise.  The pattern is given as an expression or
    as the flatterm of one. *)
Theorem syntactic_net_matches_instances {T} (pattern : Term)
    (p s : Expression) (label : option T) :
  to_flatterm pattern = FlatTerm_init (inl p) →
  Term_is_syntactic pattern = true →
  ground s = true →
  _match (DiscriminationNet_add (@DiscriminationNet_init T) pattern label).1
    (inl s) false false
  = Returns (if instance_of p s then [0] else []).
Proof.
  intros Hp Hsyn Hs.
  unfold _match, DiscriminationNet_add, pattern_net.
  rewrite Hsyn. cbn [orb].
  set (self := @DiscriminationNet_init T).
  pose proof (generate_syntactic_net_chain (net_heap self)
                (to_flatterm pattern) (length (_patterns self))) as Hg.
  destruct (_generate_syntactic_net (net_heap self) (to_flatterm pattern)
              (length (_patterns self))) as [root h'] eqn:E.
  destruct (extends_syntactic_net _ _ _ _ _ E) as [[Ha _] _].
  cbn [fst snd] in Hg. destruct Hg as (_ & Hc & Hfinal).
  assert (Hroot : state_bool h' (_root self) = false).
  { unfold state_bool, keys. rewrite (Ha (_root self)) by (cbn; lia).
    reflexivity. }
  rewrite Hroot. cbn [fst net_heap _root to_flatterm FlatTerm_init _terms].
  rewrite Hp in Hc, Hfinal. cbn [FlatTerm_init _terms] in Hc, Hfinal.
  unfold _combined_wildcards_iter in *.
  rewrite chain_labels_combined in Hc, Hfinal.
  cbn [yield_last app] in Hc, Hfinal.
  rewrite combined_loop_no_plain
    by apply terminal_not_plain, constant_expression_tape, ground_constant, Hs.
  exact (read_pattern h' p s root _ Hs Hc Hfinal).
Qed.

Lemma syntactic_net_matches_instances_witness :
  let f := mkOperationClass "f" (mkArity 2 true) false false in
  let p := EOperation f [EVariable "x" (EWildcard 1 true);
                         ESymbolWildcard ["Number"]] in
  let s := EOperation f [EOperation f [ESymbol "a" []; ESymbol "b" []];
                         ESymbol "one" ["Number"; "Integer"]] in
  Term_is_syntactic (inl p) = true
  ∧ ground s = true
  ∧ instance_of p s = true
  ∧ _match (DiscriminationNet_add (@DiscriminationNet_init string) (inl p)
              (Some "rule")).1 (inl s) false false
    = Returns [0].
Proof.
  intros f p s.
  assert (Hsyn : Term_is_syntactic (inl p) = true) by reflexivity.
  assert (Hs : ground s = true) by reflexivity.
  assert (Hi : instance_of p s = true) by (vm_compute; reflexivity).
  split; [exact Hsyn|]. split; [exact Hs|]. split; [exact Hi|].
  rewrite (syntactic_net_matches_instances (inl p) p s (Some "rule")
             eq_refl Hsyn Hs).
  rewrite Hi. reflexivity.
Defined.


Section LoopOutcomes.
Context {St R : Type} (body : St → Result (St + R)).
Context (Inv : St → Prop).
Context (Hstep : ∀ s s', Inv s → body s = Returns (inl s') → Inv s').

(** A loop invariant holds after any number of rounds. *)
Lemma iterate_reaches : ∀ n s s',
  Inv s → iterate n body s = Returns (inl s') → Inv s'.
Proof.
  induction n as [|n IH]; intros s s' Hs Hn; simpl in Hn.
  - by injection Hn as <-.
  - destruct (body s) as [[s1|r]| |] eqn:Hb; try discriminate.
    eapply IH; [|exact Hn]. eapply Hstep; eassumption.
Qed.

(** An exception that ends the loop is raised by the body in a state in
    which the invariant holds. *)
Lemma iterate_raises : ∀ n s e,
  Inv s → iterate n body s = Raises e →
  ∃ s_last, Inv s_last ∧ body s_last = Raises e.
Proof.
  induction n as [|n IH]; intros s e Hs Hn; simpl in Hn; [discriminate|].
  destruct (body s) as [[s1|r]| |] eqn:Hb; try discriminate.
  - eapply IH; [|exact Hn]. eapply Hstep; eassumption.
  - injection Hn as <-. eauto.
Qed.

Lemma while_loop_raises k s e :
  while_loop k body s = Raises e → iterate (2 ^ k) body s = Raises e.
Proof.
  unfold while_loop. rewrite while_pow2_iterate.
  destruct (iterate (2 ^ k) body s) as [[s'|r']| |]; try discriminate.
  intros [= ->]. reflexivity.
Qed.
End LoopOutcomes.

Section ForEachOutcomes.
Context {St L : Type} (body : St → L → Result St).
Context (Inv : St → Prop).

Lemma for_each_raises (ls : list L) :
  (∀ s l s', l ∈ ls → Inv s → body s l = Returns s' → Inv s') →
  ∀ s e, Inv s → for_each body s ls = Raises e →
    ∃ s1 l, l ∈ ls ∧ Inv s1 ∧ body s1 l = Raises e.
Proof.
  induction ls as [|l ls IH]; intros Hstep s e Hs Hf; simpl in Hf;
    [discriminate|].
  destruct (body s l) as [s1|e1|] eqn:Hb; try discriminate; cbn in Hf.
  - destruct (IH (λ s0 l0 s' Hl, Hstep s0 l0 s' (list_elem_of_further _ _ _ Hl))
                s1 e) as (s2 & l2 & Hl2 & Hs2 & Hb2); [|exact Hf|].
    + eapply Hstep; [left|exact Hs|exact Hb].
    + exists s2, l2. split; [by right|done].
  - injection Hf as <-. exists s, l. split; [left|done].
Qed.
End ForEachOutcomes.

Lemma item_init_fixed_ok h s1 s2 :
  item_fixed_ok (_StateQueueItem_init h s1 s2).
Proof. unfold item_fixed_ok, _StateQueueItem_init. cbn. lia. Qed.

(** The child of an item keeps what the class says of [fixed] and
    [depth]. *)
Lemma child_item_fixed_ok h current_state label child_state :
  item_fixed_ok current_state →
  child_item h current_state label = Returns child_state →
  item_fixed_ok child_state.
Proof.
  intros (Hle & H0 & Hpos). unfold child_item.
  destruct (_get_next_state h (state1 current_state) label _)
    as [t1 with_wildcard1].
  destruct (_get_next_state h (state2 current_state) label _)
    as [t2 with_wildcard2].
  cbn [state1 state2 id1 id2 item_payload depth fixed _StateQueueItem_init].
  destruct (label_is_operation label).
  - destruct (decide (fixed current_state = 0)) as [Hf|Hf].
    + rewrite bool_decide_true by done. cbn [negb].
      destruct with_wildcard1.
      { destruct t2 as [s2|]; cbn; [|discriminate].
        destruct (state1 current_state) as [s1|]; cbn; [|discriminate].
        intros [= <-]. unfold item_fixed_ok. cbn. lia. }
      destruct with_wildcard2.
      { destruct t1 as [s1|]; cbn; [|discriminate].
        destruct (state2 current_state) as [s2|]; cbn; [|discriminate].
        intros [= <-]. unfold item_fixed_ok. cbn. lia. }
      intros [= <-]. unfold item_fixed_ok. cbn. auto.
    + rewrite bool_decide_false by done. cbn [negb].
      intros [= <-]. unfold item_fixed_ok. cbn. specialize (Hpos Hf).
      repeat split; first [lia|done].
  - destruct (bool_decide (label = LTerm OPERATION_END)); cbn [andb].
    + destruct (decide (fixed current_state = 0)) as [Hf|Hf].
      * rewrite bool_decide_true by done. cbn [negb].
        intros [= <-]. unfold item_fixed_ok. cbn. auto.
      * rewrite bool_decide_false by done. cbn [negb].
        specialize (Hpos Hf).
        destruct (decide (depth current_state - 1 = 0)%Z) as [Hd|Hd].
        -- destruct (decide (fixed current_state = 1)).
           { destruct t1 as [s1|]; cbn; [|discriminate].
             destruct (getitem h s1 LWildcard); cbn; [|discriminate].
             intros [= <-]. unfold item_fixed_ok. cbn. repeat split; lia. }
           destruct (decide (fixed current_state = 2)); [|discriminate].
           destruct t2 as [s2|]; cbn; [|discriminate].
           destruct (getitem h s2 LWildcard); cbn; [|discriminate].
           intros [= <-]. unfold item_fixed_ok. cbn. repeat split; lia.
        -- intros [= <-]. unfold item_fixed_ok. cbn.
           repeat split; first [lia|done].
    + intros [= <-]. unfold item_fixed_ok. cbn. auto.
Qed.

(** With [fixed] among 0, 1 and 2 the [raise AssertionError] is not
    reached. *)
Lemma child_item_no_assertion h current_state label :
  fixed current_state ≤ 2 →
  child_item h current_state label ≠ Raises AssertionError.
Proof.
  intros Hle. unfold child_item.
  destruct (_get_next_state h (state1 current_state) label _)
    as [t1 with_wildcard1].
  destruct (_get_next_state h (state2 current_state) label _)
    as [t2 with_wildcard2].
  cbn [state1 state2 id1 id2 item_payload depth fixed _StateQueueItem_init].
  destruct (label_is_operation label).
  - destruct (negb _); [discriminate|].
    destruct with_wildcard1.
    { destruct t2 as [s2|]; cbn; [|discriminate].
      destruct (state1 current_state) as [s1|]; cbn; discriminate. }
    destruct with_wildcard2; [|discriminate].
    destruct t1 as [s1|]; cbn; [|discriminate].
    destruct (state2 current_state) as [s2|]; cbn; discriminate.
  - destruct (bool_decide (label = LTerm OPERATION_END)); cbn [andb];
      [|discriminate].
    destruct (decide (fixed current_state = 0)) as [Hf|Hf].
    + rewrite bool_decide_true by done. discriminate.
    + rewrite bool_decide_false by done. cbn [negb].
      destruct (decide _); [|discriminate].
      destruct (decide (fixed current_state = 1)).
      { destruct t1 as [s1|]; cbn; [|discriminate].
        destruct (getitem h s1 LWildcard); cbn; discriminate. }
      destruct (decide (fixed current_state = 2)); [|lia].
      destruct t2 as [s2|]; cbn; [|discriminate].
      destruct (getitem h s2 LWildcard); cbn; discriminate.
Qed.

Lemma product_label_step_queue current_state state p label p' :
  item_fixed_ok current_state →
  Forall item_fixed_ok (pn_queue p) →
  product_label_step current_state state p label = Returns p' →
  Forall item_fixed_ok (pn_queue p').
Proof.
  intros Hcur Hq. unfold product_label_step.
  destruct (child_item (pn_heap p) current_state label) as [c| |] eqn:Ec;
    cbn [mbind Result_bind]; try discriminate.
  pose proof (child_item_fixed_ok _ _ _ _ Hcur Ec) as Hc.
  destruct (pn_states p !! item_key c) as [t|] eqn:Et.
  - rewrite Et. cbn. intros [= <-]. exact Hq.
  - cbn [new_State pn_states pn_queue pn_heap].
    rewrite lookup_insert_eq. cbn. intros [= <-]. cbn [pn_queue].
    apply Forall_app. split; [exact Hq|]. by constructor.
Qed.

Lemma product_label_step_no_assertion current_state state p label :
  item_fixed_ok current_state →
  product_label_step current_state state p label ≠ Raises AssertionError.
Proof.
  intros (Hle & _). unfold product_label_step.
  pose proof (child_item_no_assertion (pn_heap p) current_state label Hle)
    as Hc.
  destruct (child_item (pn_heap p) current_state label) as [c|e|];
    cbn [mbind Result_bind]; [|congruence|discriminate].
  destruct (pn_states p !! item_key c) as [t|] eqn:Et.
  - rewrite Et. discriminate.
  - cbn [new_State pn_states pn_queue pn_heap].
    rewrite lookup_insert_eq. discriminate.
Qed.

Lemma product_body_queue p p' :
  Forall item_fixed_ok (pn_queue p) →
  product_body p = Returns (inl p') →
  Forall item_fixed_ok (pn_queue p').
Proof.
  intros Hq. unfold product_body.
  destruct (pn_queue p) as [|current_state queue] eqn:Eq; [discriminate|].
  apply Forall_cons in Hq as [Hcur Hq].
  destruct (pn_states p !! item_key current_state) as [state|];
    cbn [or_raise mbind Result_bind]; [|discriminate].
  destruct (for_each _ _ _) as [p1| |] eqn:Ef; cbn; try discriminate.
  intros [= <-].
  refine (for_each_invariant (product_label_step current_state state)
            (λ p, Forall item_fixed_ok (pn_queue p)) _ _
            (mkProductGen (pn_heap p) (pn_states p) queue) _ Hq Ef).
  intros s l s' _ Hs. by apply product_label_step_queue.
Qed.

Lemma product_body_no_assertion p :
  Forall item_fixed_ok (pn_queue p) →
  product_body p ≠ Raises AssertionError.
Proof.
  intros Hq. unfold product_body.
  destruct (pn_queue p) as [|current_state queue] eqn:Eq; [discriminate|].
  apply Forall_cons in Hq as [Hcur Hq].
  destruct (pn_states p !! item_key current_state) as [state|];
    cbn [or_raise mbind Result_bind]; [|discriminate].
  destruct (for_each _ _ _) as [p1|e|] eqn:Ef; cbn; try discriminate.
  intros [= ->].
  destruct (for_each_raises (product_label_step current_state state)
              (λ p, Forall item_fixed_ok (pn_queue p))
              (labels (pn_heap p) current_state)
              (λ s l s' _ Hs, product_label_step_queue _ _ _ _ _ Hcur Hs)
              (mkProductGen (pn_heap p) (pn_states p) queue)
              AssertionError Hq Ef) as (s1 & l & _ & _ & Hb).
  by apply product_label_step_no_assertion in Hb.
Qed.

Lemma product_start_queue h state1 state2 :
  Forall item_fixed_ok (pn_queue (product_start h state1 state2).2).
Proof.
  unfold product_start, new_State. cbn [snd pn_queue].
  constructor; [apply item_init_fixed_ok|constructor].
Qed.

(** In every round of the [while] loop of [_product_net], whatever the two
    states, every item in the queue has [fixed] among 0, 1 and 2, and not 0
    exactly when its [depth] is greater than 0. *)
Theorem _product_net_queue_fixed (h : Heap) (state1 state2 : nat)
    (rounds : nat) (p : ProductGen) (q : _StateQueueItem) :
  iterate rounds product_body (product_start h state1 state2).2
  = Returns (inl p) →
  q ∈ pn_queue p →
  fixed q ≤ 2 ∧ (fixed q = 0 ↔ depth q = 0%Z) ∧ (0 <= depth q)%Z.
Proof.
  intros Hit Hq.
  pose proof (iterate_reaches product_body
                (λ p, Forall item_fixed_ok (pn_queue p)) product_body_queue
                rounds _ _ (product_start_queue h state1 state2) Hit) as Hall.
  rewrite Forall_forall in Hall. destruct (Hall q Hq) as (Hle & H0 & Hpos).
  split; [exact Hle|]. destruct (decide (fixed q = 0)) as [Hf|Hf].
  - specialize (H0 Hf). split; [tauto|lia].
  - specialize (Hpos Hf). split; [|lia]. split; [done|lia].
Qed.

Lemma _product_net_queue_fixed_witness :
  let f := mkOperationClass "f" (mkArity 1 true) false false in
  let g := mkOperationClass "g" (mkArity 1 true) false false in
  let net1 :=
    added (@DiscriminationNet_init nat)
      [(inl (EOperation f [EWildcard 1 true]), None)] in
  let net2 :=
    _generate_syntactic_net (net_heap net1)
      (FlatTerm_init (inl (EOperation f [EOperation g [ESymbol "a" []]])))
      1 in
  ∃ p q,
    iterate 2 product_body (product_start net2.2 (_root net1) net2.1).2
    = Returns (inl p)
    ∧ pn_queue p !! 1 = Some q
    ∧ fixed q = 1 ∧ depth q = 1%Z
    ∧ fixed q ≤ 2 ∧ (fixed q = 0 ↔ depth q = 0%Z) ∧ (0 <= depth q)%Z.
Proof.
  intros f g net1 net2.
  destruct (iterate 2 product_body
              (product_start net2.2 (_root net1) net2.1).2)
    as [[p|p]| |] eqn:E; [|vm_compute in E; discriminate..].
  assert (Hq : ∃ q, pn_queue p !! 1 = Some q ∧ fixed q = 1
                    ∧ depth q = 1%Z).
  { assert (Hp : match iterate 2 product_body
                         (product_start net2.2 (_root net1) net2.1).2 with
                 | Returns (inl p) =>
                     ∃ q, pn_queue p !! 1 = Some q ∧ fixed q = 1
                          ∧ depth q = 1%Z
                 | _ => True
                 end).
    { vm_compute. eexists. split; [reflexivity|split; reflexivity]. }
    rewrite E in Hp. exact Hp. }
  destruct Hq as (q & Hl & Hf & Hd). exists p, q.
  split; [reflexivity|]. split; [exact Hl|]. split; [exact Hf|].
  split; [exact Hd|].
  exact (_product_net_queue_fixed net2.2 (_root net1) net2.1 2 p q E
           (list_elem_of_lookup_2 _ _ _ Hl)).
Defined.

(** [_product_net] never raises [AssertionError], whatever the two states
    and the heap they are in: the [raise] in it is not reached. *)
Theorem _product_net_assertion_unreachable (h : Heap)
    (state1 state2 : nat) :
  _product_net h state1 state2 ≠ Raises AssertionError.
Proof.
  unfold _product_net.
  pose proof (product_start_queue h state1 state2) as Hq.
  destruct (product_start h state1 state2) as [root start].
  cbn [snd] in Hq.
  destruct (while_loop _ product_body start) as [p|e|] eqn:Ew;
    cbn [mbind Result_bind]; try discriminate.
  intros [= ->]. apply while_loop_raises in Ew.
  destruct (iterate_raises product_body
              (λ p, Forall item_fixed_ok (pn_queue p)) product_body_queue
              _ _ _ Hq Ew) as (p & Hp & Hb).
  by apply product_body_no_assertion in Hb.
Qed.


Lemma create_state_new h X :
  ∃ p, _create_state h X = (_id h, (new_State p h).2).
Proof. unfold _create_state. eexists. reflexivity. Qed.

Lemma closed_from_new_State n p h :
  n ≤ _id h → closed_from n h → closed_from n (new_State p h).2.
Proof.
  intros Hn Hc s label t Hs. rewrite getitem_new_State, _id_new_State in *.
  destruct (decide (s = _id h)); [discriminate|]. intros Hg.
  destruct (Hc s label t) as [Hl Ht]; [lia|exact Hg|]. split; [exact Hl|lia].
Qed.

Lemma closed_from_setitem n h state label target :
  label ≠ EPSILON → n ≤ target < _id h →
  closed_from n h → closed_from n (setitem h state label target).
Proof.
  intros Hl Ht Hc s l t Hs. rewrite getitem_setitem.
  change (_id (setitem h state label target)) with (_id h) in *.
  destruct (decide _) as [(_ & <- & _)|_].
  - intros [= <-]. done.
  - by apply Hc.
Qed.

Lemma dfa_label_step_closed n X new_state d label d' :
  dfa_closed n d → new_states d !! X = Some new_state →
  dfa_label_step X new_state d label = Returns d' →
  dfa_closed n d' ∧ new_states d' !! X = Some new_state.
Proof.
  intros (Hn & Hst & Hc) HX. unfold dfa_label_step.
  destruct (decide (label = EPSILON)) as [|Hl]; [intros [= <-]; done|].
  destruct (new_states d !! _target_set (dg_heap d) X label) as [t|] eqn:Et.
  - rewrite Et. cbn [or_raise mbind Result_bind]. intros [= <-].
    split; [|exact HX]. unfold dfa_closed. cbn [dg_heap new_states].
    split; [exact Hn|]. split; [exact Hst|].
    apply closed_from_setitem; [exact Hl|eapply Hst, Et|exact Hc].
  - destruct (create_state_new (dg_heap d)
                (_target_set (dg_heap d) X label)) as [p ->].
    cbn [new_states dg_heap dg_queue]. rewrite lookup_insert_eq.
    cbn [or_raise mbind Result_bind]. intros [= <-].
    cbn [new_states dg_heap]. split.
    + unfold dfa_closed. cbn [dg_heap new_states].
      cbn [_id setitem]. split; [lia|]. split.
      * intros Y s. rewrite lookup_insert.
        destruct (decide _) as [_|_]; [intros [= <-]; lia|].
        intros HY. apply Hst in HY. lia.
      * apply closed_from_setitem; [exact Hl|cbn [_id]; lia|].
        by apply (closed_from_new_State n p (dg_heap d)).
    + rewrite lookup_insert_ne; [exact HX|].
      intros Heq. rewrite Heq in Et. congruence.
Qed.

Lemma dfa_body_closed n d d' :
  dfa_closed n d → dfa_body d = Returns (inl d') → dfa_closed n d'.
Proof.
  intros Hd. unfold dfa_body.
  destruct (dg_queue d) as [|X queue]; [discriminate|].
  destruct (new_states d !! X) as [new_state|] eqn:HX; [|discriminate].
  cbn [or_raise mbind Result_bind].
  destruct (for_each _ _ _) as [d1| |] eqn:Ef; try discriminate.
  cbn [mbind Result_bind]. intros [= <-].
  refine (proj1 (for_each_invariant (dfa_label_step X new_state)
            (λ d0, dfa_closed n d0 ∧ new_states d0 !! X = Some new_state) _ _
            (mkDfaGen (dg_heap d) (new_states d) queue) _ _ Ef)).
  - intros d0 l d2 _ [H0 HX0] E. eapply dfa_label_step_closed; eassumption.
  - split; [exact Hd|exact HX].
Qed.

Lemma convert_closed_from (h : Heap) (root : nat) (new_root : nat)
    (h' : Heap) :
  _convert_nfa_to_dfa h root = Returns (new_root, h') →
  _id h ≤ new_root < _id h' ∧ closed_from (_id h) h'.
Proof.
  unfold _convert_nfa_to_dfa.
  destruct (create_state_new h (_epsilon_closure h {[root]})) as [p ->].
  destruct (while_loop _ _ _) as [d| |] eqn:Ew; try discriminate.
  cbn [mbind Result_bind].
  destruct (new_states d !! _) as [t'|] eqn:Et; [|discriminate].
  cbn [or_raise mbind Result_bind]. intros [= <- <-].
  apply while_loop_returns in Ew.
  assert (Hstart : dfa_closed (_id h)
            (mkDfaGen (new_State p h).2
               {[_epsilon_closure h {[root]} := _id h]}
               [_epsilon_closure h {[root]}])).
  { unfold dfa_closed. cbn [dg_heap new_states]. rewrite _id_new_State.
    split; [lia|]. split.
    - intros X s. rewrite lookup_singleton_Some. intros [_ <-]. lia.
    - apply closed_from_new_State; [lia|]. intros s label t Hs. lia. }
  destruct (iterate_invariant dfa_body (dfa_closed (_id h))
              (λ d1 d2 H1 E, dfa_body_closed _ d1 d2 H1 E) _ _ _
              Hstart Ew) as (d_last & (Hn & Hst & Hc) & Hbody).
  apply dfa_body_inr in Hbody as ->. split; [eapply Hst, Et|exact Hc].
Qed.

(** The automaton [_convert_nfa_to_dfa] returns is made of new states only
    and has no [EPSILON] transition: its root is a state made by the call,
    and every transition of a state made by the call has a label other than
    [EPSILON] and leads to a state made by the call. *)
Theorem _convert_nfa_to_dfa_closed (h : Heap) (root : nat) (new_root : nat)
    (h' : Heap) :
  _convert_nfa_to_dfa h root = Returns (new_root, h') →
  _id h ≤ new_root < _id h'
  ∧ ∀ s label t, _id h ≤ s < _id h' → getitem h' s label = Some t →
      label ≠ EPSILON ∧ _id h ≤ t < _id h'.
Proof. apply convert_closed_from. Qed.

Lemma _convert_nfa_to_dfa_closed_witness :
  let f := mkOperationClass "f" (mkArity 1 false) false false in
  let pattern :=
    FlatTerm_init (inl (EOperation f [EWildcard 0 false; ESymbol "a" []])) in
  ∃ root h1 new_root h',
    generate_nfa empty_heap pattern 0 = Returns (root, h1)
    ∧ is_Some (getitem h1 3 EPSILON)
    ∧ _convert_nfa_to_dfa h1 root = Returns (new_root, h')
    ∧ _id h1 ≤ new_root < _id h'
    ∧ ∀ s label t, _id h1 ≤ s < _id h' → getitem h' s label = Some t →
        label ≠ EPSILON ∧ _id h1 ≤ t < _id h'.
Proof.
  intros f pattern.
  destruct (generate_nfa empty_heap pattern 0) as [[root h1]| |] eqn:En;
    [|vm_compute in En; discriminate..].
  destruct (_convert_nfa_to_dfa h1 root) as [[new_root h']| |] eqn:Ec;
    [|injection En as <- <-; vm_compute in Ec; discriminate..].
  exists root, h1, new_root, h'. split; [reflexivity|].
  split; [vm_compute in En; injection En as <- <-; vm_compute; eauto|].
  split; [exact Ec|].
  exact (_convert_nfa_to_dfa_closed h1 root new_root h' Ec).
Defined.


Lemma getitem_agrees h h' s label :
  agrees h h' → s < _id h → getitem h' s label = getitem h s label.
Proof. intros A Hs. unfold getitem. by rewrite (A s Hs). Qed.

Lemma keys_agrees h h' s :
  agrees h h' → s < _id h → keys h' s = keys h s.
Proof. intros A Hs. unfold keys. by rewrite (A s Hs). Qed.

Lemma automaton_extends h h' lo hi :
  automaton h lo hi → extends h h' → automaton h' lo hi.
Proof.
  intros [Hhi Hc] [A Hle]. split; [lia|]. intros s label t Hs.
  rewrite (getitem_agrees h h') by (done || lia). by apply Hc.
Qed.

Lemma closed_from_automaton n h : closed_from n h → automaton h n (_id h).
Proof. intros Hc. split; [lia|exact Hc]. Qed.

Lemma chain_labels_not_epsilon tape label :
  label ∈ chain_labels tape → label ≠ EPSILON.
Proof.
  unfold chain_labels. rewrite list_elem_of_In, in_flat_map.
  intros (term & _ & Hin). rewrite <- list_elem_of_In in Hin.
  destruct (isinstance_Wildcard term).
  - apply elem_of_replicate in Hin as [-> _]. done.
  - apply list_elem_of_singleton in Hin as ->. done.
Qed.

(** The syntactic net is an automaton of new states. *)
Lemma syntactic_net_automaton h flatterm final_label :
  let net := _generate_syntactic_net h flatterm final_label in
  _id h ≤ net.1 < _id net.2 ∧ automaton net.2 (_id h) (_id net.2).
Proof.
  unfold _generate_syntactic_net, new_State.
  set (h0 := mkHeap _ _).
  assert (Hx : S (_id h) = _id h0) by reflexivity.
  assert (Ho : objects h0 !! _id h = Some (mkState [] []))
    by apply lookup_insert_eq.
  pose proof (syntactic_loop_built (_terms flatterm) h0 (_id h) Hx Ho) as Hb.
  destruct (syntactic_loop h0 (_id h) (_terms flatterm)) as [x1 h1].
  cbn [fst snd] in Hb |- *. destruct Hb as (-> & Hi1 & Ho1 & Hc1 & _).
  change (_id (set_payload h1 ?s ?p)) with (_id h1). split; [lia|].
  split; [cbn [set_payload _id]; lia|]. intros s label t Hs.
  rewrite getitem_set_payload. unfold getitem.
  destruct (decide (s = _id h + length (chain_labels (_terms flatterm))))
    as [->|Hne].
  - rewrite Ho1. discriminate.
  - destruct (lookup_lt_is_Some_2 (chain_labels (_terms flatterm))
                (s - _id h)) as [l Hl]; [lia|].
    pose proof (Hc1 _ _ Hl) as Hobj.
    replace (_id h + (s - _id h)) with s in Hobj by lia.
    rewrite Hobj. cbn [mbind option_bind transitions dict_get].
    destruct (decide (l = label)) as [<-|]; [|discriminate].
    intros [= <-]. split; [|lia].
    eapply chain_labels_not_epsilon, list_elem_of_lookup_2, Hl.
Qed.

Section Product.
Context (h : Heap) (lo1 hi1 lo2 hi2 : nat).
Context (A1 : automaton h lo1 hi1) (A2 : automaton h lo2 hi2).

Lemma next_state_within h' lo hi state label fx t w :
  agrees h h' → automaton h lo hi →
  (∀ s, state = Some s → lo ≤ s < hi) →
  _get_next_state h' state label fx = (Some t, w) →
  lo ≤ t < hi.
Proof.
  intros A [Hhi Hc] Hst. unfold _get_next_state.
  destruct fx; [intros [= -> _]; by apply Hst|].
  destruct state as [s|]; [|discriminate].
  specialize (Hst s eq_refl).
  assert (Hg : ∀ l t', getitem h' s l = Some t' → lo ≤ t' < hi).
  { intros l t'. rewrite (getitem_agrees h h') by (done || lia).
    intros Hl. by destruct (Hc s l t' Hst Hl). }
  destruct (getitem h' s label) as [t0|] eqn:E0.
  { intros [= <- _]. eapply Hg, E0. }
  destruct (decide _); [discriminate|].
  assert (Hw : match getitem h' s LWildcard with
               | Some t0 => (Some t0, true)
               | None => (None, false)
               end = (Some t, w) → lo ≤ t < hi).
  { destruct (getitem h' s LWildcard) as [t0|] eqn:Ew; [|discriminate].
    intros [= <- _]. eapply Hg, Ew. }
  destruct label as [[name c| | | | |]| |]; try exact Hw.
  destruct (_get_symbol_wildcard_label h' s (ASymbol name c)) as [key|];
    [|exact Hw].
  destruct (getitem h' s key) as [t0|] eqn:Ek; [|discriminate].
  intros [= <- _]. eapply Hg, Ek.
Qed.

Lemma child_item_within h' current_state label child_state :
  agrees h h' →
  item_within lo1 hi1 lo2 hi2 current_state →
  child_item h' current_state label = Returns child_state →
  item_within lo1 hi1 lo2 hi2 child_state.
Proof.
  intros A [Hc1 Hc2]. unfold child_item.
  destruct (_get_next_state h' (state1 current_state) label _)
    as [t1 with_wildcard1] eqn:E1.
  destruct (_get_next_state h' (state2 current_state) label _)
    as [t2 with_wildcard2] eqn:E2.
  assert (H1 : ∀ s, t1 = Some s → lo1 ≤ s < hi1).
  { intros s ->. eapply next_state_within; [exact A|exact A1|exact Hc1|].
    exact E1. }
  assert (H2 : ∀ s, t2 = Some s → lo2 ≤ s < hi2).
  { intros s ->. eapply next_state_within; [exact A|exact A2|exact Hc2|].
    exact E2. }
  assert (Hw : ∀ lo hi s t, automaton h lo hi → lo ≤ s < hi →
                 getitem h' s LWildcard = Some t → lo ≤ t < hi).
  { intros lo hi s t [Hhi Hc] Hs. rewrite (getitem_agrees h h') by (done || lia).
    intros Hg. by destruct (Hc s _ t Hs Hg). }
  cbn [state1 state2 id1 id2 item_payload depth fixed _StateQueueItem_init].
  destruct (label_is_operation label).
  - destruct (negb _); [intros [= <-]; by split|].
    destruct with_wildcard1.
    { destruct t2 as [s2|]; cbn; [|discriminate].
      destruct (state1 current_state) as [s1|]; cbn; [|discriminate].
      intros [= <-]. split; cbn; [exact Hc1|exact H2]. }
    destruct with_wildcard2; [|intros [= <-]; by split].
    destruct t1 as [s1|]; cbn; [|discriminate].
    destruct (state2 current_state) as [s2|]; cbn; [|discriminate].
    intros [= <-]. split; cbn; [exact H1|exact Hc2].
  - destruct (_ && _); [|intros [= <-]; by split].
    destruct (decide _); [|intros [= <-]; by split].
    destruct (decide (fixed current_state = 1)).
    { destruct t1 as [s1|]; cbn; [|discriminate].
      destruct (getitem h' s1 LWildcard) as [s1'|] eqn:Eg; cbn;
        [|discriminate].
      intros [= <-]. split; cbn; [|exact H2].
      intros s [= <-]. eapply Hw; [exact A1|by apply H1|exact Eg]. }
    destruct (decide (fixed current_state = 2)); [|discriminate].
    destruct t2 as [s2|]; cbn; [|discriminate].
    destruct (getitem h' s2 LWildcard) as [s2'|] eqn:Eg; cbn;
      [|discriminate].
    intros [= <-]. split; cbn; [exact H1|].
    intros s [= <-]. eapply Hw; [exact A2|by apply H2|exact Eg].
Qed.

Lemma labels_not_epsilon h' current_state label :
  agrees h h' →
  item_within lo1 hi1 lo2 hi2 current_state →
  label ∈ labels h' current_state → label ≠ EPSILON.
Proof.
  intros A [Hc1 Hc2]. unfold labels.
  assert (Hk : ∀ lo hi s, automaton h lo hi → lo ≤ s < hi →
                 label ∈ keys h' s → label ≠ EPSILON).
  { intros lo hi s [Hhi Hc] Hs.
    rewrite (keys_agrees h h') by (done || lia).
    rewrite keys_getitem. intros [t Ht]. by destruct (Hc s _ t Hs Ht). }
  rewrite elem_of_remove_dups, !elem_of_app. intros [Hin|[Hin|Hin]].
  - destruct (state1 current_state) as [s|]; [|by inversion Hin].
    destruct (decide _); [by inversion Hin|].
    eapply Hk; [exact A1|by apply Hc1|exact Hin].
  - destruct (state2 current_state) as [s|]; [|by inversion Hin].
    destruct (decide _); [by inversion Hin|].
    eapply Hk; [exact A2|by apply Hc2|exact Hin].
  - destruct (decide (fixed current_state = 0)); [by inversion Hin|].
    apply elem_of_app in Hin as [Hin|Hin].
    + destruct (decide (fixed current_state = 1)).
      { destruct (state2 current_state); [by inversion Hin|].
        apply list_elem_of_singleton in Hin as ->. done. }
      destruct (decide (fixed current_state = 2)); [|by inversion Hin].
      destruct (state1 current_state); [by inversion Hin|].
      apply list_elem_of_singleton in Hin as ->. done.
    + apply list_elem_of_singleton in Hin as ->. done.
Qed.

Lemma product_label_step_closed current_state state p label p' :
  product_closed h lo1 hi1 lo2 hi2 p →
  item_within lo1 hi1 lo2 hi2 current_state →
  _id h ≤ state < _id (pn_heap p) →
  label ≠ EPSILON →
  product_label_step current_state state p label = Returns p' →
  product_closed h lo1 hi1 lo2 hi2 p'
  ∧ _id (pn_heap p) ≤ _id (pn_heap p').
Proof.
  intros (A & Hn & Hst & Hc & Hq) Hcur Hstate Hl. unfold product_label_step.
  destruct (child_item (pn_heap p) current_state label) as [c| |] eqn:Ec;
    cbn [mbind Result_bind]; try discriminate.
  pose proof (child_item_within _ _ _ _ A Hcur Ec) as Hin.
  destruct (pn_states p !! item_key c) as [t|] eqn:Et.
  - rewrite Et. cbn [or_raise mbind Result_bind]. intros [= <-].
    cbn [pn_heap pn_states pn_queue]. split; [|done].
    unfold product_closed. cbn [pn_heap pn_states pn_queue].
    split; [apply agrees_setitem; [exact A|lia]|].
    split; [exact Hn|]. split; [exact Hst|]. split; [|exact Hq].
    apply closed_from_setitem; [exact Hl|eapply Hst, Et|exact Hc].
  - cbn [new_State pn_states pn_queue pn_heap].
    rewrite lookup_insert_eq. cbn [or_raise mbind Result_bind].
    intros [= <-]. cbn [pn_heap pn_states pn_queue setitem _id].
    split; [|lia].
    unfold product_closed. cbn [pn_heap pn_states pn_queue].
    split.
    { apply agrees_setitem; [|lia].
      apply (agrees_new_State h (pn_heap p) (item_payload c)); [exact A|lia]. }
    cbn [setitem _id]. split; [lia|]. split.
    { intros key s. rewrite lookup_insert.
      destruct (decide _) as [_|_]; [intros [= <-]; lia|].
      intros Hk. apply Hst in Hk. lia. }
    split.
    { apply closed_from_setitem; [exact Hl|cbn [_id]; lia|].
      apply (closed_from_new_State (_id h) (item_payload c) (pn_heap p));
        [lia|exact Hc]. }
    apply Forall_app. split; [exact Hq|]. by constructor.
Qed.

Lemma product_body_closed p p' :
  product_closed h lo1 hi1 lo2 hi2 p →
  product_body p = Returns (inl p') →
  product_closed h lo1 hi1 lo2 hi2 p'.
Proof.
  intros Hp. unfold product_body.
  destruct (pn_queue p) as [|current_state queue] eqn:Eq; [discriminate|].
  destruct (pn_states p !! item_key current_state) as [state|] eqn:Es;
    cbn [or_raise mbind Result_bind]; [|discriminate].
  destruct (for_each _ _ _) as [p1| |] eqn:Ef; cbn; try discriminate.
  intros [= <-].
  destruct Hp as (A & Hn & Hst & Hc & Hq). rewrite Eq in Hq.
  apply Forall_cons in Hq as [Hcur Hq].
  refine (proj1 (for_each_invariant (product_label_step current_state state)
            (λ p0, product_closed h lo1 hi1 lo2 hi2 p0
                   ∧ state < _id (pn_heap p0)) _ _
            (mkProductGen (pn_heap p) (pn_states p) queue) _ _ Ef)).
  - intros p0 l p2 Hl [H0 Hs0] E.
    destruct (product_label_step_closed current_state state p0 l p2 H0 Hcur)
      as [H2 Hle]; [|eapply labels_not_epsilon; eassumption|exact E|].
    + split; [|exact Hs0]. destruct (Hst _ _ Es). lia.
    + split; [exact H2|lia].
  - split; [|eapply Hst, Es]. unfold product_closed.
    cbn [pn_heap pn_states pn_queue]. done.
Qed.

Lemma product_net_closed state1 state2 root h' :
  lo1 ≤ state1 < hi1 → lo2 ≤ state2 < hi2 →
  _product_net h state1 state2 = Returns (root, h') →
  _id h ≤ root < _id h' ∧ closed_from (_id h) h'.
Proof.
  intros Hs1 Hs2. unfold _product_net, product_start.
  set (h0 := (new_State [] h).2).
  change (new_State [] h) with (_id h, h0).
  cbn iota beta.
  destruct (while_loop _ _ _) as [p| |] eqn:Ew; try discriminate.
  cbn [mbind Result_bind]. intros [= <- <-].
  apply while_loop_returns in Ew.
  assert (Hstart : product_closed h lo1 hi1 lo2 hi2
            (mkProductGen h0 {[(state1, state2, 0%Z) := _id h]}
               [_StateQueueItem_init h0 (Some state1) (Some state2)])).
  { unfold product_closed. cbn [pn_heap pn_states pn_queue].
    split; [apply agrees_new_State; [done|lia]|].
    split; [unfold h0; rewrite _id_new_State; lia|]. split.
    { intros key s. rewrite lookup_singleton_Some. intros [_ <-].
      unfold h0. rewrite _id_new_State. lia. }
    split.
    { apply closed_from_new_State; [lia|]. intros s label t Hs. lia. }
    constructor; [|constructor]. split; cbn; intros s [= <-]; done. }
  destruct (iterate_invariant product_body
              (product_closed h lo1 hi1 lo2 hi2) product_body_closed _ _ _
              Hstart Ew) as (p_last & (A & Hn & Hst & Hc & Hq) & Hbody).
  apply product_body_inr in Hbody as ->. split; [lia|exact Hc].
Qed.
End Product.

Lemma pattern_net_automaton h pattern index net h1 :
  pattern_net h pattern index = Returns (net, h1) →
  ∃ lo, lo ≤ net < _id h1 ∧ automaton h1 lo (_id h1).
Proof.
  unfold pattern_net. destruct (_ || _).
  - intros [= E].
    pose proof (syntactic_net_automaton h (to_flatterm pattern) index) as Hs.
    rewrite E in Hs. cbn [fst snd] in Hs. destruct Hs as [Hr Ha].
    exists (_id h). done.
  - unfold _generate_net.
    destruct (generate_nfa h _ _) as [[r1 h0]| |]; try discriminate.
    cbn [mbind Result_bind]. intros Ec.
    apply convert_closed_from in Ec as [Hr Hc].
    exists (_id h0). split; [exact Hr|]. by apply closed_from_automaton.
Qed.

Lemma net_automaton_init {T} : net_automaton (@DiscriminationNet_init T).
Proof.
  exists 1, 2. split; [cbn; lia|]. split; [cbn; lia|].
  intros s label t Hs. assert (s = 1) as -> by lia. discriminate.
Qed.

Lemma net_automaton_add {T} (self : DiscriminationNet T) pattern label :
  net_automaton self →
  net_automaton (DiscriminationNet_add self pattern label).1.
Proof.
  intros (lo & hi & Hr & Ha). unfold DiscriminationNet_add.
  destruct (pattern_net _ _ _) as [[net h1]| |] eqn:Ep; cbn [fst];
    [|by exists lo, hi..].
  destruct (extends_pattern_net _ _ _ _ _ Ep) as [He _].
  pose proof (automaton_extends _ _ _ _ Ha He) as Ha1.
  destruct (pattern_net_automaton _ _ _ _ _ Ep) as (lo2 & Hr2 & Ha2).
  destruct (state_bool h1 (_root self)); [|by exists lo2, (_id h1)].
  destruct (_product_net h1 (_root self) net) as [[root h2]| |] eqn:Epn;
    cbn [fst]; [|by exists lo, hi..].
  destruct (product_net_closed h1 lo hi lo2 (_id h1) Ha1 Ha2 _ _ _ _ Hr Hr2
              Epn) as [Hroot Hc].
  exists (_id h1), (_id h2). split; [exact Hroot|].
  by apply closed_from_automaton.
Qed.

Lemma net_automaton_added {T} (patterns : list (Term * option T)) :
  ∀ self, net_automaton self → net_automaton (added self patterns).
Proof.
  unfold added.
  induction patterns as [|[pattern label] ps IH]; intros self Hs;
    cbn [fold_left]; [exact Hs|].
  apply IH. by apply net_automaton_add.
Qed.

Lemma automaton_reachable h lo hi root s :
  automaton h lo hi → lo ≤ root < hi → reachable h root s → lo ≤ s < hi.
Proof.
  intros [_ Hc] Hr. induction 1 as [|s label t _ IH Hg]; [exact Hr|].
  by destruct (Hc s label t IH Hg).
Qed.

(** The net that [add] keeps is an automaton without [EPSILON]
    transitions: whatever patterns were added, with calls that returned or
    raised, no state that can be reached from the root has a transition
    labelled [EPSILON], the label [_match] never looks up. *)
Theorem added_net_has_no_epsilon {T} (patterns : list (Term * option T))
    (s : nat) :
  let net := added DiscriminationNet_init patterns in
  reachable (net_heap net) (_root net) s →
  getitem (net_heap net) s EPSILON = None.
Proof.
  intros net Hreach.
  destruct (net_automaton_added patterns _ net_automaton_init)
    as (lo & hi & Hr & Ha).
  pose proof (automaton_reachable _ _ _ _ _ Ha Hr Hreach) as Hs.
  destruct Ha as [_ Hc].
  destruct (getitem (net_heap net) s EPSILON) as [t|] eqn:Eg; [|reflexivity].
  by destruct (Hc s EPSILON t Hs Eg).
Qed.

Lemma added_net_has_no_epsilon_witness :
  let f := mkOperationClass "f" (mkArity 1 false) false false in
  let a := ESymbol "a" [] in
  let net :=
    added (@DiscriminationNet_init nat)
      [(inl (EOperation f [EWildcard 0 false; a]), None);
       (inl (EOperation f [a; EWildcard 1 true]), None)] in
  ∃ s, getitem (net_heap net) (_root net) (LTerm (AOperation f)) = Some s
       ∧ reachable (net_heap net) (_root net) s
       ∧ getitem (net_heap net) s EPSILON = None.
Proof.
  intros f a net.
  destruct (getitem (net_heap net) (_root net) (LTerm (AOperation f)))
    as [s|] eqn:Eg; [|vm_compute in Eg; discriminate].
  exists s. split; [reflexivity|].
  assert (Hreach : reachable (net_heap net) (_root net) s)
    by (eapply reachable_step; [apply reachable_root|exact Eg]).
  split; [exact Hreach|].
  exact (added_net_has_no_epsilon
           [(inl (EOperation f [EWildcard 0 false; a]), None);
            (inl (EOperation f [a; EWildcard 1 true]), None)] s Hreach).
Defined.


Lemma trie_no_wildcard h lo hi s :
  trie h lo hi → lo ≤ s < hi → getitem h s LWildcard = None.
Proof.
  intros (_ & _ & Hc) Hs.
  destruct (getitem h s LWildcard) as [t|] eqn:E; [|reflexivity].
  by destruct (Hc s _ t Hs E).
Qed.

Lemma trie_no_symbol_wildcard h lo hi s symbol :
  trie h lo hi → lo ≤ s < hi → _get_symbol_wildcard_label h s symbol = None.
Proof.
  intros (_ & _ & Hc) Hs.
  destruct (_get_symbol_wildcard_label h s symbol) as [key|] eqn:E;
    [|reflexivity].
  pose proof E as Hspec. apply symbol_wildcard_label_spec in Hspec as [Hin _].
  apply keys_getitem in Hin as [t Ht]. destruct (Hc s key t Hs Ht) as [Hl _].
  unfold _get_symbol_wildcard_label in E. apply find_some in E as [_ Hp].
  destruct key as [[]| |]; discriminate.
Qed.

(** In a trie a step of [_match] is the lookup of the atom. *)
Lemma match_step_trie h lo hi s a r :
  trie h lo hi → lo ≤ s < hi → terminal_atom a = true →
  match_step h false false (mkMatchState s 0 r) a
  = match getitem h s (LTerm a) with
    | Some t => Returns (inl (mkMatchState t 0 (r ++ get_payload h t)))
    | None => Returns (inr [])
    end.
Proof.
  intros Ht Hs Ha. unfold match_step. cbn [m_depth m_state m_result andb].
  change (0 <? 0)%Z with false. cbn iota.
  destruct (getitem h s (LTerm a)) as [t|]; [reflexivity|].
  rewrite (trie_no_wildcard h lo hi s Ht Hs).
  rewrite (trie_no_symbol_wildcard h lo hi s a Ht Hs).
  cbn [default from_option id].
  rewrite (trie_no_wildcard h lo hi s Ht Hs).
  destruct a; try discriminate; reflexivity.
Qed.

(** In a trie [_match] walks along the tape of a constant subject. *)
Lemma read_walk h lo hi word : ∀ s,
  trie h lo hi → lo ≤ s < hi → forallb terminal_atom word = true →
  read h s word = Returns (walk h (Some s) word).
Proof.
  unfold read.
  induction word as [|a rest IH]; intros s Ht Hs Hw; [reflexivity|].
  cbn [forallb] in Hw. apply andb_prop in Hw as [Ha Hrest].
  cbn [match_loop walk].
  rewrite (match_step_trie h lo hi s a _ Ht Hs Ha).
  destruct (getitem h s (LTerm a)) as [t|] eqn:E; cbn [mbind Result_bind].
  - rewrite (match_loop_result h false rest t 0 _ (get_payload h t)).
    apply IH; [exact Ht| |exact Hrest].
    destruct Ht as (_ & _ & Hc). by destruct (Hc s _ t Hs E).
  - by destruct rest.
Qed.

Lemma get_payload_agrees h h' s :
  agrees h h' → s < _id h → get_payload h' s = get_payload h s.
Proof. intros A Hs. unfold get_payload. by rewrite (A s Hs). Qed.

Lemma walk_agrees h h' lo hi word : ∀ s,
  trie h lo hi → agrees h h' → lo ≤ s < hi →
  walk h' (Some s) word = walk h (Some s) word.
Proof.
  induction word as [|a rest IH]; intros s Ht A Hs; cbn [walk].
  - apply get_payload_agrees; [exact A|]. destruct Ht as (_ & Hhi & _). lia.
  - pose proof Ht as (_ & Hhi & Hc).
    rewrite (getitem_agrees h h') by (done || lia).
    destruct (getitem h s (LTerm a)) as [t|] eqn:E; [|by destruct rest].
    apply IH; [exact Ht|exact A|]. by destruct (Hc s _ t Hs E).
Qed.

Lemma chain_labels_terminal tape :
  forallb terminal_atom tape = true → chain_labels tape = map LTerm tape.
Proof.
  induction tape as [|a rest IH]; [reflexivity|]. cbn [forallb].
  intros H. apply andb_prop in H as [Ha Hrest].
  change (a :: rest) with ([a] ++ rest). rewrite chain_labels_app, map_app.
  rewrite (IH Hrest). f_equal. destruct a; try discriminate; reflexivity.
Qed.

(** A chain for a tape leads to its end for that tape only. *)
Lemma chain_walk h final tape : ∀ x word,
  chain h x (map LTerm tape) →
  objects h !! (x + length tape) = Some (mkState final []) →
  walk h (Some x) word = if decide (word = tape) then final else [].
Proof.
  induction tape as [|b tape IH]; intros x word Hc Hfinal.
  - cbn [length] in Hfinal. rewrite Nat.add_0_r in Hfinal.
    destruct word as [|a word]; cbn [walk].
    + unfold get_payload. rewrite Hfinal. reflexivity.
    + unfold getitem. rewrite Hfinal. cbn. by destruct word.
  - cbn [map] in Hc. apply chain_cons in Hc as [Hx Hc].
    cbn [length] in Hfinal.
    replace (x + S (length tape)) with (S x + length tape) in Hfinal by lia.
    destruct word as [|a word]; cbn [walk].
    + unfold get_payload. rewrite Hx. reflexivity.
    + unfold getitem. rewrite Hx. cbn [mbind option_bind transitions dict_get].
      destruct (decide (LTerm b = LTerm a)) as [[= ->]|Hne].
      * rewrite (IH (S x) word Hc Hfinal).
        destruct (decide (word = tape)) as [->|Hw].
        -- by rewrite decide_True.
        -- rewrite decide_False; [done|]. by intros [= ?].
      * rewrite decide_False; [by destruct word|]. intros [= -> _]. done.
Qed.

(** The syntactic net of a constant tape is a trie of new states that
    leads to the index of the pattern for that tape only; no transition
    leads back to its root. *)
Lemma syntactic_net_trie h flatterm final_label :
  0 < _id h →
  forallb terminal_atom (_terms flatterm) = true →
  let net := _generate_syntactic_net h flatterm final_label in
  net.1 = _id h
  ∧ _id h < _id net.2
  ∧ trie net.2 (_id h) (_id net.2)
  ∧ (∀ s label, _id h ≤ s < _id net.2 →
       getitem net.2 s label ≠ Some net.1)
  ∧ (_terms flatterm ≠ [] → state_bool net.2 net.1 = true)
  ∧ ∀ word, walk net.2 (Some net.1) word
            = if decide (word = _terms flatterm) then [final_label] else [].
Proof.
  intros Hpos Hterm. unfold _generate_syntactic_net, new_State.
  set (h0 := mkHeap _ _).
  assert (Hx : S (_id h) = _id h0) by reflexivity.
  assert (Ho : objects h0 !! _id h = Some (mkState [] []))
    by apply lookup_insert_eq.
  pose proof (syntactic_loop_built (_terms flatterm) h0 (_id h) Hx Ho) as Hb.
  destruct (syntactic_loop h0 (_id h) (_terms flatterm)) as [x1 h1].
  cbn [fst snd] in Hb |- *. destruct Hb as (-> & Hi1 & Ho1 & Hc1 & _).
  rewrite (chain_labels_terminal _ Hterm) in *. rewrite length_map in *.
  set (h2 := set_payload h1 _ _).
  assert (Hid : _id h2 = _id h1) by reflexivity.
  assert (Hc2 : chain h2 (_id h) (map LTerm (_terms flatterm))).
  { eapply chain_frame; [exact Hc1|]. intros s Hs. rewrite length_map in Hs.
    unfold h2, set_payload. cbn [objects]. by rewrite lookup_alter_ne by lia. }
  assert (Hf2 : objects h2 !! (_id h + length (_terms flatterm))
                = Some (mkState [final_label] [])).
  { unfold h2, set_payload. cbn [objects]. rewrite lookup_alter_eq, Ho1.
    reflexivity. }
  assert (Hget : ∀ s label t, _id h ≤ s < _id h2 →
            getitem h2 s label = Some t →
            terminal_label label = true ∧ t = S s ∧ S s < _id h2).
  { intros s label t Hs. unfold getitem.
    destruct (decide (s = _id h + length (_terms flatterm))) as [->|Hne].
    - rewrite Hf2. discriminate.
    - destruct (lookup_lt_is_Some_2 (map LTerm (_terms flatterm))
                  (s - _id h)) as [l Hl]; [rewrite length_map; lia|].
      pose proof (Hc2 _ _ Hl) as Hobj.
      replace (_id h + (s - _id h)) with s in Hobj by lia.
      rewrite Hobj. cbn [mbind option_bind transitions dict_get].
      destruct (decide (l = label)) as [<-|]; [|discriminate].
      intros [= <-]. split; [|split; [reflexivity|lia]].
      apply list_lookup_fmap_Some in Hl as (a & -> & Ha).
      cbn [terminal_label].
      rewrite forallb_forall in Hterm. apply Hterm.
      apply list_elem_of_In. eapply list_elem_of_lookup_2, Ha. }
  split; [reflexivity|]. split; [lia|]. split.
  { split; [exact Hpos|]. split; [lia|]. intros s label t Hs Hg.
    destruct (Hget s label t Hs Hg) as (Hl & -> & Hlt). split; [exact Hl|lia]. }
  split.
  { intros s label Hs Hg. destruct (Hget s label _ Hs Hg) as (_ & Heq & _).
    lia. }
  split.
  { intros Hne. destruct (_terms flatterm) as [|a rest] eqn:Et; [done|].
    cbn [map] in Hc2. apply chain_cons in Hc2 as [Hroot _].
    unfold state_bool, keys. rewrite Hroot. reflexivity. }
  intros word. exact (chain_walk h2 [final_label] _ _ word Hc2 Hf2).
Qed.

Lemma default_state_of i : default 0 (state_of i) = i.
Proof. unfold state_of. destruct (decide (i = 0)) as [->|]; reflexivity. Qed.

Lemma walk_None h word : walk h None word = [].
Proof. by destruct word. Qed.

Lemma next_id_spec h lo hi i a :
  trie h lo hi → i = 0 ∨ lo ≤ i < hi →
  (next_id h i a = 0 ∨ lo ≤ next_id h i a < hi)
  ∧ (i ≠ 0 → getitem h i (LTerm a) = state_of (next_id h i a))
  ∧ (next_id h i a ≠ 0 ↔ i ≠ 0 ∧ is_Some (getitem h i (LTerm a))).
Proof.
  intros (Hlo & _ & Hc) Hi.
  destruct (decide (i = 0)) as [->|Hne].
  - change (next_id h 0 a) with 0.
    split; [by left|]. split; [done|]. split; [done|]. by intros [? _].
  - assert (Hr : lo ≤ i < hi) by (destruct Hi; [done|lia]).
    assert (En : next_id h i a = default 0 (getitem h i (LTerm a))).
    { unfold next_id, state_of. by rewrite decide_False. }
    rewrite En.
    destruct (getitem h i (LTerm a)) as [t|] eqn:E; cbn [default from_option id].
    + destruct (Hc i _ t Hr E) as [_ Ht].
      split; [by right|]. split.
      * intros _. unfold state_of. by rewrite decide_False by lia.
      * split; [intros _; split; [done|eauto]|intros _; lia].
    + split; [by left|]. split; [done|].
      split; [done|]. intros [_ [? ?]]. discriminate.
Qed.

Lemma walk_step h lo hi i a word :
  trie h lo hi → i = 0 ∨ lo ≤ i < hi →
  walk h (state_of i) (a :: word) = walk h (state_of (next_id h i a)) word.
Proof.
  intros Ht Hi. destruct (next_id_spec h lo hi i a Ht Hi) as (_ & Hg & _).
  unfold state_of at 1. destruct (decide (i = 0)) as [->|Hne].
  - cbn [walk]. unfold next_id, state_of. cbn. by rewrite walk_None.
  - cbn [walk]. by rewrite Hg.
Qed.

Section ProductTrie.
Context (h : Heap) (lo1 hi1 lo2 hi2 s1 s2 : nat).
Context (T1 : trie h lo1 hi1) (T2 : trie h lo2 hi2).

Lemma next_state_trie hp lo hi i a :
  agrees h hp → trie h lo hi → i = 0 ∨ lo ≤ i < hi →
  terminal_atom a = true →
  _get_next_state hp (state_of i) (LTerm a) false
  = (state_of (next_id h i a), false).
Proof.
  intros A Ht Hi Ha.
  destruct (next_id_spec h lo hi i a Ht Hi) as (_ & Hg & _).
  unfold _get_next_state. unfold state_of at 1.
  destruct (decide (i = 0)) as [->|Hne]; [reflexivity|].
  assert (Hr : lo ≤ i < hi) by (destruct Hi; [done|lia]).
  pose proof Ht as (_ & Hhi & _).
  rewrite !(getitem_agrees h hp) by (done || lia). rewrite (Hg Hne).
  destruct (state_of (next_id h i a)) as [t|]; [reflexivity|].
  destruct (decide _); [reflexivity|].
  rewrite (trie_no_wildcard h lo hi i Ht Hr).
  assert (Hw : ∀ symbol, _get_symbol_wildcard_label hp i symbol = None).
  { intros symbol. unfold _get_symbol_wildcard_label.
    rewrite (keys_agrees h hp) by (done || lia).
    apply (trie_no_symbol_wildcard h lo hi i symbol Ht Hr). }
  destruct a; try reflexivity. by rewrite Hw.
Qed.

(** The child of a pair for an atom is the pair of the next ids. *)
Lemma child_item_trie hp q a :
  agrees h hp →
  state1 q = state_of (id1 q) → state2 q = state_of (id2 q) →
  depth q = 0%Z → fixed q = 0 →
  id1 q = 0 ∨ lo1 ≤ id1 q < hi1 → id2 q = 0 ∨ lo2 ≤ id2 q < hi2 →
  terminal_atom a = true →
  child_item hp q (LTerm a)
  = Returns (_StateQueueItem_init hp (state_of (next_id h (id1 q) a))
               (state_of (next_id h (id2 q) a))).
Proof.
  intros A E1 E2 Ed Ef H1 H2 Ha. unfold child_item.
  rewrite E1, E2, Ef. cbn [bool_decide decide_rel].
  rewrite !bool_decide_false by lia. rewrite bool_decide_true by reflexivity.
  rewrite (next_state_trie hp lo1 hi1 _ a A T1 H1 Ha).
  rewrite (next_state_trie hp lo2 hi2 _ a A T2 H2 Ha).
  cbn [negb andb]. rewrite andb_false_r. rewrite Ed.
  unfold _StateQueueItem_init.
  cbn [state1 state2 id1 id2 item_payload depth fixed].
  by destruct (label_is_operation (LTerm a)).
Qed.

Lemma labels_trie hp q label :
  agrees h hp →
  state1 q = state_of (id1 q) → state2 q = state_of (id2 q) →
  fixed q = 0 →
  id1 q = 0 ∨ lo1 ≤ id1 q < hi1 → id2 q = 0 ∨ lo2 ≤ id2 q < hi2 →
  label ∈ labels hp q ↔
  ∃ a, label = LTerm a ∧ terminal_atom a = true
       ∧ (next_id h (id1 q) a ≠ 0 ∨ next_id h (id2 q) a ≠ 0).
Proof.
  intros A E1 E2 Ef H1 H2. unfold labels. rewrite E1, E2, Ef.
  destruct (decide (0 = 1)); [lia|]. destruct (decide (0 = 2)); [lia|].
  destruct (decide (0 = 0)); [|lia].
  rewrite app_nil_r, elem_of_remove_dups, elem_of_app.
  assert (Hk : ∀ lo hi i, trie h lo hi → i = 0 ∨ lo ≤ i < hi →
            label ∈ match state_of i with Some s => keys hp s | None => [] end
            ↔ ∃ a, label = LTerm a ∧ terminal_atom a = true
                   ∧ next_id h i a ≠ 0).
  { intros lo hi i Ht Hi. unfold state_of at 1.
    destruct (decide (i = 0)) as [->|Hne].
    - split; [intros Hin; inversion Hin|]. intros (a & _ & _ & Hn).
      by destruct Hn.
    - assert (Hr : lo ≤ i < hi) by (destruct Hi; [done|lia]).
      pose proof Ht as (_ & Hhi & Hc).
      rewrite (keys_agrees h hp) by (done || lia). rewrite keys_getitem.
      split.
      + intros [t Hg]. destruct (Hc i label t Hr Hg) as [Hl _].
        destruct label as [a| |]; try discriminate. exists a.
        split; [reflexivity|]. split; [exact Hl|].
        apply (next_id_spec h lo hi i a Ht Hi). eauto.
      + intros (a & -> & _ & Hn).
        by apply (next_id_spec h lo hi i a Ht Hi) in Hn as [_ ?]. }
  rewrite (Hk lo1 hi1 _ T1 H1), (Hk lo2 hi2 _ T2 H2). split.
  - intros [(a & ? & ? & ?)|(a & ? & ? & ?)]; exists a; auto.
  - intros (a & ? & ? & [?|?]); [left|right]; exists a; auto.
Qed.
End ProductTrie.

Section ProductTrieLoop.
Context (h : Heap) (lo1 hi1 lo2 hi2 s1 s2 : nat).
Context (T1 : trie h lo1 hi1) (T2 : trie h lo2 hi2).

(** A new product state for a pair that has none. *)
Lemma product_trie_new extra p n1 n2 c :
  product_trie h lo1 hi1 lo2 hi2 s1 s2 extra p →
  pn_states p !! (n1, n2, 0%Z) = None →
  n1 = 0 ∨ lo1 ≤ n1 < hi1 → n2 = 0 ∨ lo2 ≤ n2 < hi2 →
  c = _StateQueueItem_init (pn_heap p) (state_of n1) (state_of n2) →
  product_trie h lo1 hi1 lo2 hi2 s1 s2 extra
    (mkProductGen (new_State (item_payload c) (pn_heap p)).2
       (<[(n1, n2, 0%Z) := _id (pn_heap p)]> (pn_states p))
       (pn_queue p ++ [c])).
Proof.
  intros [A Hid [Hroot Hrp] Hst Hinj Honto Hsound Hcomp Hq] Hnone H1 H2 ->.
  assert (Hkey : ∀ key s, pn_states p !! key = Some s → (n1, n2, 0%Z) ≠ key).
  { intros key s Hk <-. congruence. }
  assert (Hlt : ∀ key s, pn_states p !! key = Some s → s < _id (pn_heap p)).
  { intros [[i1 i2] d] s Hk. destruct (Hst _ _ _ _ Hk) as (_ & _ & _ & ? & _).
    lia. }
  assert (Hpay : item_payload
                   (_StateQueueItem_init (pn_heap p) (state_of n1) (state_of n2))
                 = walk h (state_of n1) [] ++ walk h (state_of n2) []).
  { unfold _StateQueueItem_init. cbn [item_payload].
    assert (Hp : ∀ lo hi n, trie h lo hi → n = 0 ∨ lo ≤ n < hi →
              match state_of n with
              | Some s => get_payload (pn_heap p) s
              | None => []
              end = walk h (state_of n) []).
    { intros lo hi n (_ & Hhi & _) Hn. unfold state_of.
      destruct (decide (n = 0)); [reflexivity|]. cbn [walk].
      apply get_payload_agrees; [exact A|]. destruct Hn; lia. }
    by rewrite (Hp lo1 hi1 n1 T1 H1), (Hp lo2 hi2 n2 T2 H2). }
  constructor; cbn [pn_heap pn_states pn_queue].
  - apply agrees_new_State; [exact A|lia].
  - rewrite _id_new_State. lia.
  - split.
    + rewrite lookup_insert_ne; [exact Hroot|]. eapply Hkey, Hroot.
    + rewrite get_payload_new_State, decide_False by lia. exact Hrp.
  - intros i1 i2 d s. rewrite lookup_insert, _id_new_State.
    destruct (decide _) as [[= <- <- <-]|Hne].
    + intros [= <-]. split; [reflexivity|]. split; [exact H1|].
      split; [exact H2|]. split; [lia|]. split.
      * apply alive_new_State. by left.
      * intros _. rewrite get_payload_new_State, decide_True by reflexivity.
        exact Hpay.
    + intros Hk. destruct (Hst _ _ _ _ Hk) as (Hd & Hi1 & Hi2 & Hs & Hal & Hp).
      split; [exact Hd|]. split; [exact Hi1|]. split; [exact Hi2|].
      split; [lia|]. split.
      * apply alive_new_State. by right.
      * rewrite get_payload_new_State, decide_False by lia. exact Hp.
  - intros k1 k2 s. rewrite !lookup_insert.
    destruct (decide _) as [<-|Hn1], (decide _) as [<-|Hn2]; try done.
    + intros [= <-] Hk. apply Hlt in Hk. lia.
    + intros Hk [= <-]. apply Hlt in Hk. lia.
    + apply Hinj.
  - intros s. rewrite _id_new_State. intros Hs.
    destruct (decide (s = _id (pn_heap p))) as [->|Hne].
    + exists (n1, n2, 0%Z). apply lookup_insert_eq.
    + destruct (Honto s) as [key Hk]; [lia|]. exists key.
      rewrite lookup_insert_ne; [exact Hk|]. eapply Hkey, Hk.
  - intros i1 i2 d s label t. rewrite lookup_insert, getitem_new_State.
    destruct (decide _) as [_|Hne].
    + intros [= <-]. by rewrite decide_True.
    + intros Hk. rewrite decide_False by (apply Hlt in Hk; lia). intros Hg.
      destruct (Hsound _ _ _ _ _ _ Hk Hg) as (a & Hl & Ha & Hn & Ht).
      exists a. split; [exact Hl|]. split; [exact Ha|]. split; [exact Hn|].
      rewrite lookup_insert_ne; [exact Ht|]. eapply Hkey, Ht.
  - intros i1 i2 d s. rewrite lookup_insert.
    destruct (decide _) as [[= <- <- <-]|Hne].
    + intros _. right. left. rewrite map_app, elem_of_app. right.
      apply list_elem_of_singleton. unfold item_key, _StateQueueItem_init.
      cbn [id1 id2 depth]. by rewrite !default_state_of.
    + intros Hk. destruct (Hcomp _ _ _ _ Hk) as [Hc|[Hin|Hin]].
      * left. intros a Hn. rewrite getitem_new_State.
        rewrite decide_False by (apply Hlt in Hk; lia). by apply Hc.
      * right. left. rewrite map_app, elem_of_app. by left.
      * right. by right.
  - intros q. rewrite elem_of_app. intros [Hin|Hin].
    + destruct (Hq q Hin) as (? & ? & ? & ? & Hs).
      repeat (split; [assumption|]). rewrite lookup_insert_is_Some'. by right.
    + apply list_elem_of_singleton in Hin as ->.
      unfold _StateQueueItem_init, item_key.
      cbn [state1 state2 id1 id2 depth fixed]. rewrite !default_state_of.
      repeat (split; [reflexivity|]). rewrite lookup_insert_eq. eauto.
Qed.

(** The transition for [a] from the product state of a pair to the product
    state of the next pair. *)
Lemma product_trie_setitem extra p i1 i2 d state a t :
  product_trie h lo1 hi1 lo2 hi2 s1 s2 extra p →
  pn_states p !! (i1, i2, d) = Some state →
  terminal_atom a = true →
  next_id h i1 a ≠ 0 ∨ next_id h i2 a ≠ 0 →
  pn_states p !! (next_id h i1 a, next_id h i2 a, 0%Z) = Some t →
  product_trie h lo1 hi1 lo2 hi2 s1 s2 extra
    (mkProductGen (setitem (pn_heap p) state (LTerm a) t) (pn_states p)
       (pn_queue p)).
Proof.
  intros [A Hid [Hroot Hrp] Hst Hinj Honto Hsound Hcomp Hq] Hstate Ha Hn Ht.
  destruct (Hst _ _ _ _ Hstate) as (_ & _ & _ & Hbound & _).
  constructor; cbn [pn_heap pn_states pn_queue].
  - apply agrees_setitem; [exact A|lia].
  - exact Hid.
  - split; [exact Hroot|]. rewrite get_payload_setitem. exact Hrp.
  - intros j1 j2 e s Hk.
    destruct (Hst _ _ _ _ Hk) as (Hd & Hi1 & Hi2 & Hs & Hal & Hp).
    split; [exact Hd|]. split; [exact Hi1|]. split; [exact Hi2|].
    split; [exact Hs|]. split; [by apply alive_setitem|].
    rewrite get_payload_setitem. exact Hp.
  - exact Hinj.
  - exact Honto.
  - intros j1 j2 e s label t0 Hk. rewrite getitem_setitem.
    destruct (decide _) as [(<- & <- & _)|_].
    + intros [= <-]. pose proof (Hinj _ _ _ Hk Hstate) as [= -> -> ->].
      exists a. auto.
    + intros Hg. exact (Hsound _ _ _ _ _ _ Hk Hg).
  - intros j1 j2 e s Hk. destruct (Hcomp _ _ _ _ Hk) as [Hc|Hin]; [|by right].
    left. intros b Hb. rewrite getitem_setitem.
    destruct (decide _); [eauto|]. by apply Hc.
  - exact Hq.
Qed.

(** One round of [for label in labels] keeps the invariant and leaves the
    transition for the label in place. *)
Lemma product_label_step_trie extra q state p a p' :
  product_trie h lo1 hi1 lo2 hi2 s1 s2 extra p →
  state1 q = state_of (id1 q) → state2 q = state_of (id2 q) →
  depth q = 0%Z → fixed q = 0 →
  pn_states p !! item_key q = Some state →
  terminal_atom a = true →
  next_id h (id1 q) a ≠ 0 ∨ next_id h (id2 q) a ≠ 0 →
  product_label_step q state p (LTerm a) = Returns p' →
  product_trie h lo1 hi1 lo2 hi2 s1 s2 extra p'
  ∧ pn_states p' !! item_key q = Some state
  ∧ is_Some (getitem (pn_heap p') state (LTerm a))
  ∧ ∀ l, is_Some (getitem (pn_heap p) state l) →
         is_Some (getitem (pn_heap p') state l).
Proof.
  intros Hp E1 E2 Ed Ef Hstate Ha Hn. unfold product_label_step.
  unfold item_key in Hstate.
  destruct (pt_states _ _ _ _ _ _ _ _ _ Hp _ _ _ _ Hstate)
    as (_ & H1 & H2 & Hbound & Hal & _).
  rewrite (child_item_trie h lo1 hi1 lo2 hi2 T1 T2 (pn_heap p) q a
             (pt_agrees _ _ _ _ _ _ _ _ _ Hp) E1 E2 Ed Ef H1 H2 Ha).
  cbn [mbind Result_bind].
  set (c := _StateQueueItem_init _ _ _).
  assert (Hkc : item_key c
                = (next_id h (id1 q) a, next_id h (id2 q) a, 0%Z)).
  { unfold c, item_key, _StateQueueItem_init. cbn [id1 id2 depth].
    by rewrite !default_state_of. }
  rewrite Hkc.
  destruct (next_id_spec h lo1 hi1 (id1 q) a T1 H1) as (Hn1 & _).
  destruct (next_id_spec h lo2 hi2 (id2 q) a T2 H2) as (Hn2 & _).
  destruct (pn_states p !! (next_id h (id1 q) a, next_id h (id2 q) a, 0%Z))
    as [t|] eqn:Et.
  - rewrite Et. cbn [or_raise mbind Result_bind]. intros [= <-].
    cbn [pn_heap pn_states pn_queue].
    split; [eapply product_trie_setitem; eassumption|].
    split; [exact Hstate|]. split.
    + rewrite getitem_setitem, decide_True by done. eauto.
    + intros l Hl. rewrite getitem_setitem. destruct (decide _); eauto.
  - pose proof (product_trie_new extra p _ _ c Hp Et Hn1 Hn2 eq_refl) as Hp1.
    cbn [new_State pn_heap pn_states pn_queue].
    rewrite lookup_insert_eq. cbn [or_raise mbind Result_bind].
    intros [= <-]. cbn [pn_heap pn_states pn_queue].
    assert (Hstate1 :
      <[(next_id h (id1 q) a, next_id h (id2 q) a, 0%Z) := _id (pn_heap p)]>
        (pn_states p) !! (id1 q, id2 q, depth q) = Some state).
    { rewrite lookup_insert_ne; [exact Hstate|]. intros Heq.
      rewrite Heq in Et. congruence. }
    split.
    + refine (product_trie_setitem extra _ _ _ _ state a _ Hp1 Hstate1 Ha Hn _).
      apply lookup_insert_eq.
    + split; [exact Hstate1|].
      assert (Hal1 : alive (new_State (item_payload c) (pn_heap p)).2 state)
        by (apply alive_new_State; by right).
      split.
      * rewrite (getitem_setitem (new_State (item_payload c) (pn_heap p)).2).
        rewrite decide_True by done. eauto.
      * intros l Hl.
        rewrite (getitem_setitem (new_State (item_payload c) (pn_heap p)).2).
        destruct (decide _); [eauto|].
        rewrite getitem_new_State, decide_False by lia. exact Hl.
Qed.
End ProductTrieLoop.

Section ForEachEstablishes.
Context {St L : Type} (body : St → L → Result St).
Context (Inv : St → Prop) (P : L → St → Prop).

(** A [for] loop whose rounds each establish what they are for, and keep
    what the earlier rounds established. *)
Lemma for_each_establishes (ls : list L) :
  (∀ s l s', l ∈ ls → Inv s → body s l = Returns s' →
     Inv s' ∧ P l s' ∧ ∀ l', P l' s → P l' s') →
  ∀ s s', Inv s → for_each body s ls = Returns s' →
    Inv s' ∧ (∀ l, l ∈ ls → P l s') ∧ ∀ l', P l' s → P l' s'.
Proof.
  induction ls as [|l ls IH]; intros Hstep s s' Hs Hf; simpl in Hf.
  - injection Hf as <-. split; [exact Hs|]. split; [|done].
    intros l Hl. inversion Hl.
  - destruct (body s l) as [s1| |] eqn:Hb; try discriminate. cbn in Hf.
    destruct (Hstep s l s1) as (Hs1 & Hl1 & Hmono1); [left|exact Hs|exact Hb|].
    destruct (IH (λ s0 l0 s0' Hl0, Hstep s0 l0 s0'
                    (list_elem_of_further _ _ _ Hl0)) s1 s' Hs1 Hf)
      as (Hs' & Hall & Hmono).
    split; [exact Hs'|]. split; [|by auto].
    intros l0 Hl0. apply elem_of_cons in Hl0 as [->|Hl0]; auto.
Qed.
End ForEachEstablishes.

Section ProductTrieNet.
Context (h : Heap) (lo1 hi1 lo2 hi2 s1 s2 : nat).
Context (T1 : trie h lo1 hi1) (T2 : trie h lo2 hi2).
Context (Hs1 : lo1 ≤ s1 < hi1) (Hs2 : lo2 ≤ s2 < hi2).

Lemma product_body_left p r :
  product_body p = Returns (inr r) → r = p ∧ pn_queue p = [].
Proof.
  unfold product_body. destruct (pn_queue p) as [|current queue];
    [intros [= <-]; done|].
  destruct (pn_states p !! _); cbn [or_raise mbind Result_bind];
    [|discriminate].
  destruct (for_each _ _ _); cbn [mbind Result_bind]; discriminate.
Qed.

Lemma product_body_trie p p' :
  product_trie h lo1 hi1 lo2 hi2 s1 s2 [] p →
  product_body p = Returns (inl p') →
  product_trie h lo1 hi1 lo2 hi2 s1 s2 [] p'.
Proof.
  intros Hp. unfold product_body.
  destruct (pn_queue p) as [|q queue] eqn:Eq; [discriminate|].
  destruct (pn_states p !! item_key q) as [state|] eqn:Es;
    cbn [or_raise mbind Result_bind]; [|discriminate].
  destruct (for_each _ _ _) as [p1| |] eqn:Ef; cbn; try discriminate.
  intros [= <-].
  destruct (pt_queue _ _ _ _ _ _ _ _ _ Hp q) as (E1 & E2 & Ed & Ef0 & _);
    [rewrite Eq; left|].
  pose proof Es as Es'. unfold item_key in Es'.
  destruct (pt_states _ _ _ _ _ _ _ _ _ Hp _ _ _ _ Es')
    as (_ & H1 & H2 & _).
  assert (Hp0 : product_trie h lo1 hi1 lo2 hi2 s1 s2 [item_key q]
                  (mkProductGen (pn_heap p) (pn_states p) queue)).
  { destruct Hp as [A Hid Hroot Hst Hinj Honto Hsound Hcomp Hq].
    constructor; cbn [pn_heap pn_states pn_queue]; try assumption.
    - intros i1 i2 d s Hk. destruct (Hcomp _ _ _ _ Hk) as [Hc|[Hin|Hin]].
      + by left.
      + rewrite Eq in Hin. cbn [map] in Hin.
        apply elem_of_cons in Hin as [->|Hin].
        * right. right. left.
        * right. by left.
      + inversion Hin.
    - intros q0 Hq0. apply Hq. rewrite Eq. by right. }
  destruct (for_each_establishes (product_label_step q state)
              (λ p0, product_trie h lo1 hi1 lo2 hi2 s1 s2 [item_key q] p0
                     ∧ pn_states p0 !! item_key q = Some state)
              (λ l p0, is_Some (getitem (pn_heap p0) state l))
              (labels (pn_heap p) q)) with
    (s := mkProductGen (pn_heap p) (pn_states p) queue) (s' := p1)
    as ([Hp1 Hstate] & Hall & _).
  - intros p0 l p2 Hl [H0 Hst0] E.
    apply (labels_trie h lo1 hi1 lo2 hi2 T1 T2 (pn_heap p) q l
             (pt_agrees _ _ _ _ _ _ _ _ _ Hp) E1 E2 Ef0 H1 H2) in Hl
      as (a & -> & Ha & Hn).
    destruct (product_label_step_trie h lo1 hi1 lo2 hi2 s1 s2 T1 T2
                [item_key q] q state p0 a p2 H0 E1 E2 Ed Ef0 Hst0 Ha Hn E)
      as (H2' & Hst2 & Hset & Hmono).
    split; [by split|]. split; [exact Hset|exact Hmono].
  - split; [exact Hp0|exact Es].
  - exact Ef.
  - destruct Hp1 as [A Hid Hroot Hst Hinj Honto Hsound Hcomp Hq].
    constructor; try assumption.
    intros i1 i2 d s Hk. destruct (Hcomp _ _ _ _ Hk) as [Hc|[Hin|Hin]].
    + by left.
    + right. by left.
    + apply list_elem_of_singleton in Hin. left. intros a Hn.
      unfold item_key in Hin. injection Hin as -> -> ->.
      unfold item_key in Hstate. rewrite Hstate in Hk. injection Hk as <-.
      apply Hall.
      apply (labels_trie h lo1 hi1 lo2 hi2 T1 T2 (pn_heap p) q _
               (pt_agrees _ _ _ _ _ _ _ _ _ Hp) E1 E2 Ef0 H1 H2).
      destruct (next_id_spec h lo1 hi1 (id1 q) a T1 H1) as (_ & _ & Hi1).
      destruct (next_id_spec h lo2 hi2 (id2 q) a T2 H2) as (_ & _ & Hi2).
      exists a. split; [reflexivity|]. split; [|exact Hn].
      destruct Hn as [Hn|Hn].
      * apply Hi1 in Hn as [Hne [t Ht]].
        destruct T1 as (_ & _ & Hc1).
        destruct (Hc1 (id1 q) (LTerm a) t) as [Hl _];
          [destruct H1; [done|lia]|exact Ht|].
        exact Hl.
      * apply Hi2 in Hn as [Hne [t Ht]].
        destruct T2 as (_ & _ & Hc2).
        destruct (Hc2 (id2 q) (LTerm a) t) as [Hl _];
          [destruct H2; [done|lia]|exact Ht|].
        exact Hl.
Qed.

Lemma product_start_trie :
  product_trie h lo1 hi1 lo2 hi2 s1 s2 [] (product_start h s1 s2).2.
Proof.
  unfold product_start.
  change (new_State [] h) with (_id h, (new_State [] h).2).
  cbn iota beta. cbn [snd].
  assert (Hpos1 : s1 ≠ 0) by (destruct T1; lia).
  assert (Hpos2 : s2 ≠ 0) by (destruct T2; lia).
  assert (Hk : item_key (_StateQueueItem_init (new_State [] h).2 (Some s1)
                           (Some s2)) = (s1, s2, 0%Z)) by reflexivity.
  constructor; cbn [pn_heap pn_states pn_queue].
  - apply agrees_new_State; [apply agrees_refl|lia].
  - rewrite _id_new_State. lia.
  - split; [apply lookup_singleton_eq|].
    by rewrite get_payload_new_State, decide_True.
  - intros i1 i2 d s. rewrite lookup_singleton_Some, _id_new_State.
    intros [[= <- <- <-] <-]. split; [reflexivity|].
    split; [by right|]. split; [by right|]. split; [lia|].
    split; [apply alive_new_State; by left|done].
  - intros k1 k2 s. rewrite !lookup_singleton_Some.
    intros [<- _] [<- _]. reflexivity.
  - intros s. rewrite _id_new_State. intros Hs. exists (s1, s2, 0%Z).
    rewrite lookup_singleton_Some. split; [reflexivity|lia].
  - intros i1 i2 d s label t. rewrite lookup_singleton_Some.
    intros [_ <-]. by rewrite getitem_new_State, decide_True.
  - intros i1 i2 d s. rewrite lookup_singleton_Some. intros [<- _].
    right. left. cbn [map]. rewrite Hk. left.
  - intros q Hq. apply list_elem_of_singleton in Hq as ->.
    rewrite Hk. unfold _StateQueueItem_init.
    cbn [state1 state2 id1 id2 depth fixed default from_option id].
    unfold state_of. rewrite !decide_False by done.
    repeat (split; [reflexivity|]). rewrite lookup_singleton_eq. eauto.
Qed.

(** In the product of two tries a non-empty tape leads to the payloads it
    leads to in the one and in the other. *)
Lemma product_net_trie root h' :
  (∀ s label, lo1 ≤ s < hi1 → getitem h s label ≠ Some s1) →
  _product_net h s1 s2 = Returns (root, h') →
  root = _id h
  ∧ _id h < _id h'
  ∧ trie h' (_id h) (_id h')
  ∧ agrees h h'
  ∧ (∀ s label, _id h ≤ s < _id h' → getitem h' s label ≠ Some root)
  ∧ (state_bool h s1 = true → state_bool h' root = true)
  ∧ (∀ word, walk h' (Some root) word
             = match word with
               | [] => []
               | _ => walk h (Some s1) word ++ walk h (Some s2) word
               end).
Proof.
  intros Hno. unfold _product_net.
  pose proof T1 as (Hlo1 & Hhi1 & _). pose proof T2 as (Hlo2 & Hhi2 & _).
  pose proof product_start_trie as Hstart.
  assert (Hr : (product_start h s1 s2).1 = _id h) by reflexivity.
  destruct (product_start h s1 s2) as [root0 start]. cbn [fst snd] in *.
  subst root0.
  destruct (while_loop _ product_body start) as [p| |] eqn:Ew;
    cbn [mbind Result_bind]; try discriminate.
  intros [= <- <-]. apply while_loop_returns in Ew.
  destruct (iterate_invariant product_body
              (product_trie h lo1 hi1 lo2 hi2 s1 s2 []) product_body_trie
              _ _ _ Hstart Ew) as (p_last & Hp & Hbody).
  apply product_body_left in Hbody as [-> Hqueue].
  destruct Hp as [A Hid [Hroot Hrp] Hst Hinj Honto Hsound Hcomp Hq].
  assert (Hcomplete : ∀ i1 i2 d s a, pn_states p_last !! (i1, i2, d) = Some s →
            next_id h i1 a ≠ 0 ∨ next_id h i2 a ≠ 0 →
            is_Some (getitem (pn_heap p_last) s (LTerm a))).
  { intros i1 i2 d s a Hk Hn. destruct (Hcomp _ _ _ _ Hk) as [Hc|[Hin|Hin]].
    - by apply Hc.
    - rewrite Hqueue in Hin. inversion Hin.
    - inversion Hin. }
  assert (Hpos : 0 < _id h) by lia.
  assert (Hnoroot : ∀ s label, _id h ≤ s < _id (pn_heap p_last) →
            getitem (pn_heap p_last) s label ≠ Some (_id h)).
  { intros s label Hs Hg. destruct (Honto s Hs) as [[[i1 i2] d] Hk].
    destruct (Hsound _ _ _ _ _ _ Hk Hg) as (a & _ & _ & _ & Ht).
    pose proof (Hinj _ _ _ Ht Hroot) as [= Hn1 _].
    destruct (Hst _ _ _ _ Hk) as (_ & Hi1 & _).
    destruct (next_id_spec h lo1 hi1 i1 a T1 Hi1) as (_ & Hg1 & Hz).
    assert (Hne : i1 ≠ 0).
    { intros ->. change (next_id h 0 a) with 0 in Hn1. lia. }
    specialize (Hg1 Hne). rewrite Hn1 in Hg1. unfold state_of in Hg1.
    rewrite decide_False in Hg1 by lia.
    eapply Hno; [|exact Hg1]. destruct Hi1; [done|lia]. }
  split; [reflexivity|]. split; [exact Hid|]. split.
  { split; [exact Hpos|]. split; [lia|]. intros s label t Hs Hg.
    destruct (Honto s Hs) as [[[i1 i2] d] Hk].
    destruct (Hsound _ _ _ _ _ _ Hk Hg) as (a & -> & Ha & _ & Ht).
    split; [exact Ha|]. by destruct (Hst _ _ _ _ Ht) as (_ & _ & _ & ? & _). }
  split; [exact A|]. split; [exact Hnoroot|]. split.
  { unfold state_bool. intros Hb.
    destruct (keys h s1) as [|label ks] eqn:Ek; [discriminate|].
    assert (Hin : label ∈ keys h s1) by (rewrite Ek; left).
    apply keys_getitem in Hin as [t Ht].
    destruct T1 as (Hlo & Hhi & Hc1).
    destruct (Hc1 s1 label t Hs1 Ht) as [Hl _].
    destruct label as [a| |]; try discriminate.
    destruct (Hcomplete s1 s2 0%Z (_id h) a Hroot) as [t' Ht'].
    { left. unfold next_id, state_of. rewrite decide_False by lia.
      rewrite Ht. cbn. destruct (Hc1 s1 _ t Hs1 Ht). lia. }
    assert (Hin' : LTerm a ∈ keys (pn_heap p_last) (_id h))
      by (apply keys_getitem; eauto).
    destruct (keys (pn_heap p_last) (_id h)); [inversion Hin'|reflexivity]. }
  assert (Hstep : ∀ i1 i2 d s a, pn_states p_last !! (i1, i2, d) = Some s →
            getitem (pn_heap p_last) s (LTerm a)
            = (if decide (next_id h i1 a = 0 ∧ next_id h i2 a = 0) then None
               else pn_states p_last
                    !! (next_id h i1 a, next_id h i2 a, 0%Z))
            ∧ (is_Some (getitem (pn_heap p_last) s (LTerm a)) →
               is_Some (pn_states p_last
                        !! (next_id h i1 a, next_id h i2 a, 0%Z)))).
  { intros i1 i2 d s a Hk.
    destruct (getitem (pn_heap p_last) s (LTerm a)) as [t|] eqn:Eg.
    - destruct (Hsound _ _ _ _ _ _ Hk Eg) as (b & [= <-] & _ & Hn & Ht).
      rewrite decide_False by lia. split; [by rewrite Ht|]. rewrite Ht. eauto.
    - split; [|intros [? ?]; discriminate].
      destruct (decide _) as [_|Hn]; [reflexivity|].
      destruct (Hcomplete i1 i2 d s a Hk) as [t Ht]; [lia|]. congruence. }
  assert (Hwalk : ∀ word i1 i2 d s, pn_states p_last !! (i1, i2, d) = Some s →
            s ≠ _id h →
            walk (pn_heap p_last) (Some s) word
            = walk h (state_of i1) word ++ walk h (state_of i2) word).
  { induction word as [|a word IH]; intros i1 i2 d s Hk Hne.
    - cbn [walk]. destruct (Hst _ _ _ _ Hk) as (_ & _ & _ & _ & _ & Hp).
      exact (Hp Hne).
    - destruct (Hst _ _ _ _ Hk) as (_ & Hi1 & Hi2 & Hs & _).
      rewrite (walk_step h lo1 hi1 i1 a word T1 Hi1).
      rewrite (walk_step h lo2 hi2 i2 a word T2 Hi2).
      cbn [walk]. destruct (Hstep _ _ _ _ a Hk) as [-> _].
      destruct (decide _) as [[-> ->]|Hn].
      + change (state_of 0) with (@None nat). by rewrite !walk_None.
      + destruct (pn_states p_last
                  !! (next_id h i1 a, next_id h i2 a, 0%Z)) as [t|] eqn:Et.
        * apply (IH _ _ _ _ Et). intros ->.
          destruct (Hstep _ _ _ _ a Hk) as [Hg _].
          rewrite decide_False, Et in Hg by exact Hn.
          exact (Hnoroot s (LTerm a) Hs Hg).
        * destruct (Hcomplete i1 i2 d s a Hk) as [t Ht]; [lia|].
          destruct (Hstep _ _ _ _ a Hk) as [Hg _].
          rewrite decide_False, Et in Hg by exact Hn. congruence. }
  intros [|a word]; [exact Hrp|].
  assert (E1 : state_of s1 = Some s1)
    by (unfold state_of; destruct T1; by rewrite decide_False by lia).
  assert (E2 : state_of s2 = Some s2)
    by (unfold state_of; destruct T2; by rewrite decide_False by lia).
  rewrite <- E1 at 1. rewrite <- E2 at 1.
  rewrite (walk_step h lo1 hi1 s1 a word T1 (or_intror Hs1)).
  rewrite (walk_step h lo2 hi2 s2 a word T2 (or_intror Hs2)).
  cbn [walk]. destruct (Hstep _ _ _ _ a Hroot) as [-> _].
  destruct (decide _) as [[-> ->]|Hn].
  - change (state_of 0) with (@None nat). by rewrite !walk_None.
  - destruct (pn_states p_last
              !! (next_id h s1 a, next_id h s2 a, 0%Z)) as [t|] eqn:Et.
    + apply (Hwalk _ _ _ _ _ Et). intros ->.
      destruct (Hstep _ _ _ _ a Hroot) as [Hg _].
      rewrite decide_False, Et in Hg by exact Hn.
      refine (Hnoroot (_id h) (LTerm a) _ Hg). lia.
    + destruct (Hcomplete s1 s2 0%Z (_id h) a Hroot) as [t Ht]; [lia|].
      destruct (Hstep _ _ _ _ a Hroot) as [Hg _].
      rewrite decide_False, Et in Hg by exact Hn. congruence.
Qed.
End ProductTrieNet.

Lemma matching_from_app {T} (ps : list (Term * option T)) pl word : ∀ i,
  matching_from i (ps ++ [pl]) word
  = matching_from i ps word
    ++ (if decide (word = _terms (to_flatterm pl.1)) then [i + length ps]
        else []).
Proof.
  induction ps as [|p ps IH]; intros i; cbn [app matching_from length].
  - by rewrite Nat.add_0_r, app_nil_r.
  - rewrite IH, <- app_assoc. by replace (S i + length ps) with (i + S (length ps)) by lia.
Qed.

Lemma matching_from_nil {T} (ps : list (Term * option T)) : ∀ i,
  Forall (λ pl, _terms (to_flatterm pl.1) ≠ []) ps →
  matching_from i ps [] = [].
Proof.
  induction ps as [|p ps IH]; intros i Hall; [reflexivity|].
  apply Forall_cons in Hall as [Hp Hall]. cbn [matching_from].
  rewrite decide_False by congruence. by apply IH.
Qed.

Lemma trie_agrees h h' lo hi :
  trie h lo hi → agrees h h' → _id h ≤ _id h' → trie h' lo hi.
Proof.
  intros (Hlo & Hhi & Hc) A Hle. split; [exact Hlo|]. split; [lia|].
  intros s label t Hs. rewrite (getitem_agrees h h') by (done || lia).
  by apply Hc.
Qed.

Lemma trie_net_init {T} : trie_net (@DiscriminationNet_init T).
Proof.
  split; [apply net_ok_init|]. split; [constructor|].
  exists 1, 2. split.
  { split; [lia|]. split; [cbn; lia|]. intros s label t Hs.
    assert (s = 1) as -> by lia. discriminate. }
  split; [cbn; lia|]. split.
  { intros s label Hs. assert (s = 1) as -> by lia. discriminate. }
  split; [done|]. intros [|a word]; [reflexivity|].
  exact (walk_None _ word).
Qed.

(** [add] of a constant pattern keeps the net a trie of its patterns. *)
Lemma trie_net_add {T} (self : DiscriminationNet T) pattern label :
  trie_net self → constant_pattern pattern →
  trie_net (DiscriminationNet_add self pattern label).1.
Proof.
  intros (Hok & Hne & lo & hi & Ht & Hr & Hno & Hsb & Hwalk)
         (Hsyn & Hconst & Htape).
  split; [by apply net_ok_add|].
  destruct Hok as (g & G & Halive & Hg).
  pose proof Ht as (Hlo & Hhi & _).
  unfold DiscriminationNet_add.
  assert (Ep : pattern_net (net_heap self) pattern (length (_patterns self))
               = Returns (_generate_syntactic_net (net_heap self)
                            (to_flatterm pattern) (length (_patterns self)))).
  { unfold pattern_net. by rewrite Hsyn. }
  pose proof (syntactic_net_trie (net_heap self) (to_flatterm pattern)
                (length (_patterns self)) ltac:(lia)
                (constant_subject_tape _ Hconst)) as Hnet.
  rewrite Ep.
  destruct (_generate_syntactic_net (net_heap self) (to_flatterm pattern)
              (length (_patterns self))) as [r2 h1] eqn:En.
  cbn [fst snd] in Hnet.
  destruct Hnet as (-> & Hid2 & Ht2 & Hno2 & Hsb2 & Hwalk2).
  destruct (pattern_net_grows g _ _ _ _ _ G Ep) as (g1 & Gr1 & Hn & Hgn).
  destruct (extends_syntactic_net _ _ _ _ _ En) as [[A Hle] _].
  pose proof (trie_agrees _ _ _ _ Ht A Hle) as Ht1.
  assert (Hsb1 : state_bool h1 (_root self)
                 = state_bool (net_heap self) (_root self)).
  { unfold state_bool. by rewrite (keys_agrees (net_heap self) h1) by (done || lia). }
  assert (Hall : Forall (λ pl : Term * option T, _terms (to_flatterm pl.1) ≠ [])
                   (_patterns self ++ [(pattern, label)])).
  { apply Forall_app. split; [exact Hne|]. by constructor. }
  destruct (state_bool h1 (_root self)) eqn:Eb.
  - destruct (proj2 Gr1 _ Halive) as [Hr1 Hgr1].
    destruct (_product_net_returns g1 h1 (_root self) (_id (net_heap self))
                (proj1 Gr1) Hr1 Hn) as (root & h2 & gp & Epn & _);
      [congruence|].
    rewrite Epn. cbn [fst net_heap _root _patterns].
    split; [exact Hall|].
    destruct (product_net_trie h1 lo hi (_id (net_heap self)) (_id h1)
                (_root self) (_id (net_heap self)) Ht1 Ht2 Hr
                ltac:(lia) root h2) as (-> & Hid & Ht' & _ & Hno' & Hsb' & Hw');
      [|exact Epn|].
    { intros s l Hs. rewrite (getitem_agrees (net_heap self) h1) by (done || lia).
      by apply Hno. }
    exists (_id h1), (_id h2). split; [exact Ht'|]. split; [lia|].
    split; [exact Hno'|]. split; [intros _; by apply Hsb'|].
    intros word. rewrite Hw', matching_from_app. destruct word as [|a word].
    + rewrite (matching_from_nil _ _ Hne).
      by rewrite decide_False by (cbn [fst]; congruence).
    + rewrite (walk_agrees (net_heap self) h1 lo hi) by assumption.
      rewrite Hwalk, Hwalk2. reflexivity.
  - cbn [fst net_heap _root _patterns]. split; [exact Hall|].
    assert (Hnil : _patterns self = []).
    { destruct (_patterns self) as [|p ps] eqn:E; [reflexivity|].
      rewrite Hsb in Hsb1 by done. discriminate. }
    exists (_id (net_heap self)), (_id h1). split; [exact Ht2|].
    split; [lia|]. split; [exact Hno2|]. split; [intros _; by apply Hsb2|].
    intros word. rewrite Hwalk2, matching_from_app, Hnil. reflexivity.
Qed.

Lemma trie_net_added {T} (patterns : list (Term * option T)) :
  ∀ self, trie_net self → Forall (λ pl, constant_pattern pl.1) patterns →
    trie_net (added self patterns)
    ∧ _patterns (added self patterns) = _patterns self ++ patterns.
Proof.
  unfold added.
  induction patterns as [|[pattern label] ps IH]; intros self Hs Hall;
    cbn [fold_left].
  - by rewrite app_nil_r.
  - apply Forall_cons in Hall as [Hp Hall]. cbn [fst snd] in *.
    destruct (IH _ (trie_net_add self pattern label Hs Hp) Hall) as [Ht ->].
    split; [exact Ht|].
    assert (Hpat : _patterns (DiscriminationNet_add self pattern label).1
                   = _patterns self ++ [(pattern, label)]).
    { unfold DiscriminationNet_add.
      destruct (pattern_net _ _ _) as [[net h1]| |]; [|reflexivity..].
      destruct (state_bool _ _); [|reflexivity].
      destruct (_product_net _ _ _) as [[root h2]| |]; reflexivity. }
    rewrite Hpat, <- app_assoc. reflexivity.
Qed.

(** A net of syntactic patterns without wildcards finds exactly the
    patterns that are the subject: for a subject without wildcards [_match]
    (in the mode [match] uses) returns the indices of the patterns whose
    tape is the tape of the subject, in the order the patterns were
    added. *)
Theorem constant_patterns_matched {T} (patterns : list (Term * option T))
    (subject : Term) :
  Forall (λ pl, constant_pattern pl.1) patterns →
  constant_subject subject = true →
  _match (added DiscriminationNet_init patterns) subject false false
  = Returns (matching_from 0 patterns (_terms (to_flatterm subject))).
Proof.
  intros Hall Hsub.
  destruct (trie_net_added patterns _ trie_net_init Hall)
    as [(_ & _ & lo & hi & Ht & Hr & _ & _ & Hwalk) Hpat].
  cbn [_patterns DiscriminationNet_init app] in Hpat.
  unfold _match.
  set (net := added DiscriminationNet_init patterns) in *.
  change (match_loop (net_heap net) false false
            (mkMatchState (_root net) 0 (get_payload (net_heap net) (_root net)))
            (_terms (to_flatterm subject)))
    with (read (net_heap net) (_root net) (_terms (to_flatterm subject))).
  rewrite (read_walk _ lo hi _ _ Ht Hr (constant_subject_tape _ Hsub)).
  by rewrite Hwalk, Hpat.
Qed.

Lemma constant_patterns_matched_witness :
  let f := mkOperationClass "f" (mkArity 1 false) false false in
  let a := ESymbol "a" [] in
  let b := ESymbol "b" ["N"] in
  let patterns : list (Term * option nat) :=
    [(inl (EOperation f [a]), None); (inl (EOperation f [b]), None);
     (inl a, None); (inr (FlatTerm_init (inl (EOperation f [a]))), None)] in
  Forall (λ pl, constant_pattern pl.1) patterns
  ∧ _match (added DiscriminationNet_init patterns) (inl (EOperation f [a]))
      false false
    = Returns [0; 3].
Proof.
  intros f a b patterns.
  assert (Hall : Forall (λ pl, constant_pattern pl.1) patterns).
  { repeat constructor; discriminate. }
  split; [exact Hall|].
  exact (constant_patterns_matched patterns (inl (EOperation f [a])) Hall
           eq_refl).
Defined.


Lemma first_found_ext f g word :
  (∀ w, f w = g w) → first_found f word = first_found g word.
Proof.
  revert f g. induction word as [|a rest IH]; intros f g Hfg; cbn [first_found].
  - apply Hfg.
  - rewrite (Hfg []). destruct (g []); [|reflexivity].
    apply IH. intros w. apply Hfg.
Qed.

Lemma first_found_nothing f word :
  (∀ w, f w = []) → first_found f word = [].
Proof.
  revert f. induction word as [|a rest IH]; intros f Hf; cbn [first_found].
  - apply Hf.
  - rewrite (Hf []). apply IH. intros w. apply Hf.
Qed.

(** With [first] a step of [_match] in a trie returns the payload of the
    state when it has one, and is the lookup of the atom otherwise. *)
Lemma match_step_trie_first h lo hi s a r :
  trie h lo hi → lo ≤ s < hi → terminal_atom a = true →
  match_step h false true (mkMatchState s 0 r) a
  = match get_payload h s with
    | [] =>
        match getitem h s (LTerm a) with
        | Some t => Returns (inl (mkMatchState t 0 (r ++ get_payload h t)))
        | None => Returns (inr [])
        end
    | result => Returns (inr result)
    end.
Proof.
  intros Ht Hs Ha. unfold match_step. cbn [m_depth m_state m_result andb].
  change (0 <? 0)%Z with false. cbn iota.
  destruct (get_payload h s) as [|i result] eqn:Ep.
  - rewrite bool_decide_true by reflexivity. cbn [negb].
    destruct (getitem h s (LTerm a)) as [t|]; [reflexivity|].
    rewrite (trie_no_wildcard h lo hi s Ht Hs).
    rewrite (trie_no_symbol_wildcard h lo hi s a Ht Hs).
    cbn [default from_option id].
    rewrite (trie_no_wildcard h lo hi s Ht Hs).
    destruct a; try discriminate; reflexivity.
  - rewrite bool_decide_false by discriminate. reflexivity.
Qed.

(** In a trie [_match] with [first] stops at the first state with a
    payload. *)
Lemma match_loop_first h lo hi word : ∀ s r,
  trie h lo hi → lo ≤ s < hi → forallb terminal_atom word = true →
  match_loop h false true (mkMatchState s 0 r) word
  = Returns (first_found (walk h (Some s)) word).
Proof.
  induction word as [|a rest IH]; intros s r Ht Hs Hw; [reflexivity|].
  cbn [forallb] in Hw. apply andb_prop in Hw as [Ha Hrest].
  cbn [match_loop first_found walk].
  rewrite (match_step_trie_first h lo hi s a _ Ht Hs Ha).
  destruct (get_payload h s) as [|i result]; [|reflexivity].
  destruct (getitem h s (LTerm a)) as [t|] eqn:E; cbn [mbind Result_bind].
  - apply IH; [exact Ht| |exact Hrest].
    destruct Ht as (_ & _ & Hc). by destruct (Hc s _ t Hs E).
  - rewrite first_found_nothing; [reflexivity|]. intros w. apply walk_None.
Qed.

(** With [first], as [SequenceMatcher.match] calls it, a net of syntactic
    patterns without wildcards reports the patterns that are the shortest
    prefix of the subject's tape that is a pattern, and no longer one: it
    returns the indices of the patterns whose tape is that prefix, or of
    those whose tape is the whole tape when no shorter prefix is a
    pattern. *)
Theorem constant_patterns_first_match {T}
    (patterns : list (Term * option T)) (subject : Term) :
  Forall (λ pl, constant_pattern pl.1) patterns →
  constant_subject subject = true →
  _match (added DiscriminationNet_init patterns) subject false true
  = Returns (first_found (matching_from 0 patterns)
               (_terms (to_flatterm subject))).
Proof.
  intros Hall Hsub.
  destruct (trie_net_added patterns _ trie_net_init Hall)
    as [(_ & _ & lo & hi & Ht & Hr & _ & _ & Hwalk) Hpat].
  cbn [_patterns DiscriminationNet_init app] in Hpat.
  unfold _match.
  rewrite (match_loop_first _ lo hi _ _ _ Ht Hr
             (constant_subject_tape _ Hsub)).
  f_equal. apply first_found_ext. intros w. by rewrite Hwalk, Hpat.
Qed.

Lemma constant_patterns_first_match_witness :
  let a := ASymbol "a" [] in
  let b := ASymbol "b" [] in
  let patterns : list (Term * option nat) :=
    [(inr (mkFlatTerm [a; b]), None); (inr (mkFlatTerm [a]), None)] in
  let subject : Term := inr (mkFlatTerm [a; b]) in
  Forall (λ pl, constant_pattern pl.1) patterns
  ∧ _match (added DiscriminationNet_init patterns) subject false false
    = Returns [0]
  ∧ _match (added DiscriminationNet_init patterns) subject false true
    = Returns [1].
Proof.
  intros a b patterns subject.
  assert (Hall : Forall (λ pl, constant_pattern pl.1) patterns).
  { repeat constructor; discriminate. }
  split; [exact Hall|]. split; [vm_compute; reflexivity|].
  exact (constant_patterns_first_match patterns subject Hall eq_refl).
Defined.


(** The key [_get_symbol_wildcard_label] finds leads to the matching
    symbol-wildcard transition. *)
Lemma symbol_wildcard_key (d : list (TransitionLabel * nat))
    (symbol_type : SymbolClass) :
  let by_key (t : TransitionLabel) :=
    match t with
    | LTerm (ASymbolType c) => issubclass_symbol symbol_type c
    | _ => false
    end in
  match find by_key d.*1 with
  | Some key =>
      ∃ t, find (λ t, by_key t.1) d = Some t ∧ dict_get d key = Some t.2
  | None => find (λ t, by_key t.1) d = None
  end.
Proof.
  intros by_key. induction d as [|[k v] d IH]; [reflexivity|].
  cbn [fmap list_fmap find fst dict_get].
  destruct (by_key k) eqn:Ek.
  - exists (k, v). destruct (decide (k = k)); [done|done].
  - destruct (find by_key d.*1) as [key|] eqn:Ef; [|exact IH].
    destruct (decide (k = key)) as [->|_]; [|exact IH].
    apply find_some in Ef as [_ Ekey]. congruence.
Qed.

Lemma getitem_symbol_wildcard_label h state name symbol_type :
  getitem h state
    (default LWildcard
       (_get_symbol_wildcard_label h state (ASymbol name symbol_type)))
  = match symbol_wildcard_transition h state symbol_type with
    | Some category => Some category
    | None => getitem h state LWildcard
    end.
Proof.
  unfold _get_symbol_wildcard_label, symbol_wildcard_transition, getitem, keys.
  destruct (objects h !! state) as [st|]; [|reflexivity].
  cbn [mbind option_bind].
  pose proof (symbol_wildcard_key (transitions st) symbol_type) as Hkey.
  cbv zeta in Hkey.
  destruct (find _ (transitions st).*1) as [key|].
  - destruct Hkey as (t & -> & Hget). exact Hget.
  - rewrite Hkey. reflexivity.
Qed.

(** At depth 0 a step of [_match] is the lookup of the spec. *)
Lemma match_step_lookup_order h collect first state result term :
  match_step h collect first (mkMatchState state 0 result) term
  = if first && negb (bool_decide (get_payload h state = [])) then
      Returns (inr (get_payload h state))
    else
      match lookup_order h state term with
      | Follow target =>
          Returns (inl (mkMatchState target 0
                          (result ++ get_payload h target)))
      | SkipSubtree target =>
          Returns (inl (mkMatchState target 1
                          (result ++ get_payload h target)))
      | NoResult => Returns (inr [])
      | NoTransition => Returns (inr (if collect then result else []))
      | NonTerminalAtom => Raises TypeError
      end.
Proof.
  unfold match_step, lookup_order. cbn [m_depth m_state m_result].
  change (0 <? 0)%Z with false. cbn iota.
  destruct (first && _); [reflexivity|].
  destruct (getitem h state (LTerm term)) as [exact|]; [reflexivity|].
  destruct term as [name symbol_type|m f|c|op|c|];
    cbn [is_operation isinstance_Symbol]; try reflexivity.
  - destruct (decide _) as [|_]; [done|].
    rewrite getitem_symbol_wildcard_label.
    destruct (symbol_wildcard_transition h state symbol_type); [reflexivity|].
    destruct (getitem h state LWildcard); reflexivity.
  - destruct (getitem h state LWildcard); reflexivity.
Qed.

(** The loop of [_match] is the matcher driver of the spec, from any state
    and at any depth. *)
Lemma match_loop_driver h collect first tape : ∀ state counter result,
  match_loop h collect first (mkMatchState state (Z.of_nat counter) result)
    tape
  = matcher_driver h collect first state counter result tape.
Proof.
  induction tape as [|term rest IH]; intros state counter result;
    [reflexivity|].
  cbn [match_loop matcher_driver]. destruct counter as [|below].
  - change (Z.of_nat 0) with 0%Z. rewrite match_step_lookup_order.
    destruct (first && _); [reflexivity|].
    destruct (lookup_order h state term) as [target|target| | |];
      cbn [mbind Result_bind]; try reflexivity.
    + apply (IH target 0).
    + apply (IH target 1).
  - unfold match_step. cbn [m_depth m_state m_result].
    destruct (Z.ltb_spec 0 (Z.of_nat (S below))) as [_|]; [|lia].
    destruct (is_operation term).
    + cbn [mbind Result_bind].
      replace (Z.of_nat (S below) + 1)%Z with (Z.of_nat (S (S below)))
        by lia.
      apply IH.
    + destruct (decide (term = OPERATION_END)); cbn [mbind Result_bind].
      * replace (Z.of_nat (S below) - 1)%Z with (Z.of_nat below) by lia.
        apply IH.
      * apply IH.
Qed.

(** C6.  [_match] is the matcher driver of the spec, run from the root: at
    nesting depth 0 each atom is looked up by its exact transition first, then,
    for a symbol, by a matching symbol-wildcard transition, then by the
    generic wildcard transition; an [OPERATION_END] without exact
    transition ends the match with no result; an operation head without
    exact transition but with a wildcard transition takes that transition
    and is followed by the skip-subtree mode, in which the counter goes up
    on each operation head and down on each [OPERATION_END] and the state
    is left alone.  The counter is back at 0 exactly behind the operands of
    that operation: the whole subtree is skipped, and the run resumes with
    the atom after it. *)
Theorem _match_lookup_order {T} (self : DiscriminationNet T)
    (subject : Term) (collect first : bool) :
  let h := net_heap self in
  let root := _root self in
  let tape := _terms (to_flatterm subject) in
  _match self subject collect first
  = matcher_driver h collect first root 0 (get_payload h root) tape
  ∧ ∀ op operands rest any,
      tape = AOperation op :: operands_tape operands ++ rest →
      first = false ∨ get_payload h root = [] →
      lookup_order h root (AOperation op) = SkipSubtree any →
      _match self subject collect first
      = matcher_driver h collect first any 0
          (get_payload h root ++ get_payload h any) rest.
Proof.
  intros h root tape. split.
  - apply (match_loop_driver h collect first tape root 0).
  - intros op operands rest any Htape Hfirst Hlookup.
    unfold _match. fold h root tape. rewrite Htape. cbn [match_loop].
    rewrite match_step_lookup_order, Hlookup.
    assert (Hnf : first && negb (bool_decide (get_payload h root = []))
                  = false).
    { destruct Hfirst as [->| ->]; [reflexivity|].
      rewrite bool_decide_eq_true_2 by reflexivity. apply andb_false_r. }
    rewrite Hnf. cbn [mbind Result_bind].
    rewrite (match_loop_skips_operands h collect first operands any 0%Z)
      by lia.
    apply (match_loop_driver h collect first rest any 0).
Qed.

(** A net for the pattern [_] and the subject [f(a, b)]: [f] has no exact
    transition at the root and takes the wildcard transition; its operands
    are skipped, and the match ends in the state of the wildcard. *)
Lemma _match_lookup_order_witness :
  let f := mkOperationClass "f" (mkArity 0 false) false false in
  let a := ESymbol "a" [] in
  let b := ESymbol "b" [] in
  let net :=
    (DiscriminationNet_add (@DiscriminationNet_init nat)
       (inl (EWildcard 1 true)) None).1 in
  let subject : Term := inl (EOperation f [a; b]) in
  lookup_order (net_heap net) (_root net) (AOperation f) = SkipSubtree 3
  ∧ _match net subject false false = Returns [0].
Proof.
  intros f a b net subject.
  assert (Hlookup : lookup_order (net_heap net) (_root net) (AOperation f)
                    = SkipSubtree 3) by (vm_compute; reflexivity).
  split; [exact Hlookup|].
  rewrite (proj2 (_match_lookup_order net subject false false)
             f [a; b] [] 3 eq_refl (or_introl eq_refl) Hlookup).
  vm_compute. reflexivity.
Defined.


Lemma established_app (earlier later : list Expression) :
  established (earlier ++ later)
  = match established earlier with
    | Some operation => Some operation
    | None => established later
    end.
Proof.
  induction earlier as [|p earlier IH]; [reflexivity|].
  cbn [app established]. destruct (establishes p); [reflexivity|exact IH].
Qed.

Lemma registered_after_app (later : list Expression) : ∀ earlier pattern,
  registered_after earlier (later ++ [pattern])
  = registered_after earlier later
    ++ (if shape_accepted (earlier ++ later) pattern then [pattern] else []).
Proof.
  induction later as [|p later IH]; intros earlier pattern;
    cbn [app registered_after].
  - rewrite !app_nil_r. reflexivity.
  - rewrite IH, <- !app_assoc. reflexivity.
Qed.

(** [add] establishes the operation when there is none, before it looks at
    the operands; an established operation stays. *)
Lemma SequenceMatcher_add_operation (self : SequenceMatcher)
    (pattern : Expression) :
  operation (SequenceMatcher_add self pattern).1
  = match operation self with
    | Some operation => Some operation
    | None => establishes pattern
    end.
Proof.
  unfold SequenceMatcher_add, establishes.
  set (check_first := _check_wildcard_and_get_name
                        (default pattern (head (operands_of pattern)))).
  set (check_last := _check_wildcard_and_get_name
                       (default pattern (last (operands_of pattern)))).
  assert (Hrest : ∀ self1 : SequenceMatcher,
    operation
      (if bool_decide (length (operands_of pattern) < 3)
       then (self1, Raises ValueError)
       else
         match
           (first_name ← check_first; last_name ← check_last;
            Returns (first_name, last_name))
         with
         | Returns (first_name, last_name) =>
             let index := length (sm_patterns self1) in
             let patterns :=
               sm_patterns self1 ++ [(pattern, first_name, last_name)] in
             let flatterm :=
               FlatTerm_merged
                 (map (λ o, FlatTerm_init (inl o))
                    (middle (operands_of pattern))) in
             let '(net, r) :=
               DiscriminationNet_add (_net self1) (inr flatterm)
                 (Some index) in
             (mkSequenceMatcher net patterns (operation self1),
              _ ← r; Returns index)
         | Raises e => (self1, Raises e)
         | Unfinished => (self1, Unfinished)
         end).1
    = operation self1).
  { intros self1. destruct (bool_decide _); [reflexivity|].
    destruct check_first as [first_name| |]; cbn [mbind Result_bind];
      [|reflexivity..].
    destruct check_last as [last_name| |]; cbn [mbind Result_bind];
      [|reflexivity..].
    cbv zeta. destruct (DiscriminationNet_add _ _ _) as [net r].
    reflexivity. }
  destruct (operation self) as [operation|] eqn:Eop.
  - destruct (isinstance_of pattern operation); [|exact Eop].
    rewrite Hrest. exact Eop.
  - destruct pattern as [name e|op operands|c|name c|m f];
      cbn [as_Operation]; try exact Eop.
    destruct (commutative op); [exact Eop|].
    rewrite Hrest. reflexivity.
Qed.

(** [add] appends the pattern to [_patterns] exactly when it has the
    accepted shape. *)
Lemma SequenceMatcher_add_patterns (self : SequenceMatcher)
    (pattern : Expression) :
  map (λ entry, entry.1.1) (sm_patterns (SequenceMatcher_add self pattern).1)
  = map (λ entry, entry.1.1) (sm_patterns self)
    ++ (if outer_operation_accepted (operation self) pattern
           && operands_accepted pattern
        then [pattern] else []).
Proof.
  unfold SequenceMatcher_add.
  rewrite !_check_wildcard_and_get_name_spec.
  destruct pattern as [name e|op operands|c|name c|m f];
    try (destruct (operation self); cbn; rewrite app_nil_r; reflexivity).
  cbn [outer_operation_accepted operands_accepted as_Operation isinstance_of
       operands_of].
  assert (Hrest : ∀ self1 : SequenceMatcher,
    sm_patterns self1 = sm_patterns self →
    map (λ entry, entry.1.1)
      (sm_patterns
         (if bool_decide (length operands < 3)
          then (self1, Raises ValueError)
          else
            match
              (first_name ←
                 (if star_wildcard
                       (unwrap_variable
                          (default (EOperation op operands) (head operands)))
                  then Returns
                         (match default (EOperation op operands)
                                  (head operands)
                          with
                          | EVariable name _ => Some name
                          | _ => None
                          end)
                  else Raises ValueError);
               last_name ←
                 (if star_wildcard
                       (unwrap_variable
                          (default (EOperation op operands) (last operands)))
                  then Returns
                         (match default (EOperation op operands)
                                  (last operands)
                          with
                          | EVariable name _ => Some name
                          | _ => None
                          end)
                  else Raises ValueError);
               Returns (first_name, last_name))
            with
            | Returns (first_name, last_name) =>
                let index := length (sm_patterns self1) in
                let patterns :=
                  sm_patterns self1
                  ++ [(EOperation op operands, first_name, last_name)] in
                let flatterm :=
                  FlatTerm_merged
                    (map (λ o, FlatTerm_init (inl o)) (middle operands)) in
                let '(net, r) :=
                  DiscriminationNet_add (_net self1) (inr flatterm)
                    (Some index) in
                (mkSequenceMatcher net patterns (operation self1),
                 _ ← r; Returns index)
            | Raises e => (self1, Raises e)
            | Unfinished => (self1, Unfinished)
            end).1)
    = map (λ entry, entry.1.1) (sm_patterns self)
      ++ (if bool_decide (3 ≤ length operands)
             && match head operands, last operands with
                | Some operand0, Some operand_n =>
                    star_wildcard (unwrap_variable operand0)
                    && star_wildcard (unwrap_variable operand_n)
                | _, _ => false
                end
          then [EOperation op operands] else [])).
  { intros self1 Hpat.
    destruct (bool_decide_reflect (length operands < 3)) as [Hlt|Hge].
    - rewrite bool_decide_eq_false_2 by lia. cbn [fst andb].
      rewrite Hpat, app_nil_r. reflexivity.
    - rewrite bool_decide_eq_true_2 by lia. cbn [andb].
      destruct (head operands) as [operand0|] eqn:Eh;
        [|destruct operands; [simpl in Hge; lia|discriminate]].
      destruct (last operands) as [operand_n|] eqn:El;
        [|apply last_None in El; subst; simpl in Hge; lia].
      cbn [default from_option id].
      destruct (star_wildcard (unwrap_variable operand0));
        cbn [mbind Result_bind andb fst];
        [|rewrite Hpat, app_nil_r; reflexivity].
      destruct (star_wildcard (unwrap_variable operand_n));
        cbn [mbind Result_bind andb fst];
        [|rewrite Hpat, app_nil_r; reflexivity].
      cbv zeta. destruct (DiscriminationNet_add _ _ _) as [net r].
      cbn [fst sm_patterns]. rewrite map_app, Hpat. reflexivity. }
  destruct (operation self) as [operation|].
  - destruct (bool_decide (op = operation)); cbn [andb];
      [|rewrite app_nil_r; reflexivity].
    apply Hrest; reflexivity.
  - destruct (commutative op); cbn [negb andb];
      [rewrite app_nil_r; reflexivity|].
    apply Hrest; reflexivity.
Qed.

(** A commutative operation is not the established one, and a pattern that
    establishes an operation is accepted by it. *)
Lemma outer_operation_accepted_step (operation : option OperationClass)
    (pattern : Expression) :
  (∀ op, operation = Some op → commutative op = false) →
  outer_operation_accepted operation pattern
  = outer_operation_accepted
      (match operation with
       | Some op => Some op
       | None => establishes pattern
       end) pattern.
Proof.
  intros Hnc. destruct operation as [operation|]; [reflexivity|].
  destruct pattern as [name e|op operands|c|name c|m f]; try reflexivity.
  cbn [outer_operation_accepted establishes].
  destruct (commutative op); [reflexivity|].
  cbn [negb]. rewrite bool_decide_eq_true_2; reflexivity.
Qed.

(** What a matcher holds after [add] was called for each of [later], when
    it held the established operation and the registered patterns of
    [earlier] before. *)
Lemma sequence_added_state (later : list Expression) :
  ∀ (earlier : list Expression) (self : SequenceMatcher),
    operation self = established earlier →
    map (λ entry, entry.1.1) (sm_patterns self) = registered earlier →
    let self' :=
      fold_left (λ self pattern, (SequenceMatcher_add self pattern).1)
        later self in
    operation self' = established (earlier ++ later)
    ∧ map (λ entry, entry.1.1) (sm_patterns self')
      = registered (earlier ++ later).
Proof.
  induction later as [|p later IH]; intros earlier self Hop Hpat;
    cbn [fold_left].
  - rewrite app_nil_r. done.
  - replace (earlier ++ p :: later) with ((earlier ++ [p]) ++ later)
      by (rewrite <- app_assoc; reflexivity).
    apply IH.
    + rewrite SequenceMatcher_add_operation, Hop, established_app.
      cbn [established]. destruct (established earlier); [reflexivity|].
      destruct (establishes p); reflexivity.
    + rewrite SequenceMatcher_add_patterns, Hpat, Hop.
      unfold registered. rewrite registered_after_app. reflexivity.
Qed.

(** C7.  On a matcher to which the patterns [previous] were offered
    before, the established operation is that of the first of them that
    is a non-commutative operation, and the registered patterns are those
    of them that had the accepted shape when they were offered.  For a
    pattern whose operations keep to their arity (as every expression of
    the external classes does), [SequenceMatcher.add] raises [TypeError]
    exactly when the outer operation is not accepted (no operation is
    established and the pattern is not a non-commutative operation, or one
    is established and the pattern is not of it), [ValueError] exactly when
    the outer operation is accepted and the operands are not (fewer than 3,
    or the first or the last is not a star wildcard after unwrapping a
    variable), and otherwise returns the number of patterns registered
    before. *)
Theorem SequenceMatcher_add_outcome (previous : list Expression)
    (pattern : Expression) :
  operands_fit_arity pattern →
  let self := sequence_added previous in
  operation self = established previous
  ∧ map (λ entry, entry.1.1) (sm_patterns self) = registered previous
  ∧ (SequenceMatcher_add self pattern).2
    = if negb (outer_operation_accepted (established previous) pattern)
      then Raises TypeError
      else if negb (operands_accepted pattern) then Raises ValueError
      else Returns (length (registered previous)).
Proof.
  intros Hfit self.
  destruct (sequence_added_state previous [] SequenceMatcher_init
              eq_refl eq_refl) as [Hop Hpat].
  cbn [app] in Hop, Hpat. fold (sequence_added previous) in Hop, Hpat.
  fold self in Hop, Hpat. split; [exact Hop|]. split; [exact Hpat|].
  rewrite (SequenceMatcher_add_result self pattern
             (net_ok_sequence_added previous) Hfit).
  rewrite Hop, <- Hpat, length_map. reflexivity.
Qed.

(** The pattern [f(a)] has too few operands and is not registered but
    establishes [f]; [f(___, a, ___)] is registered with index 0; after
    them a pattern of [f] of the accepted shape gets the index 1, and
    after [f(a)] alone the same operands under another operation [k] are
    refused. *)
Lemma SequenceMatcher_add_outcome_witness :
  let f := mkOperationClass "f" (mkArity 0 false) false false in
  let g := mkOperationClass "g" (mkArity 2 true) false false in
  let k := mkOperationClass "k" (mkArity 0 false) false false in
  let star := EWildcard 0 false in
  let a := ESymbol "a" [] in
  let short := EOperation f [a] in
  let first := EOperation f [star; a; star] in
  let operands :=
    [EVariable "x" star; EOperation g [a; EWildcard 1 true]; star; a; star] in
  operands_fit_arity (EOperation f operands)
  ∧ (SequenceMatcher_add (sequence_added [short; first])
       (EOperation f operands)).2 = Returns 1
  ∧ (SequenceMatcher_add (sequence_added [short])
       (EOperation k operands)).2 = Raises TypeError.
Proof.
  intros f g k star a short first operands.
  assert (Hf : operands_fit_arity (EOperation f operands)).
  { cbn. repeat split; lia. }
  assert (Hk : operands_fit_arity (EOperation k operands)).
  { cbn. repeat split; lia. }
  split; [exact Hf|]. split.
  - rewrite (proj2 (proj2 (SequenceMatcher_add_outcome [short; first]
                             (EOperation f operands) Hf))).
    vm_compute. reflexivity.
  - rewrite (proj2 (proj2 (SequenceMatcher_add_outcome [short]
                             (EOperation k operands) Hk))).
    vm_compute. reflexivity.
Defined.

